(** * moments: the no-migration time-integration engine

    A shallow embedding of [moments/Integration_nomig.py] and of the part of
    [moments/Spectrum_mod.py] it returns into.  Floating-point numbers are
    modelled by canonical rationals ([Qc]), so every statement below is a
    statement about the program run in exact arithmetic.  Collaborators that
    live outside the modelled files (the Jackknife closures, the 1-D linear
    systems, the tridiagonal solver, the sparse factorisation, the step-size
    bound and the effective-size average) are section variables. *)

From Stdlib Require Import QArith Qcanon List ZArith Lia Bool Arith Lqa Field.
From Stdlib Require PrimFloat.
Import ListNotations.
Open Scope Qc_scope.

Set Implicit Arguments.

(* ------------------------------------------------------------------ *)
(** ** Outcomes of a Python call *)

Inductive exn : Type :=
| PopSizeError      (* ValueError("All population sizes must be positive") *)
| IndexError        (* an index past the end of a list or array *)
| ShapeError        (* ValueError of numpy: broadcasting, empty reduction *)
| NameError         (* eval of a name that is not defined, or an unbound local *)
| AssertionError    (* a failed [assert] *)
| TypeError.        (* an operation on a value of the wrong kind *)

Inductive outcome (A : Type) : Type :=
| Ok (a : A)
| Raise (e : exn)
| OutOfFuel.

Arguments Ok {A} a.
Arguments Raise {A} e.
Arguments OutOfFuel {A}.

Definition bind {A B : Type} (c : outcome A) (k : A -> outcome B) : outcome B :=
  match c with
  | Ok a => k a
  | Raise e => Raise e
  | OutOfFuel => OutOfFuel
  end.

Notation "x <- c ;; k" := (bind c (fun x => k))
  (at level 61, c at next level, right associativity).
Notation "' pat <- c ;; k" := (bind c (fun x => match x with pat => k end))
  (at level 61, pat pattern, c at next level, right associativity).

(** [l[i]] on a Python list or a 1-D array. *)
Definition item {A : Type} (l : list A) (i : nat) : outcome A :=
  match nth_error l i with
  | Some a => Ok a
  | None => Raise IndexError
  end.

(** [[f(i) for i in l]] where [f] may raise. *)
Fixpoint mapM {A B : Type} (f : A -> outcome B) (l : list A) : outcome (list B) :=
  match l with
  | [] => Ok []
  | a :: l' => b <- f a ;; bs <- mapM f l' ;; Ok (b :: bs)
  end.

(** [l[i] = v] on a Python list or a 1-D array. *)
Fixpoint list_set {A : Type} (l : list A) (i : nat) (v : A) : outcome (list A) :=
  match l, i with
  | [], _ => Raise IndexError
  | _ :: l', O => Ok (v :: l')
  | a :: l', S i' => r <- list_set l' i' v ;; Ok (a :: r)
  end.

(* ------------------------------------------------------------------ *)
(** ** Numbers *)

Definition Qcleb (x y : Qc) : bool := Qle_bool x y.
Definition Qcltb (x y : Qc) : bool := negb (Qle_bool y x).
Definition Qceqb (x y : Qc) : bool := Qeq_bool x y.

Definition Qcmin (x y : Qc) : Qc := if Qcleb x y then x else y.
Definition Qcmax (x y : Qc) : Qc := if Qcleb x y then y else x.
Definition Qcabs (x : Qc) : Qc := if Qcleb 0 x then x else - x.

Definition of_nat (n : nat) : Qc := Q2Qc (inject_Z (Z.of_nat n)).
Definition of_Z (z : Z) : Qc := Q2Qc (inject_Z z).

Definition two : Qc := Q2Qc (2 # 1).
Definition four : Qc := Q2Qc (4 # 1).
Definition half : Qc := Q2Qc (1 # 2).

(** The size given to a frozen population, [1e40]. *)
Definition frozen_size : Qc := Q2Qc (inject_Z (10 ^ 40)).

(* ------------------------------------------------------------------ *)
(** ** Dense N-dimensional arrays, row-major as in numpy *)

Record ndarray : Type := mk_nd { shape : list nat; data : list Qc }.

Definition size_of (sh : list nat) : nat := fold_right Nat.mul 1%nat sh.

Fixpoint ravel (sh idx : list nat) : nat :=
  match sh, idx with
  | _ :: sh', i :: idx' => (i * size_of sh' + ravel sh' idx')%nat
  | _, _ => 0%nat
  end.

Fixpoint in_bounds (sh idx : list nat) : bool :=
  match sh, idx with
  | [], [] => true
  | d :: sh', i :: idx' => (i <? d)%nat && in_bounds sh' idx'
  | _, _ => false
  end.

(** Every multi-index of a shape, in row-major order. *)
Fixpoint indices (sh : list nat) : list (list nat) :=
  match sh with
  | [] => [[]]
  | d :: sh' => flat_map (fun i => map (cons i) (indices sh')) (seq 0 d)
  end.

Definition well_formed (a : ndarray) : Prop :=
  length (data a) = size_of (shape a).

Definition nd_get (a : ndarray) (idx : list nat) : Qc :=
  nth (ravel (shape a) idx) (data a) 0.

(** [a[idx] = v]; an index outside the shape raises. *)
Definition nd_set (a : ndarray) (idx : list nat) (v : Qc) : outcome ndarray :=
  if in_bounds (shape a) idx
  then d <- list_set (data a) (ravel (shape a) idx) v ;; Ok (mk_nd (shape a) d)
  else Raise IndexError.

(** The array of a shape whose entry at [idx] is [f idx]. *)
Definition nd_build (sh : list nat) (f : list nat -> Qc) : ndarray :=
  mk_nd sh (map f (indices sh)).

(** [np.zeros(dims)] *)
Definition nd_zeros (dims : list nat) : ndarray :=
  mk_nd dims (repeat 0 (size_of dims)).

(** [ind = np.zeros(n, dtype="int"); ind[k] = 1] *)
Definition unit_index (n k : nat) : list nat :=
  map (fun j => if (j =? k)%nat then 1%nat else 0%nat) (seq 0 n).

(* ------------------------------------------------------------------ *)
(** ** Mutation source term: [_calcB] *)

Fixpoint _calcB_loop (dims : list nat) (u : list Qc) (ks : list nat) (B : ndarray)
  : outcome ndarray :=
  match ks with
  | [] => Ok B
  | k :: ks' =>
      dk <- item dims k ;;
      uk <- item u k ;;
      B' <- nd_set B (unit_index (length dims) k) (of_Z (Z.of_nat dk - 1) * uk) ;;
      _calcB_loop dims u ks' B'
  end.

Definition _calcB (dims : list nat) (u : list Qc) : outcome ndarray :=
  _calcB_loop dims u (seq 0 (length dims)) (nd_zeros dims).

(* ------------------------------------------------------------------ *)
(** ** Vectors and matrices (numpy 1-D arrays, scipy/numpy 2-D operators) *)

Definition vec : Type := list Qc.
Definition matrix : Type := list (list Qc).

(** Elementwise binary operation with numpy's broadcasting between 1-D
    arrays: equal lengths, or one operand of length 1. *)
Definition broadcast2 {A B C : Type} (f : A -> B -> C) (a : list A) (b : list B)
  : outcome (list C) :=
  if (length a =? length b)%nat then Ok (map (fun p => f (fst p) (snd p)) (combine a b))
  else match a, b with
       | [x], _ => Ok (map (f x) b)
       | _, [y] => Ok (map (fun x => f x y) a)
       | _, _ => Raise ShapeError
       end.

(** In-place [a op= b]: the result keeps the shape of [a]. *)
Definition inplace2 {A B : Type} (f : A -> B -> A) (a : list A) (b : list B)
  : outcome (list A) :=
  if (length a =? length b)%nat then Ok (map (fun p => f (fst p) (snd p)) (combine a b))
  else match b with
       | [y] => Ok (map (fun x => f x y) a)
       | _ => Raise ShapeError
       end.

(** [np.max(v)]: the maximum of an empty array is an error. *)
Definition np_max (v : vec) : outcome Qc :=
  match v with
  | [] => Raise ShapeError
  | x :: v' => Ok (fold_left Qcmax v' x)
  end.

Definition vsum (v : vec) : Qc := fold_right Qcplus 0 v.
Definition vscale (c : Qc) (v : vec) : vec := map (Qcmult c) v.
Definition vadd (a b : vec) : vec := map (fun p => fst p + snd p) (combine a b).
Definition vsub (a b : vec) : vec := map (fun p => fst p - snd p) (combine a b).
Definition dotprod (a b : vec) : Qc := vsum (map (fun p => fst p * snd p) (combine a b)).

Definition mscale (c : Qc) (M : matrix) : matrix := map (vscale c) M.
Definition madd (M1 M2 : matrix) : matrix := map (fun p => vadd (fst p) (snd p)) (combine M1 M2).
Definition msub (M1 M2 : matrix) : matrix := map (fun p => vsub (fst p) (snd p)) (combine M1 M2).
Definition mat_vec (M : matrix) (v : vec) : vec := map (fun row => dotprod row v) M.

(** [np.eye(d)], [sp.sparse.identity(d)] *)
Definition identity (d : nat) : matrix :=
  map (fun i => map (fun j => if (i =? j)%nat then 1 else 0) (seq 0 d)) (seq 0 d).

(** [np.ones(d)] *)
Definition ones (d : nat) : vec := repeat 1 d.
Definition zeros (d : nat) : vec := repeat 0 d.

(** [M.shape[0]] *)
Definition nrows (M : matrix) : nat := length M.

(* ------------------------------------------------------------------ *)
(** ** Array operations used by the splitting *)

Definition rank (a : ndarray) : nat := length (shape a).

(** [a.reshape(newshape)] *)
Definition nd_reshape (a : ndarray) (newshape : list nat) : outcome ndarray :=
  if (size_of newshape =? length (data a))%nat
  then Ok (mk_nd newshape (data a))
  else Raise ShapeError.

(** Position of [j] in [axes]. *)
Fixpoint index_of (j : nat) (axes : list nat) : nat :=
  match axes with
  | [] => 0%nat
  | a :: axes' => if (a =? j)%nat then 0%nat else S (index_of j axes')
  end.

(** [np.transpose(a, axes)]: axis [i] of the result is axis [axes[i]] of [a]. *)
Definition nd_transpose (a : ndarray) (axes : list nat) : ndarray :=
  nd_build (map (fun ax => nth ax (shape a) 0%nat) axes)
           (fun idx => nd_get a (map (fun j => nth (index_of j axes) idx 0%nat)
                                     (seq 0 (rank a)))).

(** [M.dot(a)] for a 1-D or a 2-D array [a].  The operands are taken to
    fit: numpy raises a ValueError when the columns of [M] are not as many
    as the first axis of [a] is long, which is not modelled here (nor in
    [mat_vec]); the statements below that depend on it take operators of
    the size of the axis. *)
Definition nd_dot (M : matrix) (a : ndarray) : outcome ndarray :=
  match shape a with
  | [_] => Ok (mk_nd [nrows M] (mat_vec M (data a)))
  | [r; c] =>
      Ok (nd_build [nrows M; c]
            (fun idx =>
               match idx with
               | [i; j] => dotprod (nth i M []) (map (fun k => nd_get a [k; j]) (seq 0 r))
               | _ => 0
               end))
  | _ => Raise ShapeError
  end.

(** [a + b] and [c * a] on arrays of one shape. *)
Definition nd_add (a b : ndarray) : ndarray := mk_nd (shape a) (vadd (data a) (data b)).
Definition nd_scale (c : Qc) (a : ndarray) : ndarray := mk_nd (shape a) (vscale c (data a)).

(** A basic slice with one free axis: [None] is [:], [Some j] a fixed index. *)
Definition slice : Type := list (option nat).

Fixpoint fill (sl : slice) (k : nat) : list nat :=
  match sl with
  | [] => []
  | None :: sl' => k :: fill sl' k
  | Some j :: sl' => j :: fill sl' k
  end.

Fixpoint free_axis (sl : slice) : nat :=
  match sl with
  | [] => 0%nat
  | None :: _ => 0%nat
  | Some _ :: sl' => S (free_axis sl')
  end.

Fixpoint on_slice (sl : slice) (idx : list nat) : bool :=
  match sl, idx with
  | [], [] => true
  | None :: sl', _ :: idx' => on_slice sl' idx'
  | Some j :: sl', i :: idx' => (i =? j)%nat && on_slice sl' idx'
  | _, _ => false
  end.

(** [a[sl]] *)
Definition get_slice (a : ndarray) (sl : slice) : vec :=
  map (fun k => nd_get a (fill sl k)) (seq 0 (nth (free_axis sl) (shape a) 0%nat)).

(** [a[sl] = v], for [v] of the length of the free axis: numpy refuses a
    vector of another length with a ValueError, which is not modelled
    here. *)
Definition set_slice (a : ndarray) (sl : slice) (v : vec) : ndarray :=
  nd_build (shape a)
    (fun idx => if on_slice sl idx then nth (nth (free_axis sl) idx 0%nat) v 0
                else nd_get a idx).

(** [for i in l: a = body(i, a)], where the body may raise. *)
Fixpoint for_each {A : Type} (l : list nat) (body : nat -> A -> outcome A) (a : A)
  : outcome A :=
  match l with
  | [] => Ok a
  | i :: l' => a' <- body i a ;; for_each l' body a'
  end.

Definition for_range {A : Type} (n : nat) (body : nat -> A -> outcome A) (a : A)
  : outcome A :=
  for_each (seq 0 n) body a.

(** [a.shape[k]] *)
Definition dim (a : ndarray) (k : nat) : nat := nth k (shape a) 0%nat.

(** [a[sl] = f(a[sl])] *)
Definition update_slice (f : vec -> vec) (sl : slice) (a : ndarray) : ndarray :=
  set_slice a sl (f (get_slice a sl)).

(* ------------------------------------------------------------------ *)
(** ** Updates for the time integration

    Step 1 functions compute [Q Y]; step 2 functions solve [P X = Y'].
    The names are those of the source. *)

(** *** step 1 *)

(* 2D *)
Definition _ud1_2pop_1 (sfs : ndarray) (Q : list matrix) : outcome ndarray :=
  Q0 <- item Q 0 ;; nd_dot Q0 sfs.

Definition _ud1_2pop_2 (sfs : ndarray) (Q : list matrix) : outcome ndarray :=
  Q1 <- item Q 1 ;;
  r <- nd_dot Q1 (nd_transpose sfs [1; 0]%nat) ;;
  Ok (nd_transpose r [1; 0]%nat).

(* 3D *)
Definition _ud1_3pop_1 (sfs : ndarray) (Q : list matrix) : outcome ndarray :=
  let dims := shape sfs in
  let dim2 := size_of (tl dims) in
  d0 <- item dims 0 ;;
  Q0 <- item Q 0 ;;
  a <- nd_reshape sfs [d0; dim2] ;;
  r <- nd_dot Q0 a ;;
  nd_reshape r dims.

Definition _ud1_3pop_2 (sfs : ndarray) (Q : list matrix) : outcome ndarray :=
  Q1 <- item Q 1 ;;
  r <- _ud1_3pop_1 (nd_transpose sfs [1; 0; 2]%nat) [Q1] ;;
  Ok (nd_transpose r [1; 0; 2]%nat).

Definition _ud1_3pop_3 (sfs : ndarray) (Q : list matrix) : outcome ndarray :=
  Q2 <- item Q 2 ;;
  r <- _ud1_3pop_1 (nd_transpose sfs [2; 1; 0]%nat) [Q2] ;;
  Ok (nd_transpose r [2; 1; 0]%nat).

(* 4D *)
Definition _ud1_4pop_1 (sfs : ndarray) (Q : list matrix) : outcome ndarray :=
  _ud1_3pop_1 sfs Q.

Definition _ud1_4pop_2 (sfs : ndarray) (Q : list matrix) : outcome ndarray :=
  Q1 <- item Q 1 ;;
  r <- _ud1_4pop_1 (nd_transpose sfs [1; 0; 2; 3]%nat) [Q1] ;;
  Ok (nd_transpose r [1; 0; 2; 3]%nat).

Definition _ud1_4pop_3 (sfs : ndarray) (Q : list matrix) : outcome ndarray :=
  Q2 <- item Q 2 ;;
  r <- _ud1_4pop_1 (nd_transpose sfs [2; 1; 0; 3]%nat) [Q2] ;;
  Ok (nd_transpose r [2; 1; 0; 3]%nat).

Definition _ud1_4pop_4 (sfs : ndarray) (Q : list matrix) : outcome ndarray :=
  Q3 <- item Q 3 ;;
  r <- _ud1_4pop_1 (nd_transpose sfs [3; 1; 2; 0]%nat) [Q3] ;;
  Ok (nd_transpose r [3; 1; 2; 0]%nat).

(* 5D *)
Definition _ud1_5pop_1 (sfs : ndarray) (Q : list matrix) : outcome ndarray :=
  _ud1_3pop_1 sfs Q.

Definition _ud1_5pop_2 (sfs : ndarray) (Q : list matrix) : outcome ndarray :=
  Q1 <- item Q 1 ;;
  r <- _ud1_5pop_1 (nd_transpose sfs [1; 0; 2; 3; 4]%nat) [Q1] ;;
  Ok (nd_transpose r [1; 0; 2; 3; 4]%nat).

Definition _ud1_5pop_3 (sfs : ndarray) (Q : list matrix) : outcome ndarray :=
  Q2 <- item Q 2 ;;
  r <- _ud1_5pop_1 (nd_transpose sfs [2; 1; 0; 3; 4]%nat) [Q2] ;;
  Ok (nd_transpose r [2; 1; 0; 3; 4]%nat).

Definition _ud1_5pop_4 (sfs : ndarray) (Q : list matrix) : outcome ndarray :=
  Q3 <- item Q 3 ;;
  r <- _ud1_5pop_1 (nd_transpose sfs [3; 1; 2; 0; 4]%nat) [Q3] ;;
  Ok (nd_transpose r [3; 1; 2; 0; 4]%nat).

Definition _ud1_5pop_5 (sfs : ndarray) (Q : list matrix) : outcome ndarray :=
  Q4 <- item Q 4 ;;
  r <- _ud1_5pop_1 (nd_transpose sfs [4; 1; 2; 3; 0]%nat) [Q4] ;;
  Ok (nd_transpose r [4; 1; 2; 3; 0]%nat).

(** *** step 2

    [solver k] stands for the call that solves along axis [k]: [slv[k](x)]
    in the general case, [ts.solve(A[k], Di[k], C[k], x)] in the neutral
    one; it raises when [k] is past the end of the operator lists. *)

Definition axis_solver : Type := nat -> outcome (vec -> vec).

Definition sweep (solver : axis_solver) (k : nat) (sl : slice) (sfs : ndarray)
  : outcome ndarray :=
  f <- solver k ;; Ok (update_slice f sl sfs).

(* 2D *)
Definition sweep_2pop_1 (solver : axis_solver) (sfs : ndarray) : outcome ndarray :=
  for_range (dim sfs 1) (fun i sfs =>
    sweep solver 0 [None; Some i] sfs) sfs.

Definition sweep_2pop_2 (solver : axis_solver) (sfs : ndarray) : outcome ndarray :=
  for_range (dim sfs 0) (fun i sfs =>
    sweep solver 1 [Some i; None] sfs) sfs.

(* 3D *)
Definition sweep_3pop_1 (solver : axis_solver) (sfs : ndarray) : outcome ndarray :=
  for_range (dim sfs 2) (fun i sfs =>
    for_range (dim sfs 1) (fun j sfs =>
      sweep solver 0 [None; Some j; Some i] sfs) sfs) sfs.

Definition sweep_3pop_2 (solver : axis_solver) (sfs : ndarray) : outcome ndarray :=
  for_range (dim sfs 2) (fun i sfs =>
    for_range (dim sfs 0) (fun j sfs =>
      sweep solver 1 [Some j; None; Some i] sfs) sfs) sfs.

Definition sweep_3pop_3 (solver : axis_solver) (sfs : ndarray) : outcome ndarray :=
  for_range (dim sfs 1) (fun i sfs =>
    for_range (dim sfs 0) (fun j sfs =>
      sweep solver 2 [Some j; Some i; None] sfs) sfs) sfs.

(* 4D *)
Definition sweep_4pop_1 (solver : axis_solver) (sfs : ndarray) : outcome ndarray :=
  for_range (dim sfs 1) (fun i sfs =>
    for_range (dim sfs 2) (fun j sfs =>
      for_range (dim sfs 3) (fun k sfs =>
        sweep solver 0 [None; Some i; Some j; Some k] sfs) sfs) sfs) sfs.

Definition sweep_4pop_2 (solver : axis_solver) (sfs : ndarray) : outcome ndarray :=
  for_range (dim sfs 0) (fun i sfs =>
    for_range (dim sfs 2) (fun j sfs =>
      for_range (dim sfs 3) (fun k sfs =>
        sweep solver 1 [Some i; None; Some j; Some k] sfs) sfs) sfs) sfs.

Definition sweep_4pop_3 (solver : axis_solver) (sfs : ndarray) : outcome ndarray :=
  for_range (dim sfs 0) (fun i sfs =>
    for_range (dim sfs 1) (fun j sfs =>
      for_range (dim sfs 3) (fun k sfs =>
        sweep solver 2 [Some i; Some j; None; Some k] sfs) sfs) sfs) sfs.

Definition sweep_4pop_4 (solver : axis_solver) (sfs : ndarray) : outcome ndarray :=
  for_range (dim sfs 0) (fun i sfs =>
    for_range (dim sfs 1) (fun j sfs =>
      for_range (dim sfs 2) (fun k sfs =>
        sweep solver 3 [Some i; Some j; Some k; None] sfs) sfs) sfs) sfs.

(* 5D *)
Definition sweep_5pop_1 (solver : axis_solver) (sfs : ndarray) : outcome ndarray :=
  for_range (dim sfs 1) (fun i sfs =>
    for_range (dim sfs 2) (fun j sfs =>
      for_range (dim sfs 3) (fun k sfs =>
        for_range (dim sfs 4) (fun l sfs =>
          sweep solver 0 [None; Some i; Some j; Some k; Some l] sfs) sfs) sfs) sfs) sfs.

Definition sweep_5pop_2 (solver : axis_solver) (sfs : ndarray) : outcome ndarray :=
  for_range (dim sfs 0) (fun i sfs =>
    for_range (dim sfs 2) (fun j sfs =>
      for_range (dim sfs 3) (fun k sfs =>
        for_range (dim sfs 4) (fun l sfs =>
          sweep solver 1 [Some i; None; Some j; Some k; Some l] sfs) sfs) sfs) sfs) sfs.

Definition sweep_5pop_3 (solver : axis_solver) (sfs : ndarray) : outcome ndarray :=
  for_range (dim sfs 0) (fun i sfs =>
    for_range (dim sfs 1) (fun j sfs =>
      for_range (dim sfs 3) (fun k sfs =>
        for_range (dim sfs 4) (fun l sfs =>
          sweep solver 2 [Some i; Some j; None; Some k; Some l] sfs) sfs) sfs) sfs) sfs.

Definition sweep_5pop_4 (solver : axis_solver) (sfs : ndarray) : outcome ndarray :=
  for_range (dim sfs 0) (fun i sfs =>
    for_range (dim sfs 1) (fun j sfs =>
      for_range (dim sfs 2) (fun k sfs =>
        for_range (dim sfs 4) (fun l sfs =>
          sweep solver 3 [Some i; Some j; Some k; None; Some l] sfs) sfs) sfs) sfs) sfs.

Definition sweep_5pop_5 (solver : axis_solver) (sfs : ndarray) : outcome ndarray :=
  for_range (dim sfs 0) (fun i sfs =>
    for_range (dim sfs 1) (fun j sfs =>
      for_range (dim sfs 2) (fun k sfs =>
        for_range (dim sfs 3) (fun l sfs =>
          sweep solver 4 [Some i; Some j; Some k; Some l; None] sfs) sfs) sfs) sfs) sfs.

(** General case: the factorised systems are applied as [slv[k](x)]. *)
Definition slv_solver (slv : list (vec -> vec)) : axis_solver :=
  fun k => item slv k.

Definition _ud2_2pop_1 (sfs : ndarray) (slv : list (vec -> vec)) : outcome ndarray :=
  sweep_2pop_1 (slv_solver slv) sfs.

Definition _ud2_2pop_2 (sfs : ndarray) (slv : list (vec -> vec)) : outcome ndarray :=
  sweep_2pop_2 (slv_solver slv) sfs.

Definition _ud2_3pop_1 (sfs : ndarray) (slv : list (vec -> vec)) : outcome ndarray :=
  sweep_3pop_1 (slv_solver slv) sfs.

Definition _ud2_3pop_2 (sfs : ndarray) (slv : list (vec -> vec)) : outcome ndarray :=
  sweep_3pop_2 (slv_solver slv) sfs.

Definition _ud2_3pop_3 (sfs : ndarray) (slv : list (vec -> vec)) : outcome ndarray :=
  sweep_3pop_3 (slv_solver slv) sfs.

Definition _ud2_4pop_1 (sfs : ndarray) (slv : list (vec -> vec)) : outcome ndarray :=
  sweep_4pop_1 (slv_solver slv) sfs.

Definition _ud2_4pop_2 (sfs : ndarray) (slv : list (vec -> vec)) : outcome ndarray :=
  sweep_4pop_2 (slv_solver slv) sfs.

Definition _ud2_4pop_3 (sfs : ndarray) (slv : list (vec -> vec)) : outcome ndarray :=
  sweep_4pop_3 (slv_solver slv) sfs.

Definition _ud2_4pop_4 (sfs : ndarray) (slv : list (vec -> vec)) : outcome ndarray :=
  sweep_4pop_4 (slv_solver slv) sfs.

Definition _ud2_5pop_1 (sfs : ndarray) (slv : list (vec -> vec)) : outcome ndarray :=
  sweep_5pop_1 (slv_solver slv) sfs.

Definition _ud2_5pop_2 (sfs : ndarray) (slv : list (vec -> vec)) : outcome ndarray :=
  sweep_5pop_2 (slv_solver slv) sfs.

Definition _ud2_5pop_3 (sfs : ndarray) (slv : list (vec -> vec)) : outcome ndarray :=
  sweep_5pop_3 (slv_solver slv) sfs.

Definition _ud2_5pop_4 (sfs : ndarray) (slv : list (vec -> vec)) : outcome ndarray :=
  sweep_5pop_4 (slv_solver slv) sfs.

Definition _ud2_5pop_5 (sfs : ndarray) (slv : list (vec -> vec)) : outcome ndarray :=
  sweep_5pop_5 (slv_solver slv) sfs.

(* ------------------------------------------------------------------ *)
(** ** Collaborators

    Functions of other modules of the package (and of scipy) that the
    integrators call.  They are total and pure; matrices they return for an
    axis of length [d] are [d] by [d]. *)

(** What [Reversible._calcB_FB] returns: one operator for a 1-D spectrum, a
    list of operators on the flattened spectrum otherwise. *)
Inductive fb_term : Type :=
| FB_1D (B : matrix)
| FB_ND (Bs : list matrix).

Record collaborators : Type := {
  (* Jackknife: called with the sample size [dims[i] - 1] *)
  calcJK13 : Z -> matrix;
  calcJK23 : Z -> matrix;
  (* LinearSystem_1D *)
  calcD : nat -> matrix;
  calcD_dense : nat -> matrix;
  calcS : nat -> matrix -> matrix;
  calcS2 : nat -> matrix -> matrix;
  (* Tridiag_solve: [mat_to_diag] returns the three diagonals, [factor]
     overwrites its three arguments with the factorisation, [solve] solves
     with the factorised diagonals. *)
  ts_mat_to_diag : matrix -> vec * vec * vec;
  ts_factor : vec -> vec -> vec -> vec * vec * vec;
  ts_solve : vec -> vec -> vec -> vec -> vec;
  (* scipy.sparse.linalg.factorized *)
  factorized : matrix -> vec -> vec;
  (* Integration.compute_dt(N, s=None, h=None) *)
  compute_dt : vec -> option vec -> option vec -> Qc;
  (* Numerics.compute_N_effective(f, t0, t1) *)
  compute_N_effective : (Qc -> outcome vec) -> Qc -> Qc -> vec;
  (* Reversible._calcB_FB(dims, u, v) *)
  _calcB_FB : list nat -> vec -> vec -> fb_term
}.

(** Neutral case: the tridiagonal solve [ts.solve(A[k], Di[k], C[k], x)]. *)
Definition ts_solver (E : collaborators) (A Di C : list vec) : axis_solver :=
  fun k => a <- item A k ;; d <- item Di k ;; c <- item C k ;; Ok (ts_solve E a d c).

Definition _udn2_2pop_1 (E : collaborators) (sfs : ndarray) (A Di C : list vec) :=
  sweep_2pop_1 (ts_solver E A Di C) sfs.
Definition _udn2_2pop_2 (E : collaborators) (sfs : ndarray) (A Di C : list vec) :=
  sweep_2pop_2 (ts_solver E A Di C) sfs.
Definition _udn2_3pop_1 (E : collaborators) (sfs : ndarray) (A Di C : list vec) :=
  sweep_3pop_1 (ts_solver E A Di C) sfs.
Definition _udn2_3pop_2 (E : collaborators) (sfs : ndarray) (A Di C : list vec) :=
  sweep_3pop_2 (ts_solver E A Di C) sfs.
Definition _udn2_3pop_3 (E : collaborators) (sfs : ndarray) (A Di C : list vec) :=
  sweep_3pop_3 (ts_solver E A Di C) sfs.
Definition _udn2_4pop_1 (E : collaborators) (sfs : ndarray) (A Di C : list vec) :=
  sweep_4pop_1 (ts_solver E A Di C) sfs.
Definition _udn2_4pop_2 (E : collaborators) (sfs : ndarray) (A Di C : list vec) :=
  sweep_4pop_2 (ts_solver E A Di C) sfs.
Definition _udn2_4pop_3 (E : collaborators) (sfs : ndarray) (A Di C : list vec) :=
  sweep_4pop_3 (ts_solver E A Di C) sfs.
Definition _udn2_4pop_4 (E : collaborators) (sfs : ndarray) (A Di C : list vec) :=
  sweep_4pop_4 (ts_solver E A Di C) sfs.
Definition _udn2_5pop_1 (E : collaborators) (sfs : ndarray) (A Di C : list vec) :=
  sweep_5pop_1 (ts_solver E A Di C) sfs.
Definition _udn2_5pop_2 (E : collaborators) (sfs : ndarray) (A Di C : list vec) :=
  sweep_5pop_2 (ts_solver E A Di C) sfs.
Definition _udn2_5pop_3 (E : collaborators) (sfs : ndarray) (A Di C : list vec) :=
  sweep_5pop_3 (ts_solver E A Di C) sfs.
Definition _udn2_5pop_4 (E : collaborators) (sfs : ndarray) (A Di C : list vec) :=
  sweep_5pop_4 (ts_solver E A Di C) sfs.
Definition _udn2_5pop_5 (E : collaborators) (sfs : ndarray) (A Di C : list vec) :=
  sweep_5pop_5 (ts_solver E A Di C) sfs.

(** *** sfs update: dispatch on the rank and the axis

    [eval("_ud1_" + str(len(sfs.shape)) + "pop_" + str(i + 1) + "(sfs, Q)")]:
    a name that does not exist is a [NameError]. *)

Definition _ud1 (r i : nat) (sfs : ndarray) (Q : list matrix) : outcome ndarray :=
  match r, i with
  | 2, 1 => _ud1_2pop_1 sfs Q | 2, 2 => _ud1_2pop_2 sfs Q
  | 3, 1 => _ud1_3pop_1 sfs Q | 3, 2 => _ud1_3pop_2 sfs Q | 3, 3 => _ud1_3pop_3 sfs Q
  | 4, 1 => _ud1_4pop_1 sfs Q | 4, 2 => _ud1_4pop_2 sfs Q | 4, 3 => _ud1_4pop_3 sfs Q
  | 4, 4 => _ud1_4pop_4 sfs Q
  | 5, 1 => _ud1_5pop_1 sfs Q | 5, 2 => _ud1_5pop_2 sfs Q | 5, 3 => _ud1_5pop_3 sfs Q
  | 5, 4 => _ud1_5pop_4 sfs Q | 5, 5 => _ud1_5pop_5 sfs Q
  | _, _ => Raise NameError
  end%nat.

Definition _ud2 (r i : nat) (sfs : ndarray) (slv : list (vec -> vec)) : outcome ndarray :=
  match r, i with
  | 2, 1 => _ud2_2pop_1 sfs slv | 2, 2 => _ud2_2pop_2 sfs slv
  | 3, 1 => _ud2_3pop_1 sfs slv | 3, 2 => _ud2_3pop_2 sfs slv | 3, 3 => _ud2_3pop_3 sfs slv
  | 4, 1 => _ud2_4pop_1 sfs slv | 4, 2 => _ud2_4pop_2 sfs slv | 4, 3 => _ud2_4pop_3 sfs slv
  | 4, 4 => _ud2_4pop_4 sfs slv
  | 5, 1 => _ud2_5pop_1 sfs slv | 5, 2 => _ud2_5pop_2 sfs slv | 5, 3 => _ud2_5pop_3 sfs slv
  | 5, 4 => _ud2_5pop_4 sfs slv | 5, 5 => _ud2_5pop_5 sfs slv
  | _, _ => Raise NameError
  end%nat.

Definition _udn2 (E : collaborators) (r i : nat) (sfs : ndarray) (A Di C : list vec)
  : outcome ndarray :=
  match r, i with
  | 2, 1 => _udn2_2pop_1 E sfs A Di C | 2, 2 => _udn2_2pop_2 E sfs A Di C
  | 3, 1 => _udn2_3pop_1 E sfs A Di C | 3, 2 => _udn2_3pop_2 E sfs A Di C
  | 3, 3 => _udn2_3pop_3 E sfs A Di C
  | 4, 1 => _udn2_4pop_1 E sfs A Di C | 4, 2 => _udn2_4pop_2 E sfs A Di C
  | 4, 3 => _udn2_4pop_3 E sfs A Di C | 4, 4 => _udn2_4pop_4 E sfs A Di C
  | 5, 1 => _udn2_5pop_1 E sfs A Di C | 5, 2 => _udn2_5pop_2 E sfs A Di C
  | 5, 3 => _udn2_5pop_3 E sfs A Di C | 5, 4 => _udn2_5pop_4 E sfs A Di C
  | 5, 5 => _udn2_5pop_5 E sfs A Di C
  | _, _ => Raise NameError
  end%nat.

Definition assert (b : bool) : outcome unit :=
  if b then Ok tt else Raise AssertionError.

Definition _update_step1 (sfs : ndarray) (Q : list matrix) : outcome ndarray :=
  _ <- assert (length Q =? rank sfs)%nat ;;
  for_range (rank sfs) (fun i sfs => _ud1 (rank sfs) (i + 1) sfs Q) sfs.

Definition _update_step2 (sfs : ndarray) (slv : list (vec -> vec)) : outcome ndarray :=
  _ <- assert (length slv =? rank sfs)%nat ;;
  for_range (rank sfs) (fun i sfs => _ud2 (rank sfs) (i + 1) sfs slv) sfs.

Definition _update_step2_neutral (E : collaborators) (sfs : ndarray) (A Di C : list vec)
  : outcome ndarray :=
  _ <- assert (length A =? rank sfs)%nat ;;
  for_range (rank sfs) (fun i sfs => _udn2 E (rank sfs) (i + 1) sfs A Di C) sfs.

(* ------------------------------------------------------------------ *)
(** ** Runs: what a call does besides returning

    A run evaluates population sizes (the vector it is given, or calls of
    the schedule it is given) and tests them, and it may print the
    large-change diagnostic.  Both are recorded, most recent first; the
    record survives an exception. *)

Inductive integrator : Type := Nomig | Neutral.

Inductive event : Type :=
| EvSizes (t : Qc) (N : vec)
    (* the sizes [N], taken at time [t], were tested for positivity *)
| EvWarn (fn : integrator) (t : Qc) (Nold N : vec)
    (* "warning: large change size at time t = ... in function ..." and
       "N_old, ..., N_new ..." *)
| EvChange (change : Qc).
    (* "relative change ..." *)

Definition run (A : Type) : Type := list event -> list event * outcome A.

Definition ret {A : Type} (a : A) : run A := fun log => (log, Ok a).
Definition lift {A : Type} (c : outcome A) : run A := fun log => (log, c).
Definition emit (ev : event) : run unit := fun log => (ev :: log, Ok tt).
Definition out_of_fuel {A : Type} : run A := fun log => (log, OutOfFuel).

Definition rbind {A B : Type} (c : run A) (k : A -> run B) : run B :=
  fun log =>
    match c log with
    | (log', Ok a) => k a log'
    | (log', Raise e) => (log', Raise e)
    | (log', OutOfFuel) => (log', OutOfFuel)
    end.

Notation "x <~ c ;; k" := (rbind c (fun x => k))
  (at level 61, c at next level, right associativity).
Notation "' pat <~ c ;; k" := (rbind c (fun x => match x with pat => k end))
  (at level 61, pat pattern, c at next level, right associativity).

(* ------------------------------------------------------------------ *)
(** ** Arguments of the integrators *)

(** [Npop]: the vector of sizes, or a function of time returning it. *)
Inductive popsize : Type :=
| NConst (N : vec)
| NFun (f : Qc -> vec).

(** [gamma], [h]: absent, a number, a vector, or a function of time
    returning a number or a vector. *)
Inductive coeff : Type :=
| CNone
| CScalar (x : Qc)
| CVector (v : vec)
| CFunScalar (f : Qc -> Qc)
| CFunVector (f : Qc -> vec).

(** [theta], [theta_fd], [theta_bd]: a number or a vector. *)
Inductive rate : Type :=
| RScalar (x : Qc)
| RVector (v : vec).

(** A parameter once normalised: an array, or a callable returning one. *)
Inductive sched : Type :=
| SConst (v : vec)
| SFun (f : Qc -> outcome vec).

Definition callable (s : sched) : bool :=
  match s with SConst _ => false | SFun _ => true end.

Record nomig_args : Type := {
  a_sfs0 : ndarray;
  a_Npop : popsize;
  a_tf : Qc;
  a_dt_fac : Qc;
  a_gamma : coeff;
  a_h : coeff;
  a_theta : rate;
  a_finite_genome : bool;
  a_theta_fd : option rate;
  a_theta_bd : option rate;
  a_frozen : list bool
}.

Record neutral_args : Type := {
  b_sfs0 : ndarray;
  b_Npop : popsize;
  b_tf : Qc;
  b_dt_fac : Qc;
  b_theta : rate;
  b_finite_genome : bool;
  b_theta_fd : option rate;
  b_theta_bd : option rate;
  b_frozen : list bool
}.

(* ------------------------------------------------------------------ *)
(** ** Parameter normalisation *)

(** [s] from [gamma]; [np] is [len(n)]. *)
Definition normalize_gamma (np : nat) (gamma : coeff) : sched :=
  match gamma with
  | CNone => SConst (zeros np)
  | CFunVector f => SFun (fun t => Ok (f t))
  | CFunScalar f => SFun (fun t => Ok (repeat (f t) np))
  | CVector v => SConst v
  | CScalar x => SConst (repeat x np)
  end.

(** [h] from [h]. *)
Definition normalize_h (np : nat) (h : coeff) : sched :=
  match h with
  | CNone => SConst (vscale half (ones np))
  | CFunVector f => SFun (fun t => Ok (f t))
  | CFunScalar f => SFun (fun t => Ok (repeat (f t) np))
  | CVector v => SConst v
  | CScalar x => SConst (repeat x np)
  end.

Definition normalize_Npop (Npop : popsize) : sched :=
  match Npop with
  | NConst N => SConst N
  | NFun f => SFun (fun t => Ok (f t))
  end.

(** [np.array(theta) / 4.0] or [np.array([theta / 4.0] * len(dims))] *)
Definition rate_over_4 (np : nat) (theta : rate) : vec :=
  match theta with
  | RVector v => map (fun x => x / four) v
  | RScalar x => repeat (x / four) np
  end.

(** The same for [theta_fd], [theta_bd], whose default is [None]. *)
Definition opt_rate_over_4 (np : nat) (theta : option rate) : outcome vec :=
  match theta with
  | Some r => Ok (rate_over_4 np r)
  | None => Raise TypeError
  end.

(** [(u, v)]; [v] is bound in the finite-genome model only. *)
Definition mutation_rates (np : nat) (finite_genome : bool)
    (theta : rate) (theta_fd theta_bd : option rate) : outcome (vec * option vec) :=
  if negb finite_genome then Ok (rate_over_4 np theta, None)
  else u <- opt_rate_over_4 np theta_fd ;;
       v <- opt_rate_over_4 np theta_bd ;;
       Ok (u, Some v).

(* ------------------------------------------------------------------ *)
(** ** Frozen populations *)

(** [np.any(frozen)] *)
Definition any_frozen (frozen : list bool) : bool := existsb (fun b => b) frozen.

(** [np.where(frozen == True)[0]] *)
Definition frozen_pops (frozen : list bool) : list nat :=
  filter (fun i => nth i frozen false) (seq 0 (length frozen)).

(** [frozen] and [1 - frozen] as numbers. *)
Definition frozen_num (frozen : list bool) : vec :=
  map (fun b : bool => if b then 1 else 0) frozen.
Definition one_minus_frozen (frozen : list bool) : vec :=
  map (fun b : bool => if b then 0 else 1) frozen.

(** [for pop_num in frozen_pops: x[pop_num] = value] *)
Definition set_frozen (frozen : list bool) (value : Qc) (x : vec) : outcome vec :=
  for_each (frozen_pops frozen) (fun pop_num x => list_set x pop_num value) x.

Definition freeze_s (frozen : list bool) (s : sched) : outcome sched :=
  match s with
  | SFun s_func =>
      Ok (SFun (fun t => x <- s_func t ;; broadcast2 Qcmult x (one_minus_frozen frozen)))
  | SConst v => v' <- set_frozen frozen 0 v ;; Ok (SConst v')
  end.

Definition freeze_Npop (frozen : list bool) (Npop : sched) : outcome sched :=
  match Npop with
  | SFun nu_func =>
      Ok (SFun (fun t =>
                  x <- nu_func t ;;
                  y <- broadcast2 Qcmult x (one_minus_frozen frozen) ;;
                  broadcast2 Qcplus y (vscale frozen_size (frozen_num frozen))))
  | SConst N => N' <- set_frozen frozen frozen_size N ;; Ok (SConst N')
  end.

(** [u *= 1 - frozen] (and [v *= 1 - frozen]) *)
Definition freeze_rates (frozen : list bool) (uv : vec * option vec)
  : outcome (vec * option vec) :=
  u' <- inplace2 Qcmult (fst uv) (one_minus_frozen frozen) ;;
  match snd uv with
  | None => Ok (u', None)
  | Some v => v' <- inplace2 Qcmult v (one_minus_frozen frozen) ;; Ok (u', Some v')
  end.

(** The parameters as the time loop sees them. *)
Record params : Type := {
  p_s : sched;
  p_Npop : sched;
  p_u : vec;
  p_v : option vec
}.

(** Lines 430-512 of [integrate_nomig]: normalisation, then the frozen
    populations. *)
Definition nomig_params (a : nomig_args) : outcome params :=
  let np := rank (a_sfs0 a) in
  let s := normalize_gamma np (a_gamma a) in
  let Npop := normalize_Npop (a_Npop a) in
  uv <- mutation_rates np (a_finite_genome a) (a_theta a) (a_theta_fd a) (a_theta_bd a) ;;
  if any_frozen (a_frozen a) then
    s' <- freeze_s (a_frozen a) s ;;
    Npop' <- freeze_Npop (a_frozen a) Npop ;;
    uv' <- freeze_rates (a_frozen a) uv ;;
    Ok {| p_s := s'; p_Npop := Npop'; p_u := fst uv'; p_v := snd uv' |}
  else Ok {| p_s := s; p_Npop := Npop; p_u := fst uv; p_v := snd uv |}.

(** Lines 692-734 of [integrate_neutral]; there is no selection to fix. *)
Definition neutral_params (b : neutral_args) : outcome params :=
  let np := rank (b_sfs0 b) in
  let Npop := normalize_Npop (b_Npop b) in
  uv <- mutation_rates np (b_finite_genome b) (b_theta b) (b_theta_fd b) (b_theta_bd b) ;;
  if any_frozen (b_frozen b) then
    Npop' <- freeze_Npop (b_frozen b) Npop ;;
    uv' <- freeze_rates (b_frozen b) uv ;;
    Ok {| p_s := SConst []; p_Npop := Npop'; p_u := fst uv'; p_v := snd uv' |}
  else Ok {| p_s := SConst []; p_Npop := Npop; p_u := fst uv; p_v := snd uv |}.

(* ------------------------------------------------------------------ *)
(** ** Pieces shared by the two time loops *)

Definition eval_sched (s : sched) (t : Qc) : outcome vec :=
  match s with
  | SConst v => Ok v
  | SFun f => f t
  end.

(** [np.any(N <= 0)] *)
Definition any_nonpositive (N : vec) : bool := existsb (fun x => Qcleb x 0) N.

(** [if np.any(N <= 0): raise ValueError(...)], recorded. *)
Definition test_sizes (t : Qc) (N : vec) : run unit :=
  fun log =>
    (EvSizes t N :: log, if any_nonpositive N then Raise PopSizeError else Ok tt).

(** [N = np.array(Npop(t))] followed by the test. *)
Definition sizes_at (Npop : Qc -> outcome vec) (t : Qc) : run vec :=
  N <~ lift (Npop t) ;;
  _ <~ test_sizes t N ;;
  ret N.

(** [np.max(np.abs(N - Nold) / Nold)] *)
Definition relative_change (N Nold : vec) : outcome Qc :=
  d <- broadcast2 Qcminus N Nold ;;
  q <- broadcast2 Qcdiv (map Qcabs d) Nold ;;
  np_max q.

Definition n_iter_max : nat := 10.
Definition acceptable_change : Qc := half.

(** [[f(i) for i in range(n)]] *)
Definition comprehension {A : Type} (n : nat) (f : nat -> outcome A) : outcome (list A) :=
  mapM f (seq 0 n).

(** The local variables of the step-size control. *)
Record control : Type := {
  k_dt : Qc;
  k_N : vec;
  k_Neff : vec;
  k_n_iter : nat
}.

(** The inner [while] loop of both integrators (lines 591-609, 779-797):
    halve [dt] until the sizes at the midpoint are within the acceptable
    change of [Nold], ten times at most. *)
Fixpoint halving (E : collaborators) (fn : integrator) (fuel : nat)
    (Npop : Qc -> outcome vec) (t : Qc) (Nold : vec) (k : control) : run control :=
  change <~ lift (relative_change (k_N k) Nold) ;;
  if Qcltb acceptable_change change then
    match fuel with
    | O => out_of_fuel
    | S fuel' =>
        let dt := k_dt k / two in
        N <~ sizes_at Npop ((t + dt) / two) ;;
        let Neff := compute_N_effective E Npop (half * t) (half * (t + dt)) in
        let n_iter := S (k_n_iter k) in
        let k' := {| k_dt := dt; k_N := N; k_Neff := Neff; k_n_iter := n_iter |} in
        if (n_iter_max <=? n_iter)%nat then
          _ <~ emit (EvWarn fn t Nold N) ;;
          change' <~ lift (relative_change N Nold) ;;
          _ <~ emit (EvChange change') ;;
          ret k'
        else halving E fn fuel' Npop t Nold k'
    end
  else ret k.

(** Lines 582-609 and 770-797: the sizes of the step, when [Npop] is a
    function of time. *)
Definition adapt_sizes (E : collaborators) (fn : integrator) (fuel : nat)
    (Npop : sched) (t dt : Qc) (N Nold Neff : vec) : run control :=
  match Npop with
  | SFun f =>
      N' <~ sizes_at f ((t + dt) / two) ;;
      let Neff' := compute_N_effective E f (half * t) (half * (t + dt)) in
      halving E fn fuel f t Nold
        {| k_dt := dt; k_N := N'; k_Neff := Neff'; k_n_iter := 0 |}
  | SConst _ => ret {| k_dt := dt; k_N := N; k_Neff := Neff; k_n_iter := 0 |}
  end.

(** Lines 565-569 and 763-767: the step proposed at the top of an iteration;
    [bound] is the value of [Integration.compute_dt].  The time and the step
    are exact rationals here and in the loops below; the source keeps them
    as doubles, whose rounding is looked at in [Double]. *)
Definition propose_dt (bound Tmax dt_fac t : Qc) : Qc :=
  let dt := Qcmin bound (Tmax * dt_fac) in
  if Qcltb Tmax (t + dt) then Tmax - t else dt.

(** The mutation term [B]. *)
Inductive mutation_term : Type :=
| B_ISM (B : ndarray)      (* [_calcB(dims, u)] *)
| B_FG (B : fb_term).      (* [Reversible._calcB_FB(dims, u, v)] *)

Definition mutation_source (E : collaborators) (dims : list nat) (u : vec) (v : option vec)
  : outcome mutation_term :=
  match v with
  | None => B <- _calcB dims u ;; Ok (B_ISM B)
  | Some v' => Ok (B_FG (_calcB_FB E dims u v'))
  end.

(** [sfs = sfs + (dt * B[i]).dot(sfs.flatten()).reshape(n + 1)] for each [i] *)
Definition add_reversible (dt : Qc) (Bs : list matrix) (np : nat) (sfs : ndarray)
  : outcome ndarray :=
  for_range np (fun i sfs =>
    Bi <- item Bs i ;;
    m <- nd_reshape (mk_nd [nrows Bi] (mat_vec (mscale dt Bi) (data sfs))) (shape sfs) ;;
    Ok (nd_add sfs m)) sfs.

(** [(Nold != N).any()] and the like. *)
Definition vec_differs (a b : vec) : outcome bool :=
  ne <- broadcast2 (fun x y => negb (Qceqb x y)) a b ;;
  Ok (existsb (fun c => c) ne).

(** Python's [a or b], [b] being evaluated only when [a] is false. *)
Definition por (a : bool) (b : outcome bool) : outcome bool :=
  if a then Ok true else b.

(** What a spectrum is returned as: [Spectrum_mod.Spectrum(sfs, mask_corners)]
    keeps the data and masks the two corners when [mask_corners] holds. *)
Record spectrum : Type := {
  sp_data : ndarray;
  sp_mask : list bool
}.

(** [self.mask.flat[0] = self.mask.flat[-1] = True] *)
Definition mask_corners (mask : list bool) : outcome (list bool) :=
  m <- list_set mask 0 true ;;
  list_set m (length mask - 1) true.

Definition Spectrum (sfs : ndarray) (corners : bool) : outcome spectrum :=
  let mask := repeat false (length (data sfs)) in
  mask' <- (if corners then mask_corners mask else Ok mask) ;;
  Ok {| sp_data := sfs; sp_mask := mask' |}.

(* ------------------------------------------------------------------ *)
(** ** [integrate_nomig] *)

(** What does not change during the time loop. *)
Record nomig_ctx : Type := {
  c_Tmax : Qc;
  c_dt_fac : Qc;
  c_dims : list nat;
  c_Npop : sched;
  c_s : sched;
  c_h : sched;
  c_vd : list matrix;
  c_vs : list matrix;
  c_vs2 : list matrix;
  c_B : mutation_term
}.

(** The variables of the time loop.  [slv] is kept as the list of the
    systems that were factorised; [slv] and [Q] are unbound until the first
    rebuild. *)
Record nomig_state : Type := {
  n_t : Qc;
  n_dt : Qc;
  n_N : vec;
  n_Nold : vec;
  n_Neff : vec;
  n_s_new : vec;
  n_s_old : vec;
  n_h_new : vec;
  n_h_old : vec;
  n_D : list matrix;
  n_S1 : list matrix;
  n_S2 : list matrix;
  n_slv : option (list matrix);
  n_Q : option (list matrix);
  n_sfs : ndarray
}.

(** [D = [1.0 / 4 / N[i] * vd[i] for i in range(len(dims))]] *)
Definition drift_ops (np : nat) (N : vec) (vd : list matrix) : outcome (list matrix) :=
  comprehension np (fun i =>
    Ni <- item N i ;; vdi <- item vd i ;; Ok (mscale (1 / four / Ni) vdi)).

(** [S1 = [s_new[i] * h_new[i] * vs[i] for i in range(len(n))]] *)
Definition sel1_ops (np : nat) (s h : vec) (vs : list matrix) : outcome (list matrix) :=
  comprehension np (fun i =>
    si <- item s i ;; hi <- item h i ;; vsi <- item vs i ;; Ok (mscale (si * hi) vsi)).

(** [S2 = [s_new[i] * (1 - 2.0 * h_new[i]) * vs2[i] for i in range(len(n))]] *)
Definition sel2_ops (np : nat) (s h : vec) (vs2 : list matrix) : outcome (list matrix) :=
  comprehension np (fun i =>
    si <- item s i ;; hi <- item h i ;; vs2i <- item vs2 i ;;
    Ok (mscale (si * (1 - two * hi)) vs2i)).

(** [D[i] + S1[i] + S2[i]] *)
Definition axis_generator (D S1 S2 : list matrix) (i : nat) : outcome matrix :=
  Di <- item D i ;; S1i <- item S1 i ;; S2i <- item S2 i ;;
  Ok (madd (madd Di S1i) S2i).

(** The systems [identity - dt / 2.0 * (D[i] + S1[i] + S2[i])] handed to
    [linalg.factorized]. *)
Definition implicit_systems (np : nat) (dt : Qc) (D S1 S2 : list matrix)
  : outcome (list matrix) :=
  comprehension np (fun i =>
    S1i <- item S1 i ;;
    A <- axis_generator D S1 S2 i ;;
    Ok (msub (identity (nrows S1i)) (mscale (dt / two) A))).

(** [Q = [identity + dt / 2.0 * (D[i] + S1[i] + S2[i]) ...]] *)
Definition explicit_ops (np : nat) (dt : Qc) (D S1 S2 : list matrix)
  : outcome (list matrix) :=
  comprehension np (fun i =>
    S1i <- item S1 i ;;
    A <- axis_generator D S1 S2 i ;;
    Ok (madd (identity (nrows S1i)) (mscale (dt / two) A))).

(** Lines 617-623: whether the matrices are recomputed. *)
Definition nomig_rebuild_test (t dt dt_old : Qc) (Nold N s_new s_old h_new h_old : vec)
  : outcome bool :=
  por (Qceqb t 0)
    (dN <- vec_differs Nold N ;;
     por dN
       (por (negb (Qceqb dt dt_old))
          (ds <- vec_differs s_new s_old ;;
           por ds (vec_differs h_new h_old)))).

(** An unbound local ([slv], [Q], [A], ...) read before its first
    assignment. *)
Definition bound {A : Type} (x : option A) : outcome A :=
  match x with
  | Some a => Ok a
  | None => Raise NameError
  end.

(** [slv[0](x)] on a 1-D array. *)
Definition apply_solver (f : vec -> vec) (x : ndarray) : ndarray :=
  mk_nd (shape x) (f (data x)).

(** Lines 641-655: drift, selection and mutation, by the dimension. *)
Definition nomig_update (E : collaborators) (np : nat) (dt : Qc) (B : mutation_term)
    (Q slv : list matrix) (sfs : ndarray) : outcome ndarray :=
  if (np =? 1)%nat then
    Q0 <- item Q 0 ;;
    sfs1 <- nd_dot Q0 sfs ;;
    slv0 <- item slv 0 ;;
    match B with
    | B_ISM b => Ok (apply_solver (factorized E slv0) (nd_add sfs1 (nd_scale dt b)))
    | B_FG (FB_1D b) =>
        Ok (apply_solver (factorized E slv0)
              (nd_add sfs1 (mk_nd [nrows b] (mat_vec (mscale dt b) (data sfs1)))))
    | B_FG (FB_ND _) => Raise TypeError
    end
  else if (1 <? np)%nat then
    sfs1 <- _update_step1 sfs Q ;;
    sfs2 <- match B with
            | B_ISM b => Ok (nd_add sfs1 (nd_scale dt b))
            | B_FG (FB_ND bs) => add_reversible dt bs np sfs1
            | B_FG (FB_1D _) => Raise TypeError
            end ;;
    _update_step2 sfs2 (map (factorized E) slv)
  else Ok sfs.

(** One pass through the body of the [while] loop (lines 565-659); [inner]
    bounds the inner loop. *)
Definition nomig_iter (E : collaborators) (inner : nat) (c : nomig_ctx) (st : nomig_state)
  : run nomig_state :=
  let np := length (c_dims c) in
  let t := n_t st in
  let dt_old := n_dt st in
  let dt := propose_dt (compute_dt E (n_N st) (Some (n_s_new st)) (Some (n_h_new st)))
                       (c_Tmax c) (c_dt_fac c) t in
  k <~ adapt_sizes E Nomig inner (c_Npop c) t dt (n_N st) (n_Nold st) (n_Neff st) ;;
  let dt := k_dt k in
  let N := k_N k in
  let Neff := k_Neff k in
  s_new <~ lift (match c_s c with
                 | SFun s => s ((t + dt / two) / two)
                 | SConst _ => Ok (n_s_new st)
                 end) ;;
  h_new <~ lift (match c_h c with
                 | SFun h => h ((t + dt / two) / two)
                 | SConst _ => Ok (n_h_new st)
                 end) ;;
  rebuild <~ lift (nomig_rebuild_test t dt dt_old (n_Nold st) N
                     s_new (n_s_old st) h_new (n_h_old st)) ;;
  '(D, S1, S2, slv, Q) <~ lift
     (if rebuild : bool then
        D <- drift_ops np Neff (c_vd c) ;;
        S1 <- sel1_ops np s_new h_new (c_vs c) ;;
        S2 <- sel2_ops np s_new h_new (c_vs2 c) ;;
        slv <- implicit_systems np dt D S1 S2 ;;
        Q <- explicit_ops np dt D S1 S2 ;;
        Ok (D, S1, S2, Some slv, Some Q)
      else Ok (n_D st, n_S1 st, n_S2 st, n_slv st, n_Q st)) ;;
  sfs <~ lift (Qm <- bound Q ;; slvm <- bound slv ;;
               nomig_update E np dt (c_B c) Qm slvm (n_sfs st)) ;;
  ret {| n_t := t + dt; n_dt := dt;
         n_N := N; n_Nold := N; n_Neff := Neff;
         n_s_new := s_new; n_s_old := s_new;
         n_h_new := h_new; n_h_old := h_new;
         n_D := D; n_S1 := S1; n_S2 := S2; n_slv := slv; n_Q := Q;
         n_sfs := sfs |}.

(** [while t < Tmax: ...] *)
Fixpoint nomig_loop (E : collaborators) (inner fuel : nat) (c : nomig_ctx)
    (st : nomig_state) : run nomig_state :=
  if Qcltb (n_t st) (c_Tmax c) then
    match fuel with
    | O => out_of_fuel
    | S fuel' => st' <~ nomig_iter E inner c st ;; nomig_loop E inner fuel' c st'
    end
  else ret st.

(** Lines 465-559: everything before the time loop, given the normalised
    parameters. *)
Definition nomig_init (E : collaborators) (a : nomig_args) (p : params)
  : run (nomig_ctx * nomig_state) :=
  let sfs0 := a_sfs0 a in
  let dims := shape sfs0 in
  let np := length dims in
  let h := normalize_h np (a_h a) in
  let Tmax := a_tf a * two in
  let dt := Tmax * a_dt_fac a in
  N <~ lift (eval_sched (p_Npop p) 0) ;;
  _ <~ test_sizes 0 N ;;
  let ljk := map (fun d => calcJK13 E (Z.of_nat d - 1)) dims in
  let ljk2 := map (fun d => calcJK23 E (Z.of_nat d - 1)) dims in
  let vd := map (calcD E) dims in
  D <~ lift (drift_ops np N vd) ;;
  s_new <~ lift (eval_sched (p_s p) 0) ;;
  h_new <~ lift (eval_sched h 0) ;;
  let vs := map (fun dj => calcS E (fst dj) (snd dj)) (combine dims ljk) in
  S1 <~ lift (sel1_ops np s_new h_new vs) ;;
  let vs2 := map (fun dj => calcS2 E (fst dj) (snd dj)) (combine dims ljk2) in
  S2 <~ lift (sel2_ops np s_new h_new vs2) ;;
  B <~ lift (mutation_source E dims (p_u p) (p_v p)) ;;
  ret ({| c_Tmax := Tmax; c_dt_fac := a_dt_fac a; c_dims := dims;
          c_Npop := p_Npop p; c_s := p_s p; c_h := h;
          c_vd := vd; c_vs := vs; c_vs2 := vs2; c_B := B |},
       {| n_t := 0; n_dt := dt;
          n_N := N; n_Nold := N; n_Neff := N;
          n_s_new := s_new; n_s_old := s_new;
          n_h_new := h_new; n_h_old := h_new;
          n_D := D; n_S1 := S1; n_S2 := S2; n_slv := None; n_Q := None;
          n_sfs := sfs0 |}).

(** [integrate_nomig(sfs0, Npop, tf, dt_fac, gamma, h, theta, ...)]; every
    [while] loop may run [fuel] times. *)
Definition integrate_nomig (E : collaborators) (fuel : nat) (a : nomig_args)
  : run spectrum :=
  p <~ lift (nomig_params a) ;;
  '(c, st0) <~ nomig_init E a p ;;
  st <~ nomig_loop E fuel fuel c st0 ;;
  lift (Spectrum (n_sfs st) (negb (a_finite_genome a))).

(* ------------------------------------------------------------------ *)
(** ** [integrate_neutral] *)

Record neutral_ctx : Type := {
  d_Tmax : Qc;
  d_dt_fac : Qc;
  d_dims : list nat;
  d_Npop : sched;
  d_vd : list matrix;
  d_diags : list (vec * vec * vec);
  d_B : mutation_term
}.

(** [A], [Di], [C] hold the factorised diagonals; they and [Q] are unbound
    until the first rebuild. *)
Record neutral_state : Type := {
  m_t : Qc;
  m_dt : Qc;
  m_N : vec;
  m_Nold : vec;
  m_Neff : vec;
  m_D : list matrix;
  m_A : option (list vec);
  m_Di : option (list vec);
  m_C : option (list vec);
  m_Q : option (list matrix);
  m_sfs : ndarray
}.

(** Lines 804-812: the three diagonals of the implicit system of axis [i],
    then [ts.factor] in place. *)
Definition neutral_diagonals (E : collaborators) (dt : Qc) (Neff : vec) (dims : list nat)
    (diags : list (vec * vec * vec)) (i : nat) : outcome (vec * vec * vec) :=
  Ni <- item Neff i ;;
  dg <- item diags i ;;
  di <- item dims i ;;
  let '(d0, d1, d2) := dg in
  let A := vscale (- half * dt / four / Ni) d0 in
  let Di := vsub (ones di) (vscale (half * dt / four / Ni) d1) in
  let C := vscale (- half * dt / four / Ni) d2 in
  Ok (ts_factor E A Di C).

(** [Q = [np.eye(dims[i]) + 0.5 * dt * D[i] for i in range(len(n))]] *)
Definition neutral_explicit_ops (np : nat) (dt : Qc) (dims : list nat) (D : list matrix)
  : outcome (list matrix) :=
  comprehension np (fun i =>
    di <- item dims i ;; Di <- item D i ;;
    Ok (madd (identity di) (mscale (half * dt) Di))).

(** Lines 800-802: whether the matrices are recomputed. *)
Definition neutral_rebuild_test (t dt dt_old : Qc) (Nold N : vec) : outcome bool :=
  por (Qceqb t 0)
    (dN <- vec_differs Nold N ;;
     por dN (Ok (negb (Qceqb dt dt_old)))).

(** Lines 815-828. *)
Definition neutral_update (E : collaborators) (np : nat) (dt : Qc) (B : mutation_term)
    (A Di C : list vec) (Q : list matrix) (sfs : ndarray) : outcome ndarray :=
  if (np =? 1)%nat then
    A0 <- item A 0 ;; Di0 <- item Di 0 ;; C0 <- item C 0 ;;
    Q0 <- item Q 0 ;;
    sfs1 <- nd_dot Q0 sfs ;;
    match B with
    | B_ISM b => Ok (apply_solver (ts_solve E A0 Di0 C0) (nd_add sfs1 (nd_scale dt b)))
    | B_FG (FB_1D b) =>
        Ok (apply_solver (ts_solve E A0 Di0 C0)
              (nd_add sfs1 (mk_nd [nrows b] (mat_vec (mscale dt b) (data sfs)))))
    | B_FG (FB_ND _) => Raise TypeError
    end
  else
    sfs1 <- _update_step1 sfs Q ;;
    sfs2 <- match B with
            | B_ISM b => Ok (nd_add sfs1 (nd_scale dt b))
            | B_FG (FB_ND bs) => add_reversible dt bs np sfs1
            | B_FG (FB_1D _) => Raise TypeError
            end ;;
    _update_step2_neutral E sfs2 A Di C.

(** One pass through the body of the [while] loop (lines 763-830). *)
Definition neutral_iter (E : collaborators) (inner : nat) (c : neutral_ctx)
    (st : neutral_state) : run neutral_state :=
  let np := length (d_dims c) in
  let t := m_t st in
  let dt_old := m_dt st in
  let dt := propose_dt (compute_dt E (m_N st) None None) (d_Tmax c) (d_dt_fac c) t in
  k <~ adapt_sizes E Neutral inner (d_Npop c) t dt (m_N st) (m_Nold st) (m_Neff st) ;;
  let dt := k_dt k in
  let N := k_N k in
  let Neff := k_Neff k in
  rebuild <~ lift (neutral_rebuild_test t dt dt_old (m_Nold st) N) ;;
  '(D, A, Di, C, Q) <~ lift
     (if rebuild : bool then
        D <- drift_ops np Neff (d_vd c) ;;
        f <- comprehension np (neutral_diagonals E dt Neff (d_dims c) (d_diags c)) ;;
        Q <- neutral_explicit_ops np dt (d_dims c) D ;;
        Ok (D, Some (map (fun x => fst (fst x)) f), Some (map (fun x => snd (fst x)) f),
            Some (map snd f), Some Q)
      else Ok (m_D st, m_A st, m_Di st, m_C st, m_Q st)) ;;
  sfs <~ lift (Am <- bound A ;; Dim <- bound Di ;; Cm <- bound C ;; Qm <- bound Q ;;
               neutral_update E np dt (d_B c) Am Dim Cm Qm (m_sfs st)) ;;
  ret {| m_t := t + dt; m_dt := dt;
         m_N := N; m_Nold := N; m_Neff := Neff;
         m_D := D; m_A := A; m_Di := Di; m_C := C; m_Q := Q;
         m_sfs := sfs |}.

Fixpoint neutral_loop (E : collaborators) (inner fuel : nat) (c : neutral_ctx)
    (st : neutral_state) : run neutral_state :=
  if Qcltb (m_t st) (d_Tmax c) then
    match fuel with
    | O => out_of_fuel
    | S fuel' => st' <~ neutral_iter E inner c st ;; neutral_loop E inner fuel' c st'
    end
  else ret st.

(** Lines 695-757. *)
Definition neutral_init (E : collaborators) (b : neutral_args) (p : params)
  : run (neutral_ctx * neutral_state) :=
  let sfs0 := b_sfs0 b in
  let dims := shape sfs0 in
  let np := length dims in
  let Tmax := b_tf b * two in
  let dt := Tmax * b_dt_fac b in
  N <~ lift (eval_sched (p_Npop p) 0) ;;
  _ <~ test_sizes 0 N ;;
  let vd := map (calcD_dense E) dims in
  let diags := map (ts_mat_to_diag E) vd in
  D <~ lift (drift_ops np N vd) ;;
  B <~ lift (mutation_source E dims (p_u p) (p_v p)) ;;
  ret ({| d_Tmax := Tmax; d_dt_fac := b_dt_fac b; d_dims := dims;
          d_Npop := p_Npop p; d_vd := vd; d_diags := diags; d_B := B |},
       {| m_t := 0; m_dt := dt;
          m_N := N; m_Nold := N; m_Neff := N;
          m_D := D; m_A := None; m_Di := None; m_C := None; m_Q := None;
          m_sfs := sfs0 |}).

(** [integrate_neutral(sfs0, Npop, tf, dt_fac, theta, ...)] *)
Definition integrate_neutral (E : collaborators) (fuel : nat) (b : neutral_args)
  : run spectrum :=
  p <~ lift (neutral_params b) ;;
  '(c, st0) <~ neutral_init E b p ;;
  st <~ neutral_loop E fuel fuel c st0 ;;
  lift (Spectrum (m_sfs st) (negb (b_finite_genome b))).

(* ------------------------------------------------------------------ *)
(** ** Well-formed arguments

    The shapes the integrators expect of their arguments: one entry per
    population wherever a vector is given, both rates when the finite-genome
    model is asked for, and a [frozen] vector that is either all false (as
    the default [[False]]) or has one entry per population. *)

Definition popsize_ok (np : nat) (Npop : popsize) : Prop :=
  match Npop with
  | NConst N => length N = np
  | NFun f => forall t, length (f t) = np
  end.

Definition coeff_ok (np : nat) (c : coeff) : Prop :=
  match c with
  | CVector v => length v = np
  | CFunVector f => forall t, length (f t) = np
  | _ => True
  end.

Definition rate_ok (np : nat) (r : rate) : Prop :=
  match r with
  | RVector v => length v = np
  | RScalar _ => True
  end.

Definition opt_rate_ok (np : nat) (finite_genome : bool) (r : option rate) : Prop :=
  if finite_genome then exists r', r = Some r' /\ rate_ok np r' else True.

Definition frozen_ok (np : nat) (frozen : list bool) : Prop :=
  any_frozen frozen = false \/ length frozen = np.

Record inputs_ok (sfs0 : ndarray) (Npop : popsize) (theta : rate) (finite_genome : bool)
    (theta_fd theta_bd : option rate) (frozen : list bool) : Prop := {
  ok_sfs0 : well_formed sfs0;
  ok_dims : Forall (fun d => (2 <= d)%nat) (shape sfs0);
  ok_Npop : popsize_ok (rank sfs0) Npop;
  ok_theta : rate_ok (rank sfs0) theta;
  ok_theta_fd : opt_rate_ok (rank sfs0) finite_genome theta_fd;
  ok_theta_bd : opt_rate_ok (rank sfs0) finite_genome theta_bd;
  ok_frozen : frozen_ok (rank sfs0) frozen
}.

Definition nomig_args_ok (a : nomig_args) : Prop :=
  inputs_ok (a_sfs0 a) (a_Npop a) (a_theta a) (a_finite_genome a)
            (a_theta_fd a) (a_theta_bd a) (a_frozen a)
  /\ coeff_ok (rank (a_sfs0 a)) (a_gamma a)
  /\ coeff_ok (rank (a_sfs0 a)) (a_h a).

Definition neutral_args_ok (b : neutral_args) : Prop :=
  inputs_ok (b_sfs0 b) (b_Npop b) (b_theta b) (b_finite_genome b)
            (b_theta_fd b) (b_theta_bd b) (b_frozen b).

(** Entry [k] of a normalised parameter at time [t]. *)
Definition sched_at (s : sched) (t : Qc) (k : nat) : outcome Qc :=
  v <- eval_sched s t ;; item v k.

(** The sizes given for time 0. *)
Definition sizes_at_0 (Npop : popsize) : vec :=
  match Npop with
  | NConst N => N
  | NFun f => f 0
  end.

Definition all_positive (N : vec) : Prop := Forall (fun x => 0 < x) N.

(** A normalised parameter with one entry per population at every time. *)
Definition sched_ok (np : nat) (s : sched) : Prop :=
  match s with
  | SConst v => length v = np
  | SFun f => forall t, exists v, f t = Ok v /\ length v = np
  end.

(** Entry [k] of an optional vector. *)
Definition opt_nth (k : nat) (v : option vec) : option Qc :=
  option_map (fun x => nth k x 0) v.

(** What the time loop is given for population [k], compared with what the
    caller gave ([Npop0], [s0], [u0], [v0]): forced when the population is
    frozen, and the caller's otherwise. *)
Definition population_params (is_frozen : bool) (k : nat) (p : params)
    (Npop0 s0 : sched) (u0 : vec) (v0 : option vec) : Prop :=
  if is_frozen then
    (forall t, sched_at (p_Npop p) t k = Ok frozen_size) /\
    (forall t, sched_at (p_s p) t k = Ok 0) /\
    nth k (p_u p) 0 = 0 /\
    opt_nth k (p_v p) = option_map (fun _ => 0) v0
  else
    (forall t, sched_at (p_Npop p) t k = sched_at Npop0 t k) /\
    (forall t, sched_at (p_s p) t k = sched_at s0 t k) /\
    nth k (p_u p) 0 = nth k u0 0 /\
    opt_nth k (p_v p) = opt_nth k v0.

(** The same without the selection coefficient, which [integrate_neutral]
    does not have. *)
Definition population_params_neutral (is_frozen : bool) (k : nat) (p : params)
    (Npop0 : sched) (u0 : vec) (v0 : option vec) : Prop :=
  if is_frozen then
    (forall t, sched_at (p_Npop p) t k = Ok frozen_size) /\
    nth k (p_u p) 0 = 0 /\
    opt_nth k (p_v p) = option_map (fun _ => 0) v0
  else
    (forall t, sched_at (p_Npop p) t k = sched_at Npop0 t k) /\
    nth k (p_u p) 0 = nth k u0 0 /\
    opt_nth k (p_v p) = opt_nth k v0.

(* ------------------------------------------------------------------ *)
(** ** Sample calls *)

(** A 2 by 3 spectrum. *)
Definition sample_sfs_2d : ndarray :=
  mk_nd [2; 3]%nat (map of_nat [1; 2; 3; 4; 5; 6]%nat).

(** Two populations, the second one frozen, sizes given as a function of
    time, selection in both. *)
Definition sample_nomig_frozen : nomig_args :=
  {| a_sfs0 := sample_sfs_2d;
     a_Npop := NFun (fun t => [1 + t; two]);
     a_tf := 1;
     a_dt_fac := Q2Qc (1 # 10);
     a_gamma := CScalar 1;
     a_h := CNone;
     a_theta := RScalar 1;
     a_finite_genome := false;
     a_theta_fd := None;
     a_theta_bd := None;
     a_frozen := [false; true] |}.

(** Two populations, the first one frozen, constant sizes, finite-genome
    mutation model. *)
Definition sample_neutral_frozen : neutral_args :=
  {| b_sfs0 := sample_sfs_2d;
     b_Npop := NConst [1; two];
     b_tf := 1;
     b_dt_fac := Q2Qc (1 # 10);
     b_theta := RScalar 1;
     b_finite_genome := true;
     b_theta_fd := Some (RScalar (Q2Qc (1 # 100)));
     b_theta_bd := Some (RVector [Q2Qc (1 # 100); Q2Qc (1 # 50)]);
     b_frozen := [true; false] |}.

(* ------------------------------------------------------------------ *)
(** ** A sample set of collaborators

    Concrete functions with the interfaces above, on which the integrators
    can be run: the drift generator of the Wright-Fisher moment equations, a
    tridiagonal elimination used by both solvers, a step bound proportional
    to the smallest size, and the mean of the sizes at the two ends of the
    half-step.  The selection closures are not exercised and are zero. *)

Definition zero_matrix (r c : nat) : matrix := repeat (repeat 0 c) r.

(** Entry [(i, j)] of the drift generator of an axis of length [d]. *)
Definition drift_entry (d i j : Z) : Z :=
  if ((j =? i - 1) && (1 <? i))%Z then (i - 1) * (d - i)
  else if ((j =? i + 1) && (i <? d - 2))%Z then (i + 1) * (d - i - 2)
  else if ((j =? i) && (0 <? i) && (i <? d - 1))%Z then - 2 * i * (d - i - 1)
  else 0%Z.

Definition sample_calcD (d : nat) : matrix :=
  map (fun i => map (fun j => of_Z (drift_entry (Z.of_nat d) (Z.of_nat i) (Z.of_nat j)))
                    (seq 0 d))
      (seq 0 d).

(** The three diagonals of a square matrix, each of the length of the
    matrix: below (first entry unused), main, above (last entry unused). *)
Definition sample_mat_to_diag (M : matrix) : vec * vec * vec :=
  let d := length M in
  (map (fun i => match i with O => 0 | S j => nth j (nth i M []) 0 end) (seq 0 d),
   map (fun i => nth i (nth i M []) 0) (seq 0 d),
   map (fun i => nth (S i) (nth i M []) 0) (seq 0 d)).

(** Forward elimination: the modified upper diagonal and right-hand side. *)
Fixpoint thomas_forward (cp dp : Qc) (rows : list (Qc * Qc * Qc * Qc)) : list (Qc * Qc) :=
  match rows with
  | [] => []
  | (a, b, c, r) :: rest =>
      let m := b - a * cp in
      let cp' := c / m in
      let dp' := (r - a * dp) / m in
      (cp', dp') :: thomas_forward cp' dp' rest
  end.

(** Back substitution. *)
Fixpoint thomas_back (l : list (Qc * Qc)) : vec :=
  match l with
  | [] => []
  | (cp, dp) :: rest =>
      let xs := thomas_back rest in
      (dp - cp * hd 0 xs) :: xs
  end.

Definition thomas (a b c r : vec) : vec :=
  thomas_back (thomas_forward 0 0 (combine (combine (combine a b) c) r)).

(** [min(N)]; 1 for an empty vector. *)
Definition vmin (N : vec) : Qc :=
  match N with
  | [] => 1
  | x :: N' => fold_left Qcmin N' x
  end.

(** The mean of the sizes at the two ends of the interval. *)
Definition sample_N_effective (f : Qc -> outcome vec) (t0 t1 : Qc) : vec :=
  match f t0, f t1 with
  | Ok Na, Ok Nb => map (fun p => half * (fst p + snd p)) (combine Na Nb)
  | _, _ => []
  end.

(** Entry [(i, j)] of the reversible-mutation generator of an axis of
    length [d]: a site with [j] derived copies gains one at rate
    [(d - 1 - j) u] and loses one at rate [j v]. *)
Definition reversible_entry (d : Z) (u v : Qc) (i j : Z) : Qc :=
  if (i =? j + 1)%Z then of_Z (d - 1 - j) * u
  else if (i =? j - 1)%Z then of_Z j * v
  else if (i =? j)%Z then - (of_Z (d - 1 - j) * u) - of_Z j * v
  else 0.

Definition sample_reversible (d : nat) (u v : Qc) : matrix :=
  map (fun i => map (fun j => reversible_entry (Z.of_nat d) u v (Z.of_nat i) (Z.of_nat j))
                    (seq 0 d))
      (seq 0 d).

Definition sample_collaborators : collaborators :=
  {| calcJK13 := fun n => zero_matrix (Z.to_nat n + 1) (Z.to_nat n + 2);
     calcJK23 := fun n => zero_matrix (Z.to_nat n + 1) (Z.to_nat n + 3);
     calcD := sample_calcD;
     calcD_dense := sample_calcD;
     calcS := fun d _ => zero_matrix d d;
     calcS2 := fun d _ => zero_matrix d d;
     ts_mat_to_diag := sample_mat_to_diag;
     ts_factor := fun a b c => (a, b, c);
     ts_solve := thomas;
     factorized := fun M => let '(a, b, c) := sample_mat_to_diag M in thomas a b c;
     compute_dt := fun N _ _ => Q2Qc (1 # 5) * vmin N;
     compute_N_effective := sample_N_effective;
     _calcB_FB := fun dims u v =>
       match dims with
       | [d] => FB_1D (sample_reversible d (hd 0 u) (hd 0 v))
       | _ => FB_ND (map (fun _ => zero_matrix (size_of dims) (size_of dims)) dims)
       end |}.

(** One population, three bins, constant size, no selection. *)
Definition sample_sfs_1d : ndarray := mk_nd [3]%nat [0; 1; 0].

Definition sample_nomig_1d : nomig_args :=
  {| a_sfs0 := sample_sfs_1d;
     a_Npop := NConst [1];
     a_tf := Q2Qc (1 # 4);
     a_dt_fac := Q2Qc (1 # 2);
     a_gamma := CNone;
     a_h := CNone;
     a_theta := RScalar 1;
     a_finite_genome := false;
     a_theta_fd := None;
     a_theta_bd := None;
     a_frozen := [false] |}.

Definition sample_neutral_1d : neutral_args :=
  {| b_sfs0 := sample_sfs_1d;
     b_Npop := NConst [1];
     b_tf := Q2Qc (1 # 4);
     b_dt_fac := Q2Qc (1 # 2);
     b_theta := RScalar 1;
     b_finite_genome := false;
     b_theta_fd := None;
     b_theta_bd := None;
     b_frozen := [false] |}.

(** The data of the spectrum a run returns, and its log. *)
Definition result_data (r : list event * outcome spectrum) : option vec :=
  match snd r with
  | Ok sp => Some (data (sp_data sp))
  | _ => None
  end.

(** Numeric equality of two vectors. *)
Fixpoint vec_eqb (a b : vec) : bool :=
  match a, b with
  | [], [] => true
  | x :: a', y :: b' => Qceqb x y && vec_eqb a' b'
  | _, _ => false
  end.

(** The frozen samples with a target time of zero. *)
Definition sample_nomig_no_time : nomig_args :=
  {| a_sfs0 := a_sfs0 sample_nomig_frozen;
     a_Npop := a_Npop sample_nomig_frozen;
     a_tf := 0;
     a_dt_fac := a_dt_fac sample_nomig_frozen;
     a_gamma := a_gamma sample_nomig_frozen;
     a_h := a_h sample_nomig_frozen;
     a_theta := a_theta sample_nomig_frozen;
     a_finite_genome := a_finite_genome sample_nomig_frozen;
     a_theta_fd := a_theta_fd sample_nomig_frozen;
     a_theta_bd := a_theta_bd sample_nomig_frozen;
     a_frozen := a_frozen sample_nomig_frozen |}.

Definition sample_neutral_no_time : neutral_args :=
  {| b_sfs0 := b_sfs0 sample_neutral_frozen;
     b_Npop := b_Npop sample_neutral_frozen;
     b_tf := - (1);
     b_dt_fac := b_dt_fac sample_neutral_frozen;
     b_theta := b_theta sample_neutral_frozen;
     b_finite_genome := b_finite_genome sample_neutral_frozen;
     b_theta_fd := b_theta_fd sample_neutral_frozen;
     b_theta_bd := b_theta_bd sample_neutral_frozen;
     b_frozen := b_frozen sample_neutral_frozen |}.

(** The printed lines of a log. *)
Definition is_warning (ev : event) : bool :=
  match ev with
  | EvWarn _ _ _ _ | EvChange _ => true
  | EvSizes _ _ => false
  end.

Definition warnings (log : list event) : list event := filter is_warning log.

(** The size evaluations of a log. *)
Definition evaluated_sizes (log : list event) : list vec :=
  flat_map (fun ev => match ev with EvSizes _ N => [N] | _ => [] end) log.

(** [dt] halved [n] times. *)
Definition halved (n : nat) (dt : Qc) : Qc := Nat.iter n (fun x => x / two) dt.

(** What a run of the inner loop entered with [k] may end in: at most ten
    halvings, each followed by a fresh evaluation of the sizes; the change
    within the threshold when the loop stopped before the tenth, the
    diagnostic printed at the tenth; no exception but that of a non-positive
    size; never out of fuel. *)
Definition halving_result (E : collaborators) (fn : integrator) (f : Qc -> outcome vec)
    (t : Qc) (Nold : vec) (np : nat) (k : control) (log : list event)
    (r : list event * outcome control) : Prop :=
  match r with
  | (log', Ok k') =>
      (k_n_iter k <= k_n_iter k')%nat /\ (k_n_iter k' <= n_iter_max)%nat /\
      k_dt k' = halved (k_n_iter k' - k_n_iter k) (k_dt k) /\
      (k_n_iter k' = k_n_iter k -> k' = k) /\
      ((k_n_iter k < k_n_iter k')%nat ->
         f ((t + k_dt k') / two) = Ok (k_N k') /\
         k_Neff k' = compute_N_effective E f (half * t) (half * (t + k_dt k'))) /\
      length (k_N k') = np /\
      ((k_n_iter k' < n_iter_max)%nat ->
         (exists rc, relative_change (k_N k') Nold = Ok rc /\ rc <= acceptable_change) /\
         warnings log' = warnings log) /\
      (k_n_iter k' = n_iter_max ->
         exists rc, relative_change (k_N k') Nold = Ok rc /\
                    warnings log' = EvChange rc :: EvWarn fn t Nold (k_N k') :: warnings log)
  | (log', Raise e) =>
      e = PopSizeError /\
      exists tau v rest, log' = EvSizes tau v :: rest /\ f tau = Ok v /\
                         any_nonpositive v = true
  | (_, OutOfFuel) => False
  end.

(** A size growing linearly, and a size jumping from 1 to 4 after time 0. *)
Definition sample_growth : Qc -> outcome vec :=
  fun t => Ok [1 + Q2Qc (8 # 1) * t].

Definition sample_jump : Qc -> outcome vec :=
  fun t => Ok [if Qcleb t 0 then 1 else four].

(** The operators of [integrate_nomig] for given effective sizes, selection,
    dominance and step: [D], [S1], [S2], the systems of [slv], and [Q]
    (lines 624-639). *)
Definition nomig_operators (c : nomig_ctx) (Neff s h : vec) (dt : Qc)
  : outcome (list matrix * list matrix * list matrix * list matrix * list matrix) :=
  let np := length (c_dims c) in
  D <- drift_ops np Neff (c_vd c) ;;
  S1 <- sel1_ops np s h (c_vs c) ;;
  S2 <- sel2_ops np s h (c_vs2 c) ;;
  slv <- implicit_systems np dt D S1 S2 ;;
  Q <- explicit_ops np dt D S1 S2 ;;
  Ok (D, S1, S2, slv, Q).

(** The value of [s_new] (or [h_new]) in an iteration. *)
Definition coefficient_at (s : sched) (previous : vec) (t dt : Qc) : outcome vec :=
  match s with
  | SFun f => f ((t + dt / two) / two)
  | SConst _ => Ok previous
  end.

(** The operators of [integrate_neutral] for given effective sizes and step:
    [D], the factorised diagonals [A], [Di], [C], and [Q] (lines 803-813). *)
Definition neutral_operators (E : collaborators) (c : neutral_ctx) (Neff : vec) (dt : Qc)
  : outcome (list matrix * list vec * list vec * list vec * list matrix) :=
  let np := length (d_dims c) in
  D <- drift_ops np Neff (d_vd c) ;;
  f <- comprehension np (neutral_diagonals E dt Neff (d_dims c) (d_diags c)) ;;
  Q <- neutral_explicit_ops np dt (d_dims c) D ;;
  Ok (D, map (fun x => fst (fst x)) f, map (fun x => snd (fst x)) f, map snd f, Q).


(** One population of size 5, one unit of time, [dt_fac = 0.1]: the bound of
    the sample collaborators is 1, the cap [Tmax * dt_fac] is 1/5. *)
Definition sample_nomig_capped : nomig_args :=
  {| a_sfs0 := sample_sfs_1d;
     a_Npop := NConst [Q2Qc (5 # 1)];
     a_tf := 1;
     a_dt_fac := Q2Qc (1 # 10);
     a_gamma := CNone;
     a_h := CNone;
     a_theta := RScalar 1;
     a_finite_genome := false;
     a_theta_fd := None;
     a_theta_bd := None;
     a_frozen := [false] |}.

(** The state after the first [n] iterations of [integrate_nomig]. *)
Fixpoint nomig_steps (E : collaborators) (inner n : nat) (c : nomig_ctx) (st : nomig_state)
  : run nomig_state :=
  match n with
  | O => ret st
  | S n' => st' <~ nomig_iter E inner c st ;; nomig_steps E inner n' c st'
  end.

Definition nomig_after (E : collaborators) (n : nat) (a : nomig_args)
  : run (nomig_ctx * nomig_state) :=
  p <~ lift (nomig_params a) ;;
  '(c, st0) <~ nomig_init E a p ;;
  st <~ nomig_steps E n_iter_max n c st0 ;;
  ret (c, st).

(** The loop of [integrate_nomig] on [sample_nomig_capped], at its start. *)
Definition sample_nomig_ctx : nomig_ctx :=
  {| c_Tmax := two; c_dt_fac := Q2Qc (1 # 10); c_dims := [3]%nat;
     c_Npop := SConst [Q2Qc (5 # 1)]; c_s := SConst [0]; c_h := SConst [half];
     c_vd := [sample_calcD 3]; c_vs := [zero_matrix 3 3]; c_vs2 := [zero_matrix 3 3];
     c_B := B_ISM (mk_nd [3]%nat [0; half; 0]) |}.

Definition sample_nomig_state : nomig_state :=
  {| n_t := 0; n_dt := Q2Qc (1 # 5);
     n_N := [Q2Qc (5 # 1)]; n_Nold := [Q2Qc (5 # 1)]; n_Neff := [Q2Qc (5 # 1)];
     n_s_new := [0]; n_s_old := [0]; n_h_new := [half]; n_h_old := [half];
     n_D := [mscale (Q2Qc (1 # 20)) (sample_calcD 3)];
     n_S1 := [zero_matrix 3 3]; n_S2 := [zero_matrix 3 3];
     n_slv := None; n_Q := None;
     n_sfs := sample_sfs_1d |}.

(** The same for [integrate_neutral]. *)
Definition sample_neutral_ctx : neutral_ctx :=
  {| d_Tmax := two; d_dt_fac := Q2Qc (1 # 10); d_dims := [3]%nat;
     d_Npop := SConst [Q2Qc (5 # 1)];
     d_vd := [sample_calcD 3]; d_diags := [sample_mat_to_diag (sample_calcD 3)];
     d_B := B_ISM (mk_nd [3]%nat [0; half; 0]) |}.

Definition sample_neutral_state : neutral_state :=
  {| m_t := 0; m_dt := Q2Qc (1 # 5);
     m_N := [Q2Qc (5 # 1)]; m_Nold := [Q2Qc (5 # 1)]; m_Neff := [Q2Qc (5 # 1)];
     m_D := [mscale (Q2Qc (1 # 20)) (sample_calcD 3)];
     m_A := None; m_Di := None; m_C := None; m_Q := None;
     m_sfs := sample_sfs_1d |}.

(** The cached operators of a state are those built for the selection,
    dominance and step of its last iteration, with effective sizes [Neff]. *)
Definition operators_built_for (c : nomig_ctx) (st : nomig_state) (Neff : vec) : Prop :=
  exists slv Q,
    nomig_operators c Neff (n_s_old st) (n_h_old st) (n_dt st)
    = Ok (n_D st, n_S1 st, n_S2 st, slv, Q) /\
    n_slv st = Some slv /\ n_Q st = Some Q.

(** Some governing parameter of the iteration from [st] to [st1] differs
    from its value in the previous step, or the iteration is the first. *)
Definition parameters_changed (st st1 : nomig_state) : Prop :=
  n_t st = 0 \/ n_Nold st <> n_N st1 \/ n_dt st1 <> n_dt st \/
  n_s_new st1 <> n_s_old st \/ n_h_new st1 <> n_h_old st.

(** A computation that does not raise the population-size error. *)
Definition quiet {A : Type} (c : outcome A) : Prop := c <> Raise PopSizeError.

Definition quiet_sched (s : sched) : Prop :=
  match s with
  | SConst _ => True
  | SFun f => forall t, quiet (f t)
  end.

(** Every size evaluated in a log was positive. *)
Definition clean (log : list event) : Prop :=
  Forall (fun N => any_nonpositive N = false) (evaluated_sizes log).

(** How a run stands with respect to the sizes it evaluated: it raised the
    population-size error right after evaluating a non-positive size, all
    sizes before having been positive; or it did not raise it, and all
    sizes were positive. *)
Definition verdict {A : Type} (r : list event * outcome A) : Prop :=
  match r with
  | (log, Raise PopSizeError) =>
      exists t N rest, log = EvSizes t N :: rest /\ any_nonpositive N = true /\ clean rest
  | (log, _) => clean log
  end.

(** A run that keeps the verdict. *)
Definition sound {A : Type} (c : run A) : Prop :=
  forall log, clean log -> verdict (c log).

(** The judgement of C1 on the result of a run: the population-size error
    is raised exactly when some evaluated size was non-positive, and then
    that evaluation is the last thing the run did, every earlier evaluation
    having been positive. *)
Definition sizes_judged {A : Type} (r : list event * outcome A) : Prop :=
  (snd r = Raise PopSizeError <->
   exists N, In N (evaluated_sizes (fst r)) /\ exists x, In x N /\ x <= 0) /\
  (snd r = Raise PopSizeError ->
   exists t N rest,
     fst r = EvSizes t N :: rest /\ (exists x, In x N /\ x <= 0) /\
     forall N', In N' (evaluated_sizes rest) -> all_positive N').

(** One population whose size is 1 up to time 1/4 and -1 afterwards. *)
Definition sample_nomig_shrinking : nomig_args :=
  {| a_sfs0 := sample_sfs_1d;
     a_Npop := NFun (fun t => [if Qcleb t (Q2Qc (1 # 4)) then 1 else - (1)]);
     a_tf := 1;
     a_dt_fac := Q2Qc (1 # 4);
     a_gamma := CScalar 1;
     a_h := CNone;
     a_theta := RScalar 1;
     a_finite_genome := false;
     a_theta_fd := None;
     a_theta_bd := None;
     a_frozen := [false] |}.

(** One population, three bins, constant size, no selection, finite-genome
    mutation model with rates 0.01 in both directions: the same call for
    the two integrators. *)
Definition sample_nomig_fg : nomig_args :=
  {| a_sfs0 := sample_sfs_1d;
     a_Npop := NConst [1];
     a_tf := Q2Qc (1 # 4);
     a_dt_fac := Q2Qc (1 # 2);
     a_gamma := CNone;
     a_h := CNone;
     a_theta := RScalar 1;
     a_finite_genome := true;
     a_theta_fd := Some (RScalar (Q2Qc (1 # 100)));
     a_theta_bd := Some (RScalar (Q2Qc (1 # 100)));
     a_frozen := [false] |}.

Definition sample_neutral_fg : neutral_args :=
  {| b_sfs0 := sample_sfs_1d;
     b_Npop := NConst [1];
     b_tf := Q2Qc (1 # 4);
     b_dt_fac := Q2Qc (1 # 2);
     b_theta := RScalar 1;
     b_finite_genome := true;
     b_theta_fd := Some (RScalar (Q2Qc (1 # 100)));
     b_theta_bd := Some (RScalar (Q2Qc (1 # 100)));
     b_frozen := [false] |}.

(** Whether two runs returned spectra with numerically equal data. *)
Definition same_data (r1 r2 : list event * outcome spectrum) : option bool :=
  match result_data r1, result_data r2 with
  | Some x, Some y => Some (vec_eqb x y)
  | _, _ => None
  end.

(** Two populations, three bins each, constant sizes, no selection. *)
Definition sample_sfs_3x3 : ndarray :=
  mk_nd [3; 3]%nat (map of_nat [0; 1; 2; 3; 4; 5; 6; 7; 0]%nat).

Definition sample_nomig_2d : nomig_args :=
  {| a_sfs0 := sample_sfs_3x3;
     a_Npop := NConst [1; two];
     a_tf := Q2Qc (1 # 4);
     a_dt_fac := Q2Qc (1 # 2);
     a_gamma := CNone;
     a_h := CNone;
     a_theta := RScalar 1;
     a_finite_genome := false;
     a_theta_fd := None;
     a_theta_bd := None;
     a_frozen := [false] |}.

Definition sample_neutral_2d : neutral_args :=
  {| b_sfs0 := sample_sfs_3x3;
     b_Npop := NConst [1; two];
     b_tf := Q2Qc (1 # 4);
     b_dt_fac := Q2Qc (1 # 2);
     b_theta := RScalar 1;
     b_finite_genome := false;
     b_theta_fd := None;
     b_theta_bd := None;
     b_frozen := [false] |}.

(* ------------------------------------------------------------------ *)
(** ** What the conservation of mass asks of the collaborators *)

Definition is_matrix (r c : nat) (M : matrix) : Prop :=
  length M = r /\ Forall (fun row => length row = c) M.

(** The drift generator of an axis of length [d] is [d] by [d] and its
    columns sum to zero: [sum(G v) = 0] for every [v]. *)
Definition drift_contract (G : matrix) (d : nat) : Prop :=
  is_matrix d d G /\ forall v, length v = d -> vsum (mat_vec G v) = 0.

(** [linalg.factorized(I - c G)] solves the system, for [c >= 0]. *)
Definition solver_contract (E : collaborators) (G : matrix) (d : nat) : Prop :=
  forall (c : Qc) (rhs : vec), 0 <= c -> length rhs = d ->
    length (factorized E (msub (identity d) (mscale c G)) rhs) = d /\
    mat_vec (msub (identity d) (mscale c G))
            (factorized E (msub (identity d) (mscale c G)) rhs) = rhs.

(** [ts.factor] and [ts.solve] on the diagonals of [I - c G] solve the
    system, for [c >= 0]. *)
Definition tridiagonal_contract (E : collaborators) (G : matrix) (d : nat) : Prop :=
  forall (c : Qc) (rhs : vec), 0 <= c -> length rhs = d ->
    let '(d0, d1, d2) := ts_mat_to_diag E G in
    let '(A, Di, C) := ts_factor E (vscale (- c) d0) (vsub (ones d) (vscale c d1))
                                   (vscale (- c) d2) in
    length (ts_solve E A Di C rhs) = d /\
    mat_vec (msub (identity d) (mscale c G)) (ts_solve E A Di C rhs) = rhs.

(** The step bound of positive sizes is not negative. *)
Definition bound_contract (E : collaborators) : Prop :=
  forall N s h, all_positive N -> 0 <= compute_dt E N s h.

(** The effective sizes of a positive schedule are positive. *)
Definition effective_size_contract (E : collaborators) (np : nat) : Prop :=
  forall f t0 t1,
    (forall t, exists v, f t = Ok v /\ length v = np /\ all_positive v) ->
    length (compute_N_effective E f t0 t1) = np /\
    all_positive (compute_N_effective E f t0 t1).

(** Selection is zero in every population, in whatever form it is given. *)
Definition zero_selection (gamma : coeff) : Prop :=
  match gamma with
  | CNone => True
  | CScalar x => x = 0
  | CVector v => Forall (fun x => x = 0) v
  | CFunScalar f => forall t, f t = 0
  | CFunVector f => forall t, Forall (fun x => x = 0) (f t)
  end.

(** The mutation rate is zero. *)
Definition zero_rate (theta : rate) : Prop :=
  match theta with
  | RScalar x => x = 0
  | RVector v => Forall (fun x => x = 0) v
  end.

Definition zero_opt_rate (theta : option rate) : Prop :=
  match theta with
  | Some r => zero_rate r
  | None => True
  end.

(** No mutation: [theta] is zero with infinite sites, [theta_fd] and
    [theta_bd] are with a finite genome. *)
Definition zero_mutation (finite_genome : bool) (theta : rate)
    (theta_fd theta_bd : option rate) : Prop :=
  if finite_genome then zero_opt_rate theta_fd /\ zero_opt_rate theta_bd
  else zero_rate theta.

(** The selection operators of an axis of length [d] are [d] by [d]. *)
Definition selection_contract (E : collaborators) (d : nat) : Prop :=
  is_matrix d d (calcS E d (calcJK13 E (Z.of_nat d - 1))) /\
  is_matrix d d (calcS2 E d (calcJK23 E (Z.of_nat d - 1))).

(** A schedule of sizes is positive at every time. *)
Definition positive_schedule (Npop : popsize) : Prop :=
  match Npop with
  | NConst _ => True
  | NFun f => forall t, all_positive (f t)
  end.

(** With zero rates the reversible-mutation operator of an axis of length
    [d] is there and sends every vector to zero. *)
Definition reversible_contract (E : collaborators) (d : nat) : Prop :=
  exists b, _calcB_FB E [d] [0] [0] = FB_1D b /\
            forall v, length v = d -> mat_vec b v = repeat 0 d.

(** A mutation term that adds nothing to a 1-D spectrum of length [d]. *)
Definition silent_mutation (d : nat) (B : mutation_term) : Prop :=
  match B with
  | B_ISM b => shape b = [d] /\ data b = repeat 0 d
  | B_FG (FB_1D b) => forall v, length v = d -> mat_vec b v = repeat 0 d
  | B_FG (FB_ND _) => False
  end.

(** A normalised selection that is zero at every time. *)
Definition zero_sched (s : sched) : Prop :=
  match s with
  | SConst v => nth 0 v 0 = 0
  | SFun f => forall t v, f t = Ok v -> nth 0 v 0 = 0
  end.

(** A normalised schedule of one positive size. *)
Definition positive_sched (s : sched) : Prop :=
  match s with
  | SConst v => True
  | SFun f => forall t, exists v, f t = Ok v /\ length v = 1%nat /\ all_positive v
  end.

(** The loop of [integrate_nomig] for one population with pure drift: what
    stays fixed ... *)
Record drift_setting (E : collaborators) (d : nat) (c : nomig_ctx) : Prop := {
  ds_dims : c_dims c = [d];
  ds_vd : c_vd c = [calcD E d];
  ds_vs : exists V, c_vs c = [V] /\ is_matrix d d V;
  ds_vs2 : exists W, c_vs2 c = [W] /\ is_matrix d d W;
  ds_B : silent_mutation d (c_B c);
  ds_Npop : positive_sched (c_Npop c);
  ds_s : zero_sched (c_s c);
  ds_dt_fac : 0 <= c_dt_fac c
}.

(** ... and what every iteration keeps: the spectrum has [d] entries of sum
    [mass], time and effective size are not negative, selection is zero, and
    the cached operators are [I + k G] and the system [I - c G], [c >= 0]. *)
Record drift_invariant (E : collaborators) (d : nat) (mass : Qc) (st : nomig_state)
  : Prop := {
  di_shape : shape (n_sfs st) = [d];
  di_length : length (data (n_sfs st)) = d;
  di_mass : vsum (data (n_sfs st)) = mass;
  di_time : 0 <= n_t st;
  di_N : all_positive (n_N st);
  di_Neff : exists Ne, n_Neff st = [Ne] /\ 0 < Ne;
  di_s : nth 0 (n_s_new st) 0 = 0;
  di_ops : n_t st = 0 \/
           exists k c, 0 <= c /\
             n_Q st = Some [madd (identity d) (mscale k (calcD E d))] /\
             n_slv st = Some [msub (identity d) (mscale c (calcD E d))]
}.

(** The same for [integrate_neutral]. *)
Record neutral_setting (E : collaborators) (d : nat) (c : neutral_ctx) : Prop := {
  ns_dims : d_dims c = [d];
  ns_vd : d_vd c = [calcD_dense E d];
  ns_diags : d_diags c = [ts_mat_to_diag E (calcD_dense E d)];
  ns_B : silent_mutation d (d_B c);
  ns_Npop : positive_sched (d_Npop c);
  ns_dt_fac : 0 <= d_dt_fac c
}.

Record neutral_invariant (E : collaborators) (d : nat) (mass : Qc) (st : neutral_state)
  : Prop := {
  ni_shape : shape (m_sfs st) = [d];
  ni_length : length (data (m_sfs st)) = d;
  ni_mass : vsum (data (m_sfs st)) = mass;
  ni_time : 0 <= m_t st;
  ni_N : all_positive (m_N st);
  ni_Neff : exists Ne, m_Neff st = [Ne] /\ 0 < Ne;
  ni_ops : m_t st = 0 \/
           exists k c A Di C, 0 <= c /\
             m_Q st = Some [madd (identity d) (mscale k (calcD_dense E d))] /\
             m_A st = Some [A] /\ m_Di st = Some [Di] /\ m_C st = Some [C] /\
             (let '(d0, d1, d2) := ts_mat_to_diag E (calcD_dense E d) in
              ts_factor E (vscale (- c) d0) (vsub (ones d) (vscale c d1)) (vscale (- c) d2))
             = (A, Di, C)
}.

(** The mass of a 1-D spectrum, of its two monomorphic corner bins (the
    entries [Spectrum] masks) and of the polymorphic bins between them. *)
Definition mass (sfs : ndarray) : Qc := vsum (data sfs).
Definition corner_mass (sfs : ndarray) : Qc :=
  nth 0 (data sfs) 0 + nth (length (data sfs) - 1) (data sfs) 0.
Definition polymorphic_mass (sfs : ndarray) : Qc :=
  vsum (firstn (length (data sfs) - 2) (skipn 1 (data sfs))).

(** What is asked of the collaborators for one population of [d] bins. *)
Record drift_collaborators (E : collaborators) (d : nat) : Prop := {
  dc_drift : drift_contract (calcD E d) d;
  dc_dense : drift_contract (calcD_dense E d) d;
  dc_solver : solver_contract E (calcD E d) d;
  dc_tridiagonal : tridiagonal_contract E (calcD_dense E d) d;
  dc_selection : selection_contract E d;
  dc_bound : bound_contract E;
  dc_effective : effective_size_contract E 1;
  dc_reversible : reversible_contract E d
}.

(** A call of [integrate_nomig] on one population of [d] bins with no
    selection and no mutation. *)
Record pure_drift_nomig (d : nat) (a : nomig_args) : Prop := {
  pdn_ok : nomig_args_ok a;
  pdn_shape : shape (a_sfs0 a) = [d];
  pdn_gamma : zero_selection (a_gamma a);
  pdn_theta : zero_mutation (a_finite_genome a) (a_theta a) (a_theta_fd a) (a_theta_bd a);
  pdn_Npop : positive_schedule (a_Npop a);
  pdn_dt_fac : 0 <= a_dt_fac a
}.

(** The same for [integrate_neutral]. *)
Record pure_drift_neutral (d : nat) (b : neutral_args) : Prop := {
  pdm_ok : neutral_args_ok b;
  pdm_shape : shape (b_sfs0 b) = [d];
  pdm_theta : zero_mutation (b_finite_genome b) (b_theta b) (b_theta_fd b) (b_theta_bd b);
  pdm_Npop : positive_schedule (b_Npop b);
  pdm_dt_fac : 0 <= b_dt_fac b
}.

(** [sfs] has the shape and the mass of [sfs0], and its corners have gained
    what its polymorphic bins have lost. *)
Definition conserved (sfs0 sfs : ndarray) : Prop :=
  shape sfs = shape sfs0 /\
  mass sfs = mass sfs0 /\
  corner_mass sfs - corner_mass sfs0 = polymorphic_mass sfs0 - polymorphic_mass sfs.

(** One population, four bins, no mutation and no selection: a size that
    grows with time given to [integrate_nomig], a constant size and the
    finite-genome model given to [integrate_neutral]. *)
Definition sample_sfs_drift : ndarray := mk_nd [4]%nat [0; 1; two; 0].

Definition sample_nomig_drift : nomig_args :=
  {| a_sfs0 := sample_sfs_drift;
     a_Npop := NFun (fun t => [1 + t * t]);
     a_tf := Q2Qc (1 # 4);
     a_dt_fac := half;
     a_gamma := CFunScalar (fun _ => 0);
     a_h := CNone;
     a_theta := RScalar 0;
     a_finite_genome := false;
     a_theta_fd := None;
     a_theta_bd := None;
     a_frozen := [false] |}.

Definition sample_neutral_drift : neutral_args :=
  {| b_sfs0 := sample_sfs_drift;
     b_Npop := NConst [two];
     b_tf := Q2Qc (1 # 4);
     b_dt_fac := half;
     b_theta := RScalar 1;
     b_finite_genome := true;
     b_theta_fd := Some (RScalar 0);
     b_theta_bd := Some (RVector [0]);
     b_frozen := [false] |}.

(** Whether a run returned a spectrum whose data sum to [m], and how much
    of it lies in the two corners. *)
Definition returned_mass (r : list event * outcome spectrum) (m : Qc) : bool :=
  match snd r with
  | Ok sp => Qceqb (mass (sp_data sp)) m
  | _ => false
  end.

Definition returned_corner_mass (r : list event * outcome spectrum) : option Qc :=
  match snd r with
  | Ok sp => Some (corner_mass (sp_data sp))
  | _ => None
  end.

(** The step bound of the sizes [N] is at least [eps], a positive number,
    whatever the selection. *)
Definition bounded_below (E : collaborators) (N : vec) (eps : Qc) : Prop :=
  0 < eps /\ forall s h, eps <= compute_dt E N s h.

(** A state of the loop of [integrate_nomig] under constant sizes [N]: one
    entry in each parameter vector. *)
Record nomig_ready (N : vec) (st : nomig_state) : Prop := {
  nr_N : n_N st = N;
  nr_Nold : n_Nold st = N;
  nr_s_new : length (n_s_new st) = 1%nat;
  nr_s_old : length (n_s_old st) = 1%nat;
  nr_h_new : length (n_h_new st) = 1%nat;
  nr_h_old : length (n_h_old st) = 1%nat
}.

Record neutral_ready (N : vec) (st : neutral_state) : Prop := {
  mr_N : m_N st = N;
  mr_Nold : m_Nold st = N
}.

(** The most steps of size [step] a loop needs to reach [Tmax]. *)
Definition enough_fuel (fuel : nat) (Tmax step : Qc) : Prop :=
  Tmax <= of_nat fuel * step.

(** Constant positive sizes [Npop], no frozen population, a positive
    [dt_fac], a step bound of at least [eps > 0] and fuel for every step of
    the time loop up to [Tmax = 2 tf]. *)
Definition steady (E : collaborators) (Npop : popsize) (frozen : list bool)
    (tf dt_fac : Qc) (fuel : nat) : Prop :=
  exists N eps,
    Npop = NConst N /\ all_positive N /\ any_frozen frozen = false /\
    bounded_below E N eps /\ 0 < dt_fac /\
    enough_fuel fuel (tf * two) (Qcmin eps (tf * two * dt_fac)).

(* ------------------------------------------------------------------ *)
(** * Further definitions

    ** Fibres of an array *)

(** [idx] with its entry [k] replaced by [j]. *)
Fixpoint replace_axis (k : nat) (idx : list nat) (j : nat) : list nat :=
  match idx, k with
  | [], _ => []
  | _ :: idx', O => j :: idx'
  | i :: idx', S k' => i :: replace_axis k' idx' j
  end.

(** The entries of [a] along axis [k] through [idx], as
    [a[i0, ..., :, ..., i_r]] reads them. *)
Definition fibre (a : ndarray) (k : nat) (idx : list nat) : vec :=
  map (fun j => nd_get a (replace_axis k idx j)) (seq 0 (dim a k)).

(** Whether [idx] has the fixed entries of the slice [sl]. *)
Fixpoint matches (sl : slice) (idx : list nat) : bool :=
  match sl, idx with
  | [], _ => true
  | None :: sl', _ :: idx' => matches sl' idx'
  | Some j :: sl', i :: idx' => (i =? j)%nat && matches sl' idx'
  | _ :: _, [] => false
  end.

(** The slice [sl] with axis [ax] fixed at [i]. *)
Fixpoint fix_axis (sl : slice) (ax i : nat) : slice :=
  match sl, ax with
  | [], _ => []
  | _ :: sl', O => Some i :: sl'
  | o :: sl', S ax' => o :: fix_axis sl' ax' i
  end.

(** Loops over the axes [axes], the first one outermost, around [body]
    applied to the slice they fix: the shape of every step 2 function. *)
Fixpoint nest (axes : list nat) (body : slice -> ndarray -> outcome ndarray)
    (sl : slice) (a : ndarray) : outcome ndarray :=
  match axes with
  | [] => body sl a
  | ax :: rest => for_range (dim a ax) (fun i a => nest rest body (fix_axis sl ax i) a) a
  end.

(** [a] with [f] applied to the fibres along axis [k] through the indices
    in [D]. *)
Definition swept (f : vec -> vec) (k : nat) (a : ndarray) (D : list nat -> bool) : ndarray :=
  nd_build (shape a)
    (fun idx => if D idx then nth (nth k idx 0%nat) (f (fibre a k idx)) 0 else nd_get a idx).

(** The axes the loops of [_ud2_<r>pop_<i>] run over, outermost first. *)
Definition sweep_axes (r i : nat) : list nat :=
  match r, i with
  | 2, 1 => [1] | 2, 2 => [0]
  | 3, 1 => [2; 1] | 3, 2 => [2; 0] | 3, 3 => [1; 0]
  | 4, 1 => [1; 2; 3] | 4, 2 => [0; 2; 3] | 4, 3 => [0; 1; 3] | 4, 4 => [0; 1; 2]
  | 5, 1 => [1; 2; 3; 4] | 5, 2 => [0; 2; 3; 4] | 5, 3 => [0; 1; 3; 4]
  | 5, 4 => [0; 1; 2; 4] | 5, 5 => [0; 1; 2; 3]
  | _, _ => []
  end%nat.

(** [f] returns [n] entries when given [n]: what the assignment
    [sfs[sl] = f(sfs[sl])] needs of a solver. *)
Definition keeps_length (n : nat) (f : vec -> vec) : Prop :=
  forall x, length x = n -> length (f x) = n.

(** [a'] is [a] with every fibre along axis [k] replaced by its image
    under [f]. *)
Definition solved_along (f : vec -> vec) (k : nat) (a a' : ndarray) : Prop :=
  shape a' = shape a /\ well_formed a' /\
  forall idx, in_bounds (shape a) idx = true ->
    nd_get a' idx = nth (nth k idx 0%nat) (f (fibre a k idx)) 0.

(** A 2 by 3 by 2 spectrum and three solvers that keep lengths. *)
Definition sample_sfs_3d : ndarray :=
  mk_nd [2; 3; 2]%nat (map of_nat (seq 1 12)).

Definition sample_slv : list (vec -> vec) :=
  [vscale two; @rev Qc; fun x => x].

(** Off-diagonals and main diagonals for a tridiagonal solve along each of
    its axes. *)
Definition sample_off : list vec := [[1; 1]; [1; 1; 1]; [1; 1]].
Definition sample_main : list vec := [[four; four]; [four; four; four]; [four; four]].

(** The order of the axes [_ud1_<r>pop_<i>] transposes the spectrum to, and
    back from: axis [i - 1] is exchanged with axis 0. *)
Definition axis_swap (r i : nat) : list nat :=
  match r, i with
  | 2, 2 => [1; 0]
  | 3, 2 => [1; 0; 2] | 3, 3 => [2; 1; 0]
  | 4, 2 => [1; 0; 2; 3] | 4, 3 => [2; 1; 0; 3] | 4, 4 => [3; 1; 2; 0]
  | 5, 2 => [1; 0; 2; 3; 4] | 5, 3 => [2; 1; 0; 3; 4] | 5, 4 => [3; 1; 2; 0; 4]
  | 5, 5 => [4; 1; 2; 3; 0]
  | _, _ => []
  end%nat.

(** [a] with [f] applied to every fibre along axis [k]. *)
Definition along_axis (f : vec -> vec) (k : nat) (a : ndarray) : ndarray :=
  swept f k a (fun _ => true).

(** [f 0] along axis 0, then [f 1] along axis 1, and so on to axis
    [r - 1]. *)
Definition axis_by_axis (f : nat -> vec -> vec) (r : nat) (a : ndarray) : ndarray :=
  fold_left (fun a k => along_axis (f k) k a) (seq 0 r) a.

(** Three operators for the 2 by 3 by 2 sample. *)
Definition sample_Q : list matrix :=
  [[[1; two]; [0; 1]]; sample_calcD 3; identity 2].

(* ------------------------------------------------------------------ *)
(** ** Ways of writing the same arguments *)

(** A coefficient written out per population: [None] stands for [default],
    a number for that number in every population. *)
Definition per_population (np : nat) (default : Qc) (c : coeff) : coeff :=
  match c with
  | CNone => CVector (repeat default np)
  | CScalar x => CVector (repeat x np)
  | CFunScalar f => CFunVector (fun t => repeat (f t) np)
  | CVector _ | CFunVector _ => c
  end.

(** The same for a mutation rate. *)
Definition rate_per_population (np : nat) (r : rate) : rate :=
  match r with
  | RScalar x => RVector (repeat x np)
  | RVector _ => r
  end.

(** A computation that logs nothing, whatever it ends in. *)
Definition silent {A : Type} (c : run A) : Prop := forall log, fst (c log) = log.

(* ------------------------------------------------------------------ *)
(** ** The two integrators side by side *)

(** An event without the name of the function its warning mentions. *)
Definition anonymous (ev : event) : event :=
  match ev with
  | EvWarn _ t Nold N => EvWarn Nomig t Nold N
  | _ => ev
  end.

(** Two logs that differ at most in the function their warnings name. *)
Definition same_log (l1 l2 : list event) : Prop := map anonymous l1 = map anonymous l2.

(** Two calls that end alike: both return, with related values, or both
    raise the same exception, or both run out of fuel. *)
Definition same_outcome {A B : Type} (R : A -> B -> Prop) (o1 : outcome A) (o2 : outcome B)
  : Prop :=
  match o1, o2 with
  | Ok a, Ok b => R a b
  | Raise e1, Raise e2 => e1 = e2
  | OutOfFuel, OutOfFuel => True
  | _, _ => False
  end.

Definition same_run {A B : Type} (R : A -> B -> Prop)
    (r1 : list event * outcome A) (r2 : list event * outcome B) : Prop :=
  same_log (fst r1) (fst r2) /\ same_outcome R (snd r1) (snd r2).

(** Two computations that run alike from logs that are alike. *)
Definition alike {A B : Type} (R : A -> B -> Prop) (c1 : run A) (c2 : run B) : Prop :=
  forall l1 l2, same_log l1 l2 -> same_run R (c1 l1) (c2 l2).

(** What the agreement of the two integrators asks of the collaborators on
    an axis of length [d]: the dense drift matrix is the sparse one, the
    matrices are [d] by [d], and the tridiagonal solver on the diagonals of
    [I - c D] solves as the factorisation of [I - c D] does. *)
Record agreeing_axis (E : collaborators) (d : nat) : Prop := {
  aa_dense : calcD_dense E d = calcD E d;
  aa_drift : is_matrix d d (calcD E d);
  aa_selection : selection_contract E d;
  aa_solver : forall (c : Qc) (x : vec),
      (let '(d0, d1, d2) := ts_mat_to_diag E (calcD_dense E d) in
       let '(A, Di, C) := ts_factor E (vscale (- c) d0) (vsub (ones d) (vscale c d1))
                                     (vscale (- c) d2) in
       ts_solve E A Di C x)
      = factorized E (msub (identity d) (mscale c (calcD E d))) x
}.

(** Without selection the step bound is that of the neutral case. *)
Definition neutral_bound (E : collaborators) : Prop :=
  forall (N s h : vec), Forall (fun x => x = 0) s ->
    compute_dt E N (Some s) (Some h) = compute_dt E N None None.

(** The call of [integrate_neutral] with the arguments of a call of
    [integrate_nomig], selection left out. *)
Definition neutral_of (a : nomig_args) : neutral_args :=
  {| b_sfs0 := a_sfs0 a;
     b_Npop := a_Npop a;
     b_tf := a_tf a;
     b_dt_fac := a_dt_fac a;
     b_theta := a_theta a;
     b_finite_genome := a_finite_genome a;
     b_theta_fd := a_theta_fd a;
     b_theta_bd := a_theta_bd a;
     b_frozen := a_frozen a |}.

(** The operators the two loops keep from one step to the next: none yet,
    or the same explicit matrices and solvers that solve alike. *)
Definition same_operators (E : collaborators) (np : nat)
    (Q slv Q' : option (list matrix)) (A Di C : option (list vec)) : Prop :=
  match Q, slv, Q', A, Di, C with
  | None, None, None, None, None, None => True
  | Some Q, Some slv, Some Q', Some A, Some Di, Some C =>
      Q = Q' /\ length slv = np /\ length A = np /\ length Di = np /\ length C = np /\
      forall k x, (k < np)%nat ->
        factorized E (nth k slv []) x = ts_solve E (nth k A []) (nth k Di []) (nth k C []) x
  | _, _, _, _, _, _ => False
  end.

(** What the two time loops share, and what the one of [integrate_nomig]
    has for itself: no selection and a constant dominance. *)
Record same_setting (E : collaborators) (c : nomig_ctx) (d : neutral_ctx) : Prop := {
  ss_Tmax : d_Tmax d = c_Tmax c;
  ss_dt_fac : d_dt_fac d = c_dt_fac c;
  ss_dims : d_dims d = c_dims c;
  ss_Npop : d_Npop d = c_Npop c;
  ss_B : d_B d = c_B c;
  ss_vd : c_vd c = map (calcD E) (c_dims c);
  ss_dense : d_vd d = map (calcD_dense E) (c_dims c);
  ss_diags : d_diags d = map (ts_mat_to_diag E) (d_vd d);
  ss_vs : c_vs c = map (fun n => calcS E n (calcJK13 E (Z.of_nat n - 1))) (c_dims c);
  ss_vs2 : c_vs2 c = map (fun n => calcS2 E n (calcJK23 E (Z.of_nat n - 1))) (c_dims c);
  ss_axes : Forall (agreeing_axis E) (c_dims c);
  ss_bound : neutral_bound E;
  ss_s : match c_s c with
         | SConst _ => True
         | SFun f => forall t, f t = Ok (repeat 0 (length (c_dims c)))
         end;
  ss_h : callable (c_h c) = false;
  ss_rank : (1 <= length (c_dims c))%nat;
  ss_1d : length (c_dims c) = 1%nat -> exists b, c_B c = B_ISM b
}.

Record same_state (E : collaborators) (np : nat) (st : nomig_state) (mt : neutral_state)
  : Prop := {
  st_t : m_t mt = n_t st;
  st_dt : m_dt mt = n_dt st;
  st_N : m_N mt = n_N st;
  st_Nold : m_Nold mt = n_Nold st;
  st_Neff : m_Neff mt = n_Neff st;
  st_sfs : m_sfs mt = n_sfs st;
  st_s_new : n_s_new st = repeat 0 np;
  st_s_old : n_s_old st = repeat 0 np;
  st_h : n_h_old st = n_h_new st;
  st_h_length : length (n_h_new st) = np;
  st_ops : same_operators E np (n_Q st) (n_slv st) (m_Q mt) (m_A mt) (m_Di mt) (m_C mt)
}.

(** [callable(h)] for a coefficient as it is passed. *)
Definition is_callable (c : coeff) : bool :=
  match c with
  | CFunScalar _ | CFunVector _ => true
  | _ => false
  end.

(** A normalised selection that is zero in each of [np] populations. *)
Definition no_selection (np : nat) (s : sched) : Prop :=
  match s with
  | SConst v => v = repeat 0 np
  | SFun f => forall t, f t = Ok (repeat 0 np)
  end.

(* ------------------------------------------------------------------ *)
(** ** Calls that can fail on a population size only *)

(** A mutation term made for a spectrum of shape [dims]: the array
    [_calcB] returns has that shape, the operators [_calcB_FB] returns act
    on the flattened spectrum, one operator for one population and a list
    with an operator per population for more. *)
Definition fitting_term (dims : list nat) (B : mutation_term) : Prop :=
  match B with
  | B_ISM b => shape b = dims /\ well_formed b
  | B_FG (FB_1D b) => length dims = 1%nat /\ nrows b = size_of dims
  | B_FG (FB_ND bs) =>
      (2 <= length dims)%nat /\ (length dims <= length bs)%nat /\
      Forall (fun Bi => nrows Bi = size_of dims) bs
  end.

(** What is asked of the collaborators for a spectrum of shape [dims]: the
    matrices of an axis of length [d] are [d] by [d], the solvers return as
    many entries as they are given, the effective sizes are as many as the
    sizes, and the reversible-mutation operators fit the spectrum. *)
Record shaped_collaborators (E : collaborators) (dims : list nat) : Prop := {
  sc_drift : Forall (fun d => is_matrix d d (calcD E d)) dims;
  sc_dense : Forall (fun d => is_matrix d d (calcD_dense E d)) dims;
  sc_selection : Forall (selection_contract E) dims;
  sc_factorized : forall d M, is_matrix d d M -> keeps_length d (factorized E M);
  sc_tridiagonal :
    Forall (fun d => forall c,
              let '(d0, d1, d2) := ts_mat_to_diag E (calcD_dense E d) in
              let '(A, Di, C) := ts_factor E (vscale (- c) d0) (vsub (ones d) (vscale c d1))
                                            (vscale (- c) d2) in
              keeps_length d (ts_solve E A Di C)) dims;
  sc_effective : forall f t0 t1,
      (forall t, exists v, f t = Ok v /\ length v = length dims) ->
      length (compute_N_effective E f t0 t1) = length dims;
  sc_reversible : forall u v, length u = length dims -> length v = length dims ->
      fitting_term dims (B_FG (_calcB_FB E dims u v))
}.

(** A computation that returns a value with [P]; unless it is [strict], it
    may also raise the error of a non-positive population size, and no
    other, or be still running when the fuel is spent. *)
Definition safe {A : Type} (strict : bool) (P : A -> Prop) (c : run A) : Prop :=
  forall log,
    match snd (c log) with
    | Ok a => P a
    | Raise e => strict = false /\ e = PopSizeError
    | OutOfFuel => strict = false
    end.

(** Operators of the right sizes for a spectrum of shape [dims]. *)
Definition square_operators (dims : list nat) (Q : list matrix) : Prop :=
  length Q = length dims /\
  forall k, (k < length dims)%nat ->
    is_matrix (nth k dims 0%nat) (nth k dims 0%nat) (nth k Q []).

(** What the loop of [integrate_nomig] keeps fixed ... *)
Record nomig_shaped_ctx (E : collaborators) (dims : list nat) (c : nomig_ctx) : Prop := {
  nc_dims : c_dims c = dims;
  nc_bins : Forall (fun d => (2 <= d)%nat) dims;
  nc_rank : (1 <= length dims <= 5)%nat;
  nc_Npop : sched_ok (length dims) (c_Npop c);
  nc_s : sched_ok (length dims) (c_s c);
  nc_h : sched_ok (length dims) (c_h c);
  nc_vd : square_operators dims (c_vd c);
  nc_vs : square_operators dims (c_vs c);
  nc_vs2 : square_operators dims (c_vs2 c);
  nc_B : fitting_term dims (c_B c);
  nc_E : shaped_collaborators E dims
}.

(** ... and what every pass through it keeps: vectors with an entry per
    population, a spectrum of the shape it started with, and operators of
    the right sizes once they were built (they are built at time 0). *)
Record nomig_shaped (dims : list nat) (st : nomig_state) : Prop := {
  nh_N : length (n_N st) = length dims;
  nh_Nold : length (n_Nold st) = length dims;
  nh_Neff : length (n_Neff st) = length dims;
  nh_s_new : length (n_s_new st) = length dims;
  nh_s_old : length (n_s_old st) = length dims;
  nh_h_new : length (n_h_new st) = length dims;
  nh_h_old : length (n_h_old st) = length dims;
  nh_shape : shape (n_sfs st) = dims;
  nh_wf : well_formed (n_sfs st);
  nh_ops : match n_Q st, n_slv st with
           | None, None => n_t st = 0
           | Some Q, Some slv => square_operators dims Q /\ square_operators dims slv
           | _, _ => False
           end
}.

(** The same for [integrate_neutral]. *)
Record neutral_shaped_ctx (E : collaborators) (dims : list nat) (c : neutral_ctx) : Prop := {
  mc_dims : d_dims c = dims;
  mc_bins : Forall (fun d => (2 <= d)%nat) dims;
  mc_rank : (1 <= length dims <= 5)%nat;
  mc_Npop : sched_ok (length dims) (d_Npop c);
  mc_vd : d_vd c = map (calcD_dense E) dims;
  mc_diags : d_diags c = map (ts_mat_to_diag E) (d_vd c);
  mc_B : fitting_term dims (d_B c);
  mc_E : shaped_collaborators E dims
}.

Record neutral_shaped (E : collaborators) (dims : list nat) (st : neutral_state) : Prop := {
  mh_N : length (m_N st) = length dims;
  mh_Nold : length (m_Nold st) = length dims;
  mh_Neff : length (m_Neff st) = length dims;
  mh_shape : shape (m_sfs st) = dims;
  mh_wf : well_formed (m_sfs st);
  mh_ops : match m_Q st, m_A st, m_Di st, m_C st with
           | None, None, None, None => m_t st = 0
           | Some Q, Some A, Some Di, Some C =>
               square_operators dims Q /\
               length A = length dims /\ length Di = length dims /\ length C = length dims /\
               forall k, (k < length dims)%nat ->
                 keeps_length (nth k dims 0%nat)
                   (ts_solve E (nth k A []) (nth k Di []) (nth k C []))
           | _, _, _, _ => False
           end
}.

(** How a call on a spectrum of shape [sh] may end: with a spectrum of
    that shape, with the error of a non-positive size, or still running when
    the fuel is spent. *)
Definition size_error_only (sh : list nat) (o : outcome spectrum) : Prop :=
  match o with
  | Ok sp => shape (sp_data sp) = sh /\ well_formed (sp_data sp)
  | Raise e => e = PopSizeError
  | OutOfFuel => True
  end.

(* ------------------------------------------------------------------ *)
(** ** [Spectrum.integrate] ([Spectrum_mod.py], lines 642-815)

    The method that calls the integrators.  Vector arguments are Python
    lists, as the docstring has them ([==] and [>=] on a list are those of
    Python, not of numpy).  The call of [ModelPlot] under [if plotting:]
    (lines 728-731) draws the epoch and has no part in the result; it is
    left out. *)

(** What the method raises itself, and what it lets through. *)
Inductive integrate_exn : Type :=
| ThetaError     (* ValueError("In the finite genome model, theta must be much less
                    than 1. ...") *)
| FrozenError    (* ValueError("If one or more populations are frozen, length of frozen
                    must match number of simulated pops.") *)
| Raised (e : exn).

Inductive ended (A : Type) : Type :=
| Done (a : A)
| Failed (e : integrate_exn)
| Unfinished.

Arguments Done {A} a.
Arguments Failed {A} e.
Arguments Unfinished {A}.

(** The arguments of [Spectrum.integrate] after [self]. *)
Record integrate_args : Type := {
  i_Npop : popsize;
  i_tf : Qc;
  i_dt_fac : Qc;
  i_gamma : coeff;
  i_h : coeff;
  i_m : option matrix;
  i_theta : rate;
  i_adapt_dt : bool;
  i_finite_genome : bool;
  i_theta_fd : option rate;
  i_theta_bd : option rate;
  i_frozen : list bool
}.

(** The arguments of [moments.Integration.integrate_nD], in the order of
    the call of lines 801-815. *)
Record nd_args : Type := {
  nD_sfs0 : ndarray;
  nD_Npop : popsize;
  nD_tf : Qc;
  nD_dt_fac : Qc;
  nD_gamma : coeff;
  nD_h : coeff;
  nD_m : matrix;
  nD_theta : rate;
  nD_adapt_dt : bool;
  nD_finite_genome : bool;
  nD_theta_fd : option rate;
  nD_theta_bd : option rate;
  nD_frozen : list bool
}.

(** Code of other modules: [moments.Integration.integrate_nD], and what
    numpy does of [a[:] = b] when the shapes of [a] and [b] differ
    (broadcasting, or a ValueError). *)
Record outside : Type := {
  integrate_nD : nd_args -> run spectrum;
  broadcast_into : ndarray -> ndarray -> outcome ndarray
}.

Definition is_none {A : Type} (x : option A) : bool :=
  match x with None => true | Some _ => false end.

(** A rate is left out: [theta_fd == None or theta_bd == None]. *)
Definition rate_missing (x : integrate_args) : bool :=
  is_none (i_theta_fd x) || is_none (i_theta_bd x).

(** Lines 705-713: [theta_fd] and [theta_bd] as they are passed on. *)
Definition integrate_rates (x : integrate_args) : ended (option rate * option rate) :=
  if i_finite_genome x && rate_missing x then
    match i_theta x with
    | RScalar theta =>
        if Qcleb 1 theta then Failed ThetaError
        else Done (Some (RScalar theta), Some (RScalar theta))
    | RVector _ => Failed (Raised TypeError)     (* [theta >= 1] on a list *)
    end
  else Done (i_theta_fd x, i_theta_bd x).

(** Lines 715-726. *)
Definition integrate_frozen (x : integrate_args) : ended unit :=
  let pops := match i_Npop x with
              | NConst N => length N
              | NFun f => length (f 0)
              end in
  if any_frozen (i_frozen x) && negb (pops =? length (i_frozen x))%nat
  then Failed FrozenError
  else Done tt.

(** The call the method makes. *)
Inductive integrator_call : Type :=
| CallNeutral (b : neutral_args)
| CallNomig (a : nomig_args)
| CallND (d : nd_args).

(** [(m == 0).all()] *)
Definition all_zero_matrix (m : matrix) : bool :=
  forallb (forallb (fun x => Qceqb x 0)) m.

(** [gamma == 0] on one population: true of the number 0 only (a list or a
    function is not equal to 0). *)
Definition is_zero_number (gamma : coeff) : bool :=
  match gamma with
  | CScalar g => Qceqb g 0
  | _ => false
  end.

(** [(numpy.array(gamma) == 0).all()]: a number that is 0, or a list of
    zeros; false of a function. *)
Definition all_zero_coeff (gamma : coeff) : bool :=
  match gamma with
  | CScalar g => Qceqb g 0
  | CVector v => forallb (fun x => Qceqb x 0) v
  | _ => false
  end.

Definition neutral_call (own : ndarray) (x : integrate_args) (theta_fd theta_bd : option rate)
  : neutral_args :=
  {| b_sfs0 := own; b_Npop := i_Npop x; b_tf := i_tf x; b_dt_fac := i_dt_fac x;
     b_theta := i_theta x; b_finite_genome := i_finite_genome x;
     b_theta_fd := theta_fd; b_theta_bd := theta_bd; b_frozen := i_frozen x |}.

Definition nomig_call (own : ndarray) (x : integrate_args) (gamma h : coeff)
    (theta_fd theta_bd : option rate) : nomig_args :=
  {| a_sfs0 := own; a_Npop := i_Npop x; a_tf := i_tf x; a_dt_fac := i_dt_fac x;
     a_gamma := gamma; a_h := h;
     a_theta := i_theta x; a_finite_genome := i_finite_genome x;
     a_theta_fd := theta_fd; a_theta_bd := theta_bd; a_frozen := i_frozen x |}.

Definition nd_call (own : ndarray) (x : integrate_args) (gamma h : coeff) (m : matrix)
    (theta_fd theta_bd : option rate) : nd_args :=
  {| nD_sfs0 := own; nD_Npop := i_Npop x; nD_tf := i_tf x; nD_dt_fac := i_dt_fac x;
     nD_gamma := gamma; nD_h := h; nD_m := m; nD_theta := i_theta x;
     nD_adapt_dt := i_adapt_dt x; nD_finite_genome := i_finite_genome x;
     nD_theta_fd := theta_fd; nD_theta_bd := theta_bd; nD_frozen := i_frozen x |}.

(** Lines 733-815: the integrator picked, and its arguments. *)
Definition integrate_call (own : ndarray) (x : integrate_args)
    (theta_fd theta_bd : option rate) : integrator_call :=
  let np := rank own in
  if (np =? 1)%nat then
    let gamma := match i_gamma x with CNone => CScalar 0 | g => g end in
    let h := match i_h x with CNone => CScalar half | h => h end in
    if is_zero_number gamma then CallNeutral (neutral_call own x theta_fd theta_bd)
    else CallNomig (nomig_call own x gamma h theta_fd theta_bd)
  else
    let gamma := match i_gamma x with CNone => CVector (zeros np) | g => g end in
    let h := match i_h x with CNone => CVector (vscale half (ones np)) | h => h end in
    let m := match i_m x with None => zero_matrix np np | Some m => m end in
    if all_zero_matrix m then
      if all_zero_coeff gamma && (np <? 3)%nat
      then CallNeutral (neutral_call own x theta_fd theta_bd)
      else CallNomig (nomig_call own x gamma h theta_fd theta_bd)
    else CallND (nd_call own x gamma h m theta_fd theta_bd).

(** Lines 700-815 up to the call. *)
Definition integrate_decide (own : ndarray) (x : integrate_args) : ended integrator_call :=
  match integrate_rates x with
  | Done (theta_fd, theta_bd) =>
      match integrate_frozen x with
      | Done _ => Done (integrate_call own x theta_fd theta_bd)
      | Failed e => Failed e
      | Unfinished => Unfinished
      end
  | Failed e => Failed e
  | Unfinished => Unfinished
  end.

Definition call_integrator (E : collaborators) (O : outside) (fuel : nat)
    (c : integrator_call) : run spectrum :=
  match c with
  | CallNeutral b => integrate_neutral E fuel b
  | CallNomig a => integrate_nomig E fuel a
  | CallND d => integrate_nD O d
  end.

(** [a.shape == b.shape] *)
Definition shape_eqb (a b : list nat) : bool :=
  if list_eq_dec Nat.eq_dec a b then true else false.

(** [self.data[:] = result]: the data of the result is copied into the
    array of [self]; the mask of the result is not looked at. *)
Definition assign_data (O : outside) (own result : ndarray) : outcome ndarray :=
  if shape_eqb (shape result) (shape own) then Ok (mk_nd (shape own) (data result))
  else broadcast_into O own result.

(** [self.data[:] = ...] after the call of an integrator: [self] keeps
    its mask; what the integrator raises goes through. *)
Definition assign_result (O : outside) (self : spectrum)
    (r : list event * outcome spectrum) : list event * ended spectrum :=
  match r with
  | (log', Ok result) =>
      match assign_data O (sp_data self) (sp_data result) with
      | Ok d => (log', Done {| sp_data := d; sp_mask := sp_mask self |})
      | Raise e => (log', Failed (Raised e))
      | OutOfFuel => (log', Unfinished)
      end
  | (log', Raise e) => (log', Failed (Raised e))
  | (log', OutOfFuel) => (log', Unfinished)
  end.

(** [Spectrum.integrate(self, Npop, tf, ...)]: the method returns nothing;
    the value here is [self] after the call. *)
Definition Spectrum_integrate (E : collaborators) (O : outside) (fuel : nat)
    (self : spectrum) (x : integrate_args) (log : list event)
  : list event * ended spectrum :=
  match integrate_decide (sp_data self) x with
  | Done c => assign_result O self (call_integrator E O fuel c log)
  | Failed e => (log, Failed e)
  | Unfinished => (log, Unfinished)
  end.

(** No migration: [m] is left out, or has no entry but 0. *)
Definition no_migration (m : option matrix) : Prop :=
  match m with
  | None => True
  | Some m => all_zero_matrix m = true
  end.

(** The same arguments with other values of [theta_fd] and [theta_bd]. *)
Definition with_rates (x : integrate_args) (theta_fd theta_bd : option rate) : integrate_args :=
  {| i_Npop := i_Npop x; i_tf := i_tf x; i_dt_fac := i_dt_fac x; i_gamma := i_gamma x;
     i_h := i_h x; i_m := i_m x; i_theta := i_theta x; i_adapt_dt := i_adapt_dt x;
     i_finite_genome := i_finite_genome x; i_theta_fd := theta_fd; i_theta_bd := theta_bd;
     i_frozen := i_frozen x |}.

(** The same arguments with other values of [m] and [adapt_dt]. *)
Definition with_migration (x : integrate_args) (m : option matrix) (adapt_dt : bool)
  : integrate_args :=
  {| i_Npop := i_Npop x; i_tf := i_tf x; i_dt_fac := i_dt_fac x; i_gamma := i_gamma x;
     i_h := i_h x; i_m := m; i_theta := i_theta x; i_adapt_dt := adapt_dt;
     i_finite_genome := i_finite_genome x; i_theta_fd := i_theta_fd x;
     i_theta_bd := i_theta_bd x; i_frozen := i_frozen x |}.

(** The same arguments with another value of [h]. *)
Definition with_h (x : integrate_args) (h : coeff) : integrate_args :=
  {| i_Npop := i_Npop x; i_tf := i_tf x; i_dt_fac := i_dt_fac x; i_gamma := i_gamma x;
     i_h := h; i_m := i_m x; i_theta := i_theta x; i_adapt_dt := i_adapt_dt x;
     i_finite_genome := i_finite_genome x; i_theta_fd := i_theta_fd x;
     i_theta_bd := i_theta_bd x; i_frozen := i_frozen x |}.

(** Arguments of [Spectrum.integrate] of the right sizes for [self]; the
    length of [frozen] is not part of it, the method tests it. *)
Record integrate_args_ok (self : spectrum) (x : integrate_args) : Prop := {
  io_self : well_formed (sp_data self);
  io_bins : Forall (fun d => (2 <= d)%nat) (shape (sp_data self));
  io_Npop : popsize_ok (rank (sp_data self)) (i_Npop x);
  io_gamma : coeff_ok (rank (sp_data self)) (i_gamma x);
  io_h : coeff_ok (rank (sp_data self)) (i_h x);
  io_theta : rate_ok (rank (sp_data self)) (i_theta x);
  io_theta_fd : forall r, i_theta_fd x = Some r -> rate_ok (rank (sp_data self)) r;
  io_theta_bd : forall r, i_theta_bd x = Some r -> rate_ok (rank (sp_data self)) r
}.

(** What a call on such arguments, without migration, ends with. *)
Definition ends_in_place (self : spectrum) (x : integrate_args) (r : ended spectrum) : Prop :=
  match r with
  | Done self' =>
      sp_mask self' = sp_mask self /\
      shape (sp_data self') = shape (sp_data self) /\
      well_formed (sp_data self')
  | Failed ThetaError =>
      i_finite_genome x = true /\ rate_missing x = true /\
      exists theta, i_theta x = RScalar theta /\ 1 <= theta
  | Failed FrozenError =>
      any_frozen (i_frozen x) = true /\ length (i_frozen x) <> rank (sp_data self)
  | Failed (Raised e) =>
      e = PopSizeError \/
      (e = TypeError /\ i_finite_genome x = true /\ rate_missing x = true /\
       exists v, i_theta x = RVector v)
  | Unfinished => True
  end.

(** A sample of the code outside: an [integrate_nD] that returns its
    spectrum as it is, and an assignment that never broadcasts. *)
Definition sample_outside : outside :=
  {| integrate_nD := fun d => ret {| sp_data := nD_sfs0 d; sp_mask := [] |};
     broadcast_into := fun _ _ => Raise ShapeError |}.

Definition sample_self : spectrum :=
  {| sp_data := sample_sfs_3x3;
     sp_mask := [true; false; false; false; false; false; false; false; true] |}.

(** Two populations under the finite genome model, [theta_bd] left out. *)
Definition sample_integrate_fg : integrate_args :=
  {| i_Npop := NConst [1; two];
     i_tf := Q2Qc (1 # 4);
     i_dt_fac := Q2Qc (1 # 2);
     i_gamma := CNone;
     i_h := CNone;
     i_m := None;
     i_theta := RScalar (Q2Qc (1 # 100));
     i_adapt_dt := false;
     i_finite_genome := true;
     i_theta_fd := Some (RScalar (Q2Qc (1 # 50)));
     i_theta_bd := None;
     i_frozen := [false] |}.

(** Two populations, a migration matrix of zeros. *)
Definition sample_integrate_zero_m : integrate_args :=
  {| i_Npop := NConst [1; two];
     i_tf := Q2Qc (1 # 4);
     i_dt_fac := Q2Qc (1 # 2);
     i_gamma := CVector [1; 0];
     i_h := CNone;
     i_m := Some [[0; 0]; [0; 0]];
     i_theta := RScalar 1;
     i_adapt_dt := false;
     i_finite_genome := false;
     i_theta_fd := None;
     i_theta_bd := None;
     i_frozen := [false] |}.

(** The same arguments with other values of [gamma] and [h]. *)
Definition with_selection (x : integrate_args) (gamma h : coeff) : integrate_args :=
  {| i_Npop := i_Npop x; i_tf := i_tf x; i_dt_fac := i_dt_fac x; i_gamma := gamma;
     i_h := h; i_m := i_m x; i_theta := i_theta x; i_adapt_dt := i_adapt_dt x;
     i_finite_genome := i_finite_genome x; i_theta_fd := i_theta_fd x;
     i_theta_bd := i_theta_bd x; i_frozen := i_frozen x |}.

(** Two populations, [gamma], [h] and [m] left out. *)
Definition sample_integrate_2d : integrate_args :=
  {| i_Npop := NConst [1; two];
     i_tf := Q2Qc (1 # 4);
     i_dt_fac := Q2Qc (1 # 2);
     i_gamma := CNone;
     i_h := CNone;
     i_m := None;
     i_theta := RScalar 1;
     i_adapt_dt := false;
     i_finite_genome := false;
     i_theta_fd := None;
     i_theta_bd := None;
     i_frozen := [false] |}.

(* ------------------------------------------------------------------ *)
(** ** The passes of the time loops

    The head of the [while] loop, after [n] passes or after the last pass
    when the loop ends before; and a call up to that head. *)

Fixpoint nomig_passes (E : collaborators) (inner n : nat) (c : nomig_ctx) (st : nomig_state)
  : run nomig_state :=
  match n with
  | O => ret st
  | S n' =>
      if Qcltb (n_t st) (c_Tmax c) then
        st' <~ nomig_iter E inner c st ;; nomig_passes E inner n' c st'
      else ret st
  end.

Definition nomig_head (E : collaborators) (inner n : nat) (a : nomig_args)
  : run (nomig_ctx * nomig_state) :=
  p <~ lift (nomig_params a) ;;
  '(c, st0) <~ nomig_init E a p ;;
  st <~ nomig_passes E inner n c st0 ;;
  ret (c, st).

Fixpoint neutral_passes (E : collaborators) (inner n : nat) (c : neutral_ctx)
    (st : neutral_state) : run neutral_state :=
  match n with
  | O => ret st
  | S n' =>
      if Qcltb (m_t st) (d_Tmax c) then
        st' <~ neutral_iter E inner c st ;; neutral_passes E inner n' c st'
      else ret st
  end.

Definition neutral_head (E : collaborators) (inner n : nat) (b : neutral_args)
  : run (neutral_ctx * neutral_state) :=
  p <~ lift (neutral_params b) ;;
  '(c, st0) <~ neutral_init E b p ;;
  st <~ neutral_passes E inner n c st0 ;;
  ret (c, st).

(** What a call does from a head of its loop on: the rest of the loop, then
    the spectrum returned. *)
Definition nomig_rest (E : collaborators) (inner fuel : nat) (a : nomig_args)
    (cs : nomig_ctx * nomig_state) : run spectrum :=
  st <~ nomig_loop E inner fuel (fst cs) (snd cs) ;;
  lift (Spectrum (n_sfs st) (negb (a_finite_genome a))).

Definition neutral_rest (E : collaborators) (inner fuel : nat) (b : neutral_args)
    (cs : neutral_ctx * neutral_state) : run spectrum :=
  st <~ neutral_loop E inner fuel (fst cs) (snd cs) ;;
  lift (Spectrum (m_sfs st) (negb (b_finite_genome b))).

(** One more pass from a head, if the loop goes on there. *)
Definition nomig_next (E : collaborators) (inner : nat) (cs : nomig_ctx * nomig_state)
  : run (nomig_ctx * nomig_state) :=
  if Qcltb (n_t (snd cs)) (c_Tmax (fst cs)) then
    st1 <~ nomig_iter E inner (fst cs) (snd cs) ;; ret (fst cs, st1)
  else ret cs.

Definition neutral_next (E : collaborators) (inner : nat) (cs : neutral_ctx * neutral_state)
  : run (neutral_ctx * neutral_state) :=
  if Qcltb (m_t (snd cs)) (d_Tmax (fst cs)) then
    st1 <~ neutral_iter E inner (fst cs) (snd cs) ;; ret (fst cs, st1)
  else ret cs.


(* ------------------------------------------------------------------ *)
(** ** The sizes a call tests *)

(** The tests of a log, each with its time, the latest first. *)
Definition tests (log : list event) : list (Qc * vec) :=
  flat_map (fun ev => match ev with EvSizes t N => [(t, N)] | _ => [] end) log.

(** The time at which the sizes are taken in a pass entered at [t] when the
    step tried is the proposal [p] halved [i] times: [(t + dt) / 2.0]. *)
Definition trial_time (t p : Qc) (i : nat) : Qc := (t + halved i p) / two.

(** The sizes of [f] at the trials listed, where [f] returns. *)
Definition trial_tests (f : Qc -> outcome vec) (t p : Qc) (trials : list nat)
  : list (Qc * vec) :=
  flat_map (fun i => match f (trial_time t p i) with
                     | Ok N => [(trial_time t p i, N)]
                     | _ => []
                     end) trials.

(** A run that only adds to the log. *)
Definition grows {A : Type} (c : run A) : Prop :=
  forall log, exists more, fst (c log) = more ++ log.

(** One population of size -1. *)
Definition sample_nomig_negative : nomig_args :=
  {| a_sfs0 := sample_sfs_1d;
     a_Npop := NConst [- (1)];
     a_tf := 1;
     a_dt_fac := Q2Qc (1 # 4);
     a_gamma := CNone;
     a_h := CNone;
     a_theta := RScalar 1;
     a_finite_genome := false;
     a_theta_fd := None;
     a_theta_bd := None;
     a_frozen := [false] |}.

(** [integrate_neutral] on one population whose size is 1 up to time 1/4
    and -1 afterwards. *)
Definition sample_neutral_shrinking : neutral_args :=
  {| b_sfs0 := sample_sfs_1d;
     b_Npop := NFun (fun t => [if Qcleb t (Q2Qc (1 # 4)) then 1 else - (1)]);
     b_tf := 1;
     b_dt_fac := Q2Qc (1 # 4);
     b_theta := RScalar 1;
     b_finite_genome := false;
     b_theta_fd := None;
     b_theta_bd := None;
     b_frozen := [false] |}.

(* ------------------------------------------------------------------ *)
(** ** Calls that return *)

(** The selection and the dominance of a state are those of the call at
    some one time. *)
Definition on_schedule (c : nomig_ctx) (st : nomig_state) : Prop :=
  exists tau,
    eval_sched (c_s c) tau = Ok (n_s_new st) /\ eval_sched (c_h c) tau = Ok (n_h_new st).

(** Sizes given as a vector of positive numbers, no frozen population, a
    positive [dt_fac], a step bound of at least [eps > 0] for the selection
    and dominance of the call at every time, and fuel for every step of the
    time loop up to [Tmax = 2 tf]. *)
Definition nomig_pace (E : collaborators) (a : nomig_args) (fuel : nat) : Prop :=
  exists N eps,
    a_Npop a = NConst N /\ all_positive N /\ any_frozen (a_frozen a) = false /\
    0 < eps /\
    (forall tau s h,
       eval_sched (normalize_gamma (rank (a_sfs0 a)) (a_gamma a)) tau = Ok s ->
       eval_sched (normalize_h (rank (a_sfs0 a)) (a_h a)) tau = Ok h ->
       eps <= compute_dt E N (Some s) (Some h)) /\
    0 < a_dt_fac a /\
    enough_fuel fuel (a_tf a * two) (Qcmin eps (a_tf a * two * a_dt_fac a)).

(** The same for [integrate_neutral], which asks for the step bound without
    selection. *)
Definition neutral_pace (E : collaborators) (b : neutral_args) (fuel : nat) : Prop :=
  exists N eps,
    b_Npop b = NConst N /\ all_positive N /\ any_frozen (b_frozen b) = false /\
    0 < eps /\ eps <= compute_dt E N None None /\
    0 < b_dt_fac b /\
    enough_fuel fuel (b_tf b * two) (Qcmin eps (b_tf b * two * b_dt_fac b)).

(* ------------------------------------------------------------------ *)
(** ** A size that jumps between two tests *)

(** One population whose size is 1 up to time 3/40 and 6/5 afterwards,
    half a unit of time, [dt_fac = 0.1]: every step is the cap
    [Tmax * dt_fac = 1/10], and the sizes are taken at the times 1/20, 1/10,
    3/20, ... *)
Definition sample_nomig_jump : nomig_args :=
  {| a_sfs0 := sample_sfs_1d;
     a_Npop := NFun (fun t => [if Qcleb t (Q2Qc (3 # 40)) then 1 else Q2Qc (6 # 5)]);
     a_tf := half;
     a_dt_fac := Q2Qc (1 # 10);
     a_gamma := CNone;
     a_h := CNone;
     a_theta := RScalar 1;
     a_finite_genome := false;
     a_theta_fd := None;
     a_theta_bd := None;
     a_frozen := [false] |}.

Fixpoint list_eqb {A : Type} (eqb : A -> A -> bool) (l1 l2 : list A) : bool :=
  match l1, l2 with
  | [], [] => true
  | x :: l1', y :: l2' => eqb x y && list_eqb eqb l1' l2'
  | _, _ => false
  end.

(** Equality of two lists of matrices, entry by entry. *)
Definition operators_eqb (A B : list matrix) : bool := list_eqb (list_eqb vec_eqb) A B.

(** What the third pass of [integrate_nomig] on [sample_nomig_jump] does:
    the sizes, the step, the selection and the dominance are those of the
    second pass, so the operators of the second pass are kept; they were
    built for the effective size 11/10 of the second pass, the third has
    6/5; the drift operator for 6/5 is another one, and the spectrum it
    gives is another one. *)
Definition stale_operators (E : collaborators) (c : nomig_ctx) (st2 st3 : nomig_state)
  : bool :=
  vec_eqb (n_N st3) (n_N st2) && Qceqb (n_dt st3) (n_dt st2) &&
  vec_eqb (n_s_new st3) (n_s_new st2) && vec_eqb (n_h_new st3) (n_h_new st2) &&
  operators_eqb (n_D st3) (n_D st2) &&
  vec_eqb (n_Neff st2) [Q2Qc (11 # 10)] && vec_eqb (n_Neff st3) [Q2Qc (6 # 5)] &&
  match nomig_operators c (n_Neff st3) (n_s_new st3) (n_h_new st3) (n_dt st3) with
  | Ok (D, _, _, slv, Q) =>
      negb (operators_eqb D (n_D st3)) &&
      match nomig_update E (length (c_dims c)) (n_dt st3) (c_B c) Q slv (n_sfs st2) with
      | Ok sfs => negb (vec_eqb (data sfs) (data (n_sfs st3)))
      | _ => false
      end
  | _ => false
  end.

(** The last clause of C4 as the specification words it: in every pass of
    the time loop of a call the operators in use are those of the governing
    parameters of the pass, its effective sizes, selection, dominance and
    step. *)
Definition operators_follow_parameters : Prop :=
  forall (E : collaborators) (fuel n : nat) (a : nomig_args) (log log' log1 : list event)
         (c : nomig_ctx) (st st1 : nomig_state),
    nomig_head E fuel n a log = (log', Ok (c, st)) ->
    n_t st < c_Tmax c ->
    nomig_iter E fuel c st log' = (log1, Ok st1) ->
    operators_built_for c st1 (n_Neff st1).

(** What C4's theorem says of a pass from [st] to [st1]. *)
Definition rebuild_verdict (E : collaborators) (c : nomig_ctx) (st st1 : nomig_state)
  : Prop :=
  (parameters_changed st st1 -> operators_built_for c st1 (n_Neff st1)) /\
  (~ parameters_changed st st1 ->
     n_D st1 = n_D st /\ n_S1 st1 = n_S1 st /\ n_S2 st1 = n_S2 st /\
     n_slv st1 = n_slv st /\ n_Q st1 = n_Q st) /\
  (exists slv Q,
     n_slv st1 = Some slv /\ n_Q st1 = Some Q /\
     nomig_update E (length (c_dims c)) (n_dt st1) (c_B c) Q slv (n_sfs st)
     = Ok (n_sfs st1)) /\
  (n_t st = 0 \/ (exists Neff, operators_built_for c st Neff) ->
     exists Neff, operators_built_for c st1 Neff) /\
  (forall Neff, ~ parameters_changed st st1 ->
     operators_built_for c st Neff -> operators_built_for c st1 Neff) /\
  (callable (c_Npop c) = false ->
     n_t st = 0 \/ operators_built_for c st (n_Neff st) ->
     operators_built_for c st1 (n_Neff st1)).

(* ------------------------------------------------------------------ *)
(** ** The clock in double precision

    The model above keeps the time [t] and the step [dt] as exact
    rationals.  The source keeps them as IEEE doubles; lines 564-569 and 657
    on doubles, for the stability bounds of the passes to come: *)

Module Double.
Import PrimFloat.

(** Lines 567-569: [min(bound, Tmax * dt_fac)], clipped to [Tmax - t]. *)
Definition step_proposed (bound Tmax dt_fac t : float) : float :=
  let cap := (Tmax * dt_fac)%float in
  let dt := if (cap <? bound)%float then cap else bound in
  if (Tmax <? t + dt)%float then (Tmax - t)%float else dt.

(** [while t < Tmax: ...; t += dt], one pass for each bound listed; the
    time reached and the passes made. *)
Fixpoint clock (bounds : list float) (Tmax dt_fac t : float) (passes : nat)
  : float * nat :=
  match bounds with
  | [] => (t, passes)
  | bound :: rest =>
      if (t <? Tmax)%float
      then clock rest Tmax dt_fac (t + step_proposed bound Tmax dt_fac t)%float (S passes)
      else (t, passes)
  end.

End Double.

(* ================================================================== *)
(** * Properties *)

Unset Implicit Arguments.

(* ------------------------------------------------------------------ *)
(** ** Lists and indices *)

Lemma item_Ok {A : Type} (l : list A) (i : nat) (d : A) :
  (i < length l)%nat -> item l i = Ok (nth i l d).
Proof.
  intros Hi. unfold item.
  destruct (nth_error l i) as [a|] eqn:Hn.
  - f_equal. symmetry. apply nth_error_nth. exact Hn.
  - apply nth_error_None in Hn. lia.
Qed.

Lemma item_inv {A : Type} (l : list A) (i : nat) (a : A) (d : A) :
  item l i = Ok a -> (i < length l)%nat /\ nth i l d = a.
Proof.
  unfold item. destruct (nth_error l i) as [x|] eqn:Hn; [|discriminate].
  intros [= <-]. split.
  - apply nth_error_Some. congruence.
  - apply nth_error_nth. exact Hn.
Qed.

Lemma list_set_spec {A : Type} (l : list A) (i : nat) (v d : A) :
  (i < length l)%nat ->
  exists l', list_set l i v = Ok l' /\ length l' = length l /\
             nth i l' d = v /\
             forall j, j <> i -> nth j l' d = nth j l d.
Proof.
  revert i. induction l as [|a l IH]; intros i Hi; simpl in Hi; [lia|].
  destruct i as [|i]; simpl.
  - exists (v :: l). repeat split. intros [|j] Hj; [congruence|reflexivity].
  - destruct (IH i) as (l' & -> & Hlen & Hnth & Hoth); [lia|].
    simpl. exists (a :: l'). repeat split; simpl; auto.
    intros [|j] Hj; [reflexivity|]. apply Hoth. congruence.
Qed.

Lemma list_set_out {A : Type} (l : list A) (i : nat) (v : A) :
  (length l <= i)%nat -> list_set l i v = Raise IndexError.
Proof.
  revert i. induction l as [|a l IH]; intros i Hi; simpl in *.
  - reflexivity.
  - destruct i as [|i]; [lia|]. rewrite IH by lia. reflexivity.
Qed.

Lemma ravel_bound (sh idx : list nat) :
  in_bounds sh idx = true -> (ravel sh idx < size_of sh)%nat.
Proof.
  revert idx. induction sh as [|d sh IH]; intros [|i idx] H; simpl in *;
    try discriminate; [lia|].
  apply andb_true_iff in H as [Hi Hr]. apply Nat.ltb_lt in Hi.
  specialize (IH _ Hr). fold (size_of sh). nia.
Qed.

Lemma ravel_inj (sh idx idx' : list nat) :
  in_bounds sh idx = true -> in_bounds sh idx' = true ->
  ravel sh idx = ravel sh idx' -> idx = idx'.
Proof.
  revert idx idx'. induction sh as [|d sh IH]; intros [|i idx] [|j idx'] H H' E;
    simpl in *; try discriminate; [reflexivity|].
  apply andb_true_iff in H as [Hi Hr], H' as [Hj Hr'].
  pose proof (ravel_bound _ _ Hr) as B. pose proof (ravel_bound _ _ Hr') as B'.
  assert (i = j) by nia. subst j.
  f_equal. apply IH; auto. lia.
Qed.

Lemma in_bounds_length (sh idx : list nat) :
  in_bounds sh idx = true -> length idx = length sh.
Proof.
  revert idx. induction sh as [|d sh IH]; intros [|i idx] H; simpl in *;
    try discriminate; [reflexivity|].
  apply andb_true_iff in H as [_ Hr]. f_equal. auto.
Qed.

Lemma in_bounds_nth (sh idx : list nat) :
  in_bounds sh idx = true <->
  length idx = length sh /\ forall k, (k < length sh)%nat -> (nth k idx 0 < nth k sh 0)%nat.
Proof.
  revert idx. induction sh as [|d sh IH]; intros [|i idx]; simpl.
  - split; [intros _; split; [reflexivity|intros; lia]|reflexivity].
  - split; [discriminate|intros [H _]; discriminate].
  - split; [discriminate|intros [H _]; discriminate].
  - rewrite andb_true_iff, Nat.ltb_lt, IH. split.
    + intros (Hi & Hl & Hk). split; [congruence|].
      intros [|k] Hlt; [exact Hi|]. apply Hk. lia.
    + intros (Hl & Hk). split; [apply (Hk 0%nat); lia|]. split; [congruence|].
      intros k Hlt. apply (Hk (S k)). lia.
Qed.

(* ------------------------------------------------------------------ *)
(** ** Arrays: reading after writing *)

Lemma nd_set_spec (a : ndarray) (idx : list nat) (v : Qc) :
  well_formed a -> in_bounds (shape a) idx = true ->
  exists a', nd_set a idx v = Ok a' /\ shape a' = shape a /\ well_formed a' /\
             nd_get a' idx = v /\
             forall idx', in_bounds (shape a) idx' = true -> idx' <> idx ->
                          nd_get a' idx' = nd_get a idx'.
Proof.
  intros Hwf Hin. unfold nd_set. rewrite Hin.
  pose proof (ravel_bound _ _ Hin) as Hb.
  destruct (list_set_spec (data a) (ravel (shape a) idx) v 0)
    as (l' & -> & Hlen & Hnth & Hoth); [unfold well_formed in Hwf; lia|].
  simpl. eexists. split; [reflexivity|]. unfold well_formed, nd_get. simpl.
  repeat split; auto; [congruence|].
  intros idx' Hin' Hne. apply Hoth. intros E. apply Hne.
  apply (ravel_inj (shape a)); auto.
Qed.

Lemma nth_repeat_0 (n i : nat) : nth i (repeat (0 : Qc) n) 0 = 0.
Proof.
  revert i. induction n as [|n IH]; intros [|i]; simpl; auto.
Qed.

Lemma nd_zeros_get (dims idx : list nat) : nd_get (nd_zeros dims) idx = 0.
Proof. unfold nd_get, nd_zeros. simpl. apply nth_repeat_0. Qed.

Lemma nd_zeros_wf (dims : list nat) : well_formed (nd_zeros dims).
Proof. unfold well_formed, nd_zeros. simpl. apply repeat_length. Qed.

(* ------------------------------------------------------------------ *)
(** ** The unit multi-indices *)

Lemma unit_index_length (n k : nat) : length (unit_index n k) = n.
Proof. unfold unit_index. rewrite length_map, length_seq. reflexivity. Qed.

Lemma unit_index_nth (n k j : nat) :
  (j < n)%nat -> nth j (unit_index n k) 0%nat = if (j =? k)%nat then 1%nat else 0%nat.
Proof.
  intros Hj. unfold unit_index.
  set (f := fun j => if (j =? k)%nat then 1%nat else 0%nat).
  rewrite (nth_indep _ 0%nat (f 0%nat)) by (rewrite length_map, length_seq; exact Hj).
  rewrite map_nth. rewrite seq_nth by exact Hj. reflexivity.
Qed.

Lemma unit_index_inj (n k k' : nat) :
  (k < n)%nat -> unit_index n k = unit_index n k' -> k = k'.
Proof.
  intros Hk E.
  assert (H : nth k (unit_index n k) 0%nat = nth k (unit_index n k') 0%nat) by congruence.
  rewrite !unit_index_nth in H by exact Hk.
  rewrite Nat.eqb_refl in H.
  destruct (Nat.eqb_spec k k'); [assumption|discriminate].
Qed.

Lemma unit_index_in_bounds (dims : list nat) (k : nat) :
  Forall (fun d => (2 <= d)%nat) dims -> in_bounds dims (unit_index (length dims) k) = true.
Proof.
  intros Hd. apply in_bounds_nth. split; [apply unit_index_length|].
  intros j Hj. rewrite unit_index_nth by exact Hj.
  rewrite Forall_forall in Hd.
  assert (2 <= nth j dims 0)%nat by (apply Hd, nth_In; exact Hj).
  destruct (j =? k)%nat; lia.
Qed.

(* ------------------------------------------------------------------ *)
(** ** [_calcB] *)

Lemma _calcB_loop_spec (dims : list nat) (u : vec) (ks : list nat) :
  Forall (fun d => (2 <= d)%nat) dims -> length u = length dims ->
  NoDup ks -> (forall k, In k ks -> (k < length dims)%nat) ->
  forall B, shape B = dims -> well_formed B ->
  exists B', _calcB_loop dims u ks B = Ok B' /\ shape B' = dims /\ well_formed B' /\
    (forall k, In k ks ->
       nd_get B' (unit_index (length dims) k)
       = of_Z (Z.of_nat (nth k dims 0%nat) - 1) * nth k u 0) /\
    (forall idx, in_bounds dims idx = true ->
       (forall k, In k ks -> idx <> unit_index (length dims) k) ->
       nd_get B' idx = nd_get B idx).
Proof.
  intros Hd Hu. induction ks as [|k ks IH]; intros Hnd Hks B Hsh Hwf; simpl.
  - exists B. repeat split; auto. intros k [].
  - apply NoDup_cons_iff in Hnd as [Hnotin Hnd'].
    assert (Hk : (k < length dims)%nat) by (apply Hks; left; reflexivity).
    rewrite (item_Ok dims k 0%nat) by exact Hk.
    rewrite (item_Ok u k 0) by (rewrite Hu; exact Hk). simpl.
    pose proof (unit_index_in_bounds dims k Hd) as Hin.
    rewrite <- Hsh in Hin at 1.
    destruct (nd_set_spec B _ (of_Z (Z.of_nat (nth k dims 0%nat) - 1) * nth k u 0) Hwf Hin)
      as (B1 & -> & Hsh1 & Hwf1 & Hget1 & Hoth1).
    rewrite Hsh in Hsh1, Hoth1, Hin. simpl.
    destruct (IH Hnd' (fun j Hj => Hks j (or_intror Hj)) B1 Hsh1 Hwf1)
      as (B' & HB' & Hsh' & Hwf' & Hval & Hoth).
    exists B'. split; [exact HB'|]. split; [exact Hsh'|]. split; [exact Hwf'|]. split.
    + intros j [<-|Hj]; [|apply Hval; exact Hj].
      rewrite Hoth; [exact Hget1|exact Hin|].
      intros j Hj E. apply unit_index_inj in E; [|exact Hk]. subst j. contradiction.
    + intros idx Hidx Hne. rewrite Hoth; [|exact Hidx|intros j Hj; apply Hne; right; exact Hj].
      apply Hoth1; [exact Hidx|]. apply Hne. left. reflexivity.
Qed.

Lemma calcB_returns (dims : list nat) (u : vec) :
  Forall (fun d => (2 <= d)%nat) dims -> length u = length dims ->
  exists B, _calcB dims u = Ok B.
Proof.
  intros Hd Hu. unfold _calcB.
  destruct (_calcB_loop_spec dims u (seq 0 (length dims)) Hd Hu (seq_NoDup _ _))
    with (B := nd_zeros dims) as (B & HB & _).
  - intros k Hk. apply in_seq in Hk. lia.
  - reflexivity.
  - apply nd_zeros_wf.
  - exists B. exact HB.
Qed.

(** C8. For a shape [dims] with every entry at least 2 and rates [u] of the
    same length, [_calcB(dims, u)] returns an array of shape [dims] whose
    entry at the multi-index with 1 at axis [k] and 0 elsewhere is
    [(dims[k] - 1) * u[k]], for each [k], and whose every other entry is
    zero. *)
Theorem calcB_singleton_bins (dims : list nat) (u : vec) :
  Forall (fun d => (2 <= d)%nat) dims -> length u = length dims ->
  exists B, _calcB dims u = Ok B /\ shape B = dims /\ well_formed B /\
    (forall k, (k < length dims)%nat ->
       nd_get B (unit_index (length dims) k)
       = of_Z (Z.of_nat (nth k dims 0%nat) - 1) * nth k u 0) /\
    (forall idx, in_bounds dims idx = true ->
       (forall k, (k < length dims)%nat -> idx <> unit_index (length dims) k) ->
       nd_get B idx = 0).
Proof.
  intros Hd Hu. unfold _calcB.
  destruct (_calcB_loop_spec dims u (seq 0 (length dims)) Hd Hu (seq_NoDup _ _))
    with (B := nd_zeros dims) as (B & HB & Hsh & Hwf & Hval & Hoth).
  - intros k Hk. apply in_seq in Hk. lia.
  - reflexivity.
  - apply nd_zeros_wf.
  - exists B. split; [exact HB|]. split; [exact Hsh|]. split; [exact Hwf|]. split.
    + intros k Hk. apply Hval. apply in_seq. lia.
    + intros idx Hidx Hne. rewrite Hoth; [apply nd_zeros_get|exact Hidx|].
      intros k Hk. apply Hne. apply in_seq in Hk. lia.
Qed.

(** C8 at the shape [(3, 4)] with rates [(1/4, 1/2)]. *)
Lemma calcB_singleton_bins_witness :
  exists B, _calcB [3; 4]%nat [Q2Qc (1 # 4); Q2Qc (1 # 2)] = Ok B /\
    shape B = [3; 4]%nat /\ well_formed B /\
    (forall k, (k < 2)%nat ->
       nd_get B (unit_index 2 k)
       = of_Z (Z.of_nat (nth k [3; 4]%nat 0%nat) - 1)
         * nth k [Q2Qc (1 # 4); Q2Qc (1 # 2)] 0) /\
    (forall idx, in_bounds [3; 4]%nat idx = true ->
       (forall k, (k < 2)%nat -> idx <> unit_index 2 k) ->
       nd_get B idx = 0).
Proof.
  apply (calcB_singleton_bins [3; 4]%nat [Q2Qc (1 # 4); Q2Qc (1 # 2)]).
  - repeat constructor.
  - reflexivity.
Defined.

(* ------------------------------------------------------------------ *)
(** ** Row-major enumeration of the multi-indices *)

Lemma indices_length (sh : list nat) : length (indices sh) = size_of sh.
Proof.
  induction sh as [|d sh IH]; simpl; [reflexivity|].
  fold (size_of sh). generalize 0%nat as s.
  induction d as [|d IHd]; intros s; simpl; [reflexivity|].
  rewrite length_app, length_map, IH, IHd. reflexivity.
Qed.

Lemma nth_flat_map_uniform {A : Type} (g : nat -> list A) (P s n i r : nat) (d : A) :
  (forall j, length (g j) = P) -> (i < n)%nat -> (r < P)%nat ->
  nth (i * P + r) (flat_map g (seq s n)) d = nth r (g (s + i)%nat) d.
Proof.
  intros Hg. revert s i. induction n as [|n IH]; intros s i Hi Hr; [lia|].
  simpl. destruct i as [|i].
  - simpl. rewrite app_nth1 by (rewrite Hg; exact Hr). rewrite Nat.add_0_r. reflexivity.
  - rewrite app_nth2 by (rewrite Hg; simpl; lia).
    rewrite Hg. replace (S i * P + r - P)%nat with (i * P + r)%nat by (simpl; lia).
    rewrite IH by lia. f_equal. f_equal. lia.
Qed.

Lemma indices_nth (sh idx : list nat) (d : list nat) :
  in_bounds sh idx = true -> nth (ravel sh idx) (indices sh) d = idx.
Proof.
  revert idx. induction sh as [|n sh IH]; intros [|i idx] H; simpl in *;
    try discriminate; [reflexivity|].
  apply andb_true_iff in H as [Hi Hr]. apply Nat.ltb_lt in Hi.
  fold (size_of sh).
  rewrite (nth_flat_map_uniform _ (size_of sh)).
  - simpl. pose proof (ravel_bound _ _ Hr) as Hb.
    rewrite (nth_indep _ d (i :: d))
      by (rewrite length_map, indices_length; exact Hb).
    rewrite (map_nth (cons i)). rewrite IH by exact Hr. reflexivity.
  - intros j. rewrite length_map. apply indices_length.
  - exact Hi.
  - apply ravel_bound. exact Hr.
Qed.

Lemma indices_unravel (sh : list nat) (p : nat) (d : list nat) :
  (p < size_of sh)%nat ->
  in_bounds sh (nth p (indices sh) d) = true /\ ravel sh (nth p (indices sh) d) = p.
Proof.
  revert p. induction sh as [|n sh IH]; intros p Hp; simpl in *.
  - assert (p = 0)%nat by lia. subst. simpl. split; reflexivity.
  - fold (size_of sh) in *. set (P := size_of sh) in *.
    assert (HP : (0 < P)%nat) by (destruct P; lia).
    assert (Hq : (p / P < n)%nat) by (apply Nat.Div0.div_lt_upper_bound; lia).
    assert (Hr : (p mod P < P)%nat) by (apply Nat.mod_upper_bound; lia).
    assert (Hp' : p = (p / P * P + p mod P)%nat)
      by (rewrite (Nat.div_mod_eq p P) at 1; lia).
    revert Hq Hr Hp'. generalize (p / P)%nat as q, (p mod P)%nat as r.
    intros q r Hq Hr ->.
    rewrite (nth_flat_map_uniform _ P) by
      (try (intros j; rewrite length_map; apply indices_length); assumption).
    simpl.
    rewrite (nth_indep _ d (q :: d))
      by (rewrite length_map, indices_length; exact Hr).
    rewrite (map_nth (cons q)).
    destruct (IH _ Hr) as [Hin Hrav]. rewrite Hin, Hrav.
    split; [|reflexivity]. apply andb_true_iff. split; [apply Nat.ltb_lt; exact Hq|reflexivity].
Qed.

Lemma indices_in_bounds (sh idx : list nat) :
  In idx (indices sh) -> in_bounds sh idx = true.
Proof.
  intros Hin. destruct (In_nth _ _ [] Hin) as (p & Hp & <-).
  rewrite indices_length in Hp. apply indices_unravel. exact Hp.
Qed.

Lemma nd_get_build (sh : list nat) (f : list nat -> Qc) (idx : list nat) :
  in_bounds sh idx = true -> nd_get (nd_build sh f) idx = f idx.
Proof.
  intros H. unfold nd_get, nd_build. simpl.
  pose proof (ravel_bound _ _ H) as Hb.
  rewrite (nth_indep _ 0 (f [])) by (rewrite length_map, indices_length; exact Hb).
  rewrite map_nth. rewrite indices_nth by exact H. reflexivity.
Qed.

Lemma nd_build_wf (sh : list nat) (f : list nat -> Qc) : well_formed (nd_build sh f).
Proof. unfold well_formed, nd_build. simpl. rewrite length_map. apply indices_length. Qed.

Lemma nd_build_ext (sh : list nat) (f g : list nat -> Qc) :
  (forall idx, in_bounds sh idx = true -> f idx = g idx) ->
  nd_build sh f = nd_build sh g.
Proof.
  intros H. unfold nd_build. f_equal. apply map_ext_in.
  intros idx Hin. apply H. apply indices_in_bounds. exact Hin.
Qed.

Lemma nd_build_get (a : ndarray) :
  well_formed a -> nd_build (shape a) (nd_get a) = a.
Proof.
  intros Hwf. destruct a as [sh dat]. unfold nd_build, well_formed in *. simpl in *.
  f_equal. apply (nth_ext _ _ 0 0).
  - rewrite length_map, indices_length. symmetry. exact Hwf.
  - intros p Hp. rewrite length_map, indices_length in Hp.
    rewrite (nth_indep _ 0 (nd_get (mk_nd sh dat) []))
      by (rewrite length_map, indices_length; exact Hp).
    rewrite map_nth. unfold nd_get. simpl.
    destruct (indices_unravel sh p [] Hp) as [_ ->]. reflexivity.
Qed.

(** An array is determined by its shape and its entries. *)
Lemma nd_build_eq (a : ndarray) (f : list nat -> Qc) :
  well_formed a ->
  (forall idx, in_bounds (shape a) idx = true -> f idx = nd_get a idx) ->
  nd_build (shape a) f = a.
Proof.
  intros Hwf H. rewrite (nd_build_ext _ _ _ H). apply nd_build_get. exact Hwf.
Qed.

(* ------------------------------------------------------------------ *)
(** ** The identity operator in the splitting *)

Lemma dotprod_cons (x y : Qc) (a b : vec) :
  dotprod (x :: a) (y :: b) = x * y + dotprod a b.
Proof. reflexivity. Qed.

Lemma dotprod_delta (i n s : nat) (v : vec) :
  length v = n ->
  dotprod (map (fun j => if (i =? j)%nat then 1 else 0) (seq s n)) v
  = if ((s <=? i) && (i <? s + n))%nat then nth (i - s) v 0 else 0.
Proof.
  revert s v. induction n as [|n IH]; intros s v Hv.
  - simpl. destruct ((s <=? i) && (i <? s + 0))%nat eqn:E; [|reflexivity].
    apply andb_true_iff in E as [E1 E2].
    apply Nat.leb_le in E1. apply Nat.ltb_lt in E2. lia.
  - destruct v as [|x v]; [discriminate|]. injection Hv as Hv.
    cbn [seq map]. rewrite dotprod_cons, (IH (S s) v Hv).
    destruct (Nat.eqb_spec i s) as [->|Hne].
    + rewrite Nat.leb_refl. replace (s <? s + S n)%nat with true
        by (symmetry; apply Nat.ltb_lt; lia).
      replace (S s <=? s)%nat with false by (symmetry; apply Nat.leb_gt; lia).
      rewrite Nat.sub_diag. simpl. ring.
    + destruct (Nat.leb_spec (S s) i) as [Hle|Hgt].
      * replace (s <=? i)%nat with true by (symmetry; apply Nat.leb_le; lia).
        replace (i <? s + S n)%nat with (i <? S s + n)%nat by (f_equal; lia).
        cbn [andb Nat.add]. destruct (i <? S (s + n))%nat; [|ring].
        replace (i - s)%nat with (S (i - S s)) by lia. simpl. ring.
      * replace (s <=? i)%nat with false by (symmetry; apply Nat.leb_gt; lia).
        simpl. ring.
Qed.

Lemma identity_row (d i : nat) :
  (i < d)%nat ->
  nth i (identity d) [] = map (fun j => if (i =? j)%nat then 1 else 0) (seq 0 d).
Proof.
  intros Hi. unfold identity.
  set (f := fun i0 => map (fun j => if (i0 =? j)%nat then 1 else 0) (seq 0 d)).
  rewrite (nth_indep _ [] (f 0%nat)) by (rewrite length_map, length_seq; exact Hi).
  rewrite map_nth, seq_nth by exact Hi. reflexivity.
Qed.

Lemma identity_nrows (d : nat) : nrows (identity d) = d.
Proof. unfold nrows, identity. rewrite length_map, length_seq. reflexivity. Qed.

Lemma dotprod_identity_row (d i : nat) (v : vec) :
  (i < d)%nat -> length v = d -> dotprod (nth i (identity d) []) v = nth i v 0.
Proof.
  intros Hi Hv. rewrite identity_row by exact Hi. rewrite dotprod_delta by exact Hv.
  simpl. replace (i <? d)%nat with true by (symmetry; apply Nat.ltb_lt; exact Hi).
  rewrite Nat.sub_0_r. reflexivity.
Qed.

Lemma in_bounds_2 (d0 d1 : nat) (idx : list nat) :
  in_bounds [d0; d1] idx = true ->
  exists i j, idx = [i; j] /\ (i < d0)%nat /\ (j < d1)%nat.
Proof.
  destruct idx as [|i [|j [|? ?]]]; simpl; try discriminate.
  - rewrite andb_false_r. discriminate.
  - rewrite andb_true_r, andb_true_iff, !Nat.ltb_lt. intros [H0 H1].
    exists i, j. auto.
  - rewrite !andb_false_r. discriminate.
Qed.

Lemma nd_dot_identity_2d (a : ndarray) (d0 d1 : nat) :
  well_formed a -> shape a = [d0; d1] -> nd_dot (identity d0) a = Ok a.
Proof.
  intros Hwf Hsh. unfold nd_dot. rewrite Hsh, identity_nrows. f_equal.
  rewrite <- Hsh. apply nd_build_eq; [exact Hwf|].
  intros idx Hidx. rewrite Hsh in Hidx.
  destruct (in_bounds_2 _ _ _ Hidx) as (i & j & -> & Hi & Hj).
  rewrite dotprod_identity_row; [|exact Hi|rewrite length_map, length_seq; reflexivity].
  set (f := fun k => nd_get a [k; j]).
  rewrite (nth_indep _ 0 (f 0%nat)) by (rewrite length_map, length_seq; exact Hi).
  rewrite map_nth, seq_nth by exact Hi. reflexivity.
Qed.

Lemma nd_transpose_2d (a : ndarray) (d0 d1 : nat) :
  shape a = [d0; d1] ->
  nd_transpose a [1; 0]%nat
  = nd_build [d1; d0] (fun idx => nd_get a [nth 1 idx 0%nat; nth 0 idx 0%nat]).
Proof. intros Hsh. unfold nd_transpose, rank. rewrite Hsh. reflexivity. Qed.

Lemma nd_transpose_2d_involutive (a : ndarray) (d0 d1 : nat) :
  well_formed a -> shape a = [d0; d1] ->
  nd_transpose (nd_transpose a [1; 0]%nat) [1; 0]%nat = a.
Proof.
  intros Hwf Hsh.
  rewrite (nd_transpose_2d (nd_transpose a [1; 0]%nat) d1 d0)
    by (rewrite (nd_transpose_2d a d0 d1 Hsh); reflexivity).
  rewrite <- Hsh. apply nd_build_eq; [exact Hwf|].
  intros idx Hidx. rewrite Hsh in Hidx.
  destruct (in_bounds_2 _ _ _ Hidx) as (i & j & -> & Hi & Hj).
  rewrite (nd_transpose_2d a d0 d1 Hsh). simpl nth.
  rewrite nd_get_build; [reflexivity|].
  simpl. apply andb_true_iff. split; [apply Nat.ltb_lt; exact Hj|].
  rewrite andb_true_r. apply Nat.ltb_lt. exact Hi.
Qed.

(** C9. The explicit splitting driver [_update_step1], given the identity
    matrix as the operator of both axes, returns a 2-D array unchanged. *)
Theorem update_step1_identity (sfs : ndarray) (d0 d1 : nat) :
  well_formed sfs -> shape sfs = [d0; d1] ->
  _update_step1 sfs [identity d0; identity d1] = Ok sfs.
Proof.
  intros Hwf Hsh. unfold _update_step1, for_range, rank. rewrite Hsh.
  cbn [length Nat.eqb assert bind seq for_each Nat.add].
  rewrite Hsh. cbn [length _ud1].
  unfold _ud1_2pop_1. cbn [item nth_error bind].
  rewrite (nd_dot_identity_2d sfs d0 d1 Hwf Hsh).
  cbn [bind]. rewrite Hsh. cbn [length _ud1].
  unfold _ud1_2pop_2. cbn [item nth_error bind].
  rewrite (nd_dot_identity_2d (nd_transpose sfs [1; 0]%nat) d1 d0).
  - cbn [bind]. rewrite (nd_transpose_2d_involutive sfs d0 d1 Hwf Hsh). reflexivity.
  - rewrite (nd_transpose_2d sfs d0 d1 Hsh). apply nd_build_wf.
  - rewrite (nd_transpose_2d sfs d0 d1 Hsh). reflexivity.
Qed.

(** C9 on a concrete 2 by 3 array. *)
Lemma update_step1_identity_witness :
  let sfs := mk_nd [2; 3]%nat (map of_nat [1; 2; 3; 4; 5; 6]%nat) in
  _update_step1 sfs [identity 2; identity 3] = Ok sfs.
Proof.
  apply update_step1_identity; reflexivity.
Defined.

(* ------------------------------------------------------------------ *)
(** ** Elementwise operations *)

Lemma nth_map_combine {A B C : Type} (f : A -> B -> C) (a : list A) (b : list B)
    (k : nat) (da : A) (db : B) (dc : C) :
  (k < length a)%nat -> length a = length b ->
  nth k (map (fun p => f (fst p) (snd p)) (combine a b)) dc = f (nth k a da) (nth k b db).
Proof.
  revert b k. induction a as [|x a IH]; intros [|y b] k Hk Hl; simpl in *;
    try lia; try discriminate.
  destruct k as [|k]; [reflexivity|]. apply IH; lia.
Qed.

Lemma length_map_combine {A B C : Type} (f : A * B -> C) (a : list A) (b : list B) :
  length a = length b -> length (map f (combine a b)) = length a.
Proof. intros H. rewrite length_map, length_combine, <- H. apply Nat.min_id. Qed.

Lemma broadcast2_same {A B C : Type} (f : A -> B -> C) (a : list A) (b : list B) :
  length a = length b ->
  broadcast2 f a b = Ok (map (fun p => f (fst p) (snd p)) (combine a b)).
Proof. intros H. unfold broadcast2. rewrite H, Nat.eqb_refl. reflexivity. Qed.

Lemma inplace2_same {A B : Type} (f : A -> B -> A) (a : list A) (b : list B) :
  length a = length b ->
  inplace2 f a b = Ok (map (fun p => f (fst p) (snd p)) (combine a b)).
Proof. intros H. unfold inplace2. rewrite H, Nat.eqb_refl. reflexivity. Qed.

(* ------------------------------------------------------------------ *)
(** ** Frozen populations *)

Lemma any_frozen_false (frozen : list bool) (k : nat) :
  any_frozen frozen = false -> nth k frozen false = false.
Proof.
  unfold any_frozen. revert k. induction frozen as [|b fr IH]; intros k H; simpl in *.
  - destruct k; reflexivity.
  - apply orb_false_iff in H as [-> H]. destruct k; [reflexivity|]. apply IH. exact H.
Qed.

Lemma frozen_pops_In (frozen : list bool) (k : nat) :
  In k (frozen_pops frozen) <-> (k < length frozen)%nat /\ nth k frozen false = true.
Proof.
  unfold frozen_pops. rewrite filter_In, in_seq. intuition lia.
Qed.

Lemma one_minus_frozen_length (frozen : list bool) :
  length (one_minus_frozen frozen) = length frozen.
Proof. apply length_map. Qed.

Lemma frozen_num_length (frozen : list bool) :
  length (frozen_num frozen) = length frozen.
Proof. apply length_map. Qed.

Lemma one_minus_frozen_nth (frozen : list bool) (k : nat) :
  (k < length frozen)%nat ->
  nth k (one_minus_frozen frozen) 0 = if nth k frozen false then 0 else 1.
Proof.
  intros Hk. unfold one_minus_frozen.
  set (f := fun b : bool => if b then 0 else 1).
  rewrite (nth_indep _ 0 (f false)) by (rewrite length_map; exact Hk).
  rewrite map_nth. reflexivity.
Qed.

Lemma frozen_num_nth (frozen : list bool) (k : nat) :
  (k < length frozen)%nat ->
  nth k (frozen_num frozen) 0 = if nth k frozen false then 1 else 0.
Proof.
  intros Hk. unfold frozen_num.
  set (f := fun b : bool => if b then 1 else 0).
  rewrite (nth_indep _ 0 (f false)) by (rewrite length_map; exact Hk).
  rewrite map_nth. reflexivity.
Qed.

Lemma for_each_list_set (ks : list nat) (value : Qc) (x : vec) :
  (forall k, In k ks -> (k < length x)%nat) ->
  exists x', for_each ks (fun k x => list_set x k value) x = Ok x' /\
             length x' = length x /\
             forall j, nth j x' 0 = if existsb (Nat.eqb j) ks then value else nth j x 0.
Proof.
  revert x. induction ks as [|k ks IH]; intros x Hks; simpl.
  - exists x. auto.
  - destruct (list_set_spec x k value 0) as (x1 & -> & Hlen & Hnth & Hoth);
      [apply Hks; left; reflexivity|].
    simpl. destruct (IH x1) as (x' & -> & Hlen' & Hval).
    { intros j Hj. rewrite Hlen. apply Hks. right. exact Hj. }
    exists x'. split; [reflexivity|]. split; [congruence|].
    intros j. rewrite Hval.
    destruct (existsb (Nat.eqb j) ks); [rewrite orb_true_r; reflexivity|].
    rewrite orb_false_r. destruct (Nat.eqb_spec j k) as [->|Hne]; [exact Hnth|].
    apply Hoth. exact Hne.
Qed.

Lemma existsb_frozen_pops (frozen : list bool) (j : nat) :
  existsb (Nat.eqb j) (frozen_pops frozen) = nth j frozen false.
Proof.
  destruct (existsb (Nat.eqb j) (frozen_pops frozen)) eqn:E.
  - apply existsb_exists in E as (k & Hin & Hk). apply Nat.eqb_eq in Hk. subst k.
    apply frozen_pops_In in Hin. symmetry. apply Hin.
  - destruct (nth j frozen false) eqn:F; [|reflexivity].
    assert (Hj : (j < length frozen)%nat).
    { destruct (Nat.lt_ge_cases j (length frozen)) as [H|H]; [exact H|].
      rewrite nth_overflow in F by exact H. discriminate. }
    assert (Hex : existsb (Nat.eqb j) (frozen_pops frozen) = true).
    { apply existsb_exists. exists j. split; [|apply Nat.eqb_refl].
      apply frozen_pops_In. auto. }
    congruence.
Qed.

(** [for pop_num in frozen_pops: x[pop_num] = value] on a vector with one
    entry per population. *)
Lemma set_frozen_spec (frozen : list bool) (value : Qc) (x : vec) :
  length frozen = length x ->
  exists x', set_frozen frozen value x = Ok x' /\ length x' = length x /\
             forall k, nth k x' 0 = if nth k frozen false then value else nth k x 0.
Proof.
  intros Hl. unfold set_frozen.
  destruct (for_each_list_set (frozen_pops frozen) value x) as (x' & Hx & Hlen & Hval).
  - intros k Hk. apply frozen_pops_In in Hk. lia.
  - exists x'. split; [exact Hx|]. split; [exact Hlen|].
    intros k. rewrite Hval, existsb_frozen_pops. reflexivity.
Qed.

(** [x * (1 - frozen)] *)
Lemma times_one_minus_frozen_nth (frozen : list bool) (x : vec) (k : nat) :
  length x = length frozen -> (k < length x)%nat ->
  nth k (map (fun p => fst p * snd p) (combine x (one_minus_frozen frozen))) 0
  = if nth k frozen false then 0 else nth k x 0.
Proof.
  intros Hl Hk.
  rewrite (nth_map_combine Qcmult x (one_minus_frozen frozen) k 0 0 0)
    by (rewrite ?one_minus_frozen_length; auto).
  rewrite one_minus_frozen_nth by lia.
  destruct (nth k frozen false); ring.
Qed.

(** [x * (1 - frozen) + 1e40 * frozen] *)
Lemma frozen_sizes_nth (frozen : list bool) (x : vec) (k : nat) :
  length x = length frozen -> (k < length x)%nat ->
  nth k (map (fun p => fst p + snd p)
           (combine (map (fun p => fst p * snd p) (combine x (one_minus_frozen frozen)))
                    (vscale frozen_size (frozen_num frozen)))) 0
  = if nth k frozen false then frozen_size else nth k x 0.
Proof.
  intros Hl Hk.
  assert (Hl1 : length (map (fun p => fst p * snd p) (combine x (one_minus_frozen frozen)))
                = length x)
    by (apply length_map_combine; rewrite one_minus_frozen_length; exact Hl).
  assert (Hl2 : length (vscale frozen_size (frozen_num frozen)) = length x)
    by (unfold vscale; rewrite length_map, frozen_num_length; auto).
  rewrite (nth_map_combine Qcplus _ _ k 0 0 0) by lia.
  rewrite times_one_minus_frozen_nth by assumption.
  unfold vscale.
  rewrite (nth_indep (map (Qcmult frozen_size) (frozen_num frozen)) 0 (frozen_size * 0))
    by (fold (vscale frozen_size (frozen_num frozen)); lia).
  rewrite (map_nth (Qcmult frozen_size)). rewrite frozen_num_nth by lia.
  destruct (nth k frozen false); ring.
Qed.

(* ------------------------------------------------------------------ *)
(** ** Normalised parameters *)

Lemma normalize_gamma_ok (np : nat) (c : coeff) :
  coeff_ok np c -> sched_ok np (normalize_gamma np c).
Proof.
  destruct c; simpl; intros H; try exact H.
  - apply repeat_length.
  - apply repeat_length.
  - intros t. eexists. split; [reflexivity|apply repeat_length].
  - intros t. eexists. split; [reflexivity|apply H].
Qed.

Lemma normalize_h_ok (np : nat) (c : coeff) :
  coeff_ok np c -> sched_ok np (normalize_h np c).
Proof.
  destruct c; simpl; intros H; try exact H.
  - unfold vscale, ones. rewrite length_map. apply repeat_length.
  - apply repeat_length.
  - intros t. eexists. split; [reflexivity|apply repeat_length].
  - intros t. eexists. split; [reflexivity|apply H].
Qed.

Lemma normalize_Npop_ok (np : nat) (Npop : popsize) :
  popsize_ok np Npop -> sched_ok np (normalize_Npop Npop).
Proof.
  destruct Npop; simpl; intros H; [exact H|].
  intros t. eexists. split; [reflexivity|apply H].
Qed.

Lemma rate_over_4_length (np : nat) (r : rate) :
  rate_ok np r -> length (rate_over_4 np r) = np.
Proof.
  destruct r; simpl; intros H; [apply repeat_length|].
  rewrite length_map. exact H.
Qed.

Lemma mutation_rates_spec (np : nat) (fg : bool) (theta : rate) (fd bd : option rate) :
  rate_ok np theta -> opt_rate_ok np fg fd -> opt_rate_ok np fg bd ->
  exists u v, mutation_rates np fg theta fd bd = Ok (u, v) /\ length u = np /\
              (fg = false -> v = None) /\
              (fg = true -> exists v', v = Some v' /\ length v' = np).
Proof.
  intros Ht Hfd Hbd. unfold mutation_rates. destruct fg; simpl in *.
  - destruct Hfd as (fd' & -> & Hfd), Hbd as (bd' & -> & Hbd). simpl.
    exists (rate_over_4 np fd'), (Some (rate_over_4 np bd')).
    split; [reflexivity|]. split; [apply rate_over_4_length; exact Hfd|].
    split; [discriminate|]. intros _. eexists. split; [reflexivity|].
    apply rate_over_4_length. exact Hbd.
  - exists (rate_over_4 np theta), None.
    split; [reflexivity|]. split; [apply rate_over_4_length; exact Ht|].
    split; [reflexivity|discriminate].
Qed.

Lemma sched_at_ok (np : nat) (s : sched) (t : Qc) (k : nat) :
  sched_ok np s -> (k < np)%nat ->
  exists v, eval_sched s t = Ok v /\ length v = np /\ sched_at s t k = Ok (nth k v 0).
Proof.
  intros Hs Hk. unfold sched_at. destruct s as [v|f]; simpl in *.
  - exists v. split; [reflexivity|]. split; [exact Hs|].
    apply item_Ok. rewrite Hs. exact Hk.
  - destruct (Hs t) as (v & Hv & Hl). exists v. split; [exact Hv|]. split; [exact Hl|].
    rewrite Hv. simpl. apply item_Ok. rewrite Hl. exact Hk.
Qed.

Lemma freeze_s_spec (np : nat) (frozen : list bool) (s : sched) :
  sched_ok np s -> length frozen = np ->
  exists s', freeze_s frozen s = Ok s' /\ sched_ok np s' /\ callable s' = callable s /\
    forall t k, (k < np)%nat ->
      sched_at s' t k = if nth k frozen false then Ok 0 else sched_at s t k.
Proof.
  intros Hs Hf. destruct s as [v|f]; simpl in *.
  - destruct (set_frozen_spec frozen 0 v) as (v' & -> & Hl & Hv); [congruence|].
    simpl. exists (SConst v'). split; [reflexivity|]. split; [simpl; congruence|].
    split; [reflexivity|]. intros t k Hk. unfold sched_at. simpl.
    rewrite (item_Ok v' k 0) by lia. rewrite (item_Ok v k 0) by lia. rewrite Hv.
    destruct (nth k frozen false); reflexivity.
  - eexists. split; [reflexivity|].
    assert (Hev : forall t, exists x,
               f t = Ok x /\ length x = np /\
               (x0 <- f t ;; broadcast2 Qcmult x0 (one_minus_frozen frozen))
               = Ok (map (fun p => fst p * snd p) (combine x (one_minus_frozen frozen)))).
    { intros t. destruct (Hs t) as (x & Hx & Hl). exists x. split; [exact Hx|].
      split; [exact Hl|]. rewrite Hx. simpl. apply broadcast2_same.
      rewrite one_minus_frozen_length. congruence. }
    split; [|split; [reflexivity|]].
    + intros t. destruct (Hev t) as (x & Hx & Hl & ->). eexists. split; [reflexivity|].
      rewrite length_map_combine; [exact Hl|]. rewrite one_minus_frozen_length. congruence.
    + intros t k Hk. unfold sched_at. simpl.
      destruct (Hev t) as (x & Hx & Hl & ->). rewrite Hx. simpl.
      rewrite (item_Ok _ k 0)
        by (rewrite length_map_combine; [lia|rewrite one_minus_frozen_length; congruence]).
      rewrite (item_Ok x k 0) by lia.
      rewrite times_one_minus_frozen_nth by (try lia; congruence).
      destruct (nth k frozen false); reflexivity.
Qed.

Lemma freeze_Npop_spec (np : nat) (frozen : list bool) (Npop : sched) :
  sched_ok np Npop -> length frozen = np ->
  exists N', freeze_Npop frozen Npop = Ok N' /\ sched_ok np N' /\
    callable N' = callable Npop /\
    forall t k, (k < np)%nat ->
      sched_at N' t k = if nth k frozen false then Ok frozen_size else sched_at Npop t k.
Proof.
  intros Hs Hf. destruct Npop as [v|f]; simpl in *.
  - destruct (set_frozen_spec frozen frozen_size v) as (v' & -> & Hl & Hv); [congruence|].
    simpl. exists (SConst v'). split; [reflexivity|]. split; [simpl; congruence|].
    split; [reflexivity|]. intros t k Hk. unfold sched_at. simpl.
    rewrite (item_Ok v' k 0) by lia. rewrite (item_Ok v k 0) by lia. rewrite Hv.
    destruct (nth k frozen false); reflexivity.
  - eexists. split; [reflexivity|].
    assert (Hev : forall t, exists x,
               f t = Ok x /\ length x = np /\
               (x0 <- f t ;;
                y <- broadcast2 Qcmult x0 (one_minus_frozen frozen) ;;
                broadcast2 Qcplus y (vscale frozen_size (frozen_num frozen)))
               = Ok (map (fun p => fst p + snd p)
                       (combine (map (fun p => fst p * snd p)
                                   (combine x (one_minus_frozen frozen)))
                                (vscale frozen_size (frozen_num frozen))))).
    { intros t. destruct (Hs t) as (x & Hx & Hl). exists x. split; [exact Hx|].
      split; [exact Hl|]. rewrite Hx. simpl.
      rewrite broadcast2_same by (rewrite one_minus_frozen_length; congruence).
      simpl. apply broadcast2_same.
      rewrite length_map_combine by (rewrite one_minus_frozen_length; congruence).
      unfold vscale. rewrite length_map, frozen_num_length. congruence. }
    assert (Hlen : forall x, length x = np ->
               length (map (fun p => fst p + snd p)
                         (combine (map (fun p => fst p * snd p)
                                     (combine x (one_minus_frozen frozen)))
                                  (vscale frozen_size (frozen_num frozen)))) = np).
    { intros x Hl. rewrite length_map_combine.
      - rewrite length_map_combine; [exact Hl|]. rewrite one_minus_frozen_length. congruence.
      - rewrite length_map_combine by (rewrite one_minus_frozen_length; congruence).
        unfold vscale. rewrite length_map, frozen_num_length. congruence. }
    split; [|split; [reflexivity|]].
    + intros t. destruct (Hev t) as (x & Hx & Hl & ->). eexists. split; [reflexivity|].
      apply Hlen. exact Hl.
    + intros t k Hk. unfold sched_at. simpl.
      destruct (Hev t) as (x & Hx & Hl & ->). rewrite Hx. simpl.
      rewrite (item_Ok _ k 0) by (rewrite Hlen; [exact Hk|exact Hl]).
      rewrite (item_Ok x k 0) by lia.
      rewrite frozen_sizes_nth by (try lia; congruence).
      destruct (nth k frozen false); reflexivity.
Qed.

Lemma freeze_rates_spec (np : nat) (frozen : list bool) (u : vec) (v : option vec) :
  length u = np -> (forall v', v = Some v' -> length v' = np) -> length frozen = np ->
  exists u' v', freeze_rates frozen (u, v) = Ok (u', v') /\ length u' = np /\
    (forall w, v' = Some w -> length w = np) /\
    (v = None <-> v' = None) /\
    (forall k, (k < np)%nat ->
       nth k u' 0 = (if nth k frozen false then 0 else nth k u 0) /\
       opt_nth k v' = if nth k frozen false then option_map (fun _ => 0) v
                      else opt_nth k v).
Proof.
  intros Hu Hv Hf. unfold freeze_rates. simpl.
  rewrite inplace2_same by (rewrite one_minus_frozen_length; congruence). simpl.
  assert (Hlu : length (map (fun p => fst p * snd p) (combine u (one_minus_frozen frozen)))
                = np)
    by (rewrite length_map_combine; [exact Hu|rewrite one_minus_frozen_length; congruence]).
  destruct v as [w|].
  - specialize (Hv w eq_refl).
    rewrite inplace2_same by (rewrite one_minus_frozen_length; congruence). simpl.
    eexists _, _. split; [reflexivity|]. split; [exact Hlu|]. split; [|split].
    + intros w' [= <-]. rewrite length_map_combine; [exact Hv|].
      rewrite one_minus_frozen_length. congruence.
    + split; discriminate.
    + intros k Hk. simpl.
      rewrite !times_one_minus_frozen_nth by (try lia; congruence).
      destruct (nth k frozen false); split; reflexivity.
  - eexists _, _. split; [reflexivity|]. split; [exact Hlu|]. split; [discriminate|].
    split; [split; reflexivity|].
    intros k Hk. simpl. rewrite times_one_minus_frozen_nth by (try lia; congruence).
    destruct (nth k frozen false); split; reflexivity.
Qed.

Lemma nomig_params_spec (a : nomig_args) :
  nomig_args_ok a ->
  let np := rank (a_sfs0 a) in
  exists p u0 v0,
    nomig_params a = Ok p /\
    mutation_rates np (a_finite_genome a) (a_theta a) (a_theta_fd a) (a_theta_bd a)
    = Ok (u0, v0) /\
    sched_ok np (p_s p) /\ sched_ok np (p_Npop p) /\
    callable (p_Npop p) = callable (normalize_Npop (a_Npop a)) /\
    callable (p_s p) = callable (normalize_gamma np (a_gamma a)) /\
    length (p_u p) = np /\
    (forall w, p_v p = Some w -> length w = np) /\
    (a_finite_genome a = false -> p_v p = None) /\
    (a_finite_genome a = true -> exists w, p_v p = Some w) /\
    forall k, (k < np)%nat ->
      population_params (nth k (a_frozen a) false) k p
        (normalize_Npop (a_Npop a)) (normalize_gamma np (a_gamma a)) u0 v0.
Proof.
  intros (Hin & Hg & Hh) np. destruct Hin as [Hwf Hdims HN Ht Hfd Hbd Hfr].
  fold np in HN, Ht, Hfd, Hbd, Hfr, Hg, Hh.
  destruct (mutation_rates_spec np _ _ _ _ Ht Hfd Hbd) as (u0 & v0 & Hm & Hu0 & Hnone & Hsome).
  pose proof (normalize_gamma_ok np _ Hg) as Hs.
  pose proof (normalize_Npop_ok np _ HN) as HNs.
  assert (Hv0 : forall w, v0 = Some w -> length w = np).
  { intros w ->. destruct (a_finite_genome a) eqn:E.
    - destruct (Hsome eq_refl) as (w' & [= <-] & Hl). exact Hl.
    - specialize (Hnone eq_refl). discriminate. }
  unfold nomig_params. fold np. rewrite Hm. cbn [bind].
  destruct (any_frozen (a_frozen a)) eqn:Hany.
  - destruct Hfr as [Hfr|Hfr]; [congruence|].
    destruct (freeze_s_spec np _ _ Hs Hfr) as (s' & -> & Hs' & Hcs & Hsat).
    destruct (freeze_Npop_spec np _ _ HNs Hfr) as (N' & -> & HN' & HcN & HNat).
    destruct (freeze_rates_spec np _ u0 v0 Hu0 Hv0 Hfr)
      as (u' & v' & -> & Hu' & Hv' & Hvn & Huv).
    cbn [bind fst snd]. eexists _, u0, v0. split; [reflexivity|]. cbn [p_s p_Npop p_u p_v].
    repeat (split; [assumption || reflexivity|]).
    split; [|split].
    + intros E. apply Hvn. apply Hnone. exact E.
    + intros E. destruct (Hsome E) as (w & -> & Hl).
      destruct v' as [w'|]; [eexists; reflexivity|].
      destruct Hvn as [_ Hvn]. specialize (Hvn eq_refl). discriminate.
    + intros k Hk. unfold population_params. cbn [p_s p_Npop p_u p_v].
      destruct (Huv k Hk) as [Hku Hkv].
      destruct (nth k (a_frozen a) false) eqn:Fk.
      * repeat split.
        -- intros t. rewrite HNat, Fk by exact Hk. reflexivity.
        -- intros t. rewrite Hsat, Fk by exact Hk. reflexivity.
        -- exact Hku.
        -- exact Hkv.
      * repeat split.
        -- intros t. rewrite HNat, Fk by exact Hk. reflexivity.
        -- intros t. rewrite Hsat, Fk by exact Hk. reflexivity.
        -- exact Hku.
        -- exact Hkv.
  - eexists _, u0, v0. split; [reflexivity|]. cbn [p_s p_Npop p_u p_v fst snd].
    repeat (split; [assumption || reflexivity|]).
    split; [intros E; destruct (Hsome E) as (w & -> & _); eauto|].
    intros k Hk. rewrite (any_frozen_false _ k Hany). unfold population_params.
    cbn [p_s p_Npop p_u p_v]. repeat split.
Qed.

Lemma neutral_params_spec (b : neutral_args) :
  neutral_args_ok b ->
  let np := rank (b_sfs0 b) in
  exists p u0 v0,
    neutral_params b = Ok p /\
    mutation_rates np (b_finite_genome b) (b_theta b) (b_theta_fd b) (b_theta_bd b)
    = Ok (u0, v0) /\
    sched_ok np (p_Npop p) /\
    callable (p_Npop p) = callable (normalize_Npop (b_Npop b)) /\
    length (p_u p) = np /\
    (forall w, p_v p = Some w -> length w = np) /\
    (b_finite_genome b = false -> p_v p = None) /\
    (b_finite_genome b = true -> exists w, p_v p = Some w) /\
    forall k, (k < np)%nat ->
      population_params_neutral (nth k (b_frozen b) false) k p
        (normalize_Npop (b_Npop b)) u0 v0.
Proof.
  intros Hin np. destruct Hin as [Hwf Hdims HN Ht Hfd Hbd Hfr].
  fold np in HN, Ht, Hfd, Hbd, Hfr.
  destruct (mutation_rates_spec np _ _ _ _ Ht Hfd Hbd) as (u0 & v0 & Hm & Hu0 & Hnone & Hsome).
  pose proof (normalize_Npop_ok np _ HN) as HNs.
  assert (Hv0 : forall w, v0 = Some w -> length w = np).
  { intros w ->. destruct (b_finite_genome b) eqn:E.
    - destruct (Hsome eq_refl) as (w' & [= <-] & Hl). exact Hl.
    - specialize (Hnone eq_refl). discriminate. }
  unfold neutral_params. fold np. rewrite Hm. cbn [bind].
  destruct (any_frozen (b_frozen b)) eqn:Hany.
  - destruct Hfr as [Hfr|Hfr]; [congruence|].
    destruct (freeze_Npop_spec np _ _ HNs Hfr) as (N' & -> & HN' & HcN & HNat).
    destruct (freeze_rates_spec np _ u0 v0 Hu0 Hv0 Hfr)
      as (u' & v' & -> & Hu' & Hv' & Hvn & Huv).
    cbn [bind fst snd]. eexists _, u0, v0. split; [reflexivity|]. cbn [p_s p_Npop p_u p_v].
    repeat (split; [assumption || reflexivity|]).
    split; [|split].
    + intros E. apply Hvn. apply Hnone. exact E.
    + intros E. destruct (Hsome E) as (w & -> & Hl).
      destruct v' as [w'|]; [eexists; reflexivity|].
      destruct Hvn as [_ Hvn]. specialize (Hvn eq_refl). discriminate.
    + intros k Hk. unfold population_params_neutral. cbn [p_s p_Npop p_u p_v].
      destruct (Huv k Hk) as [Hku Hkv].
      destruct (nth k (b_frozen b) false) eqn:Fk.
      * repeat split.
        -- intros t. rewrite HNat, Fk by exact Hk. reflexivity.
        -- exact Hku.
        -- exact Hkv.
      * repeat split.
        -- intros t. rewrite HNat, Fk by exact Hk. reflexivity.
        -- exact Hku.
        -- exact Hkv.
  - eexists _, u0, v0. split; [reflexivity|]. cbn [p_s p_Npop p_u p_v fst snd].
    repeat (split; [assumption || reflexivity|]).
    split; [intros E; destruct (Hsome E) as (w & -> & _); eauto|].
    intros k Hk. rewrite (any_frozen_false _ k Hany). unfold population_params_neutral.
    cbn [p_s p_Npop p_u p_v]. repeat split.
Qed.

(** C7. Before the time loop, both integrators force the size of every
    frozen population to [1e40] (the entry of the vector, or of every
    evaluation of the schedule), its selection coefficient to zero
    ([integrate_nomig]) and its mutation rates [u] (and [v]) to zero; the
    parameters of the other populations are those the caller gave. *)
Theorem frozen_populations_forced (a : nomig_args) (b : neutral_args) :
  nomig_args_ok a -> neutral_args_ok b ->
  (exists p u0 v0,
     nomig_params a = Ok p /\
     mutation_rates (rank (a_sfs0 a)) (a_finite_genome a) (a_theta a)
       (a_theta_fd a) (a_theta_bd a) = Ok (u0, v0) /\
     forall k, (k < rank (a_sfs0 a))%nat ->
       population_params (nth k (a_frozen a) false) k p
         (normalize_Npop (a_Npop a)) (normalize_gamma (rank (a_sfs0 a)) (a_gamma a))
         u0 v0) /\
  (exists p u0 v0,
     neutral_params b = Ok p /\
     mutation_rates (rank (b_sfs0 b)) (b_finite_genome b) (b_theta b)
       (b_theta_fd b) (b_theta_bd b) = Ok (u0, v0) /\
     forall k, (k < rank (b_sfs0 b))%nat ->
       population_params_neutral (nth k (b_frozen b) false) k p
         (normalize_Npop (b_Npop b)) u0 v0).
Proof.
  intros Ha Hb. split.
  - destruct (nomig_params_spec a Ha) as (p & u0 & v0 & Hp & Hm & H).
    exists p, u0, v0. split; [exact Hp|]. split; [exact Hm|]. apply H.
  - destruct (neutral_params_spec b Hb) as (p & u0 & v0 & Hp & Hm & H).
    exists p, u0, v0. split; [exact Hp|]. split; [exact Hm|]. apply H.
Qed.

Lemma sample_nomig_frozen_ok : nomig_args_ok sample_nomig_frozen.
Proof.
  split; [|split; exact I].
  constructor; simpl.
  - reflexivity.
  - repeat constructor.
  - intros t. reflexivity.
  - exact I.
  - exact I.
  - exact I.
  - right. reflexivity.
Qed.

Lemma sample_neutral_frozen_ok : neutral_args_ok sample_neutral_frozen.
Proof.
  constructor; simpl.
  - reflexivity.
  - repeat constructor.
  - reflexivity.
  - exact I.
  - eexists. split; [reflexivity|exact I].
  - eexists. split; [reflexivity|reflexivity].
  - right. reflexivity.
Qed.

(** C7 on two calls with one frozen population each. *)
Lemma frozen_populations_forced_witness :
  (exists p u0 v0,
     nomig_params sample_nomig_frozen = Ok p /\
     mutation_rates 2 false (RScalar 1) None None = Ok (u0, v0) /\
     forall k, (k < 2)%nat ->
       population_params (nth k [false; true] false) k p
         (normalize_Npop (a_Npop sample_nomig_frozen))
         (normalize_gamma 2 (CScalar 1)) u0 v0) /\
  (exists p u0 v0,
     neutral_params sample_neutral_frozen = Ok p /\
     mutation_rates 2 true (RScalar 1) (b_theta_fd sample_neutral_frozen)
       (b_theta_bd sample_neutral_frozen) = Ok (u0, v0) /\
     forall k, (k < 2)%nat ->
       population_params_neutral (nth k [true; false] false) k p
         (normalize_Npop (b_Npop sample_neutral_frozen)) u0 v0).
Proof.
  apply (frozen_populations_forced sample_nomig_frozen sample_neutral_frozen).
  - split; [|split; exact I].
    constructor; simpl;
      [reflexivity | repeat constructor | intros t; reflexivity
       | exact I | exact I | exact I | right; reflexivity].
  - constructor; simpl;
      [reflexivity | repeat constructor | reflexivity | exact I
       | eexists; split; [reflexivity|exact I]
       | eexists; split; reflexivity
       | right; reflexivity].
Defined.

(* ------------------------------------------------------------------ *)
(** ** Order on the rationals *)

(** Turns a goal on [Qc] into one on [Q], where [lra] applies. *)
Ltac qc_to_q :=
  unfold Qcle, Qclt in *;
  repeat (progress (unfold Qcminus, Qcplus, Qcmult, Qcopp, two, half, four in *;
                    cbn [this Q2Qc] in *;
                    repeat rewrite Qred_correct in * )).

Lemma Qcleb_true (x y : Qc) : Qcleb x y = true <-> x <= y.
Proof. unfold Qcleb. apply Qle_bool_iff. Qed.

Lemma Qcleb_false (x y : Qc) : Qcleb x y = false <-> y < x.
Proof.
  split.
  - intros H. apply Qcnot_le_lt. intros Hle. apply Qcleb_true in Hle. congruence.
  - intros H. destruct (Qcleb x y) eqn:E; [|reflexivity].
    apply Qcleb_true in E. exfalso. apply (Qclt_not_le _ _ H). exact E.
Qed.

Lemma Qcltb_true (x y : Qc) : Qcltb x y = true <-> x < y.
Proof.
  unfold Qcltb. rewrite negb_true_iff. apply (Qcleb_false y x).
Qed.

Lemma Qcltb_false (x y : Qc) : Qcltb x y = false <-> y <= x.
Proof.
  unfold Qcltb. rewrite negb_false_iff. apply (Qcleb_true y x).
Qed.

Lemma Qceqb_true (x y : Qc) : Qceqb x y = true <-> x = y.
Proof.
  unfold Qceqb. rewrite Qeq_bool_iff. split.
  - apply Qc_is_canon.
  - intros ->. reflexivity.
Qed.

Lemma Qceqb_refl (x : Qc) : Qceqb x x = true.
Proof. apply Qceqb_true. reflexivity. Qed.

Lemma any_nonpositive_false (N : vec) :
  any_nonpositive N = false <-> all_positive N.
Proof.
  unfold any_nonpositive, all_positive. induction N as [|x N IH]; simpl.
  - split; [constructor|reflexivity].
  - rewrite orb_false_iff, IH, Qcleb_false. split.
    + intros [H1 H2]. constructor; assumption.
    + intros H. inversion H; subst. split; assumption.
Qed.

Lemma any_nonpositive_true (N : vec) :
  any_nonpositive N = true <-> exists x, In x N /\ x <= 0.
Proof.
  unfold any_nonpositive. rewrite existsb_exists.
  split; intros (x & Hin & Hx); exists x; (split; [exact Hin|]); apply Qcleb_true; exact Hx.
Qed.

(* ------------------------------------------------------------------ *)
(** ** List comprehensions *)

Lemma mapM_spec {A B : Type} (f : A -> outcome B) (l : list A) (bs : list B) :
  mapM f l = Ok bs ->
  length bs = length l /\
  forall i da db, (i < length l)%nat -> f (nth i l da) = Ok (nth i bs db).
Proof.
  revert bs. induction l as [|a l IH]; intros bs H; simpl in H.
  - injection H as <-. split; [reflexivity|]. intros i da db Hi. simpl in Hi. lia.
  - destruct (f a) as [b| |] eqn:Hb; try discriminate. simpl in H.
    destruct (mapM f l) as [bs'| |]; try discriminate. simpl in H.
    injection H as <-. destruct (IH bs' eq_refl) as [Hl Hn].
    split; [simpl; congruence|].
    intros [|i] da db Hi; simpl in *; [exact Hb|]. apply Hn. lia.
Qed.

Lemma mapM_ok {A B : Type} (f : A -> outcome B) (l : list A) :
  (forall a, In a l -> exists b, f a = Ok b) ->
  exists bs, mapM f l = Ok bs.
Proof.
  induction l as [|a l IH]; intros H; simpl.
  - eexists. reflexivity.
  - destruct (H a) as (b & ->); [left; reflexivity|].
    destruct IH as (bs & ->); [intros x Hx; apply H; right; exact Hx|].
    simpl. eexists. reflexivity.
Qed.

Lemma comprehension_ok {A : Type} (n : nat) (f : nat -> outcome A) :
  (forall i, (i < n)%nat -> exists b, f i = Ok b) ->
  exists bs, comprehension n f = Ok bs /\ length bs = n /\
             forall i d, (i < n)%nat -> f i = Ok (nth i bs d).
Proof.
  intros H. unfold comprehension.
  destruct (mapM_ok f (seq 0 n)) as (bs & Hbs).
  - intros i Hi. apply in_seq in Hi. apply H. lia.
  - exists bs. split; [exact Hbs|].
    destruct (mapM_spec f _ bs Hbs) as [Hl Hn]. rewrite length_seq in Hl, Hn.
    split; [exact Hl|]. intros i d Hi.
    specialize (Hn i 0%nat d Hi). rewrite seq_nth in Hn by exact Hi. exact Hn.
Qed.

Lemma drift_ops_ok (np : nat) (N : vec) (vd : list matrix) :
  length N = np -> length vd = np ->
  exists D, drift_ops np N vd = Ok D /\ length D = np /\
    forall i, (i < np)%nat -> nth i D [] = mscale (1 / four / nth i N 0) (nth i vd []).
Proof.
  intros HN Hvd. unfold drift_ops.
  destruct (comprehension_ok np (fun i =>
              Ni <- item N i ;; vdi <- item vd i ;; Ok (mscale (1 / four / Ni) vdi)))
    as (D & HD & Hl & Hn).
  - intros i Hi. rewrite (item_Ok N i 0), (item_Ok vd i []) by lia. simpl. eauto.
  - exists D. split; [exact HD|]. split; [exact Hl|].
    intros i Hi. specialize (Hn i [] Hi).
    rewrite (item_Ok N i 0), (item_Ok vd i []) in Hn by lia. simpl in Hn. congruence.
Qed.

Lemma sel1_ops_ok (np : nat) (s h : vec) (vs : list matrix) :
  length s = np -> length h = np -> length vs = np ->
  exists S1, sel1_ops np s h vs = Ok S1 /\ length S1 = np /\
    forall i, (i < np)%nat -> nth i S1 [] = mscale (nth i s 0 * nth i h 0) (nth i vs []).
Proof.
  intros Hs Hh Hvs. unfold sel1_ops.
  destruct (comprehension_ok np (fun i =>
              si <- item s i ;; hi <- item h i ;; vsi <- item vs i ;;
              Ok (mscale (si * hi) vsi)))
    as (S1 & HS & Hl & Hn).
  - intros i Hi. rewrite (item_Ok s i 0), (item_Ok h i 0), (item_Ok vs i []) by lia.
    simpl. eauto.
  - exists S1. split; [exact HS|]. split; [exact Hl|].
    intros i Hi. specialize (Hn i [] Hi).
    rewrite (item_Ok s i 0), (item_Ok h i 0), (item_Ok vs i []) in Hn by lia.
    simpl in Hn. congruence.
Qed.

Lemma sel2_ops_ok (np : nat) (s h : vec) (vs2 : list matrix) :
  length s = np -> length h = np -> length vs2 = np ->
  exists S2, sel2_ops np s h vs2 = Ok S2 /\ length S2 = np /\
    forall i, (i < np)%nat ->
      nth i S2 [] = mscale (nth i s 0 * (1 - two * nth i h 0)) (nth i vs2 []).
Proof.
  intros Hs Hh Hvs. unfold sel2_ops.
  destruct (comprehension_ok np (fun i =>
              si <- item s i ;; hi <- item h i ;; vs2i <- item vs2 i ;;
              Ok (mscale (si * (1 - two * hi)) vs2i)))
    as (S2 & HS & Hl & Hn).
  - intros i Hi. rewrite (item_Ok s i 0), (item_Ok h i 0), (item_Ok vs2 i []) by lia.
    simpl. eauto.
  - exists S2. split; [exact HS|]. split; [exact Hl|].
    intros i Hi. specialize (Hn i [] Hi).
    rewrite (item_Ok s i 0), (item_Ok h i 0), (item_Ok vs2 i []) in Hn by lia.
    simpl in Hn. congruence.
Qed.

(* ------------------------------------------------------------------ *)
(** ** Before the time loop *)

Lemma rbind_lift_Ok {A B : Type} (c : outcome A) (a : A) (k : A -> run B)
    (log : list event) :
  c = Ok a -> rbind (lift c) k log = k a log.
Proof. intros ->. reflexivity. Qed.

Lemma test_sizes_ok (t : Qc) (N : vec) (log : list event) :
  all_positive N -> test_sizes t N log = (EvSizes t N :: log, Ok tt).
Proof.
  intros H. unfold test_sizes. apply any_nonpositive_false in H. rewrite H. reflexivity.
Qed.

Lemma eval_sched_ok (np : nat) (s : sched) (t : Qc) :
  sched_ok np s -> exists v, eval_sched s t = Ok v /\ length v = np.
Proof.
  destruct s as [v|f]; simpl; intros H; [eauto|apply H].
Qed.

Lemma mutation_source_ok (E : collaborators) (dims : list nat) (u : vec) (v : option vec) :
  Forall (fun d => (2 <= d)%nat) dims -> length u = length dims ->
  exists B, mutation_source E dims u v = Ok B /\
    match v with
    | None => exists b, B = B_ISM b /\ _calcB dims u = Ok b
    | Some v' => B = B_FG (_calcB_FB E dims u v')
    end.
Proof.
  intros Hd Hu. unfold mutation_source. destruct v as [v'|].
  - eexists. split; reflexivity.
  - destruct (calcB_returns dims u Hd Hu) as (b & Hb).
    rewrite Hb. simpl. eexists. split; [reflexivity|]. exists b. auto.
Qed.

Lemma nomig_init_spec (E : collaborators) (a : nomig_args) (p : params) (N0 : vec)
    (log : list event) :
  let np := rank (a_sfs0 a) in
  nomig_args_ok a ->
  sched_ok np (p_s p) -> sched_ok np (p_Npop p) -> length (p_u p) = np ->
  eval_sched (p_Npop p) 0 = Ok N0 -> all_positive N0 ->
  exists D S1 S2 B s0 h0,
    eval_sched (p_s p) 0 = Ok s0 /\
    eval_sched (normalize_h np (a_h a)) 0 = Ok h0 /\
    mutation_source E (shape (a_sfs0 a)) (p_u p) (p_v p) = Ok B /\
    nomig_init E a p log =
    (EvSizes 0 N0 :: log,
     Ok ({| c_Tmax := a_tf a * two; c_dt_fac := a_dt_fac a; c_dims := shape (a_sfs0 a);
            c_Npop := p_Npop p; c_s := p_s p; c_h := normalize_h np (a_h a);
            c_vd := map (calcD E) (shape (a_sfs0 a));
            c_vs := map (fun dj => calcS E (fst dj) (snd dj))
                      (combine (shape (a_sfs0 a))
                         (map (fun d => calcJK13 E (Z.of_nat d - 1)) (shape (a_sfs0 a))));
            c_vs2 := map (fun dj => calcS2 E (fst dj) (snd dj))
                       (combine (shape (a_sfs0 a))
                          (map (fun d => calcJK23 E (Z.of_nat d - 1)) (shape (a_sfs0 a))));
            c_B := B |},
         {| n_t := 0; n_dt := a_tf a * two * a_dt_fac a;
            n_N := N0; n_Nold := N0; n_Neff := N0;
            n_s_new := s0; n_s_old := s0; n_h_new := h0; n_h_old := h0;
            n_D := D; n_S1 := S1; n_S2 := S2; n_slv := None; n_Q := None;
            n_sfs := a_sfs0 a |})).
Proof.
  intros np (Hin & Hg & Hh) Hs HN Hu HN0 Hpos.
  destruct Hin as [Hwf Hdims _ _ _ _ _].
  assert (HlN : length N0 = np).
  { destruct (eval_sched_ok np _ 0 HN) as (v & Hv & Hl). congruence. }
  destruct (eval_sched_ok np _ 0 Hs) as (s0 & Hs0 & Hls).
  destruct (eval_sched_ok np _ 0 (normalize_h_ok np _ Hh)) as (h0 & Hh0 & Hlh).
  destruct (drift_ops_ok np N0 (map (calcD E) (shape (a_sfs0 a))) HlN)
    as (D & HD & _); [apply length_map|].
  destruct (sel1_ops_ok np s0 h0
              (map (fun dj => calcS E (fst dj) (snd dj))
                 (combine (shape (a_sfs0 a))
                    (map (fun d => calcJK13 E (Z.of_nat d - 1)) (shape (a_sfs0 a)))))
              Hls Hlh) as (S1 & HS1 & _).
  { rewrite length_map, length_combine, length_map. apply Nat.min_id. }
  destruct (sel2_ops_ok np s0 h0
              (map (fun dj => calcS2 E (fst dj) (snd dj))
                 (combine (shape (a_sfs0 a))
                    (map (fun d => calcJK23 E (Z.of_nat d - 1)) (shape (a_sfs0 a)))))
              Hls Hlh) as (S2 & HS2 & _).
  { rewrite length_map, length_combine, length_map. apply Nat.min_id. }
  destruct (mutation_source_ok E (shape (a_sfs0 a)) (p_u p) (p_v p) Hdims Hu)
    as (B & HB & _).
  exists D, S1, S2, B, s0, h0.
  split; [exact Hs0|]. split; [exact Hh0|]. split; [exact HB|].
  unfold nomig_init. fold np.
  rewrite (rbind_lift_Ok _ N0) by exact HN0.
  unfold rbind at 1. rewrite (test_sizes_ok 0 N0 log Hpos).
  rewrite (rbind_lift_Ok _ D) by exact HD.
  rewrite (rbind_lift_Ok _ s0) by exact Hs0.
  rewrite (rbind_lift_Ok _ h0) by exact Hh0.
  rewrite (rbind_lift_Ok _ S1) by exact HS1.
  rewrite (rbind_lift_Ok _ S2) by exact HS2.
  rewrite (rbind_lift_Ok _ B) by exact HB.
  reflexivity.
Qed.

Lemma neutral_init_spec (E : collaborators) (b : neutral_args) (p : params) (N0 : vec)
    (log : list event) :
  let np := rank (b_sfs0 b) in
  neutral_args_ok b ->
  sched_ok np (p_Npop p) -> length (p_u p) = np ->
  eval_sched (p_Npop p) 0 = Ok N0 -> all_positive N0 ->
  exists D B,
    mutation_source E (shape (b_sfs0 b)) (p_u p) (p_v p) = Ok B /\
    neutral_init E b p log =
    (EvSizes 0 N0 :: log,
     Ok ({| d_Tmax := b_tf b * two; d_dt_fac := b_dt_fac b; d_dims := shape (b_sfs0 b);
            d_Npop := p_Npop p;
            d_vd := map (calcD_dense E) (shape (b_sfs0 b));
            d_diags := map (ts_mat_to_diag E) (map (calcD_dense E) (shape (b_sfs0 b)));
            d_B := B |},
         {| m_t := 0; m_dt := b_tf b * two * b_dt_fac b;
            m_N := N0; m_Nold := N0; m_Neff := N0;
            m_D := D; m_A := None; m_Di := None; m_C := None; m_Q := None;
            m_sfs := b_sfs0 b |})).
Proof.
  intros np Hin HN Hu HN0 Hpos.
  destruct Hin as [Hwf Hdims _ _ _ _ _].
  assert (HlN : length N0 = np).
  { destruct (eval_sched_ok np _ 0 HN) as (v & Hv & Hl). congruence. }
  destruct (drift_ops_ok np N0 (map (calcD_dense E) (shape (b_sfs0 b))) HlN)
    as (D & HD & _); [apply length_map|].
  destruct (mutation_source_ok E (shape (b_sfs0 b)) (p_u p) (p_v p) Hdims Hu)
    as (B & HB & _).
  exists D, B. split; [exact HB|].
  unfold neutral_init. fold np.
  rewrite (rbind_lift_Ok _ N0) by exact HN0.
  unfold rbind at 1. rewrite (test_sizes_ok 0 N0 log Hpos).
  rewrite (rbind_lift_Ok _ D) by exact HD.
  rewrite (rbind_lift_Ok _ B) by exact HB.
  reflexivity.
Qed.

Lemma size_of_pos (sh : list nat) :
  Forall (fun d => (2 <= d)%nat) sh -> (1 <= size_of sh)%nat.
Proof.
  induction 1 as [|d sh Hd _ IH]; simpl; [lia|]. fold (size_of sh). nia.
Qed.

Lemma Spectrum_ok (sfs : ndarray) (corners : bool) :
  (1 <= length (data sfs))%nat ->
  exists mask, Spectrum sfs corners = Ok {| sp_data := sfs; sp_mask := mask |}.
Proof.
  intros Hl. unfold Spectrum. destruct corners; [|eexists; reflexivity].
  unfold mask_corners.
  destruct (list_set_spec (repeat false (length (data sfs))) 0 true false)
    as (m & -> & Hm & _); [rewrite repeat_length; lia|].
  simpl.
  destruct (list_set_spec m (length (repeat false (length (data sfs))) - 1) true false)
    as (m' & -> & _); [rewrite Hm; rewrite repeat_length; lia|].
  simpl. eexists. reflexivity.
Qed.

(** C10. When the target time is zero or negative and the sizes evaluated
    at time 0 are positive, both integrators run no time step (they need no
    fuel, and evaluate the sizes once) and return a spectrum whose data is
    the input [sfs0]. *)
Theorem nonpositive_time_returns_input (E : collaborators) (fuel : nat)
    (a : nomig_args) (b : neutral_args) :
  nomig_args_ok a -> neutral_args_ok b ->
  a_tf a <= 0 -> b_tf b <= 0 ->
  (forall p N0, nomig_params a = Ok p -> eval_sched (p_Npop p) 0 = Ok N0 ->
                all_positive N0) ->
  (forall p N0, neutral_params b = Ok p -> eval_sched (p_Npop p) 0 = Ok N0 ->
                all_positive N0) ->
  (exists N0 mask,
     integrate_nomig E fuel a [] =
     ([EvSizes 0 N0], Ok {| sp_data := a_sfs0 a; sp_mask := mask |})) /\
  (exists N0 mask,
     integrate_neutral E fuel b [] =
     ([EvSizes 0 N0], Ok {| sp_data := b_sfs0 b; sp_mask := mask |})).
Proof.
  intros Ha Hb Hta Htb Hpa Hpb. split.
  - destruct (nomig_params_spec a Ha)
      as (p & u0 & v0 & Hp & _ & Hs & HN & _ & _ & Hu & _).
    destruct (eval_sched_ok _ _ 0 HN) as (N0 & HN0 & _).
    destruct (nomig_init_spec E a p N0 [] Ha Hs HN Hu HN0 (Hpa p N0 Hp HN0))
      as (D & S1 & S2 & B & s0 & h0 & _ & _ & _ & Hinit).
    destruct Ha as ([Hwf Hdims _ _ _ _ _] & _).
    destruct (Spectrum_ok (a_sfs0 a) (negb (a_finite_genome a))) as (mask & Hmask).
    { rewrite Hwf. apply size_of_pos. exact Hdims. }
    exists N0, mask. unfold integrate_nomig.
    rewrite (rbind_lift_Ok _ p) by exact Hp.
    unfold rbind at 1. rewrite Hinit.
    assert (Hloop : forall c st l, c_Tmax c = a_tf a * two -> n_t st = 0 ->
               nomig_loop E fuel fuel c st l = (l, Ok st)).
    { intros c st l Hc Ht. destruct fuel; simpl; rewrite Hc, Ht;
        (replace (Qcltb 0 (a_tf a * two)) with false; [reflexivity|]);
        symmetry; apply Qcltb_false; qc_to_q; lra. }
    unfold rbind at 1. rewrite Hloop by reflexivity.
    cbn [n_sfs lift]. rewrite Hmask. reflexivity.
  - destruct (neutral_params_spec b Hb)
      as (p & u0 & v0 & Hp & _ & HN & _ & Hu & _).
    destruct (eval_sched_ok _ _ 0 HN) as (N0 & HN0 & _).
    destruct (neutral_init_spec E b p N0 [] Hb HN Hu HN0 (Hpb p N0 Hp HN0))
      as (D & B & _ & Hinit).
    destruct Hb as [Hwf Hdims _ _ _ _ _].
    destruct (Spectrum_ok (b_sfs0 b) (negb (b_finite_genome b))) as (mask & Hmask).
    { rewrite Hwf. apply size_of_pos. exact Hdims. }
    exists N0, mask. unfold integrate_neutral.
    rewrite (rbind_lift_Ok _ p) by exact Hp.
    unfold rbind at 1. rewrite Hinit.
    assert (Hloop : forall c st l, d_Tmax c = b_tf b * two -> m_t st = 0 ->
               neutral_loop E fuel fuel c st l = (l, Ok st)).
    { intros c st l Hc Ht. destruct fuel; simpl; rewrite Hc, Ht;
        (replace (Qcltb 0 (b_tf b * two)) with false; [reflexivity|]);
        symmetry; apply Qcltb_false; qc_to_q; lra. }
    unfold rbind at 1. rewrite Hloop by reflexivity.
    cbn [m_sfs lift]. rewrite Hmask. reflexivity.
Qed.

Lemma Qclt_0_frozen_size : 0 < frozen_size.
Proof. reflexivity. Qed.

(** C10 on the two frozen samples, with target times 0 and -1 and no fuel. *)
Lemma nonpositive_time_returns_input_witness :
  (exists N0 mask,
     integrate_nomig sample_collaborators 0 sample_nomig_no_time [] =
     ([EvSizes 0 N0], Ok {| sp_data := sample_sfs_2d; sp_mask := mask |})) /\
  (exists N0 mask,
     integrate_neutral sample_collaborators 0 sample_neutral_no_time [] =
     ([EvSizes 0 N0], Ok {| sp_data := sample_sfs_2d; sp_mask := mask |})).
Proof.
  apply (nonpositive_time_returns_input sample_collaborators 0
           sample_nomig_no_time sample_neutral_no_time).
  - split; [|split; exact I].
    constructor; simpl;
      [reflexivity | repeat constructor | intros t; reflexivity
       | exact I | exact I | exact I | right; reflexivity].
  - constructor; simpl;
      [reflexivity | repeat constructor | reflexivity | exact I
       | eexists; split; [reflexivity|exact I]
       | eexists; split; reflexivity
       | right; reflexivity].
  - discriminate.
  - discriminate.
  - intros p N0 Hp HN. vm_compute in Hp. injection Hp as <-.
    vm_compute in HN. injection HN as <-.
    repeat constructor.
  - intros p N0 Hp HN. vm_compute in Hp. injection Hp as <-.
    vm_compute in HN. injection HN as <-.
    repeat constructor.
Defined.

(* ------------------------------------------------------------------ *)
(** ** The step-size control *)

Lemma relative_change_ok (N Nold : vec) :
  length N = length Nold -> (1 <= length Nold)%nat ->
  exists rc, relative_change N Nold = Ok rc.
Proof.
  intros Hl Hn. unfold relative_change.
  rewrite broadcast2_same by exact Hl. cbn [bind].
  rewrite broadcast2_same
    by (rewrite length_map, length_map_combine; [exact Hl|exact Hl]).
  cbn [bind]. unfold np_max.
  destruct (map _ (combine (map Qcabs _) Nold)) as [|x q] eqn:E.
  - apply (f_equal (@length Qc)) in E.
    rewrite length_map_combine in E
      by (rewrite length_map, length_map_combine; [exact Hl|exact Hl]).
    rewrite length_map, length_map_combine in E by exact Hl.
    simpl in E. lia.
  - eexists. reflexivity.
Qed.

Lemma halved_succ (n : nat) (dt : Qc) : halved n (dt / two) = halved (S n) dt.
Proof.
  unfold halved. induction n as [|n IH]; [reflexivity|].
  simpl in *. rewrite IH. reflexivity.
Qed.

Section Halving.

Variable E : collaborators.
Variable fn : integrator.
Variable f : Qc -> outcome vec.
Variable t : Qc.
Variable Nold : vec.
Variable np : nat.

Hypothesis Hnp : (1 <= np)%nat.
Hypothesis HNold : length Nold = np.
Hypothesis Hf : forall tau, exists v, f tau = Ok v /\ length v = np.

Lemma halving_spec (fuel : nat) :
  forall (k : control) (log : list event),
    (k_n_iter k < n_iter_max)%nat -> (n_iter_max - k_n_iter k <= fuel)%nat ->
    length (k_N k) = np ->
    halving_result E fn f t Nold np k log (halving E fn fuel f t Nold k log).
Proof.
  induction fuel as [|fuel IH]; intros k log Hn Hfuel HlN.
  - unfold n_iter_max in *. lia.
  - destruct (relative_change_ok (k_N k) Nold) as (rc & Hrc); [lia|lia|].
    cbn [halving]. unfold rbind at 1. unfold lift at 1. rewrite Hrc.
    destruct (Qcltb acceptable_change rc) eqn:Hcmp.
    + (* the change is too large: halve *)
      set (dt' := k_dt k / two).
      destruct (Hf ((t + dt') / two)) as (v & Hv & Hlv).
      unfold sizes_at. unfold rbind at 1. unfold rbind at 1. unfold lift at 1.
      rewrite Hv. unfold rbind at 1. unfold test_sizes.
      destruct (any_nonpositive v) eqn:Hpos.
      * unfold halving_result. split; [reflexivity|].
        exists ((t + dt') / two), v, log. auto.
      * cbn [ret].
        
        destruct (n_iter_max <=? S (k_n_iter k))%nat eqn:Hmax.
        -- apply Nat.leb_le in Hmax.
           destruct (relative_change_ok v Nold) as (rc' & Hrc'); [lia|lia|].
           unfold rbind, emit, lift, ret. rewrite Hrc'.
           unfold halving_result. cbn -[Nat.sub halved n_iter_max].
           assert (Hten : S (k_n_iter k) = n_iter_max) by lia.
           split; [lia|]. split; [lia|]. split.
           { replace (S (k_n_iter k) - k_n_iter k)%nat with 1%nat by lia. reflexivity. }
           split; [intros Hc; lia|]. split; [intros _; split; [exact Hv|reflexivity]|].
           split; [exact Hlv|]. split; [intros Hc; lia|].
           intros _. exists rc'. split; [exact Hrc'|reflexivity].
        -- apply Nat.leb_gt in Hmax.
           set (k' := {| k_dt := dt'; k_N := v;
                         k_Neff := compute_N_effective E f (half * t) (half * (t + dt'));
                         k_n_iter := S (k_n_iter k) |}).
           specialize (IH k' (EvSizes ((t + dt') / two) v :: log)).
           unfold halving_result in IH |- *.
           destruct (halving E fn fuel f t Nold k' (EvSizes ((t + dt') / two) v :: log))
             as [log' [k''| e |]].
           ++ destruct IH as (Hni & Hni' & Hdt & Hsame & Hnew & Hl & Hlt & Heq);
                [exact Hmax|subst k'; cbn [k_n_iter]; unfold n_iter_max in *; lia|exact Hlv|].
              simpl in Hni, Hdt, Hsame, Hnew.
              split; [lia|]. split; [lia|]. split.
              { rewrite Hdt. unfold dt'. rewrite halved_succ. f_equal. lia. }
              split; [intros Hc; lia|]. split.
              { intros _. destruct (Nat.eq_dec (k_n_iter k'') (S (k_n_iter k))) as [Hc|Hc].
                - rewrite (Hsame Hc). simpl. split; [exact Hv|reflexivity].
                - apply Hnew. lia. }
              split; [exact Hl|]. split; [exact Hlt|exact Heq].
           ++ apply IH; [exact Hmax|subst k'; cbn [k_n_iter]; unfold n_iter_max in *; lia|exact Hlv].
           ++ apply IH; [exact Hmax|subst k'; cbn [k_n_iter]; unfold n_iter_max in *; lia|exact Hlv].
    + (* the change is acceptable: leave the loop *)
      unfold ret, halving_result. apply Qcltb_false in Hcmp.
      rewrite Nat.sub_diag.
      split; [lia|]. split; [lia|]. split; [reflexivity|]. split; [reflexivity|].
      split; [intros Hc; lia|]. split; [exact HlN|]. split.
      * intros _. split; [|reflexivity]. exists rc. split; [exact Hrc|exact Hcmp].
      * intros Hc. lia.
Qed.

End Halving.

(** C6. In a time step whose sizes are a function of time, the controller
    halves [dt] and evaluates the sizes again while their relative change
    from the previous step exceeds 0.5; it does so at most ten times; at the
    tenth halving it prints the diagnostic and goes on with the current
    [dt].  The inner loop needs no more than ten rounds of fuel, and the
    only exception it can raise is that of a non-positive size: a large
    change is never fatal. *)
Theorem size_change_retry_bounded (E : collaborators) (fn : integrator) (fuel : nat)
    (f : Qc -> outcome vec) (t dt : Qc) (N Nold Neff : vec) (log : list event) :
  (n_iter_max <= fuel)%nat ->
  (1 <= length Nold)%nat ->
  (forall tau, exists v, f tau = Ok v /\ length v = length Nold) ->
  match adapt_sizes E fn fuel (SFun f) t dt N Nold Neff log with
  | (log', Ok k) =>
      (k_n_iter k <= n_iter_max)%nat /\
      k_dt k = halved (k_n_iter k) dt /\
      f ((t + k_dt k) / two) = Ok (k_N k) /\
      ((k_n_iter k < n_iter_max)%nat ->
         (exists rc, relative_change (k_N k) Nold = Ok rc /\ rc <= acceptable_change) /\
         warnings log' = warnings log) /\
      (k_n_iter k = n_iter_max ->
         exists rc, relative_change (k_N k) Nold = Ok rc /\
                    warnings log' = EvChange rc :: EvWarn fn t Nold (k_N k) :: warnings log)
  | (log', Raise e) =>
      e = PopSizeError /\
      exists tau v rest, log' = EvSizes tau v :: rest /\ f tau = Ok v /\
                         any_nonpositive v = true
  | (_, OutOfFuel) => False
  end.
Proof.
  intros Hfuel Hnp Hf. unfold adapt_sizes.
  destruct (Hf ((t + dt) / two)) as (v & Hv & Hlv).
  unfold sizes_at. unfold rbind at 1. unfold rbind at 1. unfold lift at 1.
  rewrite Hv. unfold rbind at 1. unfold test_sizes.
  destruct (any_nonpositive v) eqn:Hpos.
  - split; [reflexivity|]. exists ((t + dt) / two), v, log. auto.
  - cbn [ret].
    set (k0 := {| k_dt := dt; k_N := v;
                  k_Neff := compute_N_effective E f (half * t) (half * (t + dt));
                  k_n_iter := 0 |}).
    pose proof (halving_spec E fn f t Nold (length Nold) Hnp eq_refl Hf fuel k0
                  (EvSizes ((t + dt) / two) v :: log)) as H.
    unfold halving_result in H.
    destruct (halving E fn fuel f t Nold k0 (EvSizes ((t + dt) / two) v :: log))
      as [log' [k| e |]].
    + destruct H as (_ & Hmax & Hdt & Hsame & Hnew & _ & Hlt & Heq);
        [subst k0; unfold n_iter_max; simpl; lia
        |subst k0; cbn [k_n_iter]; unfold n_iter_max in *; lia|exact Hlv|].
      simpl in Hdt, Hsame, Hnew, Hlt. rewrite Nat.sub_0_r in Hdt.
      split; [exact Hmax|]. split; [exact Hdt|]. split.
      * destruct (k_n_iter k) as [|n] eqn:Hn.
        -- rewrite (Hsame eq_refl). exact Hv.
        -- apply Hnew. lia.
      * split; [exact Hlt|exact Heq].
    + apply H; [subst k0; unfold n_iter_max; simpl; lia
              |subst k0; cbn [k_n_iter]; unfold n_iter_max in *; lia|exact Hlv].
    + apply H; [subst k0; unfold n_iter_max; simpl; lia
              |subst k0; cbn [k_n_iter]; unfold n_iter_max in *; lia|exact Hlv].
Qed.

(** C6 on a size that grows eightfold per unit of time. *)
Lemma size_change_retry_bounded_witness :
  match adapt_sizes sample_collaborators Nomig 10 (SFun sample_growth) 0 1 [1] [1] [1] []
  with
  | (log', Ok k) =>
      (k_n_iter k <= n_iter_max)%nat /\
      k_dt k = halved (k_n_iter k) 1 /\
      sample_growth ((0 + k_dt k) / two) = Ok (k_N k) /\
      ((k_n_iter k < n_iter_max)%nat ->
         (exists rc, relative_change (k_N k) [1] = Ok rc /\ rc <= acceptable_change) /\
         warnings log' = warnings []) /\
      (k_n_iter k = n_iter_max ->
         exists rc, relative_change (k_N k) [1] = Ok rc /\
                    warnings log' = EvChange rc :: EvWarn Nomig 0 [1] (k_N k) :: warnings [])
  | (log', Raise e) =>
      e = PopSizeError /\
      exists tau v rest, log' = EvSizes tau v :: rest /\ sample_growth tau = Ok v /\
                         any_nonpositive v = true
  | (_, OutOfFuel) => False
  end.
Proof.
  apply (size_change_retry_bounded sample_collaborators Nomig 10 sample_growth
           0 1 [1] [1] [1] []).
  - unfold n_iter_max. lia.
  - simpl. lia.
  - intros tau. eexists. split; reflexivity.
Defined.

(** The growing size is accepted after three halvings and prints nothing;
    the jumping size exhausts the ten halvings and prints the diagnostic,
    and the step goes on. *)
Example growth_is_halved_three_times :
  match adapt_sizes sample_collaborators Nomig 10 (SFun sample_growth) 0 1 [1] [1] [1] []
  with
  | (log', Ok k) => k_n_iter k = 3%nat /\ length (warnings log') = 0%nat
  | _ => False
  end.
Proof. vm_compute. split; reflexivity. Qed.

Example jump_exhausts_the_retries :
  match adapt_sizes sample_collaborators Neutral 10 (SFun sample_jump) 0 1 [1] [1] [1] []
  with
  | (log', Ok k) =>
      k_n_iter k = 10%nat /\ length (warnings log') = 2%nat /\
      Qceqb (k_dt k) (Q2Qc (1 # 1024)) = true
  | _ => False
  end.
Proof. vm_compute. repeat split; reflexivity. Qed.

(* ------------------------------------------------------------------ *)
(** ** Inversion of runs *)

Lemma rbind_Ok_inv {A B : Type} (c : run A) (k : A -> run B) (log log' : list event)
    (b : B) :
  rbind c k log = (log', Ok b) ->
  exists a log1, c log = (log1, Ok a) /\ k a log1 = (log', Ok b).
Proof.
  unfold rbind. destruct (c log) as [log1 [a| e |]]; intros H; try discriminate.
  exists a, log1. auto.
Qed.

Lemma lift_Ok_inv {A : Type} (c : outcome A) (log log' : list event) (a : A) :
  lift c log = (log', Ok a) -> log' = log /\ c = Ok a.
Proof. unfold lift. intros [= -> ->]. auto. Qed.

Lemma ret_Ok_inv {A : Type} (x a : A) (log log' : list event) :
  ret x log = (log', Ok a) -> log' = log /\ x = a.
Proof. unfold ret. intros [= -> ->]. auto. Qed.

Lemma bind_Ok_inv {A B : Type} (c : outcome A) (k : A -> outcome B) (b : B) :
  bind c k = Ok b -> exists a, c = Ok a /\ k a = Ok b.
Proof. destruct c as [a| |]; simpl; intros H; try discriminate. eauto. Qed.

(* ------------------------------------------------------------------ *)
(** ** The proposed step *)

Lemma Qcdiv_two (x : Qc) : x / two = x * half.
Proof. unfold Qcdiv. f_equal; apply Qc_is_canon; reflexivity. Qed.

Lemma halved_le (n : nat) (p b : Qc) : p <= b -> 0 <= b -> halved n p <= b.
Proof.
  intros Hp Hb. induction n as [|n IH]; [exact Hp|].
  unfold halved in *. simpl. rewrite Qcdiv_two.
  set (x := Nat.iter n (fun x => x / two) p) in *. clearbody x.
  qc_to_q. lra.
Qed.

Lemma halved_nonneg (n : nat) (p : Qc) : 0 <= p -> 0 <= halved n p.
Proof.
  intros Hp. induction n as [|n IH]; [exact Hp|].
  unfold halved in *. simpl. rewrite Qcdiv_two.
  set (x := Nat.iter n (fun x => x / two) p) in *. clearbody x.
  qc_to_q. lra.
Qed.

Lemma Qcmin_spec (x y : Qc) : (x <= y /\ Qcmin x y = x) \/ (y < x /\ Qcmin x y = y).
Proof.
  unfold Qcmin. destruct (Qcleb x y) eqn:E.
  - left. split; [apply Qcleb_true; exact E|reflexivity].
  - right. split; [apply Qcleb_false; exact E|reflexivity].
Qed.

(** Lines 567-569 as one minimum. *)
Lemma propose_dt_min (bound Tmax dt_fac t : Qc) :
  propose_dt bound Tmax dt_fac t = Qcmin (Qcmin bound (Tmax * dt_fac)) (Tmax - t).
Proof.
  unfold propose_dt. set (dt := Qcmin bound (Tmax * dt_fac)). clearbody dt.
  destruct (Qcmin_spec dt (Tmax - t)) as [[Hle ->]|[Hlt ->]].
  - replace (Qcltb Tmax (t + dt)) with false; [reflexivity|].
    symmetry. apply Qcltb_false. qc_to_q. lra.
  - replace (Qcltb Tmax (t + dt)) with true; [reflexivity|].
    symmetry. apply Qcltb_true. qc_to_q. lra.
Qed.

Lemma propose_dt_le (bound Tmax dt_fac t : Qc) :
  propose_dt bound Tmax dt_fac t <= Tmax - t.
Proof.
  rewrite propose_dt_min.
  destruct (Qcmin_spec (Qcmin bound (Tmax * dt_fac)) (Tmax - t)) as [[Hle ->]|[Hlt ->]].
  - exact Hle.
  - apply Qcle_refl.
Qed.

Lemma halving_dt (E : collaborators) (fn : integrator) (fuel : nat)
    (f : Qc -> outcome vec) (t : Qc) (Nold : vec) :
  forall (k k' : control) (log log' : list event),
    halving E fn fuel f t Nold k log = (log', Ok k') ->
    exists n, k_dt k' = halved n (k_dt k).
Proof.
  induction fuel as [|fuel IH]; intros k k' log log' H.
  - cbn [halving] in H. apply rbind_Ok_inv in H as (rc & log1 & _ & H).
    destruct (Qcltb acceptable_change rc); [discriminate|].
    apply ret_Ok_inv in H as [_ <-]. exists 0%nat. reflexivity.
  - cbn [halving] in H. apply rbind_Ok_inv in H as (rc & log1 & _ & H).
    destruct (Qcltb acceptable_change rc).
    + apply rbind_Ok_inv in H as (v & log2 & _ & H).
      destruct (n_iter_max <=? S (k_n_iter k))%nat.
      * apply rbind_Ok_inv in H as (? & log3 & _ & H).
        apply rbind_Ok_inv in H as (? & log4 & _ & H).
        apply rbind_Ok_inv in H as (? & log5 & _ & H).
        apply ret_Ok_inv in H as [_ <-]. exists 1%nat. reflexivity.
      * apply IH in H as (n & Hn). exists (S n). rewrite Hn. simpl.
        apply halved_succ.
    + apply ret_Ok_inv in H as [_ <-]. exists 0%nat. reflexivity.
Qed.

Lemma adapt_sizes_dt (E : collaborators) (fn : integrator) (fuel : nat) (Npop : sched)
    (t dt : Qc) (N Nold Neff : vec) (k : control) (log log' : list event) :
  adapt_sizes E fn fuel Npop t dt N Nold Neff log = (log', Ok k) ->
  exists n, k_dt k = halved n dt.
Proof.
  unfold adapt_sizes. destruct Npop as [v|f]; intros H.
  - apply ret_Ok_inv in H as [_ <-]. exists 0%nat. reflexivity.
  - apply rbind_Ok_inv in H as (N' & log1 & _ & H).
    apply halving_dt in H. exact H.
Qed.

(* ------------------------------------------------------------------ *)
(** ** One iteration of [integrate_nomig] *)

Lemma nomig_iter_inv (E : collaborators) (inner : nat) (c : nomig_ctx)
    (st st' : nomig_state) (log log' : list event) :
  nomig_iter E inner c st log = (log', Ok st') ->
  exists k rebuild Qm slvm,
    adapt_sizes E Nomig inner (c_Npop c) (n_t st)
      (propose_dt (compute_dt E (n_N st) (Some (n_s_new st)) (Some (n_h_new st)))
         (c_Tmax c) (c_dt_fac c) (n_t st))
      (n_N st) (n_Nold st) (n_Neff st) log = (log', Ok k) /\
    coefficient_at (c_s c) (n_s_new st) (n_t st) (k_dt k) = Ok (n_s_new st') /\
    coefficient_at (c_h c) (n_h_new st) (n_t st) (k_dt k) = Ok (n_h_new st') /\
    nomig_rebuild_test (n_t st) (k_dt k) (n_dt st) (n_Nold st) (k_N k)
      (n_s_new st') (n_s_old st) (n_h_new st') (n_h_old st) = Ok rebuild /\
    (if rebuild
     then nomig_operators c (k_Neff k) (n_s_new st') (n_h_new st') (k_dt k)
          = Ok (n_D st', n_S1 st', n_S2 st', slvm, Qm)
     else n_D st' = n_D st /\ n_S1 st' = n_S1 st /\ n_S2 st' = n_S2 st /\
          n_slv st' = n_slv st /\ n_Q st' = n_Q st) /\
    n_slv st' = Some slvm /\ n_Q st' = Some Qm /\
    nomig_update E (length (c_dims c)) (k_dt k) (c_B c) Qm slvm (n_sfs st)
    = Ok (n_sfs st') /\
    n_t st' = n_t st + k_dt k /\ n_dt st' = k_dt k /\
    n_N st' = k_N k /\ n_Nold st' = k_N k /\ n_Neff st' = k_Neff k /\
    n_s_old st' = n_s_new st' /\ n_h_old st' = n_h_new st'.
Proof.
  unfold nomig_iter. intros H.
  apply rbind_Ok_inv in H as (k & log1 & Hk & H).
  apply rbind_Ok_inv in H as (s_new & log2 & Hs & H).
  apply lift_Ok_inv in Hs as [-> Hs].
  apply rbind_Ok_inv in H as (h_new & log3 & Hh & H).
  apply lift_Ok_inv in Hh as [-> Hh].
  apply rbind_Ok_inv in H as (rebuild & log4 & Hr & H).
  apply lift_Ok_inv in Hr as [-> Hr].
  apply rbind_Ok_inv in H as ([[[[D S1] S2] slv] Q] & log5 & Hops & H).
  apply lift_Ok_inv in Hops as [-> Hops].
  apply rbind_Ok_inv in H as (sfs & log6 & Hsfs & H).
  apply lift_Ok_inv in Hsfs as [-> Hsfs].
  apply ret_Ok_inv in H as [-> <-]. cbn [n_t n_dt n_N n_Nold n_Neff n_s_new n_s_old
    n_h_new n_h_old n_D n_S1 n_S2 n_slv n_Q n_sfs].
  apply bind_Ok_inv in Hsfs as (Qm & HQ & Hsfs).
  apply bind_Ok_inv in Hsfs as (slvm & Hslv & Hsfs).
  destruct Q as [Q|]; [|discriminate]. injection HQ as ->.
  destruct slv as [slv|]; [|discriminate]. injection Hslv as ->.
  exists k, rebuild, Qm, slvm.
  split; [exact Hk|]. split; [exact Hs|]. split; [exact Hh|]. split; [exact Hr|].
  split.
  - destruct rebuild.
    + unfold nomig_operators.
      apply bind_Ok_inv in Hops as (D' & HD' & Hops). rewrite HD'. cbn [bind].
      apply bind_Ok_inv in Hops as (S1' & HS1' & Hops). rewrite HS1'. cbn [bind].
      apply bind_Ok_inv in Hops as (S2' & HS2' & Hops). rewrite HS2'. cbn [bind].
      apply bind_Ok_inv in Hops as (slv' & Hslv' & Hops). rewrite Hslv'. cbn [bind].
      apply bind_Ok_inv in Hops as (Q' & HQ' & Hops). rewrite HQ'. cbn [bind].
      injection Hops as <- <- <- <- <-. reflexivity.
    + injection Hops as <- <- <- <- <-. auto.
  - repeat split; try reflexivity. exact Hsfs.
Qed.

Lemma neutral_iter_inv (E : collaborators) (inner : nat) (c : neutral_ctx)
    (st st' : neutral_state) (log log' : list event) :
  neutral_iter E inner c st log = (log', Ok st') ->
  exists k rebuild Am Dim Cm Qm,
    adapt_sizes E Neutral inner (d_Npop c) (m_t st)
      (propose_dt (compute_dt E (m_N st) None None) (d_Tmax c) (d_dt_fac c) (m_t st))
      (m_N st) (m_Nold st) (m_Neff st) log = (log', Ok k) /\
    neutral_rebuild_test (m_t st) (k_dt k) (m_dt st) (m_Nold st) (k_N k) = Ok rebuild /\
    (if rebuild
     then neutral_operators E c (k_Neff k) (k_dt k) = Ok (m_D st', Am, Dim, Cm, Qm)
     else m_D st' = m_D st /\ m_A st' = m_A st /\ m_Di st' = m_Di st /\
          m_C st' = m_C st /\ m_Q st' = m_Q st) /\
    m_A st' = Some Am /\ m_Di st' = Some Dim /\ m_C st' = Some Cm /\ m_Q st' = Some Qm /\
    neutral_update E (length (d_dims c)) (k_dt k) (d_B c) Am Dim Cm Qm (m_sfs st)
    = Ok (m_sfs st') /\
    m_t st' = m_t st + k_dt k /\ m_dt st' = k_dt k /\
    m_N st' = k_N k /\ m_Nold st' = k_N k /\ m_Neff st' = k_Neff k.
Proof.
  unfold neutral_iter. intros H.
  apply rbind_Ok_inv in H as (k & log1 & Hk & H).
  apply rbind_Ok_inv in H as (rebuild & log4 & Hr & H).
  apply lift_Ok_inv in Hr as [-> Hr].
  apply rbind_Ok_inv in H as ([[[[D A] Di] C] Q] & log5 & Hops & H).
  apply lift_Ok_inv in Hops as [-> Hops].
  apply rbind_Ok_inv in H as (sfs & log6 & Hsfs & H).
  apply lift_Ok_inv in Hsfs as [-> Hsfs].
  apply ret_Ok_inv in H as [-> <-].
  cbn [m_t m_dt m_N m_Nold m_Neff m_D m_A m_Di m_C m_Q m_sfs].
  apply bind_Ok_inv in Hsfs as (Am & HA & Hsfs).
  apply bind_Ok_inv in Hsfs as (Dim & HDi & Hsfs).
  apply bind_Ok_inv in Hsfs as (Cm & HC & Hsfs).
  apply bind_Ok_inv in Hsfs as (Qm & HQ & Hsfs).
  destruct A as [A|]; [|discriminate]. injection HA as ->.
  destruct Di as [Di|]; [|discriminate]. injection HDi as ->.
  destruct C as [C|]; [|discriminate]. injection HC as ->.
  destruct Q as [Q|]; [|discriminate]. injection HQ as ->.
  exists k, rebuild, Am, Dim, Cm, Qm.
  split; [exact Hk|]. split; [exact Hr|]. split.
  - destruct rebuild.
    + unfold neutral_operators.
      apply bind_Ok_inv in Hops as (D' & HD' & Hops). rewrite HD'. cbn [bind].
      apply bind_Ok_inv in Hops as (f' & Hf' & Hops). rewrite Hf'. cbn [bind].
      apply bind_Ok_inv in Hops as (Q' & HQ' & Hops). rewrite HQ'. cbn [bind].
      injection Hops as <- <- <- <- <-. reflexivity.
    + injection Hops as <- <- <- <- <-. auto.
  - repeat split; try reflexivity. exact Hsfs.
Qed.

(* ------------------------------------------------------------------ *)
(** ** The proposed step and the end of the loop *)

Lemma nomig_iter_time (E : collaborators) (inner : nat) (c : nomig_ctx)
    (st st1 : nomig_state) (log log1 : list event) :
  n_t st <= c_Tmax c ->
  nomig_iter E inner c st log = (log1, Ok st1) ->
  exists n,
    n_dt st1 = halved n (propose_dt (compute_dt E (n_N st) (Some (n_s_new st))
                                       (Some (n_h_new st)))
                           (c_Tmax c) (c_dt_fac c) (n_t st)) /\
    n_t st1 = n_t st + n_dt st1 /\ n_t st1 <= c_Tmax c.
Proof.
  intros Hinv H.
  apply nomig_iter_inv in H
    as (k & rb & Qm & slvm & Hk & _ & _ & _ & _ & _ & _ & _ & Ht & Hdt & _).
  apply adapt_sizes_dt in Hk as (n & Hn). exists n.
  rewrite Hdt, Ht, Hn. split; [reflexivity|]. split; [reflexivity|].
  set (p := propose_dt _ _ _ _).
  assert (Hp : halved n p <= c_Tmax c - n_t st).
  { apply halved_le; [apply propose_dt_le|]. qc_to_q. lra. }
  revert Hp. generalize (halved n p). intros x Hx. qc_to_q. lra.
Qed.

Lemma nomig_loop_exit (E : collaborators) (inner fuel : nat) (c : nomig_ctx) :
  forall (st st2 : nomig_state) (log log2 : list event),
    n_t st <= c_Tmax c ->
    nomig_loop E inner fuel c st log = (log2, Ok st2) ->
    n_t st2 = c_Tmax c.
Proof.
  induction fuel as [|fuel IH]; intros st st2 log log2 Hinv H; cbn [nomig_loop] in H;
    destruct (Qcltb (n_t st) (c_Tmax c)) eqn:Hc; try discriminate.
  - apply ret_Ok_inv in H as [_ <-]. apply Qcltb_false in Hc.
    apply Qcle_antisym; assumption.
  - apply rbind_Ok_inv in H as (st1 & log1 & Hit & H).
    apply (IH st1 st2 log1 log2); [|exact H].
    destruct (nomig_iter_time E inner c st st1 log log1 Hinv Hit) as (n & _ & _ & Hle).
    exact Hle.
  - apply ret_Ok_inv in H as [_ <-]. apply Qcltb_false in Hc.
    apply Qcle_antisym; assumption.
Qed.

Lemma neutral_iter_time (E : collaborators) (inner : nat) (c : neutral_ctx)
    (st st1 : neutral_state) (log log1 : list event) :
  m_t st <= d_Tmax c ->
  neutral_iter E inner c st log = (log1, Ok st1) ->
  exists n,
    m_dt st1 = halved n (propose_dt (compute_dt E (m_N st) None None)
                           (d_Tmax c) (d_dt_fac c) (m_t st)) /\
    m_t st1 = m_t st + m_dt st1 /\ m_t st1 <= d_Tmax c.
Proof.
  intros Hinv H.
  apply neutral_iter_inv in H
    as (k & rb & Am & Dim & Cm & Qm & Hk & _ & _ & _ & _ & _ & _ & _ & Ht & Hdt & _).
  apply adapt_sizes_dt in Hk as (n & Hn). exists n.
  rewrite Hdt, Ht, Hn. split; [reflexivity|]. split; [reflexivity|].
  set (p := propose_dt _ _ _ _).
  assert (Hp : halved n p <= d_Tmax c - m_t st).
  { apply halved_le; [apply propose_dt_le|]. qc_to_q. lra. }
  revert Hp. generalize (halved n p). intros x Hx. qc_to_q. lra.
Qed.

Lemma neutral_loop_exit (E : collaborators) (inner fuel : nat) (c : neutral_ctx) :
  forall (st st2 : neutral_state) (log log2 : list event),
    m_t st <= d_Tmax c ->
    neutral_loop E inner fuel c st log = (log2, Ok st2) ->
    m_t st2 = d_Tmax c.
Proof.
  induction fuel as [|fuel IH]; intros st st2 log log2 Hinv H; cbn [neutral_loop] in H;
    destruct (Qcltb (m_t st) (d_Tmax c)) eqn:Hc; try discriminate.
  - apply ret_Ok_inv in H as [_ <-]. apply Qcltb_false in Hc.
    apply Qcle_antisym; assumption.
  - apply rbind_Ok_inv in H as (st1 & log1 & Hit & H).
    apply (IH st1 st2 log1 log2); [|exact H].
    destruct (neutral_iter_time E inner c st st1 log log1 Hinv Hit) as (n & _ & _ & Hle).
    exact Hle.
  - apply ret_Ok_inv in H as [_ <-]. apply Qcltb_false in Hc.
    apply Qcle_antisym; assumption.
Qed.


(** The same on a run: the first step of [integrate_nomig] on one
    population of size 5 (bound 1), [tf = 1], [dt_fac = 0.1]. *)
Example first_step_is_capped :
  match nomig_after sample_collaborators 1 sample_nomig_capped [] with
  | (_, Ok (c, st)) =>
      Qceqb (compute_dt sample_collaborators [Q2Qc (5 # 1)] (Some [0]) (Some [half])) 1
      && Qceqb (c_Tmax c) two && Qceqb (n_dt st) (Q2Qc (1 # 5)) = true
  | _ => False
  end.
Proof. vm_compute. reflexivity. Qed.

(** Both loops of the capped sample do end, after ten steps of 1/5. *)
Example capped_sample_ends :
  match nomig_loop sample_collaborators 10 20 sample_nomig_ctx sample_nomig_state [],
        neutral_loop sample_collaborators 10 20 sample_neutral_ctx sample_neutral_state []
  with
  | (_, Ok st), (_, Ok mt) => Qceqb (n_t st) two && Qceqb (m_t mt) two = true
  | _, _ => False
  end.
Proof. vm_compute. reflexivity. Qed.

(* ------------------------------------------------------------------ *)
(** ** The rebuild decision *)

Lemma vec_eqb_eq (a b : vec) : vec_eqb a b = true <-> a = b.
Proof.
  revert b. induction a as [|x a IH]; intros [|y b]; simpl;
    try (split; [discriminate|discriminate]); [split; reflexivity|].
  rewrite andb_true_iff, Qceqb_true, IH. split.
  - intros [-> ->]. reflexivity.
  - intros [= -> ->]. auto.
Qed.

Lemma vec_differs_spec (a b : vec) :
  length a = length b -> vec_differs a b = Ok (negb (vec_eqb a b)).
Proof.
  intros Hl. unfold vec_differs. rewrite broadcast2_same by exact Hl. cbn [bind].
  f_equal. revert b Hl. induction a as [|x a IH]; intros [|y b] Hl; simpl in *;
    try discriminate; [reflexivity|].
  rewrite IH by lia. rewrite negb_andb. reflexivity.
Qed.

Lemma vec_differs_true (a b : vec) :
  length a = length b -> (vec_differs a b = Ok true <-> a <> b).
Proof.
  intros Hl. rewrite vec_differs_spec by exact Hl.
  destruct (vec_eqb a b) eqn:E; simpl.
  - apply vec_eqb_eq in E. split; [discriminate|intros H; contradiction].
  - split; [|reflexivity]. intros _ H. apply vec_eqb_eq in H. congruence.
Qed.

Lemma Qceqb_false (x y : Qc) : Qceqb x y = false <-> x <> y.
Proof.
  destruct (Qceqb x y) eqn:E.
  - apply Qceqb_true in E. split; [discriminate|intros H; contradiction].
  - split; [|reflexivity]. intros _ H. apply Qceqb_true in H. congruence.
Qed.

(** Lines 617-623 decide by exact comparison of the full vectors. *)
Lemma nomig_rebuild_test_spec (t dt dt_old : Qc) (Nold N s_new s_old h_new h_old : vec)
    (rebuild : bool) :
  length Nold = length N -> length s_new = length s_old -> length h_new = length h_old ->
  nomig_rebuild_test t dt dt_old Nold N s_new s_old h_new h_old = Ok rebuild ->
  (rebuild = true <->
   t = 0 \/ Nold <> N \/ dt <> dt_old \/ s_new <> s_old \/ h_new <> h_old).
Proof.
  intros HN Hs Hh. unfold nomig_rebuild_test, por.
  rewrite (vec_differs_spec Nold N HN), (vec_differs_spec s_new s_old Hs),
    (vec_differs_spec h_new h_old Hh). cbn [bind].
  destruct (Qceqb t 0) eqn:Et.
  { intros [= <-]. apply Qceqb_true in Et. tauto. }
  apply Qceqb_false in Et.
  destruct (vec_eqb Nold N) eqn:EN; cbn [negb].
  2:{ intros [= <-]. split; [|reflexivity]. intros _. right. left.
      intros H. apply vec_eqb_eq in H. congruence. }
  apply vec_eqb_eq in EN.
  destruct (Qceqb dt dt_old) eqn:Ed; cbn [negb].
  2:{ intros [= <-]. apply Qceqb_false in Ed. tauto. }
  apply Qceqb_true in Ed. cbn [bind].
  destruct (vec_eqb s_new s_old) eqn:Es; cbn [negb].
  2:{ intros [= <-]. split; [|reflexivity]. intros _. right. right. right. left.
      intros H. apply vec_eqb_eq in H. congruence. }
  apply vec_eqb_eq in Es.
  destruct (vec_eqb h_new h_old) eqn:Eh; cbn [negb]; intros [= <-].
  - apply vec_eqb_eq in Eh. split; [discriminate|]. tauto.
  - split; [|reflexivity]. intros _. right. right. right. right.
    intros H. apply vec_eqb_eq in H. congruence.
Qed.

Lemma vec_not_neq (a b : vec) : ~ a <> b -> a = b.
Proof.
  intros H. destruct (vec_eqb a b) eqn:E; [apply vec_eqb_eq; exact E|].
  exfalso. apply H. intros Heq. apply vec_eqb_eq in Heq. congruence.
Qed.

Lemma Qc_not_neq (x y : Qc) : ~ x <> y -> x = y.
Proof.
  intros H. destruct (Qc_eq_dec x y) as [e|n]; [exact e|contradiction].
Qed.

(** C4, amended. In an iteration of the time loop of [integrate_nomig] the
    operators [D], [S1], [S2], [Q] and the factorised systems are
    recomputed, from the effective sizes, selection, dominance and step of
    the iteration, when [t = 0] or the sizes, the step, the selection or the
    dominance differ (by exact comparison) from those of the previous step;
    otherwise the ones built before are kept as they are.  The operators
    applied in the iteration are always bound, and they are those built for
    the selection, dominance and step of the iteration and for the
    effective sizes of some iteration: its own when the sizes are not a
    function of time; under a size function those of the iteration that
    last rebuilt them, which the test does not compare. *)
Theorem operators_rebuilt_iff_changed (E : collaborators) (inner : nat) (c : nomig_ctx)
    (st st1 : nomig_state) (log log1 : list event) :
  nomig_iter E inner c st log = (log1, Ok st1) ->
  length (n_Nold st) = length (n_N st1) ->
  length (n_s_new st1) = length (n_s_old st) ->
  length (n_h_new st1) = length (n_h_old st) ->
  (parameters_changed st st1 -> operators_built_for c st1 (n_Neff st1)) /\
  (~ parameters_changed st st1 ->
     n_D st1 = n_D st /\ n_S1 st1 = n_S1 st /\ n_S2 st1 = n_S2 st /\
     n_slv st1 = n_slv st /\ n_Q st1 = n_Q st) /\
  (exists slv Q,
     n_slv st1 = Some slv /\ n_Q st1 = Some Q /\
     nomig_update E (length (c_dims c)) (n_dt st1) (c_B c) Q slv (n_sfs st)
     = Ok (n_sfs st1)) /\
  (n_t st = 0 \/ (exists Neff, operators_built_for c st Neff) ->
     exists Neff, operators_built_for c st1 Neff) /\
  (forall Neff, ~ parameters_changed st st1 ->
     operators_built_for c st Neff -> operators_built_for c st1 Neff) /\
  (callable (c_Npop c) = false ->
     n_t st = 0 \/ operators_built_for c st (n_Neff st) ->
     operators_built_for c st1 (n_Neff st1)).
Proof.
  intros H HlN Hls Hlh.
  apply nomig_iter_inv in H
    as (k & rb & Qm & slvm & Hk & Hs & Hh & Hrb & Hops & Hslv & HQ & Hup
        & Ht & Hdt & HN & HNold & HNeff & Hso & Hho).
  rewrite <- HN, <- Hdt in Hrb.
  apply nomig_rebuild_test_spec in Hrb; [|exact HlN|exact Hls|exact Hlh].
  fold (parameters_changed st st1) in Hrb.
  assert (Hfresh : rb = true -> operators_built_for c st1 (n_Neff st1)).
  { intros ->. exists slvm, Qm. rewrite Hso, Hho, HNeff, Hdt. auto. }
  assert (Hkeep : rb = false ->
            n_D st1 = n_D st /\ n_S1 st1 = n_S1 st /\ n_S2 st1 = n_S2 st /\
            n_slv st1 = n_slv st /\ n_Q st1 = n_Q st).
  { intros ->. exact Hops. }
  assert (Hsame : rb = false ->
            n_dt st1 = n_dt st /\ n_s_old st1 = n_s_old st /\ n_h_old st1 = n_h_old st /\
            n_t st <> 0).
  { intros ->. unfold parameters_changed in Hrb.
    assert (Hn : ~ (n_t st = 0 \/ n_Nold st <> n_N st1 \/ n_dt st1 <> n_dt st \/
                    n_s_new st1 <> n_s_old st \/ n_h_new st1 <> n_h_old st)).
    { intros Hc. apply Hrb in Hc. discriminate. }
    split; [apply Qc_not_neq; tauto|]. rewrite Hso, Hho.
    split; [apply vec_not_neq; tauto|]. split; [apply vec_not_neq; tauto|tauto]. }
  split; [intros Hc; apply Hfresh, Hrb, Hc|]. split.
  { intros Hc. apply Hkeep. destruct rb; [|reflexivity].
    exfalso. apply Hc, Hrb. reflexivity. }
  split; [exists slvm, Qm; rewrite Hdt; auto|]. split.
  - intros Hinv. destruct rb.
    + exists (n_Neff st1). apply Hfresh. reflexivity.
    + destruct (Hsame eq_refl) as (Ed & Es & Eh & Hne).
      destruct (Hkeep eq_refl) as (ED & ES1 & ES2 & Eslv & EQ).
      destruct Hinv as [H0|(Neff & slv & Q & Hb & Hbs & HbQ)]; [contradiction|].
      exists Neff, slv, Q. rewrite Ed, Es, Eh, ED, ES1, ES2, Eslv, EQ. auto.
  - split.
    { intros Neff Hc (slv & Q & Hb & Hbs & HbQ). destruct rb.
      - exfalso. apply Hc, Hrb. reflexivity.
      - destruct (Hsame eq_refl) as (Ed & Es & Eh & Hne).
        destruct (Hkeep eq_refl) as (ED & ES1 & ES2 & Eslv & EQ).
        exists slv, Q. rewrite Ed, Es, Eh, ED, ES1, ES2, Eslv, EQ. auto. }
    intros Hconst Hinv. destruct rb.
    + apply Hfresh. reflexivity.
    + destruct (Hsame eq_refl) as (Ed & Es & Eh & Hne).
      destruct (Hkeep eq_refl) as (ED & ES1 & ES2 & Eslv & EQ).
      destruct Hinv as [H0|(slv & Q & Hb & Hbs & HbQ)]; [contradiction|].
      assert (ENeff : n_Neff st1 = n_Neff st).
      { rewrite HNeff. unfold adapt_sizes in Hk.
        destruct (c_Npop c) as [v|f]; [|discriminate].
        apply ret_Ok_inv in Hk as [_ <-]. reflexivity. }
      exists slv, Q. rewrite Ed, Es, Eh, ED, ES1, ES2, Eslv, EQ, ENeff. auto.
Qed.


(* ------------------------------------------------------------------ *)
(** ** Operators kept under a size function *)

Lemma list_eqb_refl {A : Type} (eqb : A -> A -> bool) (l : list A) :
  (forall x, eqb x x = true) -> list_eqb eqb l l = true.
Proof.
  intros H. induction l as [|x l IH]; [reflexivity|]. cbn [list_eqb]. rewrite H, IH.
  reflexivity.
Qed.

Lemma vec_eqb_refl (v : vec) : vec_eqb v v = true.
Proof. apply vec_eqb_eq. reflexivity. Qed.

Lemma operators_eqb_refl (A : list matrix) : operators_eqb A A = true.
Proof. apply list_eqb_refl. intros M. apply list_eqb_refl. exact vec_eqb_refl. Qed.

(** C4 as stated fails: on [sample_nomig_jump] the third pass keeps the
    operators the second pass built for its effective size 11/10, while its
    own effective size is 6/5. *)
Lemma operators_do_not_follow_parameters : ~ operators_follow_parameters.
Proof.
  intros H.
  destruct (nomig_head sample_collaborators 10 2 sample_nomig_jump [])
    as [l2 [[c st2]| |]] eqn:H2; try (vm_compute in H2; discriminate H2).
  destruct (nomig_iter sample_collaborators 10 c st2 l2) as [l3 [st3| |]] eqn:H3.
  - assert (Hlt : n_t st2 < c_Tmax c).
    { pose proof H2 as H2'. vm_compute in H2'. injection H2' as _ <- <-. reflexivity. }
    destruct (H sample_collaborators 10%nat 2%nat sample_nomig_jump [] l2 l3 c st2 st3
                H2 Hlt H3) as (slv & Q & Hops & _).
    assert (Hsame : match nomig_operators c (n_Neff st3) (n_s_old st3) (n_h_old st3)
                            (n_dt st3) with
                    | Ok (D, _, _, _, _) => operators_eqb D (n_D st3)
                    | _ => false
                    end = true).
    { rewrite Hops. apply operators_eqb_refl. }
    clear Hops H. vm_compute in H2. injection H2 as _ <- <-.
    vm_compute in H3. injection H3 as _ <-. vm_compute in Hsame. discriminate Hsame.
  - vm_compute in H2. injection H2 as <- <- <-. vm_compute in H3. discriminate H3.
  - vm_compute in H2. injection H2 as <- <- <-. vm_compute in H3. discriminate H3.
Qed.

(** On a size that jumps between two tests the operators in use are not
    those of the step: in the third pass of [integrate_nomig] on
    [sample_nomig_jump] the rebuild test finds the sizes, the step, the
    selection and the dominance of the second pass and keeps its operators,
    built for the effective size 11/10, although the effective size of the
    third pass is 6/5; the spectrum of the pass is not the one the
    operators of its own effective size give. *)
Example stale_operators_after_size_jump :
  match nomig_head sample_collaborators 10 2 sample_nomig_jump [],
        nomig_head sample_collaborators 10 3 sample_nomig_jump [] with
  | (_, Ok (c, st2)), (_, Ok (_, st3)) =>
      Qcltb (n_t st2) (c_Tmax c) && stale_operators sample_collaborators c st2 st3 = true
  | _, _ => False
  end.
Proof. vm_compute. reflexivity. Qed.

(** C4, amended, on the first pass of the capped sample, which builds the
    operators, and on the third pass of [sample_nomig_jump], which keeps
    those of the second. *)
Lemma operators_rebuilt_iff_changed_witness :
  match nomig_iter sample_collaborators 10 sample_nomig_ctx sample_nomig_state [] with
  | (_, Ok st1) => rebuild_verdict sample_collaborators sample_nomig_ctx sample_nomig_state st1
  | _ => False
  end /\
  match nomig_head sample_collaborators 10 2 sample_nomig_jump [] with
  | (l2, Ok (c, st2)) =>
      match nomig_iter sample_collaborators 10 c st2 l2 with
      | (_, Ok st3) => rebuild_verdict sample_collaborators c st2 st3
      | _ => False
      end
  | _ => False
  end.
Proof.
  split.
  - destruct (nomig_iter sample_collaborators 10 sample_nomig_ctx sample_nomig_state [])
      as [log1 [st1| |]] eqn:Hit;
      [|vm_compute in Hit; discriminate|vm_compute in Hit; discriminate].
    apply (operators_rebuilt_iff_changed sample_collaborators 10 sample_nomig_ctx
             sample_nomig_state st1 [] log1 Hit).
    + vm_compute in Hit. injection Hit as _ <-. reflexivity.
    + vm_compute in Hit. injection Hit as _ <-. reflexivity.
    + vm_compute in Hit. injection Hit as _ <-. reflexivity.
  - destruct (nomig_head sample_collaborators 10 2 sample_nomig_jump [])
      as [l2 [[c st2]| |]] eqn:H2; try (vm_compute in H2; discriminate H2).
    destruct (nomig_iter sample_collaborators 10 c st2 l2) as [l3 [st3| |]] eqn:H3.
    + apply (operators_rebuilt_iff_changed sample_collaborators 10 c st2 st3 l2 l3 H3);
        vm_compute in H2; injection H2 as _ <- <-;
        vm_compute in H3; injection H3 as _ <-; reflexivity.
    + vm_compute in H2. injection H2 as <- <- <-. vm_compute in H3. discriminate H3.
    + vm_compute in H2. injection H2 as <- <- <-. vm_compute in H3. discriminate H3.
Defined.

(* ------------------------------------------------------------------ *)
(** ** Where the population-size error can come from *)

Lemma quiet_Ok {A : Type} (a : A) : quiet (Ok a).
Proof. discriminate. Qed.

Lemma quiet_bind {A B : Type} (c : outcome A) (k : A -> outcome B) :
  quiet c -> (forall a, quiet (k a)) -> quiet (bind c k).
Proof.
  unfold quiet. intros Hc Hk. destruct c as [a|e|]; simpl.
  - apply Hk.
  - intros [= ->]. apply Hc. reflexivity.
  - discriminate.
Qed.

Lemma quiet_item {A : Type} (l : list A) (i : nat) : quiet (item l i).
Proof. unfold quiet, item. destruct (nth_error l i); discriminate. Qed.

Lemma quiet_list_set {A : Type} (l : list A) (i : nat) (v : A) : quiet (list_set l i v).
Proof.
  unfold quiet. revert i. induction l as [|a l IH]; intros i; simpl; [discriminate|].
  destruct i as [|i]; [discriminate|].
  specialize (IH i). destruct (list_set l i v); simpl; congruence.
Qed.

Lemma quiet_mapM {A B : Type} (f : A -> outcome B) (l : list A) :
  (forall a, quiet (f a)) -> quiet (mapM f l).
Proof.
  intros Hf. induction l as [|a l IH]; simpl; [apply quiet_Ok|].
  apply quiet_bind; [apply Hf|]. intros b. apply quiet_bind; [exact IH|].
  intros bs. apply quiet_Ok.
Qed.

Lemma quiet_for_each {A : Type} (l : list nat) (body : nat -> A -> outcome A) (a : A) :
  (forall i x, quiet (body i x)) -> quiet (for_each l body a).
Proof.
  intros Hb. revert a. induction l as [|i l IH]; intros a; simpl; [apply quiet_Ok|].
  apply quiet_bind; [apply Hb|]. exact IH.
Qed.

Lemma quiet_broadcast2 {A B C : Type} (f : A -> B -> C) (a : list A) (b : list B) :
  quiet (broadcast2 f a b).
Proof.
  unfold quiet, broadcast2. destruct (length a =? length b)%nat; [discriminate|].
  destruct a as [|x [|? ?]]; destruct b as [|y [|? ?]]; discriminate.
Qed.

Lemma quiet_inplace2 {A B : Type} (f : A -> B -> A) (a : list A) (b : list B) :
  quiet (inplace2 f a b).
Proof.
  unfold quiet, inplace2. destruct (length a =? length b)%nat; [discriminate|].
  destruct b as [|y [|? ?]]; discriminate.
Qed.

Lemma quiet_np_max (v : vec) : quiet (np_max v).
Proof. unfold quiet, np_max. destruct v; discriminate. Qed.

Lemma quiet_nd_reshape (a : ndarray) (sh : list nat) : quiet (nd_reshape a sh).
Proof. unfold quiet, nd_reshape. destruct (_ =? _)%nat; discriminate. Qed.

Lemma quiet_nd_dot (M : matrix) (a : ndarray) : quiet (nd_dot M a).
Proof.
  unfold quiet, nd_dot. destruct (shape a) as [|? [|? [|? ?]]]; discriminate.
Qed.

Lemma quiet_nd_set (a : ndarray) (idx : list nat) (v : Qc) : quiet (nd_set a idx v).
Proof.
  unfold nd_set. destruct (in_bounds (shape a) idx); [|discriminate].
  apply quiet_bind; [apply quiet_list_set|]. intros d. apply quiet_Ok.
Qed.

Lemma quiet_assert (b : bool) : quiet (assert b).
Proof. unfold quiet, assert. destruct b; discriminate. Qed.

Lemma quiet_bound {A : Type} (x : option A) : quiet (bound x).
Proof. unfold quiet, bound. destruct x; discriminate. Qed.

(** Closes a goal [quiet c] by following the structure of [c]. *)
Ltac quiet_step :=
  first
    [ apply quiet_Ok
    | discriminate
    | apply quiet_item
    | apply quiet_list_set
    | apply quiet_broadcast2
    | apply quiet_inplace2
    | apply quiet_np_max
    | apply quiet_nd_reshape
    | apply quiet_nd_dot
    | apply quiet_nd_set
    | apply quiet_assert
    | apply quiet_bound
    | assumption
    | apply quiet_bind; [|intros ?]
    | apply quiet_mapM; intros ?
    | apply quiet_for_each; intros ? ?
    | match goal with
      | |- quiet (if ?b then _ else _) => destruct b
      | |- quiet (match ?x with _ => _ end) => destruct x
      | |- quiet (Raise _) => unfold quiet
      | H : forall k, quiet (?s k) |- quiet (?s _) => apply H
      end ].

Ltac quiet_tac := repeat quiet_step.

Lemma quiet_calcB (dims : list nat) (u : vec) : quiet (_calcB dims u).
Proof.
  unfold _calcB. generalize (nd_zeros dims) as B. generalize (seq 0 (length dims)) as ks.
  induction ks as [|k ks IH]; intros B; simpl; [apply quiet_Ok|].
  quiet_tac; try apply IH.
Qed.

Lemma quiet_ud1 (r i : nat) (sfs : ndarray) (Q : list matrix) : quiet (_ud1 r i sfs Q).
Proof.
  assert (H3 : forall s q, quiet (_ud1_3pop_1 s q)) by (intros; unfold _ud1_3pop_1; quiet_tac).
  unfold _ud1.
  repeat match goal with |- quiet (match ?x with _ => _ end) => destruct x end;
    unfold _ud1_2pop_1, _ud1_2pop_2, _ud1_3pop_2, _ud1_3pop_3,
      _ud1_4pop_1, _ud1_4pop_2, _ud1_4pop_3, _ud1_4pop_4,
      _ud1_5pop_1, _ud1_5pop_2, _ud1_5pop_3, _ud1_5pop_4, _ud1_5pop_5,
      _ud1_4pop_1, _ud1_5pop_1;
    try apply H3; quiet_tac; try apply H3; quiet_tac.
Qed.

Lemma quiet_sweep (solver : axis_solver) (k : nat) (sl : slice) (sfs : ndarray) :
  (forall j, quiet (solver j)) -> quiet (sweep solver k sl sfs).
Proof. intros H. unfold sweep. quiet_tac. Qed.

Lemma quiet_slv_solver (slv : list (vec -> vec)) (k : nat) : quiet (slv_solver slv k).
Proof. unfold slv_solver. quiet_tac. Qed.

Lemma quiet_ts_solver (E : collaborators) (A Di C : list vec) (k : nat) :
  quiet (ts_solver E A Di C k).
Proof. unfold ts_solver. quiet_tac. Qed.

Lemma quiet_sweeps (solver : axis_solver) (sfs : ndarray) :
  (forall j, quiet (solver j)) ->
  quiet (sweep_2pop_1 solver sfs) /\ quiet (sweep_2pop_2 solver sfs) /\
  quiet (sweep_3pop_1 solver sfs) /\ quiet (sweep_3pop_2 solver sfs) /\
  quiet (sweep_3pop_3 solver sfs) /\
  quiet (sweep_4pop_1 solver sfs) /\ quiet (sweep_4pop_2 solver sfs) /\
  quiet (sweep_4pop_3 solver sfs) /\ quiet (sweep_4pop_4 solver sfs) /\
  quiet (sweep_5pop_1 solver sfs) /\ quiet (sweep_5pop_2 solver sfs) /\
  quiet (sweep_5pop_3 solver sfs) /\ quiet (sweep_5pop_4 solver sfs) /\
  quiet (sweep_5pop_5 solver sfs).
Proof.
  intros H.
  unfold sweep_2pop_1, sweep_2pop_2, sweep_3pop_1, sweep_3pop_2, sweep_3pop_3,
    sweep_4pop_1, sweep_4pop_2, sweep_4pop_3, sweep_4pop_4,
    sweep_5pop_1, sweep_5pop_2, sweep_5pop_3, sweep_5pop_4, sweep_5pop_5, for_range.
  repeat split;
    repeat (apply quiet_for_each; intros ? ?); apply quiet_sweep; exact H.
Qed.

Lemma quiet_ud2 (r i : nat) (sfs : ndarray) (slv : list (vec -> vec)) :
  quiet (_ud2 r i sfs slv).
Proof.
  destruct (quiet_sweeps (slv_solver slv) sfs (quiet_slv_solver slv))
    as (? & ? & ? & ? & ? & ? & ? & ? & ? & ? & ? & ? & ? & ?).
  unfold _ud2.
  repeat match goal with |- quiet (match ?x with _ => _ end) => destruct x end;
    try discriminate; assumption.
Qed.

Lemma quiet_udn2 (E : collaborators) (r i : nat) (sfs : ndarray) (A Di C : list vec) :
  quiet (_udn2 E r i sfs A Di C).
Proof.
  destruct (quiet_sweeps (ts_solver E A Di C) sfs (quiet_ts_solver E A Di C))
    as (? & ? & ? & ? & ? & ? & ? & ? & ? & ? & ? & ? & ? & ?).
  unfold _udn2.
  repeat match goal with |- quiet (match ?x with _ => _ end) => destruct x end;
    try discriminate; assumption.
Qed.

Lemma quiet_update_step1 (sfs : ndarray) (Q : list matrix) : quiet (_update_step1 sfs Q).
Proof.
  unfold _update_step1, for_range. quiet_tac. apply quiet_ud1.
Qed.

Lemma quiet_update_step2 (sfs : ndarray) (slv : list (vec -> vec)) :
  quiet (_update_step2 sfs slv).
Proof.
  unfold _update_step2, for_range. quiet_tac. apply quiet_ud2.
Qed.

Lemma quiet_update_step2_neutral (E : collaborators) (sfs : ndarray) (A Di C : list vec) :
  quiet (_update_step2_neutral E sfs A Di C).
Proof.
  unfold _update_step2_neutral, for_range. quiet_tac. apply quiet_udn2.
Qed.

Lemma quiet_add_reversible (dt : Qc) (Bs : list matrix) (np : nat) (sfs : ndarray) :
  quiet (add_reversible dt Bs np sfs).
Proof. unfold add_reversible, for_range. quiet_tac. Qed.

Lemma quiet_nomig_update (E : collaborators) (np : nat) (dt : Qc) (B : mutation_term)
    (Q slv : list matrix) (sfs : ndarray) :
  quiet (nomig_update E np dt B Q slv sfs).
Proof.
  unfold nomig_update.
  destruct (np =? 1)%nat; [quiet_tac|].
  destruct (1 <? np)%nat; [|apply quiet_Ok].
  apply quiet_bind; [apply quiet_update_step1|]. intros sfs1.
  apply quiet_bind; [|intros sfs2; apply quiet_update_step2].
  destruct B as [b|[b|bs]]; [apply quiet_Ok|discriminate|apply quiet_add_reversible].
Qed.

Lemma quiet_neutral_update (E : collaborators) (np : nat) (dt : Qc) (B : mutation_term)
    (A Di C : list vec) (Q : list matrix) (sfs : ndarray) :
  quiet (neutral_update E np dt B A Di C Q sfs).
Proof.
  unfold neutral_update.
  destruct (np =? 1)%nat; [quiet_tac|].
  apply quiet_bind; [apply quiet_update_step1|]. intros sfs1.
  apply quiet_bind; [|intros sfs2; apply quiet_update_step2_neutral].
  destruct B as [b|[b|bs]]; [apply quiet_Ok|discriminate|apply quiet_add_reversible].
Qed.

Lemma quiet_nomig_operators (c : nomig_ctx) (Neff s h : vec) (dt : Qc) :
  quiet (nomig_operators c Neff s h dt).
Proof.
  unfold nomig_operators, drift_ops, sel1_ops, sel2_ops, implicit_systems, explicit_ops,
    axis_generator, comprehension.
  quiet_tac.
Qed.

Lemma quiet_drift_ops (np : nat) (N : vec) (vd : list matrix) : quiet (drift_ops np N vd).
Proof. unfold drift_ops, comprehension. quiet_tac. Qed.

Lemma quiet_sel1_ops (np : nat) (s h : vec) (vs : list matrix) :
  quiet (sel1_ops np s h vs).
Proof. unfold sel1_ops, comprehension. quiet_tac. Qed.

Lemma quiet_sel2_ops (np : nat) (s h : vec) (vs : list matrix) :
  quiet (sel2_ops np s h vs).
Proof. unfold sel2_ops, comprehension. quiet_tac. Qed.

Lemma quiet_neutral_operators (E : collaborators) (c : neutral_ctx) (Neff : vec) (dt : Qc) :
  quiet (neutral_operators E c Neff dt).
Proof.
  unfold neutral_operators, drift_ops, neutral_diagonals, neutral_explicit_ops,
    comprehension.
  quiet_tac.
Qed.

Lemma quiet_vec_differs (a b : vec) : quiet (vec_differs a b).
Proof. unfold vec_differs. quiet_tac. Qed.

Lemma quiet_nomig_rebuild_test (t dt dt_old : Qc) (Nold N s s' h h' : vec) :
  quiet (nomig_rebuild_test t dt dt_old Nold N s s' h h').
Proof.
  unfold nomig_rebuild_test, por.
  destruct (Qceqb t 0); [apply quiet_Ok|].
  apply quiet_bind; [apply quiet_vec_differs|]. intros [|]; [apply quiet_Ok|].
  destruct (negb (Qceqb dt dt_old)); [apply quiet_Ok|].
  apply quiet_bind; [apply quiet_vec_differs|]. intros [|]; [apply quiet_Ok|].
  apply quiet_vec_differs.
Qed.

Lemma quiet_neutral_rebuild_test (t dt dt_old : Qc) (Nold N : vec) :
  quiet (neutral_rebuild_test t dt dt_old Nold N).
Proof.
  unfold neutral_rebuild_test, por.
  destruct (Qceqb t 0); [apply quiet_Ok|].
  apply quiet_bind; [apply quiet_vec_differs|]. intros [|]; apply quiet_Ok.
Qed.

Lemma quiet_relative_change (N Nold : vec) : quiet (relative_change N Nold).
Proof. unfold relative_change. quiet_tac. Qed.

Lemma quiet_mutation_source (E : collaborators) (dims : list nat) (u : vec)
    (v : option vec) :
  quiet (mutation_source E dims u v).
Proof.
  unfold mutation_source. destruct v; [apply quiet_Ok|].
  apply quiet_bind; [apply quiet_calcB|]. intros B. apply quiet_Ok.
Qed.

Lemma quiet_Spectrum (sfs : ndarray) (corners : bool) : quiet (Spectrum sfs corners).
Proof. unfold Spectrum, mask_corners. quiet_tac. Qed.

Lemma quiet_eval_sched (s : sched) (t : Qc) : quiet_sched s -> quiet (eval_sched s t).
Proof. destruct s; simpl; intros H; [apply quiet_Ok|apply H]. Qed.

Lemma quiet_coefficient_at (s : sched) (previous : vec) (t dt : Qc) :
  quiet_sched s -> quiet (coefficient_at s previous t dt).
Proof. destruct s; simpl; intros H; [apply quiet_Ok|apply H]. Qed.

Lemma quiet_set_frozen (frozen : list bool) (value : Qc) (x : vec) :
  quiet (set_frozen frozen value x).
Proof. unfold set_frozen. quiet_tac. Qed.

Lemma quiet_mutation_rates (np : nat) (fg : bool) (theta : rate) (fd bd : option rate) :
  quiet (mutation_rates np fg theta fd bd).
Proof. unfold mutation_rates, opt_rate_over_4. quiet_tac. Qed.

Lemma quiet_freeze_rates (frozen : list bool) (uv : vec * option vec) :
  quiet (freeze_rates frozen uv).
Proof. unfold freeze_rates. quiet_tac. Qed.

Lemma normalize_gamma_quiet (np : nat) (c : coeff) : quiet_sched (normalize_gamma np c).
Proof. destruct c; simpl; auto; intros t; apply quiet_Ok. Qed.

Lemma normalize_h_quiet (np : nat) (c : coeff) : quiet_sched (normalize_h np c).
Proof. destruct c; simpl; auto; intros t; apply quiet_Ok. Qed.

Lemma normalize_Npop_quiet (Npop : popsize) : quiet_sched (normalize_Npop Npop).
Proof. destruct Npop; simpl; auto; intros t; apply quiet_Ok. Qed.

Lemma freeze_s_quiet (frozen : list bool) (s s' : sched) :
  quiet_sched s -> freeze_s frozen s = Ok s' -> quiet_sched s'.
Proof.
  destruct s as [v|f]; simpl; intros Hq H.
  - apply bind_Ok_inv in H as (v' & _ & [= <-]). exact I.
  - injection H as <-. intros t. apply quiet_bind; [apply Hq|].
    intros x. apply quiet_broadcast2.
Qed.

Lemma freeze_Npop_quiet (frozen : list bool) (s s' : sched) :
  quiet_sched s -> freeze_Npop frozen s = Ok s' -> quiet_sched s'.
Proof.
  destruct s as [v|f]; simpl; intros Hq H.
  - apply bind_Ok_inv in H as (v' & _ & [= <-]). exact I.
  - injection H as <-. intros t. apply quiet_bind; [apply Hq|].
    intros x. apply quiet_bind; [apply quiet_broadcast2|].
    intros y. apply quiet_broadcast2.
Qed.

Lemma nomig_params_quiet (a : nomig_args) :
  quiet (nomig_params a) /\
  forall p, nomig_params a = Ok p -> quiet_sched (p_s p) /\ quiet_sched (p_Npop p).
Proof.
  unfold nomig_params. split.
  - apply quiet_bind; [apply quiet_mutation_rates|]. intros uv.
    destruct (any_frozen (a_frozen a)); [|apply quiet_Ok].
    unfold freeze_s, freeze_Npop.
    destruct (normalize_gamma _ _), (normalize_Npop _); quiet_tac;
      try apply quiet_set_frozen; try apply quiet_freeze_rates; quiet_tac.
  - intros p H. apply bind_Ok_inv in H as (uv & _ & H).
    destruct (any_frozen (a_frozen a)).
    + apply bind_Ok_inv in H as (s' & Hs & H).
      apply bind_Ok_inv in H as (N' & HN & H).
      apply bind_Ok_inv in H as (uv' & _ & [= <-]). simpl. split.
      * eapply freeze_s_quiet; [apply normalize_gamma_quiet|exact Hs].
      * eapply freeze_Npop_quiet; [apply normalize_Npop_quiet|exact HN].
    + injection H as <-. simpl. split;
        [apply normalize_gamma_quiet|apply normalize_Npop_quiet].
Qed.

Lemma neutral_params_quiet (b : neutral_args) :
  quiet (neutral_params b) /\
  forall p, neutral_params b = Ok p -> quiet_sched (p_Npop p).
Proof.
  unfold neutral_params. split.
  - apply quiet_bind; [apply quiet_mutation_rates|]. intros uv.
    destruct (any_frozen (b_frozen b)); [|apply quiet_Ok].
    unfold freeze_Npop.
    destruct (normalize_Npop _); quiet_tac;
      try apply quiet_set_frozen; try apply quiet_freeze_rates; quiet_tac.
  - intros p H. apply bind_Ok_inv in H as (uv & _ & H).
    destruct (any_frozen (b_frozen b)).
    + apply bind_Ok_inv in H as (N' & HN & H).
      apply bind_Ok_inv in H as (uv' & _ & [= <-]). simpl.
      eapply freeze_Npop_quiet; [apply normalize_Npop_quiet|exact HN].
    + injection H as <-. simpl. apply normalize_Npop_quiet.
Qed.

(* ------------------------------------------------------------------ *)
(** ** Runs keep the verdict *)

Lemma sound_ret {A : Type} (a : A) : sound (ret a).
Proof. intros log H. exact H. Qed.

Lemma sound_out_of_fuel {A : Type} : sound (@out_of_fuel A).
Proof. intros log H. exact H. Qed.

Lemma sound_lift {A : Type} (c : outcome A) : quiet c -> sound (lift c).
Proof.
  intros Hq log H. unfold lift, verdict. destruct c as [a|e|]; try exact H.
  destruct e; try exact H. exfalso. apply Hq. reflexivity.
Qed.

Lemma sound_emit_warn (fn : integrator) (t : Qc) (Nold N : vec) :
  sound (emit (EvWarn fn t Nold N)).
Proof. intros log H. exact H. Qed.

Lemma sound_emit_change (rc : Qc) : sound (emit (EvChange rc)).
Proof. intros log H. exact H. Qed.

Lemma sound_test_sizes (t : Qc) (N : vec) : sound (test_sizes t N).
Proof.
  intros log H. unfold test_sizes, verdict.
  destruct (any_nonpositive N) eqn:E.
  - exists t, N, log. auto.
  - unfold clean. simpl. constructor; assumption.
Qed.

Lemma sound_rbind {A B : Type} (c : run A) (k : A -> run B) :
  sound c -> (forall a, sound (k a)) -> sound (rbind c k).
Proof.
  intros Hc Hk log H. unfold rbind. specialize (Hc log H).
  destruct (c log) as [log' [a|e|]].
  - apply Hk. exact Hc.
  - exact Hc.
  - exact Hc.
Qed.

Lemma sound_sizes_at (f : Qc -> outcome vec) (t : Qc) :
  (forall tau, quiet (f tau)) -> sound (sizes_at f t).
Proof.
  intros Hf. unfold sizes_at.
  apply sound_rbind; [apply sound_lift, Hf|]. intros N.
  apply sound_rbind; [apply sound_test_sizes|]. intros _. apply sound_ret.
Qed.

Lemma sound_halving (E : collaborators) (fn : integrator) (fuel : nat)
    (f : Qc -> outcome vec) (t : Qc) (Nold : vec) :
  (forall tau, quiet (f tau)) ->
  forall k, sound (halving E fn fuel f t Nold k).
Proof.
  intros Hf. induction fuel as [|fuel IH]; intros k; cbn [halving].
  - apply sound_rbind; [apply sound_lift, quiet_relative_change|]. intros rc.
    destruct (Qcltb acceptable_change rc); [apply sound_out_of_fuel|apply sound_ret].
  - apply sound_rbind; [apply sound_lift, quiet_relative_change|]. intros rc.
    destruct (Qcltb acceptable_change rc); [|apply sound_ret].
    apply sound_rbind; [apply sound_sizes_at, Hf|]. intros N.
    destruct (n_iter_max <=? S (k_n_iter k))%nat; [|apply IH].
    apply sound_rbind; [apply sound_emit_warn|]. intros _.
    apply sound_rbind; [apply sound_lift, quiet_relative_change|]. intros rc'.
    apply sound_rbind; [apply sound_emit_change|]. intros _. apply sound_ret.
Qed.

Lemma sound_adapt_sizes (E : collaborators) (fn : integrator) (fuel : nat) (Npop : sched)
    (t dt : Qc) (N Nold Neff : vec) :
  quiet_sched Npop -> sound (adapt_sizes E fn fuel Npop t dt N Nold Neff).
Proof.
  intros Hq. unfold adapt_sizes. destruct Npop as [v|f]; [apply sound_ret|].
  apply sound_rbind; [apply sound_sizes_at, Hq|]. intros N'.
  apply sound_halving. exact Hq.
Qed.

Lemma sound_nomig_iter (E : collaborators) (inner : nat) (c : nomig_ctx)
    (st : nomig_state) :
  quiet_sched (c_Npop c) -> quiet_sched (c_s c) -> quiet_sched (c_h c) ->
  sound (nomig_iter E inner c st).
Proof.
  intros HN Hs Hh. unfold nomig_iter.
  apply sound_rbind; [apply sound_adapt_sizes, HN|]. intros k.
  apply sound_rbind.
  { apply sound_lift. destruct (c_s c); [apply quiet_Ok|apply Hs]. }
  intros s_new. apply sound_rbind.
  { apply sound_lift. destruct (c_h c); [apply quiet_Ok|apply Hh]. }
  intros h_new.
  apply sound_rbind; [apply sound_lift, quiet_nomig_rebuild_test|]. intros rb.
  apply sound_rbind.
  { apply sound_lift. destruct rb; [|apply quiet_Ok].
    unfold drift_ops, sel1_ops, sel2_ops, implicit_systems, explicit_ops,
      axis_generator, comprehension. quiet_tac. }
  intros [[[[D S1] S2] slv] Q].
  apply sound_rbind; [|intros sfs; apply sound_ret].
  apply sound_lift. apply quiet_bind; [apply quiet_bound|]. intros Qm.
  apply quiet_bind; [apply quiet_bound|]. intros slvm. apply quiet_nomig_update.
Qed.

Lemma sound_nomig_loop (E : collaborators) (inner fuel : nat) (c : nomig_ctx) :
  quiet_sched (c_Npop c) -> quiet_sched (c_s c) -> quiet_sched (c_h c) ->
  forall st, sound (nomig_loop E inner fuel c st).
Proof.
  intros HN Hs Hh. induction fuel as [|fuel IH]; intros st; cbn [nomig_loop];
    destruct (Qcltb (n_t st) (c_Tmax c)); try apply sound_ret; try apply sound_out_of_fuel.
  apply sound_rbind; [apply sound_nomig_iter; assumption|exact IH].
Qed.

Lemma sound_neutral_iter (E : collaborators) (inner : nat) (c : neutral_ctx)
    (st : neutral_state) :
  quiet_sched (d_Npop c) -> sound (neutral_iter E inner c st).
Proof.
  intros HN. unfold neutral_iter.
  apply sound_rbind; [apply sound_adapt_sizes, HN|]. intros k.
  apply sound_rbind; [apply sound_lift, quiet_neutral_rebuild_test|]. intros rb.
  apply sound_rbind.
  { apply sound_lift. destruct rb; [|apply quiet_Ok].
    unfold drift_ops, neutral_diagonals, neutral_explicit_ops, comprehension. quiet_tac. }
  intros [[[[D A] Di] C] Q].
  apply sound_rbind; [|intros sfs; apply sound_ret].
  apply sound_lift. quiet_tac. apply quiet_neutral_update.
Qed.

Lemma sound_neutral_loop (E : collaborators) (inner fuel : nat) (c : neutral_ctx) :
  quiet_sched (d_Npop c) -> forall st, sound (neutral_loop E inner fuel c st).
Proof.
  intros HN. induction fuel as [|fuel IH]; intros st; cbn [neutral_loop];
    destruct (Qcltb (m_t st) (d_Tmax c)); try apply sound_ret; try apply sound_out_of_fuel.
  apply sound_rbind; [apply sound_neutral_iter; assumption|exact IH].
Qed.

Lemma sound_rbind_post {A B : Type} (c : run A) (k : A -> run B) (P : A -> Prop) :
  sound c ->
  (forall log log' a, c log = (log', Ok a) -> P a) ->
  (forall a, P a -> sound (k a)) ->
  sound (rbind c k).
Proof.
  intros Hc HP Hk log H. unfold rbind. specialize (Hc log H). specialize (HP log).
  destruct (c log) as [log' [a|e|]].
  - apply Hk; [apply (HP log' a eq_refl)|exact Hc].
  - exact Hc.
  - exact Hc.
Qed.

Lemma nomig_init_ctx (E : collaborators) (a : nomig_args) (p : params)
    (c : nomig_ctx) (st : nomig_state) (log log' : list event) :
  nomig_init E a p log = (log', Ok (c, st)) ->
  c_Npop c = p_Npop p /\ c_s c = p_s p /\
  c_h c = normalize_h (length (shape (a_sfs0 a))) (a_h a) /\
  c_Tmax c = a_tf a * two /\ n_t st = 0 /\ n_sfs st = a_sfs0 a.
Proof.
  unfold nomig_init. intros H.
  apply rbind_Ok_inv in H as (N & l1 & _ & H).
  apply rbind_Ok_inv in H as (? & l2 & _ & H).
  apply rbind_Ok_inv in H as (D & l3 & _ & H).
  apply rbind_Ok_inv in H as (s_new & l4 & _ & H).
  apply rbind_Ok_inv in H as (h_new & l5 & _ & H).
  apply rbind_Ok_inv in H as (S1 & l6 & _ & H).
  apply rbind_Ok_inv in H as (S2 & l7 & _ & H).
  apply rbind_Ok_inv in H as (B & l8 & _ & H).
  apply ret_Ok_inv in H as [_ [= <- <-]]. simpl. auto 10.
Qed.

Lemma sound_nomig_init (E : collaborators) (a : nomig_args) (p : params) :
  quiet_sched (p_Npop p) -> quiet_sched (p_s p) -> sound (nomig_init E a p).
Proof.
  intros HN Hs. unfold nomig_init.
  apply sound_rbind; [apply sound_lift, quiet_eval_sched, HN|]. intros N.
  apply sound_rbind; [apply sound_test_sizes|]. intros _.
  apply sound_rbind; [apply sound_lift, quiet_drift_ops|]. intros D.
  apply sound_rbind; [apply sound_lift, quiet_eval_sched, Hs|]. intros s_new.
  apply sound_rbind; [apply sound_lift, quiet_eval_sched, normalize_h_quiet|]. intros h_new.
  apply sound_rbind; [apply sound_lift, quiet_sel1_ops|]. intros S1.
  apply sound_rbind; [apply sound_lift, quiet_sel2_ops|]. intros S2.
  apply sound_rbind; [apply sound_lift, quiet_mutation_source|]. intros B.
  apply sound_ret.
Qed.

Lemma sound_integrate_nomig (E : collaborators) (fuel : nat) (a : nomig_args) :
  sound (integrate_nomig E fuel a).
Proof.
  unfold integrate_nomig.
  apply (sound_rbind_post _ _
           (fun p => quiet_sched (p_s p) /\ quiet_sched (p_Npop p))).
  - apply sound_lift. apply (proj1 (nomig_params_quiet a)).
  - intros log log' p H. apply lift_Ok_inv in H as [_ H].
    apply (proj2 (nomig_params_quiet a)). exact H.
  - intros p [Hs HN].
    apply (sound_rbind_post _ _
             (fun cs => quiet_sched (c_Npop (fst cs)) /\ quiet_sched (c_s (fst cs)) /\
                        quiet_sched (c_h (fst cs)))).
    + apply sound_nomig_init; assumption.
    + intros log log' [c st] H. apply nomig_init_ctx in H as (E1 & E2 & E3 & _).
      simpl. rewrite E1, E2, E3. repeat split; try assumption. apply normalize_h_quiet.
    + intros [c st] (HcN & Hcs & Hch). simpl in *.
      apply sound_rbind; [apply sound_nomig_loop; assumption|]. intros st'.
      apply sound_lift, quiet_Spectrum.
Qed.

Lemma neutral_init_ctx (E : collaborators) (b : neutral_args) (p : params)
    (c : neutral_ctx) (st : neutral_state) (log log' : list event) :
  neutral_init E b p log = (log', Ok (c, st)) ->
  d_Npop c = p_Npop p /\ d_Tmax c = b_tf b * two /\ m_t st = 0 /\ m_sfs st = b_sfs0 b.
Proof.
  unfold neutral_init. intros H.
  apply rbind_Ok_inv in H as (N & l1 & _ & H).
  apply rbind_Ok_inv in H as (? & l2 & _ & H).
  apply rbind_Ok_inv in H as (D & l3 & _ & H).
  apply rbind_Ok_inv in H as (B & l8 & _ & H).
  apply ret_Ok_inv in H as [_ [= <- <-]]. simpl. auto.
Qed.

Lemma sound_neutral_init (E : collaborators) (b : neutral_args) (p : params) :
  quiet_sched (p_Npop p) -> sound (neutral_init E b p).
Proof.
  intros HN. unfold neutral_init.
  apply sound_rbind; [apply sound_lift, quiet_eval_sched, HN|]. intros N.
  apply sound_rbind; [apply sound_test_sizes|]. intros _.
  apply sound_rbind; [apply sound_lift, quiet_drift_ops|]. intros D.
  apply sound_rbind; [apply sound_lift, quiet_mutation_source|]. intros B.
  apply sound_ret.
Qed.

Lemma sound_integrate_neutral (E : collaborators) (fuel : nat) (b : neutral_args) :
  sound (integrate_neutral E fuel b).
Proof.
  unfold integrate_neutral.
  apply (sound_rbind_post _ _ (fun p => quiet_sched (p_Npop p))).
  - apply sound_lift. apply (proj1 (neutral_params_quiet b)).
  - intros log log' p H. apply lift_Ok_inv in H as [_ H].
    apply (proj2 (neutral_params_quiet b)). exact H.
  - intros p HN.
    apply (sound_rbind_post _ _ (fun cs => quiet_sched (d_Npop (fst cs)))).
    + apply sound_neutral_init; assumption.
    + intros log log' [c st] H. apply neutral_init_ctx in H as (E1 & _).
      simpl. rewrite E1. assumption.
    + intros [c st] HcN. simpl in *.
      apply sound_rbind; [apply sound_neutral_loop; assumption|]. intros st'.
      apply sound_lift, quiet_Spectrum.
Qed.

Lemma verdict_judged {A : Type} (r : list event * outcome A) :
  verdict r -> sizes_judged r.
Proof.
  destruct r as [log o]. unfold verdict, sizes_judged. simpl. intros H.
  assert (Hclean : forall l, clean l ->
            ~ exists N, In N (evaluated_sizes l) /\ exists x, In x N /\ x <= 0).
  { intros l Hl (N & HN & Hx). unfold clean in Hl. rewrite Forall_forall in Hl.
    specialize (Hl N HN). apply any_nonpositive_true in Hx. congruence. }
  assert (Hpos : forall l, clean l ->
            forall N', In N' (evaluated_sizes l) -> all_positive N').
  { intros l Hl N' HN'. unfold clean in Hl. rewrite Forall_forall in Hl.
    apply any_nonpositive_false. apply Hl. exact HN'. }
  destruct o as [a|e|].
  - split; [|discriminate]. split; [discriminate|].
    intros Hex. exfalso. apply (Hclean log H Hex).
  - destruct e;
      try (split; [|discriminate]; split; [discriminate|];
           intros Hex; exfalso; apply (Hclean log H Hex)).
    destruct H as (t & N & rest & -> & HN & Hrest).
    apply any_nonpositive_true in HN. split.
    + split; [|reflexivity]. intros _. exists N. split; [left; reflexivity|exact HN].
    + intros _. exists t, N, rest. split; [reflexivity|]. split; [exact HN|].
      apply Hpos. exact Hrest.
  - split; [|discriminate]. split; [discriminate|].
    intros Hex. exfalso. apply (Hclean log H Hex).
Qed.

(** A size that becomes negative during the integration: the call raises at
    the third midpoint, after the evaluations at time 0 and at two
    midpoints. *)
Example shrinking_size_raises :
  match integrate_nomig sample_collaborators 20 sample_nomig_shrinking [] with
  | (EvSizes t [N] :: rest, Raise PopSizeError) =>
      Qcleb N 0 && Qceqb t (Q2Qc (3 # 10)) && (length rest =? 3)%nat = true
  | _ => False
  end.
Proof. vm_compute. reflexivity. Qed.

(* ------------------------------------------------------------------ *)
(** ** The neutral and the general integrator side by side *)

(** The 1-D finite-genome branches (lines 643-647 and 816-820): after the
    explicit half-step [sfs1 = Q[0].dot(sfs)], [integrate_nomig] applies the
    mutation operator to [sfs1], [integrate_neutral] to [sfs]. *)
Lemma finite_genome_1d_updates (E : collaborators) (dt : Qc) (b Q0 M : matrix)
    (A0 Di0 C0 : vec) (sfs sfs1 : ndarray) :
  nd_dot Q0 sfs = Ok sfs1 ->
  nomig_update E 1 dt (B_FG (FB_1D b)) [Q0] [M] sfs
  = Ok (apply_solver (factorized E M)
          (nd_add sfs1 (mk_nd [nrows b] (mat_vec (mscale dt b) (data sfs1))))) /\
  neutral_update E 1 dt (B_FG (FB_1D b)) [A0] [Di0] [C0] [Q0] sfs
  = Ok (apply_solver (ts_solve E A0 Di0 C0)
          (nd_add sfs1 (mk_nd [nrows b] (mat_vec (mscale dt b) (data sfs))))).
Proof.
  intros H. unfold nomig_update, neutral_update. simpl. rewrite H. simpl. split; reflexivity.
Qed.

(** C2 at a failing input: one population, finite-genome model.  With the
    sample collaborators, where both solvers are the same exact tridiagonal
    elimination, the two integrators return different spectra. *)
Theorem integrators_differ_finite_genome_1d :
  same_data (integrate_nomig sample_collaborators 10 sample_nomig_fg [])
            (integrate_neutral sample_collaborators 10 sample_neutral_fg [])
  = Some false.
Proof. vm_compute. reflexivity. Qed.

(** On the same call with the infinite-sites model they agree. *)
Example integrators_agree_infinite_sites_1d :
  same_data (integrate_nomig sample_collaborators 10 sample_nomig_1d [])
            (integrate_neutral sample_collaborators 10 sample_neutral_1d [])
  = Some true.
Proof. vm_compute. reflexivity. Qed.

(** So they do on two populations, where both go through the splitting. *)
Example integrators_agree_infinite_sites_2d :
  same_data (integrate_nomig sample_collaborators 10 sample_nomig_2d [])
            (integrate_neutral sample_collaborators 10 sample_neutral_2d [])
  = Some true.
Proof. vm_compute. reflexivity. Qed.

(* ------------------------------------------------------------------ *)
(** ** Sums of matrix-vector products *)

Lemma vsum_cons (x : Qc) (v : vec) : vsum (x :: v) = x + vsum v.
Proof. reflexivity. Qed.

Lemma dotprod_nil_l (v : vec) : dotprod [] v = 0.
Proof. reflexivity. Qed.

Lemma dotprod_nil_r (a : vec) : dotprod a [] = 0.
Proof. destruct a; reflexivity. Qed.

Lemma dotprod_vadd (a b v : vec) :
  length a = length b -> dotprod (vadd a b) v = dotprod a v + dotprod b v.
Proof.
  revert b v. induction a as [|x a IH]; intros [|y b] v Hl; simpl in Hl; try discriminate.
  - unfold vadd. simpl. rewrite dotprod_nil_l. ring.
  - destruct v as [|z v].
    + rewrite !dotprod_nil_r. ring.
    + unfold vadd. cbn [combine map fst snd]. fold (vadd a b).
      rewrite !dotprod_cons, IH by lia. ring.
Qed.

Lemma dotprod_vsub (a b v : vec) :
  length a = length b -> dotprod (vsub a b) v = dotprod a v - dotprod b v.
Proof.
  revert b v. induction a as [|x a IH]; intros [|y b] v Hl; simpl in Hl; try discriminate.
  - unfold vsub. simpl. rewrite dotprod_nil_l. ring.
  - destruct v as [|z v].
    + rewrite !dotprod_nil_r. ring.
    + unfold vsub. cbn [combine map fst snd]. fold (vsub a b).
      rewrite !dotprod_cons, IH by lia. ring.
Qed.

Lemma dotprod_vscale (k : Qc) (a v : vec) :
  dotprod (vscale k a) v = k * dotprod a v.
Proof.
  revert v. induction a as [|x a IH]; intros v.
  - unfold vscale. simpl. rewrite dotprod_nil_l. ring.
  - destruct v as [|z v].
    + rewrite !dotprod_nil_r. ring.
    + unfold vscale. cbn [map]. fold (vscale k a).
      rewrite !dotprod_cons, IH. ring.
Qed.

Lemma is_matrix_cons (r c : nat) (row : vec) (M : matrix) :
  is_matrix (S r) c (row :: M) <-> length row = c /\ is_matrix r c M.
Proof.
  unfold is_matrix. simpl. split.
  - intros [Hl Hf]. inversion Hf; subst. repeat split; auto.
  - intros (Hr & Hl & Hf). split; [lia|]. constructor; assumption.
Qed.

Lemma is_matrix_nil_inv (r c : nat) : is_matrix r c [] -> r = 0%nat.
Proof. intros [H _]. simpl in H. lia. Qed.

Lemma vsum_mat_vec_madd (r c : nat) (A B : matrix) (v : vec) :
  is_matrix r c A -> is_matrix r c B ->
  vsum (mat_vec (madd A B) v) = vsum (mat_vec A v) + vsum (mat_vec B v).
Proof.
  revert r B. induction A as [|a A IH]; intros r [|b B] HA HB.
  - unfold madd, mat_vec. simpl. ring.
  - apply is_matrix_nil_inv in HA. subst. destruct HB as [HB _]. discriminate.
  - apply is_matrix_nil_inv in HB. subst. destruct HA as [HA _]. discriminate.
  - destruct r as [|r]; [destruct HA as [HA _]; discriminate|].
    apply is_matrix_cons in HA as [Ha HA], HB as [Hb HB].
    unfold madd, mat_vec. cbn [combine map fst snd]. fold (madd A B).
    fold (mat_vec (madd A B) v) (mat_vec A v) (mat_vec B v).
    rewrite !vsum_cons, dotprod_vadd by congruence. rewrite (IH r B HA HB). ring.
Qed.

Lemma vsum_mat_vec_msub (r c : nat) (A B : matrix) (v : vec) :
  is_matrix r c A -> is_matrix r c B ->
  vsum (mat_vec (msub A B) v) = vsum (mat_vec A v) - vsum (mat_vec B v).
Proof.
  revert r B. induction A as [|a A IH]; intros r [|b B] HA HB.
  - unfold msub, mat_vec. simpl. ring.
  - apply is_matrix_nil_inv in HA. subst. destruct HB as [HB _]. discriminate.
  - apply is_matrix_nil_inv in HB. subst. destruct HA as [HA _]. discriminate.
  - destruct r as [|r]; [destruct HA as [HA _]; discriminate|].
    apply is_matrix_cons in HA as [Ha HA], HB as [Hb HB].
    unfold msub, mat_vec. cbn [combine map fst snd]. fold (msub A B).
    fold (mat_vec (msub A B) v) (mat_vec A v) (mat_vec B v).
    rewrite !vsum_cons, dotprod_vsub by congruence. rewrite (IH r B HA HB). ring.
Qed.

Lemma vsum_mat_vec_mscale (k : Qc) (A : matrix) (v : vec) :
  vsum (mat_vec (mscale k A) v) = k * vsum (mat_vec A v).
Proof.
  induction A as [|a A IH].
  - unfold mscale, mat_vec. simpl. ring.
  - unfold mscale, mat_vec. cbn [map]. fold (mscale k A).
    fold (mat_vec (mscale k A) v) (mat_vec A v).
    rewrite !vsum_cons, dotprod_vscale, IH. ring.
Qed.

Lemma is_matrix_mscale (r c : nat) (k : Qc) (A : matrix) :
  is_matrix r c A -> is_matrix r c (mscale k A).
Proof.
  intros [Hl Hf]. unfold is_matrix, mscale. rewrite length_map. split; [exact Hl|].
  apply Forall_map. eapply Forall_impl; [|exact Hf].
  intros row Hr. unfold vscale. rewrite length_map. exact Hr.
Qed.

Lemma is_matrix_madd (r c : nat) (A B : matrix) :
  is_matrix r c A -> is_matrix r c B -> is_matrix r c (madd A B).
Proof.
  revert r B. induction A as [|a A IH]; intros r [|b B] HA HB;
    try (unfold madd; simpl; assumption).
  destruct r as [|r]; [destruct HA as [HA _]; discriminate|].
  apply is_matrix_cons in HA as [Ha HA], HB as [Hb HB].
  unfold madd. cbn [combine map fst snd]. fold (madd A B).
  apply is_matrix_cons. split; [|apply IH; assumption].
  unfold vadd. rewrite length_map_combine; congruence.
Qed.

Lemma is_matrix_identity (d : nat) : is_matrix d d (identity d).
Proof.
  unfold is_matrix, identity. rewrite length_map, length_seq. split; [reflexivity|].
  apply Forall_map. apply Forall_forall. intros i _.
  rewrite length_map, length_seq. reflexivity.
Qed.

Lemma mat_vec_identity (d : nat) (v : vec) : length v = d -> mat_vec (identity d) v = v.
Proof.
  intros Hv. apply (nth_ext _ _ 0 0).
  - unfold mat_vec. rewrite length_map. fold (nrows (identity d)).
    rewrite identity_nrows. congruence.
  - intros i Hi. unfold mat_vec in *. rewrite length_map in Hi.
    fold (nrows (identity d)) in Hi. rewrite identity_nrows in Hi.
    set (g := fun row : vec => dotprod row v).
    rewrite (nth_indep _ 0 (g [])) by
      (rewrite length_map; fold (nrows (identity d)); rewrite identity_nrows; exact Hi).
    rewrite map_nth. unfold g. apply dotprod_identity_row; assumption.
Qed.

Lemma mat_vec_length (M : matrix) (v : vec) : length (mat_vec M v) = length M.
Proof. unfold mat_vec. apply length_map. Qed.

Lemma vadd_vscale_0 (a b : vec) : length a = length b -> vadd a (vscale 0 b) = a.
Proof.
  revert b. induction a as [|x a IH]; intros [|y b] Hl; simpl in Hl; try discriminate.
  - reflexivity.
  - unfold vadd, vscale. cbn [map combine fst snd]. fold (vscale 0 b). fold (vadd a (vscale 0 b)).
    rewrite IH by lia. f_equal. ring.
Qed.

Lemma madd_mscale_0 (r c : nat) (A B : matrix) :
  is_matrix r c A -> is_matrix r c B -> madd A (mscale 0 B) = A.
Proof.
  revert r B. induction A as [|a A IH]; intros r [|b B] HA HB.
  - reflexivity.
  - apply is_matrix_nil_inv in HA. subst. destruct HB as [HB _]. discriminate.
  - apply is_matrix_nil_inv in HB. subst. destruct HA as [HA _]. discriminate.
  - destruct r as [|r]; [destruct HA as [HA _]; discriminate|].
    apply is_matrix_cons in HA as [Ha HA], HB as [Hb HB].
    unfold madd, mscale. cbn [map combine fst snd]. fold (mscale 0 B). fold (madd A (mscale 0 B)).
    rewrite (IH r B HA HB), vadd_vscale_0 by congruence. reflexivity.
Qed.

Lemma vscale_vscale (k a : Qc) (v : vec) : vscale k (vscale a v) = vscale (k * a) v.
Proof.
  unfold vscale. rewrite map_map. apply map_ext. intros x. ring.
Qed.

Lemma mscale_mscale (k a : Qc) (G : matrix) : mscale k (mscale a G) = mscale (k * a) G.
Proof.
  unfold mscale. rewrite map_map. apply map_ext. intros row. apply vscale_vscale.
Qed.

(** With zero selection the generator of an axis is the drift term alone. *)
Lemma neutral_generator (d : nat) (a h : Qc) (G V W : matrix) :
  is_matrix d d G -> is_matrix d d V -> is_matrix d d W ->
  madd (madd (mscale a G) (mscale (0 * h) V)) (mscale (0 * (1 - two * h)) W)
  = mscale a G.
Proof.
  intros HG HV HW.
  replace (0 * h) with 0 by ring. replace (0 * (1 - two * h)) with 0 by ring.
  rewrite (madd_mscale_0 d d _ V (is_matrix_mscale d d a G HG) HV).
  apply (madd_mscale_0 d d _ W (is_matrix_mscale d d a G HG) HW).
Qed.

Lemma Qcdiv_nonneg (x y : Qc) : 0 <= x -> 0 < y -> 0 <= x / y.
Proof.
  intros Hx Hy. unfold Qcle, Qclt, Qcdiv, Qcmult, Qcinv in *. cbn [this Q2Qc] in *.
  rewrite !Qred_correct. apply Qmult_le_0_compat; [exact Hx|].
  apply Qlt_le_weak, Qinv_lt_0_compat. exact Hy.
Qed.

Lemma Qcmult_nonneg (x y : Qc) : 0 <= x -> 0 <= y -> 0 <= x * y.
Proof.
  intros Hx Hy. unfold Qcle, Qcmult in *. cbn [this Q2Qc] in *.
  rewrite !Qred_correct. apply Qmult_le_0_compat; assumption.
Qed.

Lemma nomig_coefficient_nonneg (dt Ni : Qc) :
  0 <= dt -> 0 < Ni -> 0 <= dt / two * (1 / four / Ni).
Proof.
  intros Hdt HN. apply Qcmult_nonneg.
  - apply Qcdiv_nonneg; [exact Hdt|reflexivity].
  - apply Qcdiv_nonneg; [|exact HN]. apply Qcdiv_nonneg; [discriminate|reflexivity].
Qed.

Lemma neutral_coefficient_nonneg (dt Ni : Qc) :
  0 <= dt -> 0 < Ni -> 0 <= half * dt / four / Ni.
Proof.
  intros Hdt HN. apply Qcdiv_nonneg; [|exact HN].
  apply Qcdiv_nonneg; [|reflexivity]. apply Qcmult_nonneg; [discriminate|exact Hdt].
Qed.

(** [I + k G] and [I - k G] keep the sum of a vector when the columns of [G]
    sum to zero. *)
Lemma vsum_explicit (d : nat) (k : Qc) (G : matrix) (v : vec) :
  drift_contract G d -> length v = d ->
  vsum (mat_vec (madd (identity d) (mscale k G)) v) = vsum v.
Proof.
  intros [HG Hm] Hv.
  rewrite (vsum_mat_vec_madd d d) by
    (try apply is_matrix_identity; apply is_matrix_mscale; exact HG).
  rewrite vsum_mat_vec_mscale, (Hm v Hv), (mat_vec_identity d v Hv). ring.
Qed.

Lemma vsum_implicit (d : nat) (k : Qc) (G : matrix) (v : vec) :
  drift_contract G d -> length v = d ->
  vsum (mat_vec (msub (identity d) (mscale k G)) v) = vsum v.
Proof.
  intros [HG Hm] Hv.
  rewrite (vsum_mat_vec_msub d d) by
    (try apply is_matrix_identity; apply is_matrix_mscale; exact HG).
  rewrite vsum_mat_vec_mscale, (Hm v Hv), (mat_vec_identity d v Hv). ring.
Qed.

(* ------------------------------------------------------------------ *)
(** ** The operators of one population under pure drift *)

Lemma comprehension_1 {A : Type} (f : nat -> outcome A) (l : list A) :
  comprehension 1 f = Ok l -> exists x, f 0%nat = Ok x /\ l = [x].
Proof.
  unfold comprehension. cbn [seq mapM]. intros H.
  apply bind_Ok_inv in H as (x & Hx & H). cbn [bind] in H. injection H as <-.
  exists x. split; [exact Hx|reflexivity].
Qed.

Lemma nrows_mscale (k : Qc) (d c : nat) (V : matrix) :
  is_matrix d c V -> nrows (mscale k V) = d.
Proof. intros [HV _]. unfold nrows, mscale. rewrite length_map. exact HV. Qed.

(** Lines 624-639 for one population with [s = 0]: the system is
    [I - c G] and the explicit operator [I + c G], [c = dt/2 * 1/(4 Neff)]. *)
Lemma nomig_operators_drift (c : nomig_ctx) (d : nat) (G V W : matrix)
    (Ne dt : Qc) (s h : vec) (D S1 S2 slv Q : list matrix) :
  c_dims c = [d] -> c_vd c = [G] -> c_vs c = [V] -> c_vs2 c = [W] ->
  is_matrix d d G -> is_matrix d d V -> is_matrix d d W ->
  nth 0 s 0 = 0 ->
  nomig_operators c [Ne] s h dt = Ok (D, S1, S2, slv, Q) ->
  slv = [msub (identity d) (mscale (dt / two * (1 / four / Ne)) G)] /\
  Q = [madd (identity d) (mscale (dt / two * (1 / four / Ne)) G)].
Proof.
  intros Hd Hvd Hvs Hvs2 HG HV HW Hs H. unfold nomig_operators in H.
  rewrite Hd, Hvd, Hvs, Hvs2 in H. cbn [length] in H.
  apply bind_Ok_inv in H as (D' & HD & H).
  apply bind_Ok_inv in H as (S1' & HS1 & H).
  apply bind_Ok_inv in H as (S2' & HS2 & H).
  apply bind_Ok_inv in H as (slv' & Hslv & H).
  apply bind_Ok_inv in H as (Q' & HQ & H).
  injection H as <- <- <- <- <-.
  apply comprehension_1 in HD as (D0 & HD0 & ->). cbn in HD0. injection HD0 as <-.
  apply comprehension_1 in HS1 as (S10 & HS10 & ->).
  apply bind_Ok_inv in HS10 as (si & Hsi & HS10).
  apply bind_Ok_inv in HS10 as (hi & Hhi & HS10). cbn in HS10. injection HS10 as <-.
  apply comprehension_1 in HS2 as (S20 & HS20 & ->).
  apply bind_Ok_inv in HS20 as (si' & Hsi' & HS20).
  apply bind_Ok_inv in HS20 as (hi' & Hhi' & HS20). cbn in HS20. injection HS20 as <-.
  apply (item_inv s 0 si 0) in Hsi as [_ Hsi]. rewrite Hs in Hsi. subst si.
  apply (item_inv s 0 si' 0) in Hsi' as [_ Hsi']. rewrite Hs in Hsi'. subst si'.
  apply comprehension_1 in Hslv as (slv0 & Hslv0 & ->).
  apply comprehension_1 in HQ as (Q0 & HQ0 & ->).
  cbn in Hslv0, HQ0. injection Hslv0 as <-. injection HQ0 as <-.
  fold (mscale (0 * hi) V). fold (nrows (mscale (0 * hi) V)).
  rewrite (nrows_mscale _ d d V HV).
  rewrite (neutral_generator d _ hi G V W HG HV HW), mscale_mscale.
  split; reflexivity.
Qed.

(** Lines 803-813 for one population. *)
Lemma neutral_operators_drift (E : collaborators) (c : neutral_ctx) (d : nat)
    (Ne dt : Qc) (D : list matrix) (A Di C : list vec) (Q : list matrix) :
  d_dims c = [d] -> d_vd c = [calcD_dense E d] ->
  d_diags c = [ts_mat_to_diag E (calcD_dense E d)] ->
  neutral_operators E c [Ne] dt = Ok (D, A, Di, C, Q) ->
  Q = [madd (identity d) (mscale (half * dt * (1 / four / Ne)) (calcD_dense E d))] /\
  exists A0 Di0 C0,
    A = [A0] /\ Di = [Di0] /\ C = [C0] /\
    (let '(d0, d1, d2) := ts_mat_to_diag E (calcD_dense E d) in
     ts_factor E (vscale (- (half * dt / four / Ne)) d0)
       (vsub (ones d) (vscale (half * dt / four / Ne) d1))
       (vscale (- (half * dt / four / Ne)) d2))
    = (A0, Di0, C0).
Proof.
  intros Hd Hvd Hdg H. unfold neutral_operators in H.
  rewrite Hd, Hvd, Hdg in H. cbn [length] in H.
  apply bind_Ok_inv in H as (D' & HD & H).
  apply bind_Ok_inv in H as (f & Hf & H).
  apply bind_Ok_inv in H as (Q' & HQ & H).
  injection H as <- <- <- <- <-.
  apply comprehension_1 in HD as (D0 & HD0 & ->). cbn in HD0. injection HD0 as <-.
  apply comprehension_1 in Hf as (f0 & Hf0 & ->).
  apply comprehension_1 in HQ as (Q0 & HQ0 & ->).
  cbn in HQ0. injection HQ0 as <-. rewrite mscale_mscale. split; [reflexivity|].
  unfold neutral_diagonals in Hf0. cbn [item nth_error bind] in Hf0.
  destruct (ts_mat_to_diag E (calcD_dense E d)) as [[d0 d1] d2].
  injection Hf0 as <-.
  replace (- half * dt / four / Ne) with (- (half * dt / four / Ne))
    by (unfold Qcdiv; ring).
  destruct (ts_factor E _ _ _) as [[A0 Di0] C0]. exists A0, Di0, C0.
  cbn [map fst snd]. repeat split.
Qed.

(* ------------------------------------------------------------------ *)
(** ** One step keeps the sum *)

Lemma vadd_silent (d : nat) (k : Qc) (y : vec) :
  length y = d -> vadd y (vscale k (repeat 0 d)) = y.
Proof.
  revert d. induction y as [|x y IH]; intros d Hd; [reflexivity|].
  destruct d as [|d]; [discriminate|]. injection Hd as Hd.
  unfold vadd, vscale. cbn [repeat map combine fst snd].
  fold (vscale k (repeat 0 d)). fold (vadd y (vscale k (repeat 0 d))).
  rewrite (IH d Hd). f_equal. ring.
Qed.

Lemma mat_vec_mscale (k : Qc) (M : matrix) (v : vec) :
  mat_vec (mscale k M) v = vscale k (mat_vec M v).
Proof.
  unfold mat_vec, mscale, vscale. rewrite !map_map. apply map_ext.
  intros row. apply dotprod_vscale.
Qed.

Lemma explicit_nrows (d : nat) (k : Qc) (G : matrix) :
  is_matrix d d G -> length (madd (identity d) (mscale k G)) = d.
Proof.
  intros HG.
  apply (is_matrix_madd d d (identity d) (mscale k G) (is_matrix_identity d)
           (is_matrix_mscale d d k G HG)).
Qed.

(** Lines 641-647: the 1-D step of [integrate_nomig]. *)
Lemma nomig_update_mass (E : collaborators) (d : nat) (dt k c0 : Qc) (B : mutation_term)
    (sfs sfs' : ndarray) :
  drift_contract (calcD E d) d -> solver_contract E (calcD E d) d ->
  silent_mutation d B -> 0 <= c0 ->
  shape sfs = [d] -> length (data sfs) = d ->
  nomig_update E 1 dt B [madd (identity d) (mscale k (calcD E d))]
    [msub (identity d) (mscale c0 (calcD E d))] sfs = Ok sfs' ->
  shape sfs' = [d] /\ length (data sfs') = d /\ vsum (data sfs') = vsum (data sfs).
Proof.
  intros HG Hslv HB Hc Hsh Hlen H.
  unfold nomig_update in H. cbn [Nat.eqb item nth_error bind] in H.
  unfold nd_dot in H. rewrite Hsh in H. cbn [bind] in H.
  set (y := mat_vec (madd (identity d) (mscale k (calcD E d))) (data sfs)) in *.
  assert (Hy : length y = d).
  { unfold y. rewrite mat_vec_length. apply explicit_nrows. apply HG. }
  assert (Hm : vsum y = vsum (data sfs)) by (apply vsum_explicit; assumption).
  assert (Hr : nrows (madd (identity d) (mscale k (calcD E d))) = d).
  { apply explicit_nrows. apply HG. }
  rewrite Hr in H.
  assert (Hz : exists z, z = repeat 0 d /\
            sfs' = mk_nd [d] (factorized E (msub (identity d) (mscale c0 (calcD E d)))
                                (vadd y (vscale dt z)))).
  { destruct B as [b|[b|bs]]; cbn [silent_mutation] in HB.
    - destruct HB as [_ Hb]. injection H as <-. exists (data b). split; [exact Hb|].
      reflexivity.
    - injection H as <-. exists (mat_vec b y). split; [apply HB; exact Hy|].
      unfold apply_solver, nd_add. cbn [shape data]. rewrite mat_vec_mscale. reflexivity.
    - contradiction. }
  destruct Hz as (z & -> & ->). cbn [shape data].
  rewrite (vadd_silent d dt y Hy).
  destruct (Hslv c0 y Hc Hy) as [Hl Hx]. split; [reflexivity|]. split; [exact Hl|].
  rewrite <- Hm, <- (vsum_implicit d c0 (calcD E d) _ HG Hl), Hx. reflexivity.
Qed.

(** Lines 815-820: the 1-D step of [integrate_neutral]. *)
Lemma neutral_update_mass (E : collaborators) (d : nat) (dt k c0 : Qc) (B : mutation_term)
    (A Di C : vec) (sfs sfs' : ndarray) :
  drift_contract (calcD_dense E d) d -> tridiagonal_contract E (calcD_dense E d) d ->
  silent_mutation d B -> 0 <= c0 ->
  (let '(d0, d1, d2) := ts_mat_to_diag E (calcD_dense E d) in
   ts_factor E (vscale (- c0) d0) (vsub (ones d) (vscale c0 d1)) (vscale (- c0) d2))
  = (A, Di, C) ->
  shape sfs = [d] -> length (data sfs) = d ->
  neutral_update E 1 dt B [A] [Di] [C] [madd (identity d) (mscale k (calcD_dense E d))] sfs
  = Ok sfs' ->
  shape sfs' = [d] /\ length (data sfs') = d /\ vsum (data sfs') = vsum (data sfs).
Proof.
  intros HG Hslv HB Hc Hf Hsh Hlen H.
  unfold neutral_update in H. cbn [Nat.eqb item nth_error bind] in H.
  unfold nd_dot in H. rewrite Hsh in H. cbn [bind] in H.
  set (y := mat_vec (madd (identity d) (mscale k (calcD_dense E d))) (data sfs)) in *.
  assert (Hy : length y = d).
  { unfold y. rewrite mat_vec_length. apply explicit_nrows. apply HG. }
  assert (Hm : vsum y = vsum (data sfs)) by (apply vsum_explicit; assumption).
  assert (Hr : nrows (madd (identity d) (mscale k (calcD_dense E d))) = d).
  { apply explicit_nrows. apply HG. }
  rewrite Hr in H.
  assert (Hz : exists z, z = repeat 0 d /\
            sfs' = mk_nd [d] (ts_solve E A Di C (vadd y (vscale dt z)))).
  { destruct B as [b|[b|bs]]; cbn [silent_mutation] in HB.
    - destruct HB as [_ Hb]. injection H as <-. exists (data b). split; [exact Hb|].
      reflexivity.
    - injection H as <-. exists (mat_vec b (data sfs)). split; [apply HB; exact Hlen|].
      unfold apply_solver, nd_add. cbn [shape data]. rewrite mat_vec_mscale. reflexivity.
    - contradiction. }
  destruct Hz as (z & -> & ->). cbn [shape data].
  rewrite (vadd_silent d dt y Hy).
  specialize (Hslv c0 y Hc Hy).
  destruct (ts_mat_to_diag E (calcD_dense E d)) as [[d0 d1] d2].
  rewrite Hf in Hslv. destruct Hslv as [Hl Hx].
  split; [reflexivity|]. split; [exact Hl|].
  rewrite <- Hm, <- (vsum_implicit d c0 (calcD_dense E d) _ HG Hl), Hx. reflexivity.
Qed.

(* ------------------------------------------------------------------ *)
(** ** Sizes and effective sizes along a run *)

Lemma sizes_at_positive (f : Qc -> outcome vec) (t : Qc) (N : vec)
    (log log' : list event) :
  sizes_at f t log = (log', Ok N) -> f t = Ok N /\ all_positive N.
Proof.
  unfold sizes_at. intros H.
  apply rbind_Ok_inv in H as (N' & log1 & HN & H).
  apply lift_Ok_inv in HN as [-> HN].
  apply rbind_Ok_inv in H as (u & log2 & Ht & H).
  apply ret_Ok_inv in H as [_ <-]. split; [exact HN|].
  unfold test_sizes in Ht. apply any_nonpositive_false.
  destruct (any_nonpositive N'); [discriminate|reflexivity].
Qed.

Lemma halving_positive (E : collaborators) (fn : integrator) (fuel : nat)
    (f : Qc -> outcome vec) (t : Qc) (Nold : vec) :
  effective_size_contract E 1 -> positive_sched (SFun f) ->
  forall (k k' : control) (log log' : list event),
    all_positive (k_N k) -> (exists Ne, k_Neff k = [Ne] /\ 0 < Ne) ->
    halving E fn fuel f t Nold k log = (log', Ok k') ->
    all_positive (k_N k') /\ exists Ne, k_Neff k' = [Ne] /\ 0 < Ne.
Proof.
  intros HE Hf.
  assert (Hnew : forall t0 t1, exists Ne, compute_N_effective E f t0 t1 = [Ne] /\ 0 < Ne).
  { intros t0 t1. destruct (HE f t0 t1 Hf) as [Hl Hp].
    destruct (compute_N_effective E f t0 t1) as [|Ne [|? ?]]; try discriminate.
    exists Ne. split; [reflexivity|]. inversion Hp; assumption. }
  induction fuel as [|fuel IH]; intros k k' log log' HN HNe H.
  - cbn [halving] in H. apply rbind_Ok_inv in H as (rc & log1 & _ & H).
    destruct (Qcltb acceptable_change rc); [discriminate|].
    apply ret_Ok_inv in H as [_ <-]. split; assumption.
  - cbn [halving] in H. apply rbind_Ok_inv in H as (rc & log1 & _ & H).
    destruct (Qcltb acceptable_change rc).
    + apply rbind_Ok_inv in H as (v & log2 & Hv & H).
      apply sizes_at_positive in Hv as [_ Hv].
      destruct (n_iter_max <=? S (k_n_iter k))%nat.
      * apply rbind_Ok_inv in H as (? & log3 & _ & H).
        apply rbind_Ok_inv in H as (? & log4 & _ & H).
        apply rbind_Ok_inv in H as (? & log5 & _ & H).
        apply ret_Ok_inv in H as [_ <-]. cbn [k_N k_Neff]. split; [exact Hv|apply Hnew].
      * apply IH in H; [exact H|exact Hv|apply Hnew].
    + apply ret_Ok_inv in H as [_ <-]. split; assumption.
Qed.

Lemma adapt_sizes_positive (E : collaborators) (fn : integrator) (fuel : nat)
    (Npop : sched) (t dt : Qc) (N Nold Neff : vec) (k : control) (log log' : list event) :
  effective_size_contract E 1 -> positive_sched Npop ->
  all_positive N -> (exists Ne, Neff = [Ne] /\ 0 < Ne) ->
  adapt_sizes E fn fuel Npop t dt N Nold Neff log = (log', Ok k) ->
  all_positive (k_N k) /\ exists Ne, k_Neff k = [Ne] /\ 0 < Ne.
Proof.
  intros HE Hp HN HNe. unfold adapt_sizes. destruct Npop as [v|f]; intros H.
  - apply ret_Ok_inv in H as [_ <-]. split; assumption.
  - apply rbind_Ok_inv in H as (N' & log1 & HN' & H).
    apply sizes_at_positive in HN' as [_ HN'].
    apply (halving_positive E fn fuel f t Nold HE Hp) in H; [exact H|exact HN'|].
    cbn [k_Neff]. destruct (HE f (half * t) (half * (t + dt)) Hp) as [Hl Hq].
    destruct (compute_N_effective E f (half * t) (half * (t + dt))) as [|Ne [|? ?]];
      try discriminate.
    exists Ne. split; [reflexivity|]. inversion Hq; assumption.
Qed.

(** The step taken is not negative while the loop runs. *)
Lemma step_nonneg (E : collaborators) (fn : integrator) (fuel : nat) (Npop : sched)
    (bound Tmax dt_fac t : Qc) (N Nold Neff : vec) (k : control) (log log' : list event) :
  0 <= bound -> 0 <= dt_fac -> 0 <= t -> t <= Tmax ->
  adapt_sizes E fn fuel Npop t (propose_dt bound Tmax dt_fac t) N Nold Neff log
  = (log', Ok k) ->
  0 <= k_dt k.
Proof.
  intros Hb Hf Ht HT H. apply adapt_sizes_dt in H as (n & ->).
  apply halved_nonneg. rewrite propose_dt_min.
  assert (H0 : 0 <= Tmax * dt_fac).
  { apply Qcmult_nonneg; [|exact Hf]. apply (Qcle_trans _ t); assumption. }
  destruct (Qcmin_spec (Qcmin bound (Tmax * dt_fac)) (Tmax - t)) as [[_ ->]|[_ ->]].
  - destruct (Qcmin_spec bound (Tmax * dt_fac)) as [[_ ->]|[_ ->]]; assumption.
  - qc_to_q. lra.
Qed.

(* ------------------------------------------------------------------ *)
(** ** One iteration keeps the invariant *)

Lemma drift_step (E : collaborators) (inner d : nat) (mass : Qc) (c : nomig_ctx)
    (st st' : nomig_state) (log log' : list event) :
  drift_contract (calcD E d) d -> solver_contract E (calcD E d) d ->
  bound_contract E -> effective_size_contract E 1 ->
  drift_setting E d c -> drift_invariant E d mass st ->
  n_t st <= c_Tmax c ->
  nomig_iter E inner c st log = (log', Ok st') ->
  drift_invariant E d mass st'.
Proof.
  intros HG Hslv Hbound Heff [Hdims Hvd (V & Hvs & HV) (W & Hvs2 & HW) HB HNpop Hzs Hfac]
    [Hsh Hlen Hmass Ht HN (Ne & HNe & HNe0) Hs Hops] HT H.
  apply nomig_iter_inv in H
    as (k & rebuild & Qm & slvm & Hk & Hs' & _ & Hr & Hb & Hslv' & HQ' & Hu & Ht' & _ &
        HN' & _ & HNeff' & _).
  assert (Hdt : 0 <= k_dt k).
  { apply (step_nonneg _ _ _ _ _ _ _ _ _ _ _ _ _ _ (Hbound _ _ _ HN) Hfac Ht HT Hk). }
  destruct (adapt_sizes_positive _ _ _ _ _ _ _ _ _ _ _ _ Heff HNpop HN
              (ex_intro _ Ne (conj HNe HNe0)) Hk) as [HkN (Ne' & HkNe & HNe'0)].
  assert (Hs0 : nth 0 (n_s_new st') 0 = 0).
  { unfold coefficient_at in Hs'. destruct (c_s c) as [v|f].
    - injection Hs' as <-. exact Hs.
    - apply (Hzs _ _ Hs'). }
  assert (Hops' : exists k' c', 0 <= c' /\
            Qm = [madd (identity d) (mscale k' (calcD E d))] /\
            slvm = [msub (identity d) (mscale c' (calcD E d))]).
  { destruct rebuild.
    - rewrite HkNe in Hb.
      destruct (nomig_operators_drift c d (calcD E d) V W Ne' (k_dt k) _ _ _ _ _ _ _
                  Hdims Hvd Hvs Hvs2 (proj1 HG) HV HW Hs0 Hb) as [-> ->].
      eexists _, _. split; [|split; reflexivity].
      apply nomig_coefficient_nonneg; assumption.
    - destruct Hb as (_ & _ & _ & Hb1 & Hb2).
      destruct Hops as [H0|(k' & c' & Hc' & HQ & HS)].
      + exfalso. unfold nomig_rebuild_test, por in Hr.
        rewrite H0, Qceqb_refl in Hr. discriminate.
      + exists k', c'. split; [exact Hc'|].
        rewrite Hb1, HS in Hslv'. rewrite Hb2, HQ in HQ'.
        injection Hslv' as <-. injection HQ' as <-. split; reflexivity. }
  destruct Hops' as (k' & c' & Hc' & -> & ->).
  rewrite Hdims in Hu. cbn [length] in Hu.
  destruct (nomig_update_mass E d (k_dt k) k' c' (c_B c) _ _ HG Hslv HB Hc' Hsh Hlen Hu)
    as (Hsh' & Hlen' & Hmass').
  constructor.
  - exact Hsh'.
  - exact Hlen'.
  - rewrite Hmass'. exact Hmass.
  - rewrite Ht'. qc_to_q. lra.
  - rewrite HN'. exact HkN.
  - rewrite HNeff'. exists Ne'. split; assumption.
  - exact Hs0.
  - right. exists k', c'. split; [exact Hc'|]. split; assumption.
Qed.

Lemma neutral_step (E : collaborators) (inner d : nat) (mass : Qc) (c : neutral_ctx)
    (st st' : neutral_state) (log log' : list event) :
  drift_contract (calcD_dense E d) d -> tridiagonal_contract E (calcD_dense E d) d ->
  bound_contract E -> effective_size_contract E 1 ->
  neutral_setting E d c -> neutral_invariant E d mass st ->
  m_t st <= d_Tmax c ->
  neutral_iter E inner c st log = (log', Ok st') ->
  neutral_invariant E d mass st'.
Proof.
  intros HG Hslv Hbound Heff [Hdims Hvd Hdg HB HNpop Hfac]
    [Hsh Hlen Hmass Ht HN (Ne & HNe & HNe0) Hops] HT H.
  apply neutral_iter_inv in H
    as (k & rebuild & Am & Dim & Cm & Qm & Hk & Hr & Hb & HA' & HDi' & HC' & HQ' & Hu &
        Ht' & _ & HN' & _ & HNeff').
  assert (Hdt : 0 <= k_dt k).
  { apply (step_nonneg _ _ _ _ _ _ _ _ _ _ _ _ _ _ (Hbound _ _ _ HN) Hfac Ht HT Hk). }
  destruct (adapt_sizes_positive _ _ _ _ _ _ _ _ _ _ _ _ Heff HNpop HN
              (ex_intro _ Ne (conj HNe HNe0)) Hk) as [HkN (Ne' & HkNe & HNe'0)].
  assert (Hops' : exists k' c' A Di C, 0 <= c' /\
            Qm = [madd (identity d) (mscale k' (calcD_dense E d))] /\
            Am = [A] /\ Dim = [Di] /\ Cm = [C] /\
            (let '(d0, d1, d2) := ts_mat_to_diag E (calcD_dense E d) in
             ts_factor E (vscale (- c') d0) (vsub (ones d) (vscale c' d1))
               (vscale (- c') d2)) = (A, Di, C)).
  { destruct rebuild.
    - rewrite HkNe in Hb.
      destruct (neutral_operators_drift E c d Ne' (k_dt k) _ _ _ _ _ Hdims Hvd Hdg Hb)
        as [-> (A0 & Di0 & C0 & -> & -> & -> & Hf)].
      eexists _, _, A0, Di0, C0. split; [|repeat split; try reflexivity; exact Hf].
      apply neutral_coefficient_nonneg; assumption.
    - destruct Hb as (_ & Hb1 & Hb2 & Hb3 & Hb4).
      destruct Hops as [H0|(k' & c' & A & Di & C & Hc' & HQ & HA & HDi & HC & Hf)].
      + exfalso. unfold neutral_rebuild_test, por in Hr.
        rewrite H0, Qceqb_refl in Hr. discriminate.
      + exists k', c', A, Di, C. split; [exact Hc'|].
        rewrite Hb1, HA in HA'. rewrite Hb2, HDi in HDi'. rewrite Hb3, HC in HC'.
        rewrite Hb4, HQ in HQ'.
        injection HA' as <-. injection HDi' as <-. injection HC' as <-.
        injection HQ' as <-. repeat split; try reflexivity. exact Hf. }
  destruct Hops' as (k' & c' & A & Di & C & Hc' & -> & -> & -> & -> & Hf).
  rewrite Hdims in Hu. cbn [length] in Hu.
  destruct (neutral_update_mass E d (k_dt k) k' c' (d_B c) A Di C _ _ HG Hslv HB Hc' Hf
              Hsh Hlen Hu) as (Hsh' & Hlen' & Hmass').
  constructor.
  - exact Hsh'.
  - exact Hlen'.
  - rewrite Hmass'. exact Hmass.
  - rewrite Ht'. qc_to_q. lra.
  - rewrite HN'. exact HkN.
  - rewrite HNeff'. exists Ne'. split; assumption.
  - right. exists k', c', A, Di, C. repeat split; assumption.
Qed.

(* ------------------------------------------------------------------ *)
(** ** The loops keep the invariant *)

Lemma drift_loop (E : collaborators) (inner d : nat) (mass : Qc) (c : nomig_ctx) :
  drift_contract (calcD E d) d -> solver_contract E (calcD E d) d ->
  bound_contract E -> effective_size_contract E 1 ->
  drift_setting E d c ->
  forall (fuel : nat) (st st' : nomig_state) (log log' : list event),
    drift_invariant E d mass st ->
    nomig_loop E inner fuel c st log = (log', Ok st') ->
    drift_invariant E d mass st'.
Proof.
  intros HG Hslv Hbound Heff Hc.
  induction fuel as [|fuel IH]; intros st st' log log' Hinv H; cbn [nomig_loop] in H;
    destruct (Qcltb (n_t st) (c_Tmax c)) eqn:Hlt; try discriminate.
  - apply ret_Ok_inv in H as [_ <-]. exact Hinv.
  - apply rbind_Ok_inv in H as (st1 & log1 & Hit & H).
    apply (IH st1 st' log1 log'); [|exact H].
    apply (drift_step E inner d mass c st st1 log log1); try assumption.
    apply Qcltb_true in Hlt. apply Qclt_le_weak. exact Hlt.
  - apply ret_Ok_inv in H as [_ <-]. exact Hinv.
Qed.

Lemma neutral_drift_loop (E : collaborators) (inner d : nat) (mass : Qc) (c : neutral_ctx) :
  drift_contract (calcD_dense E d) d -> tridiagonal_contract E (calcD_dense E d) d ->
  bound_contract E -> effective_size_contract E 1 ->
  neutral_setting E d c ->
  forall (fuel : nat) (st st' : neutral_state) (log log' : list event),
    neutral_invariant E d mass st ->
    neutral_loop E inner fuel c st log = (log', Ok st') ->
    neutral_invariant E d mass st'.
Proof.
  intros HG Hslv Hbound Heff Hc.
  induction fuel as [|fuel IH]; intros st st' log log' Hinv H; cbn [neutral_loop] in H;
    destruct (Qcltb (m_t st) (d_Tmax c)) eqn:Hlt; try discriminate.
  - apply ret_Ok_inv in H as [_ <-]. exact Hinv.
  - apply rbind_Ok_inv in H as (st1 & log1 & Hit & H).
    apply (IH st1 st' log1 log'); [|exact H].
    apply (neutral_step E inner d mass c st st1 log log1); try assumption.
    apply Qcltb_true in Hlt. apply Qclt_le_weak. exact Hlt.
  - apply ret_Ok_inv in H as [_ <-]. exact Hinv.
Qed.

(* ------------------------------------------------------------------ *)
(** ** The parameters of a pure-drift call *)

Lemma singleton_vec (v : vec) : length v = 1%nat -> v = [nth 0 v 0].
Proof. destruct v as [|x [|? ?]]; try discriminate. reflexivity. Qed.

Lemma zero_over_four : 0 / four = 0.
Proof. unfold Qcdiv. ring. Qed.

Lemma rate_over_4_zero (r : rate) : zero_rate r -> nth 0 (rate_over_4 1 r) 0 = 0.
Proof.
  destruct r as [x|v]; cbn [zero_rate rate_over_4].
  - intros ->. apply zero_over_four.
  - intros H. destruct v as [|x v]; [reflexivity|]. inversion H; subst.
    apply zero_over_four.
Qed.

Lemma zero_selection_at (gamma : coeff) (t x : Qc) :
  zero_selection gamma -> sched_at (normalize_gamma 1 gamma) t 0 = Ok x -> x = 0.
Proof.
  unfold sched_at. destruct gamma as [|y|v|f|f]; cbn; intros Hz H.
  - injection H as <-. reflexivity.
  - injection H as <-. exact Hz.
  - destruct v as [|y v]; [discriminate|]. injection H as <-. inversion Hz; assumption.
  - injection H as <-. apply Hz.
  - specialize (Hz t). destruct (f t) as [|y v]; [discriminate|]. injection H as <-.
    inversion Hz; assumption.
Qed.

Lemma positive_schedule_at (Npop : popsize) (t x : Qc) :
  positive_schedule Npop -> callable (normalize_Npop Npop) = true ->
  sched_at (normalize_Npop Npop) t 0 = Ok x -> 0 < x.
Proof.
  unfold sched_at. destruct Npop as [N|f]; cbn; intros Hp Hc H; [discriminate|].
  specialize (Hp t). destruct (f t) as [|y v]; [discriminate|]. injection H as <-.
  inversion Hp; assumption.
Qed.

Lemma drift_sizes (fz : bool) (p : params) (Npop : popsize) (u0 : vec) (v0 : option vec) :
  sched_ok 1 (p_Npop p) -> callable (p_Npop p) = callable (normalize_Npop Npop) ->
  positive_schedule Npop ->
  population_params_neutral fz 0 p (normalize_Npop Npop) u0 v0 ->
  positive_sched (p_Npop p).
Proof.
  intros Hok Hc Hp Hpp. destruct (p_Npop p) as [v|f] eqn:HN; [exact I|].
  cbn [sched_ok positive_sched callable] in *. intros t.
  destruct (Hok t) as (v & Hv & Hl). exists v. split; [exact Hv|]. split; [exact Hl|].
  rewrite (singleton_vec v Hl). constructor; [|constructor].
  assert (Hat : sched_at (SFun f) t 0 = Ok (nth 0 v 0)).
  { unfold sched_at. cbn [eval_sched]. rewrite Hv. cbn [bind].
    rewrite (singleton_vec v Hl). reflexivity. }
  destruct fz; cbn [population_params_neutral] in Hpp; destruct Hpp as (HNp & _);
    rewrite HN in HNp.
  - rewrite HNp in Hat. injection Hat as <-. apply Qclt_0_frozen_size.
  - rewrite HNp in Hat. apply (positive_schedule_at Npop t _ Hp (eq_sym Hc) Hat).
Qed.

Lemma drift_selection (fz : bool) (p : params) (gamma : coeff) :
  sched_ok 1 (p_s p) -> zero_selection gamma ->
  (forall t, sched_at (p_s p) t 0
             = if fz then Ok 0 else sched_at (normalize_gamma 1 gamma) t 0) ->
  zero_sched (p_s p).
Proof.
  intros Hok Hz Hat.
  assert (Hx : forall t x, sched_at (p_s p) t 0 = Ok x -> x = 0).
  { intros t x H. rewrite Hat in H. destruct fz.
    - injection H as <-. reflexivity.
    - apply (zero_selection_at gamma t x Hz H). }
  destruct (p_s p) as [v|f]; cbn [sched_ok zero_sched] in *.
  - apply (Hx 0). unfold sched_at. cbn [eval_sched bind].
    rewrite (singleton_vec v Hok). reflexivity.
  - intros t v Hv. destruct (Hok t) as (v' & Hv' & Hl).
    assert (v' = v) by congruence. subst v'.
    apply (Hx t). unfold sched_at. cbn [eval_sched]. rewrite Hv. cbn [bind].
    rewrite (singleton_vec v Hl). reflexivity.
Qed.

Lemma drift_rates (fz : bool) (p : params) (Npop0 : sched) (u0 : vec) (v0 : option vec)
    (fg : bool) (theta : rate) (theta_fd theta_bd : option rate) :
  mutation_rates 1 fg theta theta_fd theta_bd = Ok (u0, v0) ->
  zero_mutation fg theta theta_fd theta_bd ->
  length (p_u p) = 1%nat -> (forall w, p_v p = Some w -> length w = 1%nat) ->
  (fg = false -> p_v p = None) -> (fg = true -> exists w, p_v p = Some w) ->
  population_params_neutral fz 0 p Npop0 u0 v0 ->
  p_u p = [0] /\ (if fg then p_v p = Some [0] else p_v p = None).
Proof.
  intros Hm Hz Hu Hv Hnone Hsome Hpp.
  assert (H0 : nth 0 u0 0 = 0 /\ (fg = true -> exists w, v0 = Some w /\ nth 0 w 0 = 0)).
  { unfold mutation_rates in Hm. destruct fg; cbn [negb zero_mutation] in *.
    - destruct Hz as [Hfd Hbd].
      destruct theta_fd as [rf|]; [|discriminate].
      destruct theta_bd as [rb|]; [|discriminate]. cbn in Hm. injection Hm as <- <-.
      split; [apply rate_over_4_zero; exact Hfd|]. intros _. eexists. split; [reflexivity|].
      apply rate_over_4_zero. exact Hbd.
    - injection Hm as <- <-. split; [apply rate_over_4_zero; exact Hz|discriminate]. }
  destruct H0 as [Hu0 Hv0].
  assert (Hpu : nth 0 (p_u p) 0 = 0).
  { destruct fz; cbn [population_params_neutral] in Hpp; destruct Hpp as (_ & Hpu & _).
    - exact Hpu.
    - rewrite Hpu. exact Hu0. }
  split; [rewrite (singleton_vec _ Hu), Hpu; reflexivity|].
  destruct fg; [|apply Hnone; reflexivity].
  destruct (Hsome eq_refl) as (w & Hw). destruct (Hv0 eq_refl) as (w0 & -> & Hw0).
  rewrite Hw. f_equal. rewrite (singleton_vec w (Hv w Hw)). f_equal.
  destruct fz; cbn [population_params_neutral] in Hpp; destruct Hpp as (_ & _ & Hpv);
    rewrite Hw in Hpv; cbn in Hpv; injection Hpv as Hpv; rewrite Hpv; [reflexivity|exact Hw0].
Qed.

(** With zero rates [_calcB] is the zero array. *)
Lemma calcB_zero (d : nat) (b : ndarray) :
  (2 <= d)%nat -> _calcB [d] [0] = Ok b -> shape b = [d] /\ data b = repeat 0 d.
Proof.
  intros Hd H. unfold _calcB in H.
  destruct (_calcB_loop_spec [d] [0] (seq 0 (length [d])))
    with (B := nd_zeros [d]) as (B' & HB & Hsh & Hwf & Hval & Hoth).
  - constructor; [exact Hd|constructor].
  - reflexivity.
  - apply seq_NoDup.
  - intros k Hk. apply in_seq in Hk. lia.
  - reflexivity.
  - apply nd_zeros_wf.
  - rewrite HB in H. injection H as <-. split; [exact Hsh|].
    assert (Hz : forall idx, in_bounds (shape B') idx = true -> 0 = nd_get B' idx).
    { intros idx Hidx. rewrite Hsh in Hidx.
      destruct (list_eq_dec Nat.eq_dec idx (unit_index (length [d]) 0)) as [->|Hne].
      - rewrite (Hval 0%nat) by (left; reflexivity). cbn [nth]. ring.
      - rewrite (Hoth idx Hidx).
        + symmetry. apply nd_zeros_get.
        + intros k [<-|[]]. exact Hne. }
    rewrite <- (nd_build_eq B' (fun _ => 0) Hwf Hz).
    unfold nd_build. cbn [data]. rewrite map_const, indices_length, Hsh.
    cbn [size_of fold_right]. rewrite Nat.mul_1_r. reflexivity.
Qed.

Lemma silent_source (E : collaborators) (d : nat) (fg : bool) (u : vec) (v : option vec)
    (B : mutation_term) :
  (2 <= d)%nat -> (fg = true -> reversible_contract E d) ->
  u = [0] -> (if fg then v = Some [0] else v = None) ->
  mutation_source E [d] u v = Ok B ->
  silent_mutation d B.
Proof.
  intros Hd Hrev -> Hv H. unfold mutation_source in H. destruct fg; subst v.
  - injection H as <-. destruct (Hrev eq_refl) as (b & -> & Hb). exact Hb.
  - apply bind_Ok_inv in H as (b & Hb & H). injection H as <-.
    apply (calcB_zero d b Hd Hb).
Qed.

(* ------------------------------------------------------------------ *)
(** ** What the set-up hands to the time loop *)

Lemma Spectrum_data (sfs : ndarray) (corners : bool) (sp : spectrum) :
  Spectrum sfs corners = Ok sp -> sp_data sp = sfs.
Proof.
  unfold Spectrum. intros H. apply bind_Ok_inv in H as (m & _ & H).
  injection H as <-. reflexivity.
Qed.

Lemma test_sizes_inv (t : Qc) (N : vec) (u : unit) (log log' : list event) :
  test_sizes t N log = (log', Ok u) -> all_positive N.
Proof.
  unfold test_sizes. intros H. apply any_nonpositive_false.
  destruct (any_nonpositive N); [discriminate|reflexivity].
Qed.

Lemma nomig_init_inv (E : collaborators) (a : nomig_args) (p : params)
    (c : nomig_ctx) (st : nomig_state) (log log' : list event) :
  nomig_init E a p log = (log', Ok (c, st)) ->
  let dims := shape (a_sfs0 a) in
  c_dims c = dims /\ c_vd c = map (calcD E) dims /\
  c_vs c = map (fun dj => calcS E (fst dj) (snd dj))
             (combine dims (map (fun d => calcJK13 E (Z.of_nat d - 1)) dims)) /\
  c_vs2 c = map (fun dj => calcS2 E (fst dj) (snd dj))
              (combine dims (map (fun d => calcJK23 E (Z.of_nat d - 1)) dims)) /\
  mutation_source E dims (p_u p) (p_v p) = Ok (c_B c) /\
  c_Npop c = p_Npop p /\ c_s c = p_s p /\ c_dt_fac c = a_dt_fac a /\
  n_t st = 0 /\ n_sfs st = a_sfs0 a /\
  eval_sched (p_Npop p) 0 = Ok (n_N st) /\ all_positive (n_N st) /\
  n_Neff st = n_N st /\ eval_sched (p_s p) 0 = Ok (n_s_new st).
Proof.
  unfold nomig_init. intros H.
  apply rbind_Ok_inv in H as (N & l1 & HN & H). apply lift_Ok_inv in HN as [-> HN].
  apply rbind_Ok_inv in H as (u & l2 & Ht & H). apply test_sizes_inv in Ht.
  apply rbind_Ok_inv in H as (D & l3 & _ & H).
  apply rbind_Ok_inv in H as (s_new & l4 & Hs & H). apply lift_Ok_inv in Hs as [-> Hs].
  apply rbind_Ok_inv in H as (h_new & l5 & _ & H).
  apply rbind_Ok_inv in H as (S1 & l6 & _ & H).
  apply rbind_Ok_inv in H as (S2 & l7 & _ & H).
  apply rbind_Ok_inv in H as (B & l8 & HB & H). apply lift_Ok_inv in HB as [-> HB].
  apply ret_Ok_inv in H as [_ [= <- <-]]. cbn. repeat split; assumption.
Qed.

Lemma neutral_init_inv (E : collaborators) (b : neutral_args) (p : params)
    (c : neutral_ctx) (st : neutral_state) (log log' : list event) :
  neutral_init E b p log = (log', Ok (c, st)) ->
  let dims := shape (b_sfs0 b) in
  d_dims c = dims /\ d_vd c = map (calcD_dense E) dims /\
  d_diags c = map (ts_mat_to_diag E) (map (calcD_dense E) dims) /\
  mutation_source E dims (p_u p) (p_v p) = Ok (d_B c) /\
  d_Npop c = p_Npop p /\ d_dt_fac c = b_dt_fac b /\
  m_t st = 0 /\ m_sfs st = b_sfs0 b /\
  eval_sched (p_Npop p) 0 = Ok (m_N st) /\ all_positive (m_N st) /\
  m_Neff st = m_N st.
Proof.
  unfold neutral_init. intros H.
  apply rbind_Ok_inv in H as (N & l1 & HN & H). apply lift_Ok_inv in HN as [-> HN].
  apply rbind_Ok_inv in H as (u & l2 & Ht & H). apply test_sizes_inv in Ht.
  apply rbind_Ok_inv in H as (D & l3 & _ & H).
  apply rbind_Ok_inv in H as (B & l8 & HB & H). apply lift_Ok_inv in HB as [-> HB].
  apply ret_Ok_inv in H as [_ [= <- <-]]. cbn. repeat split; assumption.
Qed.

Lemma one_positive_size (s : sched) (N : vec) :
  sched_ok 1 s -> eval_sched s 0 = Ok N -> all_positive N ->
  exists Ne, N = [Ne] /\ 0 < Ne.
Proof.
  intros Hok HN Hp. destruct (eval_sched_ok 1 s 0 Hok) as (v & Hv & Hl).
  assert (v = N) by congruence. subst v. exists (nth 0 N 0).
  split; [apply singleton_vec; exact Hl|].
  rewrite (singleton_vec N Hl) in Hp. inversion Hp; assumption.
Qed.

Lemma zero_at_start (s : sched) (v : vec) :
  zero_sched s -> eval_sched s 0 = Ok v -> nth 0 v 0 = 0.
Proof.
  destruct s as [w|f]; cbn [zero_sched eval_sched]; intros Hz H.
  - injection H as <-. exact Hz.
  - apply (Hz 0 v H).
Qed.

(* ------------------------------------------------------------------ *)
(** ** Whole runs *)

Lemma args_bins (sfs0 : ndarray) (d : nat) :
  well_formed sfs0 -> Forall (fun n => (2 <= n)%nat) (shape sfs0) -> shape sfs0 = [d] ->
  (2 <= d)%nat /\ length (data sfs0) = d.
Proof.
  unfold well_formed. intros Hwf Hdims Hsh. rewrite Hsh in *.
  split; [inversion Hdims; assumption|]. rewrite Hwf. cbn. apply Nat.mul_1_r.
Qed.

(** What the set-up of [integrate_nomig] hands to the loop in a pure-drift
    call. *)
Lemma nomig_start (E : collaborators) (d : nat) (a : nomig_args) (p : params)
    (c : nomig_ctx) (st0 : nomig_state) (log log' : list event) :
  selection_contract E d -> (a_finite_genome a = true -> reversible_contract E d) ->
  pure_drift_nomig d a ->
  nomig_params a = Ok p -> nomig_init E a p log = (log', Ok (c, st0)) ->
  drift_setting E d c /\ drift_invariant E d (vsum (data (a_sfs0 a))) st0 /\
  sched_ok 1 (c_s c) /\ c_Npop c = p_Npop p /\
  c_Tmax c = a_tf a * two /\ c_dt_fac c = a_dt_fac a.
Proof.
  intros [HV HW] Hrev [Hok Hsh Hzs Hzm Hpos Hfac] Hp Hinit.
  destruct (nomig_params_spec a Hok)
    as (p' & u0 & v0 & Hp' & Hm & Hsok & HNok & HcN & _ & Hu & Hv & Hnone & Hsome & Hpp).
  assert (p' = p) by congruence. subst p'.
  unfold rank in *. rewrite Hsh in *. cbn [length] in *.
  specialize (Hpp 0%nat (Nat.lt_0_1)).
  assert (Hppn : population_params_neutral (nth 0 (a_frozen a) false) 0 p
                   (normalize_Npop (a_Npop a)) u0 v0).
  { destruct (nth 0 (a_frozen a) false); cbn in Hpp |- *; tauto. }
  assert (Hps : forall t, sched_at (p_s p) t 0
                = if nth 0 (a_frozen a) false then Ok 0
                  else sched_at (normalize_gamma 1 (a_gamma a)) t 0).
  { destruct (nth 0 (a_frozen a) false); cbn in Hpp; apply Hpp. }
  pose proof (drift_sizes _ p _ u0 v0 HNok HcN Hpos Hppn) as HpN.
  pose proof (drift_selection _ p _ Hsok Hzs Hps) as Hps0.
  destruct (drift_rates _ p _ u0 v0 _ _ _ _ Hm Hzm Hu Hv Hnone Hsome Hppn) as [Hpu Hpv].
  pose proof (nomig_init_ctx E a p c st0 log log' Hinit) as (_ & _ & _ & HT & _).
  apply nomig_init_inv in Hinit
    as (Hd & Hvd & Hvs & Hvs2 & HB & HcNp & Hcs & Hcf & Ht0 & Hsfs & HN0 & HN0p & HNe & Hs0).
  rewrite Hsh in *. cbn [map combine fst snd] in *.
  destruct Hok as ([Hwf Hdims _ _ _ _ _] & _ & _).
  destruct (args_bins _ d Hwf Hdims Hsh) as [Hd2 Hlen].
  pose proof (silent_source E d _ _ _ _ Hd2 Hrev Hpu Hpv HB) as HsB.
  split; [|split; [|split; [|split; [|split]]]]; try assumption.
  - constructor; try assumption.
    + eexists. split; [exact Hvs|exact HV].
    + eexists. split; [exact Hvs2|exact HW].
    + rewrite HcNp. exact HpN.
    + rewrite Hcs. exact Hps0.
    + rewrite Hcf. exact Hfac.
  - constructor.
    + rewrite Hsfs. exact Hsh.
    + rewrite Hsfs. exact Hlen.
    + rewrite Hsfs. reflexivity.
    + rewrite Ht0. apply Qcle_refl.
    + exact HN0p.
    + rewrite HNe. apply (one_positive_size (p_Npop p)); assumption.
    + apply (zero_at_start (p_s p)); assumption.
    + left. exact Ht0.
  - rewrite Hcs. exact Hsok.
Qed.

Lemma neutral_start (E : collaborators) (d : nat) (b : neutral_args) (p : params)
    (c : neutral_ctx) (st0 : neutral_state) (log log' : list event) :
  (b_finite_genome b = true -> reversible_contract E d) ->
  pure_drift_neutral d b ->
  neutral_params b = Ok p -> neutral_init E b p log = (log', Ok (c, st0)) ->
  neutral_setting E d c /\ neutral_invariant E d (vsum (data (b_sfs0 b))) st0 /\
  d_Npop c = p_Npop p /\ d_Tmax c = b_tf b * two /\ d_dt_fac c = b_dt_fac b.
Proof.
  intros Hrev [Hok Hsh Hzm Hpos Hfac] Hp Hinit.
  destruct (neutral_params_spec b Hok)
    as (p' & u0 & v0 & Hp' & Hm & HNok & HcN & Hu & Hv & Hnone & Hsome & Hpp).
  assert (p' = p) by congruence. subst p'.
  unfold rank in *. rewrite Hsh in *. cbn [length] in *.
  specialize (Hpp 0%nat (Nat.lt_0_1)).
  pose proof (drift_sizes _ p _ u0 v0 HNok HcN Hpos Hpp) as HpN.
  destruct (drift_rates _ p _ u0 v0 _ _ _ _ Hm Hzm Hu Hv Hnone Hsome Hpp) as [Hpu Hpv].
  pose proof (neutral_init_ctx E b p c st0 log log' Hinit) as (_ & HT & _).
  apply neutral_init_inv in Hinit
    as (Hd & Hvd & Hdg & HB & HcNp & Hcf & Ht0 & Hsfs & HN0 & HN0p & HNe).
  rewrite Hsh in *. cbn [map] in *.
  destruct (args_bins _ d (ok_sfs0 Hok) (ok_dims Hok) Hsh) as [Hd2 Hlen].
  pose proof (silent_source E d _ _ _ _ Hd2 Hrev Hpu Hpv HB) as HsB.
  split; [|split; [|split; [|split]]]; try assumption.
  - constructor; try assumption.
    + rewrite HcNp. exact HpN.
    + rewrite Hcf. exact Hfac.
  - constructor.
    + rewrite Hsfs. exact Hsh.
    + rewrite Hsfs. exact Hlen.
    + rewrite Hsfs. reflexivity.
    + rewrite Ht0. apply Qcle_refl.
    + exact HN0p.
    + rewrite HNe. apply (one_positive_size (p_Npop p)); assumption.
    + left. exact Ht0.
Qed.

(** What a returned run returns. *)
Lemma nomig_drift_run (E : collaborators) (d fuel : nat) (a : nomig_args)
    (log log' : list event) (sp : spectrum) :
  drift_collaborators E d -> pure_drift_nomig d a ->
  integrate_nomig E fuel a log = (log', Ok sp) ->
  shape (sp_data sp) = [d] /\ length (data (sp_data sp)) = d /\
  vsum (data (sp_data sp)) = vsum (data (a_sfs0 a)).
Proof.
  intros [HG _ Hslv _ Hsel Hbound Heff Hrev] Ha H.
  unfold integrate_nomig in H.
  apply rbind_Ok_inv in H as (p & l1 & Hp & H). apply lift_Ok_inv in Hp as [-> Hp].
  apply rbind_Ok_inv in H as ([c st0] & l2 & Hinit & H).
  apply rbind_Ok_inv in H as (st & l3 & Hloop & H).
  apply lift_Ok_inv in H as [_ H]. apply Spectrum_data in H. rewrite H.
  destruct (nomig_start E d a p c st0 log l2 Hsel (fun _ => Hrev) Ha Hp Hinit)
    as (Hset & Hinv & _).
  destruct (drift_loop E fuel d _ c HG Hslv Hbound Heff Hset fuel st0 st l2 l3 Hinv Hloop)
    as [Hsh' Hlen' Hmass' _ _ _ _ _].
  repeat split; assumption.
Qed.

Lemma neutral_drift_run (E : collaborators) (d fuel : nat) (b : neutral_args)
    (log log' : list event) (sp : spectrum) :
  drift_collaborators E d -> pure_drift_neutral d b ->
  integrate_neutral E fuel b log = (log', Ok sp) ->
  shape (sp_data sp) = [d] /\ length (data (sp_data sp)) = d /\
  vsum (data (sp_data sp)) = vsum (data (b_sfs0 b)).
Proof.
  intros [_ HG _ Hslv _ Hbound Heff Hrev] Hb H.
  unfold integrate_neutral in H.
  apply rbind_Ok_inv in H as (p & l1 & Hp & H). apply lift_Ok_inv in Hp as [-> Hp].
  apply rbind_Ok_inv in H as ([c st0] & l2 & Hinit & H).
  apply rbind_Ok_inv in H as (st & l3 & Hloop & H).
  apply lift_Ok_inv in H as [_ H]. apply Spectrum_data in H. rewrite H.
  destruct (neutral_start E d b p c st0 log l2 (fun _ => Hrev) Hb Hp Hinit)
    as (Hset & Hinv & _).
  destruct (neutral_drift_loop E fuel d _ c HG Hslv Hbound Heff Hset fuel st0 st l2 l3
              Hinv Hloop) as [Hsh' Hlen' Hmass' _ _ _ _].
  repeat split; assumption.
Qed.

(** The sum of a spectrum is the mass of its corners plus that of the
    polymorphic bins. *)
Lemma mass_split (sfs : ndarray) :
  (2 <= length (data sfs))%nat -> mass sfs = corner_mass sfs + polymorphic_mass sfs.
Proof.
  unfold mass, corner_mass, polymorphic_mass. generalize (data sfs) as v. clear sfs.
  intros [|x v] Hl; [simpl in Hl; lia|]. cbn [length skipn nth].
  replace (S (length v) - 2)%nat with (length v - 1)%nat by lia.
  replace (S (length v) - 1)%nat with (S (length v - 1)) by (simpl in Hl; lia).
  cbn [nth]. rewrite vsum_cons.
  assert (Hv : (1 <= length v)%nat) by (simpl in Hl; lia). clear Hl.
  assert (H : vsum v = nth (length v - 1) v 0 + vsum (firstn (length v - 1) v)).
  { induction v as [|y v IH]; [simpl in Hv; lia|].
    destruct v as [|z v].
    - cbn. ring.
    - replace (length (y :: z :: v) - 1)%nat with (S (length (z :: v) - 1))
        by (cbn [length]; lia).
      specialize (IH ltac:(cbn [length]; lia)).
      set (k := (length (z :: v) - 1)%nat) in *.
      change (nth (S k) (y :: z :: v) 0) with (nth k (z :: v) 0).
      change (firstn (S k) (y :: z :: v)) with (y :: firstn k (z :: v)).
      rewrite !(vsum_cons y), IH. ring. }
  rewrite H. ring.
Qed.

(* ------------------------------------------------------------------ *)
(** ** The sample collaborators meet the contracts *)

Lemma of_Z_0 : of_Z 0 = 0.
Proof. apply Qc_is_canon. reflexivity. Qed.

Lemma of_Z_2 : of_Z 2 = 1 + 1.
Proof. apply Qc_is_canon. reflexivity. Qed.

Lemma of_Z_m4 : of_Z (-4) = - (1 + 1 + 1 + 1).
Proof. apply Qc_is_canon. reflexivity. Qed.

Ltac vec4 v H :=
  destruct v as [|?x [|?x [|?x [|?x [|? ?]]]]]; try discriminate H.

Ltac symbolic :=
  cbv -[Qcplus Qcmult Qcminus Qcdiv Qcopp Qcinv of_Z Q2Qc Qcle Qclt];
  rewrite ?of_Z_0, ?of_Z_2, ?of_Z_m4.

Lemma sample_drift_contract : drift_contract (sample_calcD 4) 4.
Proof.
  split.
  - split; [reflexivity|]. repeat constructor.
  - intros v Hv. vec4 v Hv. symbolic. ring.
Qed.

Lemma Qc_pos_neq (x : Qc) : 0 < x -> x <> 0.
Proof. intros H ->. apply (Qclt_not_eq _ _ H). reflexivity. Qed.

Ltac pivots Hc :=
  repeat split; apply Qc_pos_neq; qc_to_q; nra.

Lemma sample_solver_contract :
  solver_contract sample_collaborators (sample_calcD 4) 4.
Proof.
  intros c rhs Hc Hr. vec4 rhs Hr. split; [reflexivity|].
  symbolic.
  f_equal; [|f_equal; [|f_equal; [|f_equal]]]; try reflexivity; field; pivots Hc.
Qed.

Lemma sample_tridiagonal_contract :
  tridiagonal_contract sample_collaborators (sample_calcD 4) 4.
Proof.
  intros c rhs Hc Hr. vec4 rhs Hr.
  symbolic. split; [reflexivity|].
  f_equal; [|f_equal; [|f_equal; [|f_equal]]]; try reflexivity; field; pivots Hc.
Qed.

Lemma fold_min_positive (N : vec) (x : Qc) :
  0 < x -> all_positive N -> 0 < fold_left Qcmin N x.
Proof.
  revert x. induction N as [|y N IH]; intros x Hx HN; [exact Hx|].
  inversion HN; subst. cbn [fold_left]. apply IH; [|assumption].
  unfold Qcmin. destruct (Qcleb x y); assumption.
Qed.

Lemma vmin_positive (N : vec) : all_positive N -> 0 < vmin N.
Proof.
  destruct N as [|x N]; intros HN; [reflexivity|].
  inversion HN; subst. apply fold_min_positive; assumption.
Qed.

Lemma sample_bound_contract : bound_contract sample_collaborators.
Proof.
  intros N s h HN. cbn [compute_dt sample_collaborators].
  apply Qcmult_nonneg; [discriminate|]. apply Qclt_le_weak, vmin_positive, HN.
Qed.

Lemma sample_effective_size_contract : effective_size_contract sample_collaborators 1.
Proof.
  intros f t0 t1 Hf. cbn [compute_N_effective sample_collaborators].
  unfold sample_N_effective.
  destruct (Hf t0) as (v0 & -> & Hl0 & Hp0). destruct (Hf t1) as (v1 & -> & Hl1 & Hp1).
  rewrite (singleton_vec v0 Hl0), (singleton_vec v1 Hl1) in *. cbn [map combine fst snd length].
  split; [reflexivity|]. constructor; [|constructor].
  inversion Hp0; subst. inversion Hp1; subst.
  set (x := nth 0 v0 0) in *. set (y := nth 0 v1 0) in *. clearbody x y.
  qc_to_q. lra.
Qed.

Lemma sample_selection_contract : selection_contract sample_collaborators 4.
Proof. split; (split; [reflexivity|repeat constructor]). Qed.

Lemma sample_reversible_contract : reversible_contract sample_collaborators 4.
Proof.
  eexists. split; [reflexivity|]. intros v Hv. vec4 v Hv.
  cbv -[Qcplus Qcmult Qcminus Qcdiv Qcopp Qcinv Q2Qc].
  repeat f_equal; ring.
Qed.

(* ------------------------------------------------------------------ *)
(** ** Under constant sizes an iteration returns *)

Lemma rbind_ret {A B : Type} (x : A) (k : A -> run B) (log : list event) :
  rbind (ret x) k log = k x log.
Proof. reflexivity. Qed.

Lemma singleton_list {A : Type} (l : list A) : length l = 1%nat -> exists x, l = [x].
Proof. destruct l as [|x [|? ?]]; try discriminate. eauto. Qed.

Lemma coefficient_at_ok (s : sched) (previous : vec) (t dt : Qc) :
  sched_ok 1 s -> length previous = 1%nat ->
  exists v, coefficient_at s previous t dt = Ok v /\ length v = 1%nat.
Proof.
  intros Hs Hp. unfold coefficient_at. destruct s as [w|f].
  - exists previous. split; [reflexivity|exact Hp].
  - apply Hs.
Qed.

Lemma nomig_rebuild_test_ok (t dt dt_old : Qc) (Nold N s_new s_old h_new h_old : vec) :
  length Nold = length N -> length s_new = length s_old -> length h_new = length h_old ->
  exists r, nomig_rebuild_test t dt dt_old Nold N s_new s_old h_new h_old = Ok r.
Proof.
  intros HN Hs Hh. unfold nomig_rebuild_test, por.
  rewrite (vec_differs_spec Nold N HN), (vec_differs_spec s_new s_old Hs),
    (vec_differs_spec h_new h_old Hh). cbn [bind].
  destruct (Qceqb t 0); [eauto|]. destruct (negb (vec_eqb Nold N)); [eauto|].
  destruct (negb (Qceqb dt dt_old)); [eauto|].
  destruct (negb (vec_eqb s_new s_old)); eauto.
Qed.

Lemma neutral_rebuild_test_ok (t dt dt_old : Qc) (Nold N : vec) :
  length Nold = length N -> exists r, neutral_rebuild_test t dt dt_old Nold N = Ok r.
Proof.
  intros HN. unfold neutral_rebuild_test, por.
  rewrite (vec_differs_spec Nold N HN). cbn [bind].
  destruct (Qceqb t 0); [eauto|]. destruct (negb (vec_eqb Nold N)); eauto.
Qed.

Lemma nomig_update_ok (E : collaborators) (d : nat) (dt : Qc) (B : mutation_term)
    (Q0 slv0 : matrix) (sfs : ndarray) :
  silent_mutation d B -> shape sfs = [d] ->
  exists sfs', nomig_update E 1 dt B [Q0] [slv0] sfs = Ok sfs'.
Proof.
  intros HB Hsh. unfold nomig_update. cbn [Nat.eqb item nth_error bind].
  unfold nd_dot. rewrite Hsh. cbn [bind].
  destruct B as [b|[b|bs]]; cbn [silent_mutation] in HB; [eauto|eauto|contradiction].
Qed.

Lemma neutral_update_ok (E : collaborators) (d : nat) (dt : Qc) (B : mutation_term)
    (A Di C : vec) (Q0 : matrix) (sfs : ndarray) :
  silent_mutation d B -> shape sfs = [d] ->
  exists sfs', neutral_update E 1 dt B [A] [Di] [C] [Q0] sfs = Ok sfs'.
Proof.
  intros HB Hsh. unfold neutral_update. cbn [Nat.eqb item nth_error bind].
  unfold nd_dot. rewrite Hsh. cbn [bind].
  destruct B as [b|[b|bs]]; cbn [silent_mutation] in HB; [eauto|eauto|contradiction].
Qed.

(** One pass of the loop of [integrate_nomig] under constant sizes. *)
Lemma nomig_iter_returns (E : collaborators) (inner d : nat) (mass : Qc) (c : nomig_ctx)
    (N : vec) (st : nomig_state) (log : list event) :
  drift_setting E d c -> c_Npop c = SConst N ->
  sched_ok 1 (c_s c) -> sched_ok 1 (c_h c) ->
  drift_invariant E d mass st -> nomig_ready N st ->
  exists log' st',
    nomig_iter E inner c st log = (log', Ok st') /\ nomig_ready N st' /\
    n_t st' = n_t st + propose_dt (compute_dt E N (Some (n_s_new st)) (Some (n_h_new st)))
                         (c_Tmax c) (c_dt_fac c) (n_t st).
Proof.
  intros [Hdims Hvd (V & Hvs & HV) (W & Hvs2 & HW) HB HNpop Hzs Hfac] HcN Hcs Hch
    [Hsh Hlen Hmass Ht HN (Ne & HNe & HNe0) Hs Hops] [HrN HrNold Hsn Hso Hhn Hho].
  unfold nomig_iter. rewrite HcN, Hdims, HrN, HrNold, HNe. cbn [adapt_sizes length].
  rewrite rbind_ret. cbn [k_dt k_N k_Neff].
  set (dt := propose_dt _ _ _ _).
  destruct (coefficient_at_ok (c_s c) (n_s_new st) (n_t st) dt Hcs Hsn) as (s' & Hs' & Hls').
  destruct (coefficient_at_ok (c_h c) (n_h_new st) (n_t st) dt Hch Hhn) as (h' & Hh' & Hlh').
  unfold coefficient_at in Hs', Hh'.
  rewrite (rbind_lift_Ok _ s') by exact Hs'.
  rewrite (rbind_lift_Ok _ h') by exact Hh'.
  destruct (nomig_rebuild_test_ok (n_t st) dt (n_dt st) N N s' (n_s_old st) h' (n_h_old st))
    as (r & Hr); [reflexivity|congruence|congruence|].
  rewrite (rbind_lift_Ok _ r) by exact Hr.
  assert (Hop : exists D S1 S2 slv0 Q0,
            (if r
             then D <- drift_ops 1 [Ne] (c_vd c) ;;
                  S1 <- sel1_ops 1 s' h' (c_vs c) ;;
                  S2 <- sel2_ops 1 s' h' (c_vs2 c) ;;
                  slv <- implicit_systems 1 dt D S1 S2 ;;
                  Q <- explicit_ops 1 dt D S1 S2 ;;
                  Ok (D, S1, S2, Some slv, Some Q)
             else Ok (n_D st, n_S1 st, n_S2 st, n_slv st, n_Q st))
            = Ok (D, S1, S2, Some [slv0], Some [Q0])).
  { destruct r.
    - rewrite Hvd, Hvs, Hvs2.
      destruct (singleton_list s' Hls') as (s0 & ->).
      destruct (singleton_list h' Hlh') as (h0 & ->).
      cbn. repeat eexists.
    - destruct Hops as [H0|(k' & c' & _ & HQ & HS)].
      + exfalso. unfold nomig_rebuild_test, por in Hr.
        rewrite H0, Qceqb_refl in Hr. discriminate.
      + rewrite HQ, HS. repeat eexists. }
  destruct Hop as (D & S1 & S2 & slv0 & Q0 & Hop).
  rewrite (rbind_lift_Ok _ (D, S1, S2, Some [slv0], Some [Q0])) by exact Hop.
  destruct (nomig_update_ok E d dt (c_B c) Q0 slv0 (n_sfs st) HB Hsh) as (sfs' & Hu).
  rewrite (rbind_lift_Ok _ sfs') by (cbn [bound bind]; exact Hu).
  eexists _, _. split; [reflexivity|]. split; [|reflexivity].
  constructor; cbn; try reflexivity; assumption.
Qed.

(** ... and of [integrate_neutral]. *)
Lemma neutral_iter_returns (E : collaborators) (inner d : nat) (mass : Qc)
    (c : neutral_ctx) (N : vec) (st : neutral_state) (log : list event) :
  neutral_setting E d c -> d_Npop c = SConst N ->
  neutral_invariant E d mass st -> neutral_ready N st ->
  exists log' st',
    neutral_iter E inner c st log = (log', Ok st') /\ neutral_ready N st' /\
    m_t st' = m_t st + propose_dt (compute_dt E N None None)
                         (d_Tmax c) (d_dt_fac c) (m_t st).
Proof.
  intros [Hdims Hvd Hdg HB HNpop Hfac] HcN
    [Hsh Hlen Hmass Ht HN (Ne & HNe & HNe0) Hops] [HrN HrNold].
  unfold neutral_iter. rewrite HcN, Hdims, HrN, HrNold, HNe. cbn [adapt_sizes length].
  rewrite rbind_ret. cbn [k_dt k_N k_Neff].
  set (dt := propose_dt _ _ _ _).
  destruct (neutral_rebuild_test_ok (m_t st) dt (m_dt st) N N) as (r & Hr); [reflexivity|].
  rewrite (rbind_lift_Ok _ r) by exact Hr.
  assert (Hop : exists D A0 Di0 C0 Q0,
            (if r
             then D <- drift_ops 1 [Ne] (d_vd c) ;;
                  f <- comprehension 1 (neutral_diagonals E dt [Ne] [d] (d_diags c)) ;;
                  Q <- neutral_explicit_ops 1 dt [d] D ;;
                  Ok (D, Some (map (fun x => fst (fst x)) f),
                      Some (map (fun x => snd (fst x)) f), Some (map snd f), Some Q)
             else Ok (m_D st, m_A st, m_Di st, m_C st, m_Q st))
            = Ok (D, Some [A0], Some [Di0], Some [C0], Some [Q0])).
  { destruct r.
    - rewrite Hvd, Hdg. unfold comprehension, drift_ops, neutral_diagonals.
      cbn [comprehension seq mapM item nth_error bind].
      destruct (ts_mat_to_diag E (calcD_dense E d)) as [[d0 d1] d2].
      destruct (ts_factor E _ _ _) as [[A0 Di0] C0]. cbn. repeat eexists.
    - destruct Hops as [H0|(k' & c' & A & Di & C & _ & HQ & HA & HDi & HC & _)].
      + exfalso. unfold neutral_rebuild_test, por in Hr.
        rewrite H0, Qceqb_refl in Hr. discriminate.
      + rewrite HQ, HA, HDi, HC. repeat eexists. }
  destruct Hop as (D & A0 & Di0 & C0 & Q0 & Hop).
  rewrite (rbind_lift_Ok _ (D, Some [A0], Some [Di0], Some [C0], Some [Q0])) by exact Hop.
  destruct (neutral_update_ok E d dt (d_B c) A0 Di0 C0 Q0 (m_sfs st) HB Hsh) as (sfs' & Hu).
  rewrite (rbind_lift_Ok _ sfs') by (cbn [bound bind]; exact Hu).
  eexists _, _. split; [reflexivity|]. split; [|reflexivity].
  constructor; reflexivity.
Qed.

(* ------------------------------------------------------------------ *)
(** ** Progress of the time loop *)

Lemma of_nat_succ (n : nat) : of_nat (S n) = of_nat n + 1.
Proof.
  unfold of_nat. apply Qc_is_canon. unfold Qcplus. cbn [this Q2Qc].
  rewrite !Qred_correct, Nat2Z.inj_succ, <- Z.add_1_r, inject_Z_plus. reflexivity.
Qed.

Lemma of_nat_nonneg (n : nat) : 0 <= of_nat n.
Proof.
  induction n as [|n IH]; [discriminate|]. rewrite of_nat_succ. qc_to_q. lra.
Qed.

Lemma Qcmult_pos (x y : Qc) : 0 < x -> 0 < y -> 0 < x * y.
Proof. intros Hx Hy. qc_to_q. nra. Qed.

(** A step under constant sizes either reaches [Tmax] or advances by the
    smaller of the bound and the cap. *)
Lemma propose_dt_progress (bound Tmax dt_fac t eps : Qc) (fuel : nat) :
  0 < eps -> eps <= bound -> 0 < dt_fac -> 0 <= t -> t < Tmax ->
  Tmax - t <= of_nat (S fuel) * Qcmin eps (Tmax * dt_fac) ->
  let t' := t + propose_dt bound Tmax dt_fac t in
  0 <= propose_dt bound Tmax dt_fac t /\ t' <= Tmax /\
  Tmax - t' <= of_nat fuel * Qcmin eps (Tmax * dt_fac).
Proof.
  intros Heps Hb Hf Ht HT Hfuel t'. subst t'. rewrite propose_dt_min.
  assert (Hcap : 0 < Tmax * dt_fac).
  { apply Qcmult_pos; [|exact Hf]. apply (Qcle_lt_trans _ t); assumption. }
  rewrite of_nat_succ in Hfuel. pose proof (of_nat_nonneg fuel) as Hn.
  set (n := of_nat fuel) in *. clearbody n.
  set (cap := Tmax * dt_fac) in *. clearbody cap.
  destruct (Qcmin_spec eps cap) as [[H1 E1]|[H1 E1]]; rewrite E1 in *;
  destruct (Qcmin_spec bound cap) as [[H2 E2]|[H2 E2]]; rewrite E2;
  match goal with
  | |- context [Qcmin ?x ?y] =>
      destruct (Qcmin_spec x y) as [[H3 E3]|[H3 E3]]; rewrite E3
  end; qc_to_q; repeat split; nra.
Qed.

Lemma of_nat_0 : of_nat 0 = 0.
Proof. apply Qc_is_canon. reflexivity. Qed.

Lemma nomig_loop_returns (E : collaborators) (inner d : nat) (mass : Qc) (c : nomig_ctx)
    (N : vec) (eps : Qc) :
  drift_contract (calcD E d) d -> solver_contract E (calcD E d) d ->
  bound_contract E -> effective_size_contract E 1 ->
  drift_setting E d c -> c_Npop c = SConst N ->
  sched_ok 1 (c_s c) -> sched_ok 1 (c_h c) ->
  bounded_below E N eps -> 0 < c_dt_fac c ->
  forall (fuel : nat) (st : nomig_state) (log : list event),
    drift_invariant E d mass st -> nomig_ready N st ->
    c_Tmax c - n_t st <= of_nat fuel * Qcmin eps (c_Tmax c * c_dt_fac c) ->
    exists log' st', nomig_loop E inner fuel c st log = (log', Ok st').
Proof.
  intros HG Hslv Hbound Heff Hset HcN Hcs Hch [Heps Hlow] Hfac.
  induction fuel as [|fuel IH]; intros st log Hinv Hready Hrem; cbn [nomig_loop];
    destruct (Qcltb (n_t st) (c_Tmax c)) eqn:Hlt; try (eexists _, _; reflexivity).
  - exfalso. apply Qcltb_true in Hlt. rewrite of_nat_0 in Hrem.
    set (m := Qcmin _ _) in *. clearbody m. qc_to_q. nra.
  - apply Qcltb_true in Hlt.
    destruct (nomig_iter_returns E inner d mass c N st log Hset HcN Hcs Hch Hinv Hready)
      as (log1 & st1 & Hit & Hready1 & Ht1).
    pose proof (drift_step E inner d mass c st st1 log log1 HG Hslv Hbound Heff Hset Hinv
                  (Qclt_le_weak _ _ Hlt) Hit) as Hinv1.
    destruct (propose_dt_progress
                (compute_dt E N (Some (n_s_new st)) (Some (n_h_new st)))
                (c_Tmax c) (c_dt_fac c) (n_t st) eps fuel Heps (Hlow _ _) Hfac
                (@di_time _ _ _ _ Hinv) Hlt Hrem) as (_ & _ & Hrem1).
    rewrite <- Ht1 in Hrem1.
    destruct (IH st1 log1 Hinv1 Hready1 Hrem1) as (log2 & st2 & Hloop).
    exists log2, st2. unfold rbind. rewrite Hit. exact Hloop.
Qed.

Lemma neutral_loop_returns (E : collaborators) (inner d : nat) (mass : Qc)
    (c : neutral_ctx) (N : vec) (eps : Qc) :
  drift_contract (calcD_dense E d) d -> tridiagonal_contract E (calcD_dense E d) d ->
  bound_contract E -> effective_size_contract E 1 ->
  neutral_setting E d c -> d_Npop c = SConst N ->
  bounded_below E N eps -> 0 < d_dt_fac c ->
  forall (fuel : nat) (st : neutral_state) (log : list event),
    neutral_invariant E d mass st -> neutral_ready N st ->
    d_Tmax c - m_t st <= of_nat fuel * Qcmin eps (d_Tmax c * d_dt_fac c) ->
    exists log' st', neutral_loop E inner fuel c st log = (log', Ok st').
Proof.
  intros HG Hslv Hbound Heff Hset HcN [Heps Hlow] Hfac.
  induction fuel as [|fuel IH]; intros st log Hinv Hready Hrem; cbn [neutral_loop];
    destruct (Qcltb (m_t st) (d_Tmax c)) eqn:Hlt; try (eexists _, _; reflexivity).
  - exfalso. apply Qcltb_true in Hlt. rewrite of_nat_0 in Hrem.
    set (m := Qcmin _ _) in *. clearbody m. qc_to_q. nra.
  - apply Qcltb_true in Hlt.
    destruct (neutral_iter_returns E inner d mass c N st log Hset HcN Hinv Hready)
      as (log1 & st1 & Hit & Hready1 & Ht1).
    pose proof (neutral_step E inner d mass c st st1 log log1 HG Hslv Hbound Heff Hset Hinv
                  (Qclt_le_weak _ _ Hlt) Hit) as Hinv1.
    destruct (propose_dt_progress (compute_dt E N None None)
                (d_Tmax c) (d_dt_fac c) (m_t st) eps fuel Heps (Hlow _ _) Hfac
                (@ni_time _ _ _ _ Hinv) Hlt Hrem) as (_ & _ & Hrem1).
    rewrite <- Ht1 in Hrem1.
    destruct (IH st1 log1 Hinv1 Hready1 Hrem1) as (log2 & st2 & Hloop).
    exists log2, st2. unfold rbind. rewrite Hit. exact Hloop.
Qed.

(* ------------------------------------------------------------------ *)
(** ** Under constant sizes a run returns *)

Lemma nomig_run_returns (E : collaborators) (d fuel : nat) (a : nomig_args) (N : vec)
    (eps : Qc) (log : list event) :
  drift_collaborators E d -> pure_drift_nomig d a ->
  a_Npop a = NConst N -> all_positive N -> any_frozen (a_frozen a) = false ->
  bounded_below E N eps -> 0 < a_dt_fac a ->
  enough_fuel fuel (a_tf a * two) (Qcmin eps (a_tf a * two * a_dt_fac a)) ->
  exists log' sp, integrate_nomig E fuel a log = (log', Ok sp).
Proof.
  intros HE Ha HN HNpos Hfz Hlow Hfac Hfuel.
  pose proof HE as [HG _ Hslv _ Hsel Hbound Heff Hrev].
  pose proof Ha as [Hok Hsh _ _ _ _].
  destruct (nomig_params_spec a Hok)
    as (p & u0 & v0 & Hp & Hm & Hsok & HNok & _ & _ & Hu & _).
  assert (HpN : p_Npop p = SConst N).
  { unfold nomig_params in Hp. rewrite Hm in Hp. cbn [bind] in Hp. rewrite Hfz in Hp.
    injection Hp as <-. cbn [p_Npop]. rewrite HN. reflexivity. }
  assert (HN0 : eval_sched (p_Npop p) 0 = Ok N) by (rewrite HpN; reflexivity).
  destruct (nomig_init_spec E a p N log Hok Hsok HNok Hu HN0 HNpos)
    as (D & S1 & S2 & B & s0 & h0 & Hs0 & Hh0 & _ & Hinit).
  set (c := Build_nomig_ctx _ _ _ _ _ _ _ _ _ _) in Hinit.
  set (st0 := Build_nomig_state _ _ _ _ _ _ _ _ _ _ _ _ _ _ _) in Hinit.
  destruct (nomig_start E d a p c st0 log _ Hsel (fun _ => Hrev) Ha Hp Hinit)
    as (Hset & Hinv & Hcs & _ & _ & _).
  assert (Hch : sched_ok 1 (c_h c)).
  { cbn [c c_h]. unfold rank. rewrite Hsh. cbn [length].
    apply normalize_h_ok. destruct Hok as (_ & _ & Hh). unfold rank in Hh.
    rewrite Hsh in Hh. exact Hh. }
  assert (Hready : nomig_ready N st0).
  { unfold rank in *. rewrite Hsh in *. cbn [length] in *.
    destruct (eval_sched_ok 1 _ 0 Hsok) as (s0' & Hs0' & Hls0).
    destruct (eval_sched_ok 1 _ 0 Hch) as (h0' & Hh0' & Hlh0).
    cbn [c c_h] in Hh0'. unfold rank in Hh0'. rewrite Hsh in Hh0'. cbn [length] in Hh0'.
    assert (s0' = s0) by congruence. assert (h0' = h0) by congruence. subst s0' h0'.
    constructor; cbn; try reflexivity; assumption. }
  destruct (nomig_loop_returns E fuel d _ c N eps HG Hslv Hbound Heff Hset HpN Hcs Hch Hlow
              Hfac fuel st0 (EvSizes 0 N :: log) Hinv Hready) as (log2 & st & Hloop).
  { cbn [c st0 c_Tmax n_t c_dt_fac]. unfold enough_fuel in Hfuel.
    replace (a_tf a * two - 0) with (a_tf a * two) by ring. exact Hfuel. }
  pose proof (drift_loop E fuel d _ c HG Hslv Hbound Heff Hset fuel st0 st _ _ Hinv Hloop)
    as [_ Hlen _ _ _ _ _ _].
  destruct (args_bins _ d (ok_sfs0 (proj1 Hok)) (ok_dims (proj1 Hok)) Hsh) as [Hd2 _].
  destruct (Spectrum_ok (n_sfs st) (negb (a_finite_genome a))) as (mask & Hsp); [lia|].
  eexists _, _. unfold integrate_nomig.
  rewrite (rbind_lift_Ok _ p) by exact Hp.
  unfold rbind. rewrite Hinit, Hloop. unfold lift. rewrite Hsp. reflexivity.
Qed.

Lemma neutral_run_returns (E : collaborators) (d fuel : nat) (b : neutral_args) (N : vec)
    (eps : Qc) (log : list event) :
  drift_collaborators E d -> pure_drift_neutral d b ->
  b_Npop b = NConst N -> all_positive N -> any_frozen (b_frozen b) = false ->
  bounded_below E N eps -> 0 < b_dt_fac b ->
  enough_fuel fuel (b_tf b * two) (Qcmin eps (b_tf b * two * b_dt_fac b)) ->
  exists log' sp, integrate_neutral E fuel b log = (log', Ok sp).
Proof.
  intros HE Hb HN HNpos Hfz Hlow Hfac Hfuel.
  pose proof HE as [_ HG _ Hslv _ Hbound Heff Hrev].
  pose proof Hb as [Hok Hsh _ _ _].
  destruct (neutral_params_spec b Hok)
    as (p & u0 & v0 & Hp & Hm & HNok & _ & Hu & _).
  assert (HpN : p_Npop p = SConst N).
  { unfold neutral_params in Hp. rewrite Hm in Hp. cbn [bind] in Hp. rewrite Hfz in Hp.
    injection Hp as <-. cbn [p_Npop]. rewrite HN. reflexivity. }
  assert (HN0 : eval_sched (p_Npop p) 0 = Ok N) by (rewrite HpN; reflexivity).
  destruct (neutral_init_spec E b p N log Hok HNok Hu HN0 HNpos)
    as (D & B & _ & Hinit).
  set (c := Build_neutral_ctx _ _ _ _ _ _ _) in Hinit.
  set (st0 := Build_neutral_state _ _ _ _ _ _ _ _ _ _ _) in Hinit.
  destruct (neutral_start E d b p c st0 log _ (fun _ => Hrev) Hb Hp Hinit)
    as (Hset & Hinv & _).
  assert (Hready : neutral_ready N st0) by (constructor; reflexivity).
  destruct (neutral_loop_returns E fuel d _ c N eps HG Hslv Hbound Heff Hset HpN Hlow
              Hfac fuel st0 (EvSizes 0 N :: log) Hinv Hready) as (log2 & st & Hloop).
  { cbn [c st0 d_Tmax m_t d_dt_fac]. unfold enough_fuel in Hfuel.
    replace (b_tf b * two - 0) with (b_tf b * two) by ring. exact Hfuel. }
  pose proof (neutral_drift_loop E fuel d _ c HG Hslv Hbound Heff Hset fuel st0 st _ _
                Hinv Hloop) as [_ Hlen _ _ _ _ _].
  destruct (args_bins _ d (ok_sfs0 Hok) (ok_dims Hok) Hsh) as [Hd2 _].
  destruct (Spectrum_ok (m_sfs st) (negb (b_finite_genome b))) as (mask & Hsp); [lia|].
  eexists _, _. unfold integrate_neutral.
  rewrite (rbind_lift_Ok _ p) by exact Hp.
  unfold rbind. rewrite Hinit, Hloop. unfold lift. rewrite Hsp. reflexivity.
Qed.

(* ------------------------------------------------------------------ *)
(** ** Conservation of mass under pure drift *)

Lemma conserved_of_mass (d : nat) (sfs0 sfs : ndarray) :
  (2 <= d)%nat -> shape sfs0 = [d] -> length (data sfs0) = d ->
  shape sfs = [d] -> length (data sfs) = d -> vsum (data sfs) = vsum (data sfs0) ->
  conserved sfs0 sfs.
Proof.
  intros Hd Hsh0 Hl0 Hsh Hl Hm. split; [congruence|]. split; [exact Hm|].
  pose proof (mass_split sfs0 ltac:(lia)) as H0.
  pose proof (mass_split sfs ltac:(lia)) as H1.
  unfold mass in H0, H1. rewrite Hm, H0 in H1.
  set (c0 := corner_mass sfs0) in *. set (p0 := polymorphic_mass sfs0) in *.
  set (c1 := corner_mass sfs) in *. set (p1 := polymorphic_mass sfs) in *.
  clearbody c0 p0 c1 p1.
  replace c0 with (c1 + p1 - p0) by (rewrite <- H1; ring). ring.
Qed.

(** C3. For one population (a 1-D spectrum of [d] bins) with zero mutation
    rate and zero selection, whatever the target time, the spectrum that
    [integrate_nomig] or [integrate_neutral] returns has the shape of the
    input and the same total sum of entries, and the mass gained by the two
    monomorphic corner bins is the mass lost by the polymorphic bins; and
    with constant positive sizes and fuel for every step each of them does
    return such a spectrum.  The collaborators are asked that the columns of
    the drift matrix sum to zero, that the solvers solve their systems, that
    the step bound is not negative and that effective sizes of positive
    sizes are positive; the sizes given are positive and [dt_fac] is not
    negative. *)
Theorem drift_conserves_mass (E : collaborators) (d : nat)
    (a : nomig_args) (b : neutral_args) :
  drift_collaborators E d -> pure_drift_nomig d a -> pure_drift_neutral d b ->
  (forall fuel log log' sp,
     integrate_nomig E fuel a log = (log', Ok sp) -> conserved (a_sfs0 a) (sp_data sp)) /\
  (forall fuel log log' sp,
     integrate_neutral E fuel b log = (log', Ok sp) -> conserved (b_sfs0 b) (sp_data sp)) /\
  (forall fuel log,
     steady E (a_Npop a) (a_frozen a) (a_tf a) (a_dt_fac a) fuel ->
     exists log' sp, integrate_nomig E fuel a log = (log', Ok sp) /\
                     conserved (a_sfs0 a) (sp_data sp)) /\
  (forall fuel log,
     steady E (b_Npop b) (b_frozen b) (b_tf b) (b_dt_fac b) fuel ->
     exists log' sp, integrate_neutral E fuel b log = (log', Ok sp) /\
                     conserved (b_sfs0 b) (sp_data sp)).
Proof.
  intros HE Ha Hb.
  assert (Hn : forall fuel log log' sp,
             integrate_nomig E fuel a log = (log', Ok sp) ->
             conserved (a_sfs0 a) (sp_data sp)).
  { intros fuel log log' sp Hrun.
    destruct (nomig_drift_run E d fuel a log log' sp HE Ha Hrun) as (Hsh & Hl & Hm).
    destruct Ha as [([Hwf Hdims _ _ _ _ _] & _ & _) Hash _ _ _ _].
    destruct (args_bins _ d Hwf Hdims Hash) as [Hd Hl0].
    apply (conserved_of_mass d); assumption. }
  assert (Hm : forall fuel log log' sp,
             integrate_neutral E fuel b log = (log', Ok sp) ->
             conserved (b_sfs0 b) (sp_data sp)).
  { intros fuel log log' sp Hrun.
    destruct (neutral_drift_run E d fuel b log log' sp HE Hb Hrun) as (Hsh & Hl & Hm).
    destruct Hb as [[Hwf Hdims _ _ _ _ _] Hbsh _ _ _].
    destruct (args_bins _ d Hwf Hdims Hbsh) as [Hd Hl0].
    apply (conserved_of_mass d); assumption. }
  split; [exact Hn|]. split; [exact Hm|]. split.
  - intros fuel log (N & eps & HN & Hpos & Hfz & Hlow & Hfac & Hfuel).
    destruct (nomig_run_returns E d fuel a N eps log HE Ha HN Hpos Hfz Hlow Hfac Hfuel)
      as (log' & sp & Hrun).
    exists log', sp. split; [exact Hrun|]. apply (Hn fuel log log' sp Hrun).
  - intros fuel log (N & eps & HN & Hpos & Hfz & Hlow & Hfac & Hfuel).
    destruct (neutral_run_returns E d fuel b N eps log HE Hb HN Hpos Hfz Hlow Hfac Hfuel)
      as (log' & sp & Hrun).
    exists log', sp. split; [exact Hrun|]. apply (Hm fuel log log' sp Hrun).
Qed.

Lemma sample_drift_collaborators : drift_collaborators sample_collaborators 4.
Proof.
  constructor.
  - apply sample_drift_contract.
  - apply sample_drift_contract.
  - apply sample_solver_contract.
  - apply sample_tridiagonal_contract.
  - apply sample_selection_contract.
  - apply sample_bound_contract.
  - apply sample_effective_size_contract.
  - apply sample_reversible_contract.
Qed.

Lemma sample_nomig_drift_pure : pure_drift_nomig 4 sample_nomig_drift.
Proof.
  constructor; cbn.
  - split; [|split; exact I]. constructor; cbn; try exact I.
    + reflexivity.
    + repeat constructor.
    + intros t. reflexivity.
    + left. reflexivity.
  - reflexivity.
  - intros t. reflexivity.
  - reflexivity.
  - intros t. constructor; [|constructor]. qc_to_q. nra.
  - discriminate.
Qed.

Lemma sample_neutral_drift_pure : pure_drift_neutral 4 sample_neutral_drift.
Proof.
  constructor; cbn.
  - constructor; cbn; try exact I.
    + reflexivity.
    + repeat constructor.
    + reflexivity.
    + eexists. split; [reflexivity|exact I].
    + eexists. split; [reflexivity|reflexivity].
    + left. reflexivity.
  - reflexivity.
  - split; [reflexivity|]. repeat constructor.
  - exact I.
  - discriminate.
Qed.

Lemma sample_neutral_drift_steady :
  steady sample_collaborators (b_Npop sample_neutral_drift) (b_frozen sample_neutral_drift)
    (b_tf sample_neutral_drift) (b_dt_fac sample_neutral_drift) 10.
Proof.
  exists [two], (Q2Qc (2 # 5)). split; [reflexivity|]. split.
  { constructor; [reflexivity|constructor]. }
  split; [reflexivity|]. split.
  { split; [reflexivity|]. intros s h. vm_compute. discriminate. }
  split; [reflexivity|]. vm_compute. discriminate.
Qed.

(** C3 on four bins: [integrate_nomig] under a growing size, given ten
    rounds of fuel, and [integrate_neutral] under a constant size with the
    finite-genome model. *)
Lemma drift_conserves_mass_witness :
  (exists log' sp,
     integrate_nomig sample_collaborators 10 sample_nomig_drift [] = (log', Ok sp) /\
     conserved sample_sfs_drift (sp_data sp)) /\
  (exists log' sp,
     integrate_neutral sample_collaborators 10 sample_neutral_drift [] = (log', Ok sp) /\
     conserved sample_sfs_drift (sp_data sp)).
Proof.
  destruct (drift_conserves_mass sample_collaborators 4 sample_nomig_drift
              sample_neutral_drift sample_drift_collaborators sample_nomig_drift_pure
              sample_neutral_drift_pure) as (Hn & _ & _ & Hm).
  split.
  - destruct (integrate_nomig sample_collaborators 10 sample_nomig_drift [])
      as [log' [sp|e|]] eqn:Hrun.
    + exists log', sp. split; [reflexivity|]. apply (Hn 10%nat [] log' sp Hrun).
    + vm_compute in Hrun. discriminate Hrun.
    + vm_compute in Hrun. discriminate Hrun.
  - apply (Hm 10%nat [] sample_neutral_drift_steady).
Defined.

(** The two runs of the sample keep the mass 3 of the input, of which the
    corners hold nothing at the start and some at the end. *)
Example drift_sample_masses :
  mass sample_sfs_drift = of_Z 3 /\ corner_mass sample_sfs_drift = 0 /\
  returned_mass (integrate_nomig sample_collaborators 10 sample_nomig_drift []) (of_Z 3)
  = true /\
  returned_mass (integrate_neutral sample_collaborators 10 sample_neutral_drift [])
    (of_Z 3) = true /\
  returned_corner_mass (integrate_neutral sample_collaborators 10 sample_neutral_drift [])
  = Some (Q2Qc (128 # 363)).
Proof.
  repeat split; try (vm_compute; reflexivity); try (apply Qc_is_canon; reflexivity).
  vm_compute. f_equal. apply Qc_is_canon. reflexivity.
Qed.
(* ------------------------------------------------------------------ *)
(** * Further properties of the code

    ** [_calcB]: when it raises *)

Lemma item_firstn {A : Type} (l : list A) (n k : nat) :
  (k < n)%nat -> item (firstn n l) k = item l k.
Proof.
  intros Hk. unfold item. rewrite nth_error_firstn.
  destruct (Nat.ltb_spec k n); [reflexivity|lia].
Qed.

Lemma _calcB_loop_firstn (dims : list nat) (u : vec) (n : nat) (ks : list nat) :
  (forall k, In k ks -> (k < n)%nat) ->
  forall B, _calcB_loop dims (firstn n u) ks B = _calcB_loop dims u ks B.
Proof.
  induction ks as [|k ks IH]; intros Hks B; [reflexivity|]. cbn [_calcB_loop].
  rewrite (item_firstn u n k) by (apply Hks; left; reflexivity).
  destruct (item dims k) as [dk| |]; cbn [bind]; try reflexivity.
  destruct (item u k) as [uk| |]; cbn [bind]; try reflexivity.
  destruct (nd_set B _ _) as [B'| |]; cbn [bind]; try reflexivity.
  apply IH. intros k' Hk'. apply Hks. right. exact Hk'.
Qed.

(** The loop of [_calcB] returns, having found every axis long enough and a
    rate for it, or raises [IndexError]. *)
Lemma _calcB_loop_outcome (dims : list nat) (u : vec) (ks : list nat) :
  (forall k, In k ks -> (k < length dims)%nat) ->
  forall B, shape B = dims -> well_formed B ->
  (exists B', _calcB_loop dims u ks B = Ok B' /\
              forall k, In k ks -> (2 <= nth k dims 0)%nat /\ (k < length u)%nat) \/
  _calcB_loop dims u ks B = Raise IndexError.
Proof.
  induction ks as [|k ks IH]; intros Hks B Hsh Hwf; cbn [_calcB_loop].
  - left. exists B. split; [reflexivity|]. intros k [].
  - assert (Hk : (k < length dims)%nat) by (apply Hks; left; reflexivity).
    rewrite (item_Ok dims k 0%nat Hk). cbn [bind].
    destruct (item u k) as [uk| |] eqn:Hu; cbn [bind];
      try (unfold item in Hu; destruct (nth_error u k); discriminate).
    2:{ right. unfold item in Hu. destruct (nth_error u k); [discriminate|].
        injection Hu as <-. reflexivity. }
    apply (item_inv u k uk 0) in Hu as [Hku _].
    destruct (in_bounds (shape B) (unit_index (length dims) k)) eqn:Hin.
    + destruct (nd_set_spec B _ (of_Z (Z.of_nat (nth k dims 0%nat) - 1) * uk) Hwf Hin)
        as (B1 & -> & Hsh1 & Hwf1 & _). cbn [bind].
      destruct (IH (fun k' Hk' => Hks k' (or_intror Hk')) B1 (eq_trans Hsh1 Hsh) Hwf1)
        as [(B' & HB' & Hgood)|Hbad]; [left|right; exact Hbad].
      exists B'. split; [exact HB'|]. intros k' [<-|Hk']; [|apply Hgood; exact Hk'].
      split; [|exact Hku]. rewrite Hsh in Hin. apply in_bounds_nth in Hin as [_ Hin].
      specialize (Hin k Hk). rewrite unit_index_nth, Nat.eqb_refl in Hin by exact Hk. lia.
    + right. unfold nd_set. rewrite Hin. reflexivity.
Qed.

(** X1. [_calcB(dims, u)] returns an array of shape [dims] when every entry
    of [dims] is at least 2 and [u] has at least [len(dims)] entries, of
    which the further ones are not read; in every other case it raises
    [IndexError]. *)
Theorem calcB_index_error (dims : list nat) (u : vec) :
  (Forall (fun d => (2 <= d)%nat) dims /\ (length dims <= length u)%nat ->
     (exists B, _calcB dims u = Ok B /\ shape B = dims) /\
     _calcB dims u = _calcB dims (firstn (length dims) u)) /\
  (~ (Forall (fun d => (2 <= d)%nat) dims /\ (length dims <= length u)%nat) ->
     _calcB dims u = Raise IndexError).
Proof.
  assert (Hks : forall k, In k (seq 0 (length dims)) -> (k < length dims)%nat).
  { intros k Hk. apply in_seq in Hk. lia. }
  split.
  - intros [Hd Hu].
    assert (Hcut : _calcB dims u = _calcB dims (firstn (length dims) u)).
    { unfold _calcB. symmetry. apply _calcB_loop_firstn. exact Hks. }
    split; [|exact Hcut]. rewrite Hcut. unfold _calcB.
    destruct (_calcB_loop_spec dims (firstn (length dims) u) (seq 0 (length dims)) Hd)
      with (B := nd_zeros dims) as (B & HB & Hsh & _).
    + rewrite length_firstn. lia.
    + apply seq_NoDup.
    + exact Hks.
    + reflexivity.
    + apply nd_zeros_wf.
    + exists B. split; [exact HB|exact Hsh].
  - intros Hnot. unfold _calcB.
    destruct (_calcB_loop_outcome dims u (seq 0 (length dims)) Hks (nd_zeros dims) eq_refl
                (nd_zeros_wf dims)) as [(B' & _ & Hgood)|Hbad]; [|exact Hbad].
    exfalso. apply Hnot. split.
    + apply Forall_forall. intros d Hd. destruct (In_nth dims d 0%nat Hd) as (k & Hk & <-).
      apply Hgood. apply in_seq. lia.
    + destruct (Nat.le_gt_cases (length dims) (length u)) as [H|H]; [exact H|].
      assert (Hl : (length u < length u)%nat); [|lia].
      apply (Hgood (length u)). apply in_seq. lia.
Qed.

(** [_calcB] on the shapes [(3, 1)] and [(3, 4)], the second with too few
    and with too many rates. *)
Example calcB_raises_or_ignores :
  _calcB [3; 1]%nat [1; 1] = Raise IndexError /\
  _calcB [3; 4]%nat [1] = Raise IndexError /\
  _calcB [3; 4]%nat [1; 1; two] = _calcB [3; 4]%nat [1; 1].
Proof. repeat split. Qed.

(* ------------------------------------------------------------------ *)
(** ** The dispatch of [_update_step1], [_update_step2] and
    [_update_step2_neutral] *)

Lemma for_range_first {A : Type} (n : nat) (body : nat -> A -> outcome A) (a : A)
    (e : exn) :
  body 0%nat a = Raise e -> for_range (S n) body a = Raise e.
Proof. intros H. unfold for_range. cbn [seq for_each]. rewrite H. reflexivity. Qed.

Lemma unsupported_rank (r : nat) : (r = 1 \/ 6 <= r)%nat ->
  (forall sfs Q, _ud1 r 1 sfs Q = Raise NameError) /\
  (forall sfs slv, _ud2 r 1 sfs slv = Raise NameError) /\
  (forall E sfs A Di C, _udn2 E r 1 sfs A Di C = Raise NameError).
Proof.
  intros Hr. do 6 (destruct r as [|r]; [repeat split; intros; solve [reflexivity | lia]|]).
  repeat split; intros; reflexivity.
Qed.

(** X2. The three update functions take a spectrum of two to five
    dimensions: when the list of operators has not one entry per dimension
    they raise [AssertionError]; with one entry per dimension, a spectrum of
    one dimension or of more than five makes them raise [NameError] (there
    is no function of that name to evaluate), and one of no dimension is
    returned as it is. *)
Theorem update_steps_dispatch (E : collaborators) (sfs : ndarray) (Q : list matrix)
    (slv : list (vec -> vec)) (A Di C : list vec) :
  (length Q <> rank sfs -> _update_step1 sfs Q = Raise AssertionError) /\
  (length slv <> rank sfs -> _update_step2 sfs slv = Raise AssertionError) /\
  (length A <> rank sfs -> _update_step2_neutral E sfs A Di C = Raise AssertionError) /\
  ((rank sfs = 1 \/ 6 <= rank sfs)%nat ->
     (length Q = rank sfs -> _update_step1 sfs Q = Raise NameError) /\
     (length slv = rank sfs -> _update_step2 sfs slv = Raise NameError) /\
     (length A = rank sfs -> _update_step2_neutral E sfs A Di C = Raise NameError)) /\
  (rank sfs = 0%nat ->
     (length Q = 0%nat -> _update_step1 sfs Q = Ok sfs) /\
     (length slv = 0%nat -> _update_step2 sfs slv = Ok sfs) /\
     (length A = 0%nat -> _update_step2_neutral E sfs A Di C = Ok sfs)).
Proof.
  unfold _update_step1, _update_step2, _update_step2_neutral, assert.
  assert (Hname : forall (A0 : Type) (l : list A0) (body : nat -> ndarray -> outcome ndarray),
            (rank sfs = 1 \/ 6 <= rank sfs)%nat -> length l = rank sfs ->
            body 0%nat sfs = Raise NameError ->
            (_ <- (if (length l =? rank sfs)%nat then Ok tt else Raise AssertionError) ;;
             for_range (rank sfs) body sfs) = Raise NameError).
  { intros A0 l body Hr Hl Hb. rewrite Hl, Nat.eqb_refl. cbn [bind].
    destruct (rank sfs) as [|r] eqn:Er; [lia|]. apply for_range_first. exact Hb. }
  split; [|split; [|split; [|split]]].
  - intros H. apply Nat.eqb_neq in H. rewrite H. reflexivity.
  - intros H. apply Nat.eqb_neq in H. rewrite H. reflexivity.
  - intros H. apply Nat.eqb_neq in H. rewrite H. reflexivity.
  - intros Hr. split; [|split]; intros Hl; apply (Hname _ _ _ Hr Hl);
      apply (unsupported_rank (rank sfs) Hr).
  - intros Hr. split; [|split]; intros Hl; rewrite Hl, Hr; reflexivity.
Qed.

(* ------------------------------------------------------------------ *)
(** ** Step 2: the loops solve along every fibre of one axis *)

Lemma for_range_inv {A : Type} (P : nat -> A -> Prop) (n : nat)
    (body : nat -> A -> outcome A) (a : A) :
  P 0%nat a ->
  (forall i a, (i < n)%nat -> P i a -> exists a', body i a = Ok a' /\ P (S i) a') ->
  exists a', for_range n body a = Ok a' /\ P n a'.
Proof.
  unfold for_range.
  assert (H : forall m s a, (s + m = n)%nat -> P s a ->
            (forall i a, (i < n)%nat -> P i a -> exists a', body i a = Ok a' /\ P (S i) a') ->
            exists a', for_each (seq s m) body a = Ok a' /\ P n a').
  { induction m as [|m IH]; intros s a0 Hs HP Hstep; cbn [seq for_each].
    - exists a0. split; [reflexivity|]. replace n with s by lia. exact HP.
    - destruct (Hstep s a0 ltac:(lia) HP) as (a1 & -> & HP1). cbn [bind].
      apply (IH (S s) a1); [lia|exact HP1|exact Hstep]. }
  intros HP Hstep. apply (H n 0%nat a); [lia|exact HP|exact Hstep].
Qed.

Lemma swept_shape (f : vec -> vec) (k : nat) (a : ndarray) (D : list nat -> bool) :
  shape (swept f k a D) = shape a.
Proof. reflexivity. Qed.

Lemma swept_ext (f : vec -> vec) (k : nat) (a : ndarray) (D D' : list nat -> bool) :
  (forall idx, in_bounds (shape a) idx = true -> D idx = D' idx) ->
  swept f k a D = swept f k a D'.
Proof.
  intros H. unfold swept. apply nd_build_ext. intros idx Hin. rewrite (H idx Hin).
  reflexivity.
Qed.

Lemma swept_get (f : vec -> vec) (k : nat) (a : ndarray) (D : list nat -> bool)
    (idx : list nat) :
  in_bounds (shape a) idx = true ->
  nd_get (swept f k a D) idx
  = if D idx then nth (nth k idx 0%nat) (f (fibre a k idx)) 0 else nd_get a idx.
Proof. intros Hin. unfold swept. apply nd_get_build. exact Hin. Qed.

Lemma swept_none (f : vec -> vec) (k : nat) (a : ndarray) :
  well_formed a -> swept f k a (fun _ => false) = a.
Proof. intros Hwf. unfold swept. apply nd_build_get. exact Hwf. Qed.

Lemma on_slice_matches (sl : slice) (idx : list nat) :
  length idx = length sl -> on_slice sl idx = matches sl idx.
Proof.
  revert idx. induction sl as [|[j|] sl IH]; intros [|i idx] H; simpl in *;
    try discriminate; try reflexivity.
  - rewrite IH by lia. reflexivity.
  - apply IH. lia.
Qed.

(** A slice whose only free axis is [k]. *)
Lemma pinned_slice (sl : slice) (k : nat) (idx : list nat) :
  nth_error sl k = Some None ->
  (forall p, (p < length sl)%nat -> p <> k -> exists j, nth_error sl p = Some (Some j)) ->
  length idx = length sl -> matches sl idx = true ->
  free_axis sl = k /\ forall j, fill sl j = replace_axis k idx j.
Proof.
  revert k idx. induction sl as [|o sl IH]; intros k [|i idx] Hk Hp Hl Hm;
    simpl in Hl; try discriminate.
  - destruct k; discriminate Hk.
  - destruct k as [|k]; simpl in Hk.
    + injection Hk as ->. split; [reflexivity|]. intros j. cbn [fill replace_axis]. f_equal.
      clear IH. simpl in Hm. revert idx Hl Hm Hp.
      induction sl as [|o sl IH]; intros [|i' idx] Hl Hm Hp; simpl in Hl; try discriminate;
        [reflexivity|].
      destruct (Hp 1%nat ltac:(simpl; lia) ltac:(lia)) as (j' & Hj'). simpl in Hj'.
      injection Hj' as ->. simpl in Hm. apply andb_true_iff in Hm as [Hi Hm].
      apply Nat.eqb_eq in Hi. subst i'. cbn [fill]. f_equal.
      apply (IH idx); [lia|exact Hm|].
      intros p Hlt Hne. destruct p as [|p]; [lia|].
      destruct (Hp (S (S p)) ltac:(simpl in *; lia) ltac:(lia)) as (j'' & Hj'').
      exists j''. exact Hj''.
    + destruct (Hp 0%nat ltac:(simpl; lia) ltac:(lia)) as (j' & Hj'). simpl in Hj'.
      injection Hj' as ->. simpl in Hm. apply andb_true_iff in Hm as [Hi Hm].
      apply Nat.eqb_eq in Hi. subst i.
      destruct (IH k idx Hk) as [Hf Hfill]; [|lia|exact Hm|].
      * intros p Hlt Hne. apply (Hp (S p)); simpl; lia.
      * split; [cbn [free_axis]; f_equal; exact Hf|].
        intros j. cbn [fill replace_axis]. f_equal. apply Hfill.
Qed.

Lemma replace_axis_in_bounds (sh idx : list nat) (k j : nat) :
  in_bounds sh idx = true -> (j < nth k sh 0)%nat ->
  in_bounds sh (replace_axis k idx j) = true.
Proof.
  revert idx k. induction sh as [|d sh IH]; intros [|i idx] k H Hj; simpl in *;
    try discriminate; [destruct k; simpl in Hj; lia|].
  apply andb_true_iff in H as [Hi Hr]. destruct k as [|k]; cbn [replace_axis in_bounds].
  - rewrite Hr, andb_true_r. apply Nat.ltb_lt. exact Hj.
  - rewrite Hi. cbn [andb]. apply IH; assumption.
Qed.

Lemma replace_axis_matches (sl : slice) (idx : list nat) (k j : nat) :
  nth_error sl k = Some None ->
  matches sl (replace_axis k idx j) = matches sl idx.
Proof.
  revert idx k. induction sl as [|o sl IH]; intros [|i idx] k Hk; try reflexivity;
    [destruct k; reflexivity|].
  destruct k as [|k]; simpl in Hk.
  - injection Hk as ->. reflexivity.
  - cbn [replace_axis]. destruct o as [j'|]; cbn [matches]; rewrite (IH idx k Hk);
      reflexivity.
Qed.

Lemma replace_axis_nth (idx : list nat) (k j : nat) :
  (k < length idx)%nat -> nth k (replace_axis k idx j) 0%nat = j.
Proof.
  revert k. induction idx as [|i idx IH]; intros [|k] H; simpl in *; try lia;
    try reflexivity. apply IH. lia.
Qed.

Lemma fix_axis_length (sl : slice) (ax i : nat) : length (fix_axis sl ax i) = length sl.
Proof.
  revert ax. induction sl as [|o sl IH]; intros [|ax]; simpl; auto.
Qed.

Lemma fix_axis_nth_error (sl : slice) (ax i p : nat) :
  (ax < length sl)%nat ->
  nth_error (fix_axis sl ax i) p = if (p =? ax)%nat then Some (Some i) else nth_error sl p.
Proof.
  revert ax p. induction sl as [|o sl IH]; intros [|ax] [|p] H; simpl in *; try lia;
    try reflexivity. apply IH. lia.
Qed.

Lemma fix_axis_matches (sl : slice) (ax i : nat) (idx : list nat) :
  nth_error sl ax = Some None -> length idx = length sl ->
  matches (fix_axis sl ax i) idx = matches sl idx && (nth ax idx 0 =? i)%nat.
Proof.
  revert ax idx. induction sl as [|o sl IH]; intros ax [|i' idx] Hax Hl; simpl in Hl;
    try discriminate.
  - destruct ax; discriminate Hax.
  - destruct ax as [|ax]; simpl in Hax.
    + injection Hax as ->. cbn [fix_axis matches nth]. apply andb_comm.
    + cbn [fix_axis nth]. destruct o as [j|]; cbn [matches]; rewrite (IH ax idx Hax) by lia.
      * rewrite andb_assoc. reflexivity.
      * reflexivity.
Qed.

(** One pass of the innermost statement, [sfs[sl] = solve(sfs[sl])]. *)
Lemma sweep_slice (solver : axis_solver) (f : vec -> vec) (k : nat) (a0 : ndarray)
    (sl : slice) (D : list nat -> bool) :
  solver k = Ok f -> length sl = rank a0 -> nth_error sl k = Some None ->
  (forall p, (p < length sl)%nat -> p <> k -> exists j, nth_error sl p = Some (Some j)) ->
  (forall idx, in_bounds (shape a0) idx = true -> matches sl idx = true -> D idx = false) ->
  sweep solver k sl (swept f k a0 D)
  = Ok (swept f k a0 (fun idx => D idx || matches sl idx)).
Proof.
  intros Hs Hl Hk Hpin HD. unfold sweep. rewrite Hs. cbn [bind]. f_equal.
  unfold update_slice, set_slice. rewrite swept_shape. unfold swept at 3.
  apply nd_build_ext. intros idx Hin.
  assert (Hlen : length idx = length sl).
  { rewrite Hl. apply in_bounds_length. exact Hin. }
  rewrite (on_slice_matches sl idx Hlen). destruct (matches sl idx) eqn:Hm.
  - rewrite orb_true_r.
    destruct (pinned_slice sl k idx Hk Hpin Hlen Hm) as [Hfree Hfill]. rewrite Hfree.
    f_equal. unfold get_slice, fibre, dim. rewrite Hfree, swept_shape. f_equal.
    apply map_ext_in. intros j Hj. apply in_seq in Hj. rewrite Hfill.
    assert (Hin' : in_bounds (shape a0) (replace_axis k idx j) = true).
    { apply replace_axis_in_bounds; [exact Hin|lia]. }
    rewrite (swept_get f k a0 D _ Hin'). rewrite (HD _ Hin'); [reflexivity|].
    rewrite (replace_axis_matches sl idx k j Hk). exact Hm.
  - rewrite orb_false_r. apply (swept_get f k a0 D idx Hin).
Qed.

(** The loops around it: [f] ends up applied along axis [k] through every
    index that has the fixed entries of [sl]. *)
Lemma nest_sweep (solver : axis_solver) (f : vec -> vec) (k : nat) (a0 : ndarray) :
  solver k = Ok f ->
  forall (axes : list nat) (sl : slice) (D : list nat -> bool),
    length sl = rank a0 -> nth_error sl k = Some None -> NoDup axes ->
    (forall ax, In ax axes -> ax <> k /\ nth_error sl ax = Some None) ->
    (forall p, (p < length sl)%nat -> p <> k -> ~ In p axes ->
               exists j, nth_error sl p = Some (Some j)) ->
    (forall idx, in_bounds (shape a0) idx = true -> matches sl idx = true ->
                 D idx = false) ->
    nest axes (sweep solver k) sl (swept f k a0 D)
    = Ok (swept f k a0 (fun idx => D idx || matches sl idx)).
Proof.
  intros Hs. induction axes as [|ax rest IH]; intros sl D Hl Hk Hnd Hax Hpin HD.
  - cbn [nest]. apply sweep_slice; try assumption.
    intros p Hp Hne. apply Hpin; [exact Hp|exact Hne|intros []].
  - cbn [nest]. apply NoDup_cons_iff in Hnd as [Hnotin Hnd].
    destruct (Hax ax (or_introl eq_refl)) as [Haxk Haxn].
    assert (Haxl : (ax < length sl)%nat).
    { apply nth_error_Some. rewrite Haxn. discriminate. }
    unfold dim at 1. rewrite swept_shape.
    destruct (for_range_inv
                (fun i a => a = swept f k a0
                                  (fun idx => D idx
                                              || (matches sl idx && (nth ax idx 0 <? i)%nat)))
                (nth ax (shape a0) 0%nat)
                (fun i a => nest rest (sweep solver k) (fix_axis sl ax i) a)
                (swept f k a0 D)) as (a' & -> & ->).
    + apply swept_ext. intros idx _.
      replace (nth ax idx 0 <? 0)%nat with false by (symmetry; apply Nat.ltb_ge; lia).
      rewrite andb_false_r, orb_false_r. reflexivity.
    + intros i a Hi ->. eexists. split.
      * apply IH.
        -- rewrite fix_axis_length. exact Hl.
        -- rewrite fix_axis_nth_error by exact Haxl.
           destruct (Nat.eqb_spec k ax); [congruence|exact Hk].
        -- exact Hnd.
        -- intros ax' Hin. destruct (Hax ax' (or_intror Hin)) as [Hne Hn].
           split; [exact Hne|]. rewrite fix_axis_nth_error by exact Haxl.
           destruct (Nat.eqb_spec ax' ax); [congruence|exact Hn].
        -- intros p Hp Hne Hnin. rewrite fix_axis_length in Hp.
           rewrite fix_axis_nth_error by exact Haxl.
           destruct (Nat.eqb_spec p ax); [eexists; reflexivity|].
           apply Hpin; [exact Hp|exact Hne|]. intros [E|Hin]; [congruence|contradiction].
        -- intros idx Hin Hm.
           rewrite (fix_axis_matches sl ax i idx Haxn) in Hm
             by (rewrite Hl; apply in_bounds_length; exact Hin).
           apply andb_true_iff in Hm as [Hm Hi']. apply Nat.eqb_eq in Hi'.
           rewrite (HD idx Hin Hm). cbn [orb]. rewrite Hm. cbn [andb].
           apply Nat.ltb_ge. lia.
      * apply swept_ext. intros idx Hin.
        rewrite (fix_axis_matches sl ax i idx Haxn)
          by (rewrite Hl; apply in_bounds_length; exact Hin).
        rewrite <- orb_assoc. f_equal. rewrite <- andb_orb_distrib_r. f_equal.
        destruct (Nat.ltb_spec (nth ax idx 0%nat) i), (Nat.eqb_spec (nth ax idx 0%nat) i),
          (Nat.ltb_spec (nth ax idx 0%nat) (S i)); try reflexivity; lia.
    + f_equal. apply swept_ext. intros idx Hin. f_equal.
      apply in_bounds_nth in Hin as [_ Hin]. unfold rank in Hl.
      rewrite <- Hl in Hin. specialize (Hin ax Haxl). apply Nat.ltb_lt in Hin.
      rewrite Hin, andb_true_r. reflexivity.
Qed.

Lemma matches_all_free (r : nat) (idx : list nat) :
  length idx = r -> matches (repeat None r) idx = true.
Proof.
  revert idx. induction r as [|r IH]; intros [|i idx] H; simpl in *; try discriminate;
    [reflexivity|]. apply IH. lia.
Qed.

Lemma nth_error_repeat_None (r k : nat) :
  (k < r)%nat -> nth_error (repeat (@None nat) r) k = Some None.
Proof.
  revert k. induction r as [|r IH]; intros [|k] H; simpl; try lia; [reflexivity|].
  apply IH. lia.
Qed.

(** The loops of [_ud2_<r>pop_<i>] fix every axis but [i - 1], once. *)
Lemma sweep_axes_cover (r i : nat) :
  (2 <= r)%nat -> (r <= 5)%nat -> (1 <= i)%nat -> (i <= r)%nat ->
  NoDup (sweep_axes r i) /\
  (forall ax, In ax (sweep_axes r i) -> ax <> (i - 1)%nat /\ (ax < r)%nat) /\
  (forall p, (p < r)%nat -> p <> (i - 1)%nat -> In p (sweep_axes r i)).
Proof.
  intros H2 H5 H1 Hi.
  do 6 (try (destruct r as [|r]; try lia)); do 6 (try (destruct i as [|i]; try lia));
    cbn [sweep_axes Nat.sub];
    (split; [repeat constructor; cbn [In]; intuition lia|]);
    (split; [intros ax Hax; cbn [In] in Hax; intuition lia|]);
    intros p Hp Hne; cbn [In];
    do 5 (try (destruct p as [|p]; [intuition lia|])); lia.
Qed.

Lemma _ud2_nest (r i : nat) (sfs : ndarray) (slv : list (vec -> vec)) :
  (2 <= r)%nat -> (r <= 5)%nat -> (1 <= i)%nat -> (i <= r)%nat ->
  _ud2 r i sfs slv
  = nest (sweep_axes r i) (sweep (slv_solver slv) (i - 1)) (repeat None r) sfs.
Proof.
  intros H2 H5 H1 Hi.
  do 6 (try (destruct r as [|r]; try lia)); do 6 (try (destruct i as [|i]; try lia)); reflexivity.
Qed.

Lemma _udn2_nest (E : collaborators) (r i : nat) (sfs : ndarray) (A Di C : list vec) :
  (2 <= r)%nat -> (r <= 5)%nat -> (1 <= i)%nat -> (i <= r)%nat ->
  _udn2 E r i sfs A Di C
  = nest (sweep_axes r i) (sweep (ts_solver E A Di C) (i - 1)) (repeat None r) sfs.
Proof.
  intros H2 H5 H1 Hi.
  do 6 (try (destruct r as [|r]; try lia)); do 6 (try (destruct i as [|i]; try lia)); reflexivity.
Qed.

Lemma nest_sweep_all (solver : axis_solver) (f : vec -> vec) (r i : nat) (sfs : ndarray) :
  (2 <= r)%nat -> (r <= 5)%nat -> (1 <= i)%nat -> (i <= r)%nat ->
  rank sfs = r -> well_formed sfs -> solver (i - 1)%nat = Ok f ->
  exists sfs',
    nest (sweep_axes r i) (sweep solver (i - 1)) (repeat None r) sfs = Ok sfs' /\
    solved_along f (i - 1) sfs sfs'.
Proof.
  intros H2 H5 H1 Hi Hr Hwf Hs.
  destruct (sweep_axes_cover r i H2 H5 H1 Hi) as (Hnd & Hax & Hcov).
  pose proof (nest_sweep solver f (i - 1) sfs Hs (sweep_axes r i) (repeat None r)
                (fun _ => false)) as H.
  rewrite (swept_none f (i - 1) sfs Hwf) in H.
  eexists. split; [apply H|split; [reflexivity|split; [apply nd_build_wf|]]].
  - rewrite repeat_length. congruence.
  - apply nth_error_repeat_None. lia.
  - exact Hnd.
  - intros ax Hin. destruct (Hax ax Hin) as [Hne Hlt]. split; [exact Hne|].
    apply nth_error_repeat_None. exact Hlt.
  - intros p Hp Hne Hnin. rewrite repeat_length in Hp. exfalso. apply Hnin.
    apply Hcov; assumption.
  - reflexivity.
  - intros idx Hin. rewrite (swept_get f (i - 1) sfs _ idx Hin).
    rewrite matches_all_free; [reflexivity|].
    rewrite <- Hr. apply in_bounds_length. exact Hin.
Qed.

(** X3. The step 2 functions [_ud2_<r>pop_<i>] and [_udn2_<r>pop_<i>], for
    two to five populations, leave the shape of the spectrum as it is and
    replace every fibre along axis [i - 1] (the entries
    [sfs[j0, ..., :, ..., j_r]]) by the solver of that axis applied to it,
    each fibre being read as it was on entry: [slv[i - 1]] in the general
    case, [ts.solve(A[i - 1], Di[i - 1], C[i - 1], .)] in the neutral one. *)
Theorem step2_solves_every_fibre (E : collaborators) (r i : nat) (sfs : ndarray)
    (slv : list (vec -> vec)) (A Di C : list vec) :
  (2 <= r <= 5)%nat -> (1 <= i <= r)%nat -> rank sfs = r -> well_formed sfs ->
  (forall f, item slv (i - 1) = Ok f -> keeps_length (dim sfs (i - 1)) f ->
     exists sfs', _ud2 r i sfs slv = Ok sfs' /\ solved_along f (i - 1) sfs sfs') /\
  (forall a d c,
     item A (i - 1) = Ok a -> item Di (i - 1) = Ok d -> item C (i - 1) = Ok c ->
     keeps_length (dim sfs (i - 1)) (ts_solve E a d c) ->
     exists sfs', _udn2 E r i sfs A Di C = Ok sfs' /\
                  solved_along (ts_solve E a d c) (i - 1) sfs sfs').
Proof.
  intros [H2 H5] [H1 Hi] Hr Hwf. split.
  - intros f Hf _. rewrite (_ud2_nest r i sfs slv H2 H5 H1 Hi).
    apply (nest_sweep_all (slv_solver slv) f r i sfs H2 H5 H1 Hi Hr Hwf Hf).
  - intros a d c Ha Hd Hc _. rewrite (_udn2_nest E r i sfs A Di C H2 H5 H1 Hi).
    apply (nest_sweep_all (ts_solver E A Di C) (ts_solve E a d c) r i sfs H2 H5 H1 Hi Hr Hwf).
    unfold ts_solver. rewrite Ha, Hd, Hc. reflexivity.
Qed.

(** X3 on a 2 by 3 by 2 spectrum, along its middle axis: reversal of each
    fibre in the general case, a tridiagonal solve in the neutral one. *)
Lemma step2_solves_every_fibre_witness :
  (exists sfs', _ud2 3 2 sample_sfs_3d sample_slv = Ok sfs' /\
                solved_along (@rev Qc) 1 sample_sfs_3d sfs') /\
  (exists sfs', _udn2 sample_collaborators 3 2 sample_sfs_3d sample_off
                  sample_main sample_off = Ok sfs' /\
                solved_along (thomas [1; 1; 1] [four; four; four] [1; 1; 1]) 1
                  sample_sfs_3d sfs').
Proof.
  destruct (step2_solves_every_fibre sample_collaborators 3 2 sample_sfs_3d sample_slv
              sample_off sample_main sample_off)
    as [Hg Hn]; try (split; lia); try reflexivity.
  split.
  - apply (Hg (@rev Qc)); [reflexivity|]. intros x Hx. rewrite length_rev. exact Hx.
  - apply (Hn [1; 1; 1] [four; four; four] [1; 1; 1]); try reflexivity.
    intros x Hx. destruct x as [|x0 [|x1 [|x2 [|? ?]]]]; try discriminate Hx. reflexivity.
Defined.

(* ------------------------------------------------------------------ *)
(** ** Step 1: [Q[i - 1]] is applied along axis [i - 1] *)

Lemma mat_vec_nth (M : matrix) (x : vec) (i : nat) :
  (i < length M)%nat -> nth i (mat_vec M x) 0 = dotprod (nth i M []) x.
Proof.
  intros Hi. unfold mat_vec.
  rewrite (nth_indep _ 0 (dotprod [] x)) by (rewrite length_map; exact Hi).
  apply (map_nth (fun row => dotprod row x)).
Qed.

Lemma ravel_2 (d0 m i q : nat) : ravel [d0; m] [i; q] = (i * m + q)%nat.
Proof. cbn. lia. Qed.

Lemma in_bounds_cons (d : nat) (sh idx : list nat) :
  in_bounds (d :: sh) idx = true ->
  exists i ridx, idx = i :: ridx /\ (i < d)%nat /\ in_bounds sh ridx = true.
Proof.
  destruct idx as [|i ridx]; simpl; [discriminate|].
  rewrite andb_true_iff, Nat.ltb_lt. intros [Hi Hr]. exists i, ridx. auto.
Qed.

(** [Q.dot(a)] on a 2-D array. *)
Lemma nd_dot_2d (M : matrix) (a : ndarray) (d0 d1 : nat) :
  shape a = [d0; d1] -> is_matrix d0 d0 M ->
  exists r, nd_dot M a = Ok r /\ solved_along (mat_vec M) 0 a r.
Proof.
  intros Hsh [HM _]. unfold nd_dot. rewrite Hsh. eexists. split; [reflexivity|].
  unfold nrows. rewrite HM. split; [symmetry; exact Hsh|]. split; [apply nd_build_wf|].
  intros idx Hin. rewrite Hsh in Hin.
  destruct (in_bounds_2 _ _ _ Hin) as (i & j & -> & Hi & Hj).
  rewrite nd_get_build by exact Hin. cbn [nth].
  rewrite (mat_vec_nth M _ i) by lia. unfold fibre, dim. rewrite Hsh. reflexivity.
Qed.

(** [Q[0].dot(sfs.reshape(dims[0], dim2)).reshape(dims)] *)
Lemma _ud1_3pop_1_along (sfs : ndarray) (M : matrix) (Qs : list matrix)
    (d0 : nat) (rest : list nat) :
  shape sfs = d0 :: rest -> well_formed sfs -> is_matrix d0 d0 M ->
  exists r, _ud1_3pop_1 sfs (M :: Qs) = Ok r /\ solved_along (mat_vec M) 0 sfs r.
Proof.
  intros Hsh Hwf [HM _]. unfold well_formed in Hwf. rewrite Hsh in Hwf.
  cbn [size_of fold_right] in Hwf. fold (size_of rest) in Hwf.
  unfold _ud1_3pop_1. rewrite Hsh. cbn [item nth_error bind tl].
  set (m := size_of rest) in *.
  unfold nd_reshape at 1.
  replace (size_of [d0; m] =? length (data sfs))%nat with true
    by (symmetry; apply Nat.eqb_eq; cbn; lia).
  cbn [bind]. unfold nd_dot. cbn [shape bind].
  match goal with |- context [nd_build _ ?G] => set (F := G) end.
  unfold nd_reshape, nrows. rewrite HM.
  replace (size_of (d0 :: rest) =? length (data (nd_build [d0; m] F)))%nat with true.
  2:{ symmetry. apply Nat.eqb_eq. unfold nd_build. cbn [data].
      rewrite length_map, indices_length. cbn. fold (size_of rest). fold m. lia. }
  eexists. split; [reflexivity|]. split; [symmetry; exact Hsh|]. split.
  { unfold well_formed, nd_build. cbn [shape data].
    rewrite length_map, indices_length. cbn. fold (size_of rest). fold m. lia. }
  intros idx Hin. rewrite Hsh in Hin.
  destruct (in_bounds_cons _ _ _ Hin) as (i & ridx & -> & Hi & Hr).
  pose proof (ravel_bound _ _ Hr) as Hq. fold m in Hq.
  assert (Hin2 : forall k, (k < d0)%nat -> in_bounds [d0; m] [k; ravel rest ridx] = true).
  { intros k Hk. cbn [in_bounds].
    destruct (Nat.ltb_spec k d0); [|lia].
    destruct (Nat.ltb_spec (ravel rest ridx) m); [reflexivity|lia]. }
  assert (Hflat : forall k, ravel (d0 :: rest) (k :: ridx)
                            = ravel [d0; m] [k; ravel rest ridx]).
  { intros k. rewrite ravel_2. reflexivity. }
  unfold nd_get at 1. cbn [shape data]. rewrite Hflat.
  change (nth (ravel [d0; m] [i; ravel rest ridx]) (data (nd_build [d0; m] F)) 0)
    with (nd_get (nd_build [d0; m] F) [i; ravel rest ridx]).
  rewrite nd_get_build by (apply Hin2; exact Hi).
  cbn [nth]. rewrite (mat_vec_nth M _ i) by lia. unfold F. f_equal.
  unfold fibre, dim. rewrite Hsh. cbn [nth]. apply map_ext. intros k.
  unfold nd_get. cbn [shape data replace_axis]. rewrite Hsh, Hflat. reflexivity.
Qed.

Ltac bounds :=
  cbn [in_bounds] in *; rewrite ?andb_true_iff, ?Nat.ltb_lt in *;
  repeat match goal with H : _ /\ _ |- _ => destruct H end;
  repeat split; try assumption; try reflexivity; try lia.

Ltac explicit_index idx H :=
  repeat (destruct idx as [|? idx]; cbn [length] in H; try discriminate H).

(** Transposing, working along axis 0 and transposing back is working
    along the exchanged axis. *)
Lemma transpose_conjugate (f : vec -> vec) (r i : nat) (sfs r1 : ndarray) :
  (2 <= r)%nat -> (r <= 5)%nat -> (2 <= i)%nat -> (i <= r)%nat -> rank sfs = r ->
  solved_along f 0 (nd_transpose sfs (axis_swap r i)) r1 ->
  solved_along f (i - 1) sfs (nd_transpose r1 (axis_swap r i)).
Proof.
  intros H2 H5 H1 Hi Hr (Hsh1 & _ & Hget1). destruct sfs as [sh dat]. cbn [rank shape] in Hr.
  do 6 (try (destruct r as [|r]; try lia)); do 6 (try (destruct i as [|i]; try lia));
    do 6 (try (destruct sh as [|? sh]; try discriminate Hr));
    cbn [axis_swap Nat.sub] in *;
    unfold nd_transpose in Hsh1 at 1;
    cbn [shape nd_build map nth] in Hsh1;
    (split;
     [unfold nd_transpose at 1; cbn [shape nd_build]; rewrite Hsh1; reflexivity|]);
    (split; [apply nd_build_wf|]);
    intros idx Hin; cbn [shape] in Hin;
    pose proof (in_bounds_length _ _ Hin) as Hlen; cbn [length] in Hlen;
    explicit_index idx Hlen;
    unfold nd_transpose at 1; rewrite Hsh1; cbn [map nth];
    (rewrite nd_get_build by exact Hin);
    unfold rank; rewrite Hsh1; cbn [length seq map index_of Nat.eqb nth];
    (rewrite Hget1 by (unfold nd_transpose; cbn [shape nd_build map nth]; bounds));
    cbn [nth]; do 2 f_equal;
    unfold fibre, dim, nd_transpose, rank;
    cbn [shape nd_build map nth length seq index_of Nat.eqb replace_axis];
    apply map_ext_in; intros j Hj; apply in_seq in Hj;
    (rewrite nd_get_build by bounds); reflexivity.
Qed.

Lemma item_0_inv {A : Type} (l : list A) (x : A) :
  item l 0 = Ok x -> exists l', l = x :: l'.
Proof.
  destruct l as [|y l]; [discriminate|]. intros [= ->]. eexists. reflexivity.
Qed.

Lemma _ud1_along (r i : nat) (sfs : ndarray) (Q : list matrix) (M : matrix) :
  (2 <= r)%nat -> (r <= 5)%nat -> (1 <= i)%nat -> (i <= r)%nat ->
  rank sfs = r -> well_formed sfs -> item Q (i - 1) = Ok M ->
  is_matrix (dim sfs (i - 1)) (dim sfs (i - 1)) M ->
  exists sfs', _ud1 r i sfs Q = Ok sfs' /\ solved_along (mat_vec M) (i - 1) sfs sfs'.
Proof.
  intros H2 H5 H1 Hi Hr Hwf HQ HM.
  destruct (Nat.eq_dec i 1) as [->|Hne].
  - cbn [Nat.sub] in *. destruct (shape sfs) as [|d0 rest] eqn:Hsh.
    { unfold rank in Hr. rewrite Hsh in Hr. cbn in Hr. lia. }
    unfold dim in HM. rewrite Hsh in HM. cbn [nth] in HM.
    destruct (Nat.eq_dec r 2) as [->|Hr2].
    + unfold rank in Hr. rewrite Hsh in Hr.
      destruct rest as [|d1 [|? ?]]; try discriminate Hr.
      cbn [_ud1]. unfold _ud1_2pop_1. rewrite HQ. cbn [bind].
      apply (nd_dot_2d M sfs d0 d1 Hsh HM).
    + destruct (item_0_inv Q M HQ) as (Qs & ->).
      assert (E : _ud1 r 1 sfs (M :: Qs) = _ud1_3pop_1 sfs (M :: Qs)).
      { do 6 (try (destruct r as [|r]; try lia)); reflexivity. }
      rewrite E. apply (_ud1_3pop_1_along sfs M Qs d0 rest Hsh Hwf HM).
  - assert (Hstep : exists r1,
              (if (r =? 2)%nat then nd_dot M (nd_transpose sfs (axis_swap r i))
               else _ud1_3pop_1 (nd_transpose sfs (axis_swap r i)) [M]) = Ok r1 /\
              solved_along (mat_vec M) 0 (nd_transpose sfs (axis_swap r i)) r1).
    { destruct sfs as [sh dat]. cbn [rank shape] in Hr. unfold dim in HM.
      cbn [shape] in HM.
      do 6 (try (destruct r as [|r]; try lia)); do 6 (try (destruct i as [|i]; try lia));
        do 6 (try (destruct sh as [|? sh]; try discriminate Hr));
        cbn [Nat.eqb axis_swap Nat.sub nth] in *;
        first [ eapply nd_dot_2d; [reflexivity|exact HM]
              | eapply _ud1_3pop_1_along; [reflexivity|apply nd_build_wf|exact HM] ]. }
    destruct Hstep as (r1 & Hg & Hsolved).
    exists (nd_transpose r1 (axis_swap r i)). split.
    + do 6 (try (destruct r as [|r]; try lia)); do 6 (try (destruct i as [|i]; try lia));
        cbn [Nat.eqb axis_swap Nat.sub _ud1] in *;
        unfold _ud1_2pop_2, _ud1_3pop_2, _ud1_3pop_3, _ud1_4pop_2, _ud1_4pop_3,
          _ud1_4pop_4, _ud1_5pop_2, _ud1_5pop_3, _ud1_5pop_4, _ud1_5pop_5,
          _ud1_4pop_1, _ud1_5pop_1;
        rewrite HQ; cbn [bind]; rewrite Hg; reflexivity.
    + apply (transpose_conjugate (mat_vec M) r i sfs r1 H2 H5 ltac:(lia) Hi Hr Hsolved).
Qed.

(** X4. The step 1 functions [_ud1_<r>pop_<i>], for two to five
    populations, leave the shape of the spectrum as it is and multiply every
    fibre along axis [i - 1] by the square matrix [Q[i - 1]]: the entry at
    [idx] becomes the product of row [idx[i - 1]] of [Q[i - 1]] with the
    fibre of the input through [idx]. *)
Theorem step1_multiplies_every_fibre (r i : nat) (sfs : ndarray) (Q : list matrix)
    (M : matrix) :
  (2 <= r <= 5)%nat -> (1 <= i <= r)%nat -> rank sfs = r -> well_formed sfs ->
  item Q (i - 1) = Ok M -> is_matrix (dim sfs (i - 1)) (dim sfs (i - 1)) M ->
  exists sfs',
    _ud1 r i sfs Q = Ok sfs' /\ shape sfs' = shape sfs /\
    forall idx, in_bounds (shape sfs) idx = true ->
      nd_get sfs' idx = dotprod (nth (nth (i - 1) idx 0%nat) M []) (fibre sfs (i - 1) idx).
Proof.
  intros [H2 H5] [H1 Hi] Hr Hwf HQ HM.
  destruct (_ud1_along r i sfs Q M H2 H5 H1 Hi Hr Hwf HQ HM) as (sfs' & Hrun & Hsh & _ & Hget).
  exists sfs'. split; [exact Hrun|]. split; [exact Hsh|].
  intros idx Hin. rewrite (Hget idx Hin). apply mat_vec_nth.
  destruct HM as [-> _]. apply in_bounds_nth in Hin as [_ Hin]. apply Hin.
  unfold rank in Hr. lia.
Qed.

(** X4 on the 2 by 3 by 2 sample, along its middle axis. *)
Lemma step1_multiplies_every_fibre_witness :
  exists sfs',
    _ud1 3 2 sample_sfs_3d sample_Q = Ok sfs' /\ shape sfs' = shape sample_sfs_3d /\
    forall idx, in_bounds (shape sample_sfs_3d) idx = true ->
      nd_get sfs' idx
      = dotprod (nth (nth 1 idx 0%nat) (sample_calcD 3) []) (fibre sample_sfs_3d 1 idx).
Proof.
  apply (step1_multiplies_every_fibre 3 2 sample_sfs_3d sample_Q (sample_calcD 3));
    try (split; lia); try reflexivity.
  split; [reflexivity|repeat constructor].
Defined.

(* ------------------------------------------------------------------ *)
(** ** The updates work axis by axis *)

Lemma solved_along_eq (f : vec -> vec) (k : nat) (a a' : ndarray) :
  solved_along f k a a' -> a' = along_axis f k a.
Proof.
  intros (Hsh & Hwf & Hget). unfold along_axis, swept. rewrite <- Hsh. symmetry.
  apply nd_build_eq; [exact Hwf|]. intros idx Hin. rewrite Hsh in Hin.
  symmetry. apply Hget. exact Hin.
Qed.

Lemma axis_by_axis_shape (f : nat -> vec -> vec) (r : nat) (a : ndarray) :
  shape (axis_by_axis f r a) = shape a.
Proof.
  unfold axis_by_axis. generalize (seq 0 r) as l. intros l. revert a.
  induction l as [|k l IH]; intros a; [reflexivity|]. cbn [fold_left]. rewrite IH.
  reflexivity.
Qed.

Lemma axis_by_axis_wf (f : nat -> vec -> vec) (r : nat) (a : ndarray) :
  well_formed a -> well_formed (axis_by_axis f r a).
Proof.
  unfold axis_by_axis. generalize (seq 0 r) as l. intros l. revert a.
  induction l as [|k l IH]; intros a Hwf; [exact Hwf|]. cbn [fold_left]. apply IH.
  apply nd_build_wf.
Qed.

Lemma axis_by_axis_succ (f : nat -> vec -> vec) (r : nat) (a : ndarray) :
  axis_by_axis f (S r) a = along_axis (f r) r (axis_by_axis f r a).
Proof.
  unfold axis_by_axis. rewrite seq_S, fold_left_app. reflexivity.
Qed.

(** A loop over the axes whose pass [i] works along axis [i]. *)
Lemma axis_loop (f : nat -> vec -> vec) (body : nat -> ndarray -> outcome ndarray)
    (sfs : ndarray) :
  well_formed sfs ->
  (forall i a, (i < rank sfs)%nat -> shape a = shape sfs -> well_formed a ->
     exists a', body i a = Ok a' /\ solved_along (f i) i a a') ->
  for_range (rank sfs) body sfs = Ok (axis_by_axis f (rank sfs) sfs).
Proof.
  intros Hwf Hbody.
  destruct (for_range_inv (fun i a => a = axis_by_axis f i sfs) (rank sfs) body sfs)
    as (a' & -> & ->); [reflexivity| |reflexivity].
  intros i a Hi ->.
  destruct (Hbody i (axis_by_axis f i sfs) Hi (axis_by_axis_shape f i sfs)
              (axis_by_axis_wf f i sfs Hwf)) as (a' & -> & Hs).
  exists a'. split; [reflexivity|]. rewrite axis_by_axis_succ.
  apply solved_along_eq. exact Hs.
Qed.

(** The three drivers on a spectrum of two to five dimensions. *)
Lemma update_step1_along (sfs : ndarray) (Q : list matrix) :
  (2 <= rank sfs <= 5)%nat -> well_formed sfs -> length Q = rank sfs ->
  (forall k, (k < rank sfs)%nat -> is_matrix (dim sfs k) (dim sfs k) (nth k Q [])) ->
  _update_step1 sfs Q = Ok (axis_by_axis (fun k => mat_vec (nth k Q [])) (rank sfs) sfs).
Proof.
  intros [H2 H5] Hwf HQ HM.
  assert (Hrank : forall a, shape a = shape sfs -> rank a = rank sfs).
  { intros a Ha. unfold rank. rewrite Ha. reflexivity. }
  assert (Hpred : forall i, (i + 1 - 1)%nat = i) by (intros; lia).
  unfold _update_step1, assert. rewrite HQ, Nat.eqb_refl. cbn [bind].
  apply axis_loop; [exact Hwf|]. intros i a Hi Ha Hwfa. rewrite (Hrank a Ha).
  pose proof (_ud1_along (rank sfs) (i + 1) a Q (nth i Q [])) as H.
  rewrite Hpred in H. apply H; try lia; try assumption.
  - apply Hrank. exact Ha.
  - apply item_Ok. lia.
  - unfold dim. rewrite Ha. apply HM. exact Hi.
Qed.

Lemma update_step2_along (sfs : ndarray) (slv : list (vec -> vec)) :
  (2 <= rank sfs <= 5)%nat -> well_formed sfs -> length slv = rank sfs ->
  _update_step2 sfs slv
  = Ok (axis_by_axis (fun k => nth k slv (fun x => x)) (rank sfs) sfs).
Proof.
  intros [H2 H5] Hwf Hs.
  assert (Hrank : forall a, shape a = shape sfs -> rank a = rank sfs).
  { intros a Ha. unfold rank. rewrite Ha. reflexivity. }
  assert (Hpred : forall i, (i + 1 - 1)%nat = i) by (intros; lia).
  unfold _update_step2, assert. rewrite Hs, Nat.eqb_refl. cbn [bind].
  apply axis_loop; [exact Hwf|]. intros i a Hi Ha Hwfa. rewrite (Hrank a Ha).
  rewrite (_ud2_nest (rank sfs) (i + 1) a slv), Hpred by lia.
  pose proof (nest_sweep_all (slv_solver slv) (nth i slv (fun x => x)) (rank sfs)
                (i + 1) a) as H.
  rewrite Hpred in H. apply H; try lia; try assumption.
  - apply Hrank. exact Ha.
  - apply item_Ok. lia.
Qed.

Lemma update_step2_neutral_along (E : collaborators) (sfs : ndarray) (A Di C : list vec) :
  (2 <= rank sfs <= 5)%nat -> well_formed sfs ->
  length A = rank sfs -> (rank sfs <= length Di)%nat -> (rank sfs <= length C)%nat ->
  _update_step2_neutral E sfs A Di C
  = Ok (axis_by_axis (fun k => ts_solve E (nth k A []) (nth k Di []) (nth k C []))
          (rank sfs) sfs).
Proof.
  intros [H2 H5] Hwf HA HDi HC.
  assert (Hrank : forall a, shape a = shape sfs -> rank a = rank sfs).
  { intros a Ha. unfold rank. rewrite Ha. reflexivity. }
  assert (Hpred : forall i, (i + 1 - 1)%nat = i) by (intros; lia).
  unfold _update_step2_neutral, assert. rewrite HA, Nat.eqb_refl. cbn [bind].
  apply axis_loop; [exact Hwf|]. intros i a Hi Ha Hwfa. rewrite (Hrank a Ha).
  rewrite (_udn2_nest E (rank sfs) (i + 1) a A Di C), Hpred by lia.
  pose proof (nest_sweep_all (ts_solver E A Di C)
                (ts_solve E (nth i A []) (nth i Di []) (nth i C [])) (rank sfs)
                (i + 1) a) as H.
  rewrite Hpred in H. apply H; try lia; try assumption.
  - apply Hrank. exact Ha.
  - unfold ts_solver.
    rewrite (item_Ok A i []), (item_Ok Di i []), (item_Ok C i []) by lia. reflexivity.
Qed.

(** X5. On a spectrum of two to five dimensions with one operator per
    dimension, [_update_step1] multiplies by [Q[0]] along axis 0, then by
    [Q[1]] along axis 1, and so on; [_update_step2] and
    [_update_step2_neutral] apply their solvers in the same way, axis by
    axis, each pass working on the result of the one before. *)
Theorem update_steps_axis_by_axis (E : collaborators) (sfs : ndarray) (Q : list matrix)
    (slv : list (vec -> vec)) (A Di C : list vec) :
  (2 <= rank sfs <= 5)%nat -> well_formed sfs ->
  (length Q = rank sfs ->
   (forall k, (k < rank sfs)%nat -> is_matrix (dim sfs k) (dim sfs k) (nth k Q [])) ->
   _update_step1 sfs Q
   = Ok (axis_by_axis (fun k => mat_vec (nth k Q [])) (rank sfs) sfs)) /\
  (length slv = rank sfs ->
   (forall k, (k < rank sfs)%nat -> keeps_length (dim sfs k) (nth k slv (fun x => x))) ->
   _update_step2 sfs slv
   = Ok (axis_by_axis (fun k => nth k slv (fun x => x)) (rank sfs) sfs)) /\
  (length A = rank sfs -> (rank sfs <= length Di)%nat -> (rank sfs <= length C)%nat ->
   (forall k, (k < rank sfs)%nat ->
      keeps_length (dim sfs k) (ts_solve E (nth k A []) (nth k Di []) (nth k C []))) ->
   _update_step2_neutral E sfs A Di C
   = Ok (axis_by_axis (fun k => ts_solve E (nth k A []) (nth k Di []) (nth k C []))
           (rank sfs) sfs)).
Proof.
  intros Hr Hwf. split; [|split].
  - intros HQ HM. apply update_step1_along; assumption.
  - intros Hs _. apply update_step2_along; assumption.
  - intros HA HDi HC _. apply update_step2_neutral_along; assumption.
Qed.

(** X5 on the 2 by 3 by 2 sample. *)
Lemma update_steps_axis_by_axis_witness :
  _update_step1 sample_sfs_3d sample_Q
  = Ok (axis_by_axis (fun k => mat_vec (nth k sample_Q [])) 3 sample_sfs_3d) /\
  _update_step2 sample_sfs_3d sample_slv
  = Ok (axis_by_axis (fun k => nth k sample_slv (fun x => x)) 3 sample_sfs_3d) /\
  _update_step2_neutral sample_collaborators sample_sfs_3d sample_off sample_main sample_off
  = Ok (axis_by_axis (fun k => thomas (nth k sample_off []) (nth k sample_main [])
                                 (nth k sample_off [])) 3 sample_sfs_3d).
Proof.
  destruct (update_steps_axis_by_axis sample_collaborators sample_sfs_3d sample_Q sample_slv
              sample_off sample_main sample_off) as (H1 & H2 & H3).
  - cbn. lia.
  - reflexivity.
  - split; [|split].
    + apply H1; [reflexivity|]. intros k Hk. cbn in Hk.
      do 3 (try (destruct k as [|k]; [split; [reflexivity|repeat constructor]|])). lia.
    + apply H2; [reflexivity|]. intros k Hk. cbn in Hk.
      destruct k as [|[|[|k]]]; try lia; intros x Hx; cbn [nth sample_slv].
      * unfold vscale. rewrite length_map. exact Hx.
      * rewrite length_rev. exact Hx.
      * exact Hx.
    + apply H3; try reflexivity; try (cbn; lia). intros k Hk. cbn in Hk.
      destruct k as [|[|[|k]]]; try lia; intros x Hx; cbn in Hx;
        do 4 (try (destruct x as [|? x]; try discriminate Hx)); reflexivity.
Defined.
(* ------------------------------------------------------------------ *)
(** * The two integrators as a caller sees them *)

(** X6. In the finite-genome model a missing [theta_fd] or [theta_bd] (their
    default is [None]) makes both integrators raise [TypeError] when the rate
    is divided by 4: before any population size is evaluated or tested, so
    nothing is logged, and whatever the other arguments are. *)
Theorem missing_rate_type_error (E : collaborators) (fuel : nat) (a : nomig_args)
    (b : neutral_args) (log : list event) :
  (a_finite_genome a = true -> a_theta_fd a = None \/ a_theta_bd a = None ->
   integrate_nomig E fuel a log = (log, Raise TypeError)) /\
  (b_finite_genome b = true -> b_theta_fd b = None \/ b_theta_bd b = None ->
   integrate_neutral E fuel b log = (log, Raise TypeError)).
Proof.
  split; intros Hfg Hnone.
  - assert (Hp : nomig_params a = Raise TypeError).
    { unfold nomig_params, mutation_rates. rewrite Hfg. cbn [negb].
      destruct Hnone as [-> | ->]; [reflexivity|].
      destruct (a_theta_fd a); reflexivity. }
    unfold integrate_nomig, rbind, lift. rewrite Hp. reflexivity.
  - assert (Hp : neutral_params b = Raise TypeError).
    { unfold neutral_params, mutation_rates. rewrite Hfg. cbn [negb].
      destruct Hnone as [-> | ->]; [reflexivity|].
      destruct (b_theta_fd b); reflexivity. }
    unfold integrate_neutral, rbind, lift. rewrite Hp. reflexivity.
Qed.

(** X6 on the finite-genome samples with the backward rate left out. *)
Lemma missing_rate_type_error_witness :
  integrate_nomig sample_collaborators 5
    {| a_sfs0 := a_sfs0 sample_nomig_fg; a_Npop := a_Npop sample_nomig_fg;
       a_tf := a_tf sample_nomig_fg; a_dt_fac := a_dt_fac sample_nomig_fg;
       a_gamma := a_gamma sample_nomig_fg; a_h := a_h sample_nomig_fg;
       a_theta := a_theta sample_nomig_fg; a_finite_genome := true;
       a_theta_fd := a_theta_fd sample_nomig_fg; a_theta_bd := None;
       a_frozen := a_frozen sample_nomig_fg |} []
  = ([], Raise TypeError) /\
  integrate_neutral sample_collaborators 5
    {| b_sfs0 := b_sfs0 sample_neutral_fg; b_Npop := b_Npop sample_neutral_fg;
       b_tf := b_tf sample_neutral_fg; b_dt_fac := b_dt_fac sample_neutral_fg;
       b_theta := b_theta sample_neutral_fg; b_finite_genome := true;
       b_theta_fd := None; b_theta_bd := b_theta_bd sample_neutral_fg;
       b_frozen := b_frozen sample_neutral_fg |} []
  = ([], Raise TypeError).
Proof.
  split.
  - apply (missing_rate_type_error sample_collaborators 5 _ sample_neutral_fg []);
      [reflexivity | right; reflexivity].
  - apply (missing_rate_type_error sample_collaborators 5 sample_nomig_fg _ []);
      [reflexivity | left; reflexivity].
Defined.

(* ------------------------------------------------------------------ *)
(** ** The mask of the spectrum returned *)

Lemma nth_repeat_false (n i : nat) : nth i (repeat false n) false = false.
Proof. revert i. induction n as [|n IH]; intros [|i]; simpl; auto. Qed.

Lemma Spectrum_mask (sfs : ndarray) (corners : bool) (sp : spectrum) :
  Spectrum sfs corners = Ok sp ->
  sp_data sp = sfs /\
  length (sp_mask sp) = length (data sfs) /\
  (corners = true -> (1 <= length (data sfs))%nat) /\
  forall i, (i < length (data sfs))%nat ->
    nth i (sp_mask sp) false
    = corners && ((i =? 0)%nat || (i =? length (data sfs) - 1)%nat).
Proof.
  unfold Spectrum. set (n := length (data sfs)). intros H.
  destruct corners; cbn [bind] in H.
  - unfold mask_corners in H. rewrite repeat_length in H.
    destruct n as [|n]; [discriminate H|].
    destruct (list_set_spec (repeat false (S n)) 0 true false)
      as (m & Hm & Hlen & H0 & Hoth); [rewrite repeat_length; lia|].
    rewrite Hm in H. cbn [bind] in H.
    destruct (list_set_spec m (S n - 1) true false)
      as (m' & Hm' & Hlen' & H1 & Hoth'); [rewrite Hlen, repeat_length; lia|].
    rewrite Hm' in H. cbn [bind] in H. injection H as <-. cbn [sp_data sp_mask].
    split; [reflexivity|]. split; [rewrite Hlen', Hlen, repeat_length; reflexivity|].
    split; [lia|]. intros i Hi. cbn [andb].
    destruct (Nat.eqb_spec i (S n - 1)) as [->|Hne].
    + rewrite H1, orb_true_r. reflexivity.
    + rewrite Hoth' by exact Hne. rewrite orb_false_r.
      destruct (Nat.eqb_spec i 0) as [->|Hne0]; [exact H0|].
      rewrite Hoth by exact Hne0. apply nth_repeat_false.
  - injection H as <-. cbn [sp_data sp_mask].
    split; [reflexivity|]. split; [apply repeat_length|].
    split; [discriminate|]. intros i _. apply nth_repeat_false.
Qed.

Lemma integrate_nomig_returns (E : collaborators) (fuel : nat) (a : nomig_args)
    (log log' : list event) (sp : spectrum) :
  integrate_nomig E fuel a log = (log', Ok sp) ->
  exists sfs, Spectrum sfs (negb (a_finite_genome a)) = Ok sp.
Proof.
  unfold integrate_nomig. intros H.
  apply rbind_Ok_inv in H as (p & log1 & _ & H).
  apply rbind_Ok_inv in H as ([c st0] & log2 & _ & H).
  apply rbind_Ok_inv in H as (st & log3 & _ & H).
  apply lift_Ok_inv in H as [_ H]. eauto.
Qed.

Lemma integrate_neutral_returns (E : collaborators) (fuel : nat) (b : neutral_args)
    (log log' : list event) (sp : spectrum) :
  integrate_neutral E fuel b log = (log', Ok sp) ->
  exists sfs, Spectrum sfs (negb (b_finite_genome b)) = Ok sp.
Proof.
  unfold integrate_neutral. intros H.
  apply rbind_Ok_inv in H as (p & log1 & _ & H).
  apply rbind_Ok_inv in H as ([c st0] & log2 & _ & H).
  apply rbind_Ok_inv in H as (st & log3 & _ & H).
  apply lift_Ok_inv in H as [_ H]. eauto.
Qed.

(** X7. The spectrum either integrator returns carries a mask with one entry
    per entry of the data; under infinite sites exactly the first and the
    last entry (the two corners) are masked and the data is not empty, in the
    finite-genome model nothing is masked. *)
Theorem returned_mask (E : collaborators) (fuel : nat) (a : nomig_args) (b : neutral_args)
    (log log' : list event) (sp : spectrum) :
  let n := length (data (sp_data sp)) in
  let masked (fg : bool) (i : nat) := negb fg && ((i =? 0)%nat || (i =? n - 1)%nat) in
  (integrate_nomig E fuel a log = (log', Ok sp) ->
   length (sp_mask sp) = n /\
   (a_finite_genome a = false -> (1 <= n)%nat) /\
   forall i, (i < n)%nat -> nth i (sp_mask sp) false = masked (a_finite_genome a) i) /\
  (integrate_neutral E fuel b log = (log', Ok sp) ->
   length (sp_mask sp) = n /\
   (b_finite_genome b = false -> (1 <= n)%nat) /\
   forall i, (i < n)%nat -> nth i (sp_mask sp) false = masked (b_finite_genome b) i).
Proof.
  intros n masked. split; intros H.
  - apply integrate_nomig_returns in H as (sfs & H).
    apply Spectrum_mask in H as (Hd & Hl & Hc & Hm).
    subst n masked. rewrite Hd. split; [exact Hl|]. split; [|exact Hm].
    intros Hfg. apply Hc. rewrite Hfg. reflexivity.
  - apply integrate_neutral_returns in H as (sfs & H).
    apply Spectrum_mask in H as (Hd & Hl & Hc & Hm).
    subst n masked. rewrite Hd. split; [exact Hl|]. split; [|exact Hm].
    intros Hfg. apply Hc. rewrite Hfg. reflexivity.
Qed.
(** X7 on the one-population sample: the corners are masked, the middle
    entry is not. *)
Lemma returned_mask_witness :
  exists log' sp,
    integrate_nomig sample_collaborators 10 sample_nomig_1d [] = (log', Ok sp) /\
    length (sp_mask sp) = length (data (sp_data sp)) /\
    (1 <= length (data (sp_data sp)))%nat /\
    forall i, (i < length (data (sp_data sp)))%nat ->
      nth i (sp_mask sp) false
      = negb false && ((i =? 0)%nat || (i =? length (data (sp_data sp)) - 1)%nat).
Proof.
  destruct (integrate_nomig sample_collaborators 10 sample_nomig_1d [])
    as [log' [sp| |]] eqn:H; try (vm_compute in H; discriminate H).
  exists log', sp. split; [reflexivity|].
  destruct (returned_mask sample_collaborators 10 sample_nomig_1d sample_neutral_1d
              [] log' sp) as [Hn _].
  destruct (Hn H) as (Hl & Hc & Hm).
  split; [exact Hl|]. split; [apply Hc; reflexivity|exact Hm].
Defined.

(* ------------------------------------------------------------------ *)
(** ** Arguments that are not read *)

Lemma mutation_rates_unused (np : nat) (fg : bool) (theta theta' : rate)
    (fd fd' bd bd' : option rate) :
  (if fg then fd = fd' /\ bd = bd' else theta = theta') ->
  mutation_rates np fg theta fd bd = mutation_rates np fg theta' fd' bd'.
Proof. unfold mutation_rates. destruct fg; cbn [negb]; [intros [-> ->]|intros ->]; reflexivity. Qed.

(** X8. Arguments the integrators never read.  Under infinite sites
    [theta_fd] and [theta_bd] are ignored, in the finite-genome model [theta]
    is; and a [frozen] without a true entry is as good as any other, whatever
    its length: two calls that differ in these only run alike, to the same
    log and the same result or exception. *)
Theorem unused_arguments (E : collaborators) (fuel : nat) (a a' : nomig_args)
    (b b' : neutral_args) (log : list event) :
  (a_sfs0 a = a_sfs0 a' -> a_Npop a = a_Npop a' -> a_tf a = a_tf a' ->
   a_dt_fac a = a_dt_fac a' -> a_gamma a = a_gamma a' -> a_h a = a_h a' ->
   a_finite_genome a = a_finite_genome a' ->
   (if a_finite_genome a
    then a_theta_fd a = a_theta_fd a' /\ a_theta_bd a = a_theta_bd a'
    else a_theta a = a_theta a') ->
   (a_frozen a = a_frozen a' \/
    any_frozen (a_frozen a) = false /\ any_frozen (a_frozen a') = false) ->
   integrate_nomig E fuel a log = integrate_nomig E fuel a' log) /\
  (b_sfs0 b = b_sfs0 b' -> b_Npop b = b_Npop b' -> b_tf b = b_tf b' ->
   b_dt_fac b = b_dt_fac b' -> b_finite_genome b = b_finite_genome b' ->
   (if b_finite_genome b
    then b_theta_fd b = b_theta_fd b' /\ b_theta_bd b = b_theta_bd b'
    else b_theta b = b_theta b') ->
   (b_frozen b = b_frozen b' \/
    any_frozen (b_frozen b) = false /\ any_frozen (b_frozen b') = false) ->
   integrate_neutral E fuel b log = integrate_neutral E fuel b' log).
Proof.
  split.
  - destruct a as [sfs0 Npop tf dt_fac gamma h theta fg fd bd frozen],
             a' as [sfs0' Npop' tf' dt_fac' gamma' h' theta' fg' fd' bd' frozen'].
    cbn. intros <- <- <- <- <- <- <- Hr Hf.
    assert (Hp : nomig_params
                   {| a_sfs0 := sfs0; a_Npop := Npop; a_tf := tf; a_dt_fac := dt_fac;
                      a_gamma := gamma; a_h := h; a_theta := theta; a_finite_genome := fg;
                      a_theta_fd := fd; a_theta_bd := bd; a_frozen := frozen |}
                 = nomig_params
                     {| a_sfs0 := sfs0; a_Npop := Npop; a_tf := tf; a_dt_fac := dt_fac;
                        a_gamma := gamma; a_h := h; a_theta := theta'; a_finite_genome := fg;
                        a_theta_fd := fd'; a_theta_bd := bd'; a_frozen := frozen' |}).
    { unfold nomig_params. cbn.
      rewrite (mutation_rates_unused (rank sfs0) fg theta theta' fd fd' bd bd' Hr).
      destruct Hf as [<- | [-> ->]]; reflexivity. }
    unfold integrate_nomig. rewrite Hp. reflexivity.
  - destruct b as [sfs0 Npop tf dt_fac theta fg fd bd frozen],
             b' as [sfs0' Npop' tf' dt_fac' theta' fg' fd' bd' frozen'].
    cbn. intros <- <- <- <- <- Hr Hf.
    assert (Hp : neutral_params
                   {| b_sfs0 := sfs0; b_Npop := Npop; b_tf := tf; b_dt_fac := dt_fac;
                      b_theta := theta; b_finite_genome := fg;
                      b_theta_fd := fd; b_theta_bd := bd; b_frozen := frozen |}
                 = neutral_params
                     {| b_sfs0 := sfs0; b_Npop := Npop; b_tf := tf; b_dt_fac := dt_fac;
                        b_theta := theta'; b_finite_genome := fg;
                        b_theta_fd := fd'; b_theta_bd := bd'; b_frozen := frozen' |}).
    { unfold neutral_params. cbn.
      rewrite (mutation_rates_unused (rank sfs0) fg theta theta' fd fd' bd bd' Hr).
      destruct Hf as [<- | [-> ->]]; reflexivity. }
    unfold integrate_neutral. rewrite Hp. reflexivity.
Qed.

(** X8 on the one-population samples: rates of the finite-genome model and a
    longer [frozen] change nothing under infinite sites. *)
Lemma unused_arguments_witness :
  integrate_nomig sample_collaborators 10 sample_nomig_1d []
  = integrate_nomig sample_collaborators 10
      {| a_sfs0 := sample_sfs_1d; a_Npop := NConst [1]; a_tf := Q2Qc (1 # 4);
         a_dt_fac := Q2Qc (1 # 2); a_gamma := CNone; a_h := CNone; a_theta := RScalar 1;
         a_finite_genome := false; a_theta_fd := Some (RScalar two);
         a_theta_bd := Some (RVector [four]); a_frozen := [false; false; false] |} [] /\
  integrate_neutral sample_collaborators 10 sample_neutral_1d []
  = integrate_neutral sample_collaborators 10
      {| b_sfs0 := sample_sfs_1d; b_Npop := NConst [1]; b_tf := Q2Qc (1 # 4);
         b_dt_fac := Q2Qc (1 # 2); b_theta := RScalar 1;
         b_finite_genome := false; b_theta_fd := Some (RScalar two);
         b_theta_bd := None; b_frozen := [] |} [].
Proof.
  match goal with
  | |- _ = integrate_nomig _ _ ?a' _ /\ _ = integrate_neutral _ _ ?b' _ =>
      destruct (unused_arguments sample_collaborators 10 sample_nomig_1d a'
                  sample_neutral_1d b' []) as [Ha Hb]
  end.
  split.
  - apply Ha; try reflexivity. right. split; reflexivity.
  - apply Hb; try reflexivity. right. split; reflexivity.
Defined.

(* ------------------------------------------------------------------ *)
(** ** Numbers in place of vectors *)

Lemma normalize_gamma_per_population (np : nat) (c : coeff) :
  normalize_gamma np (per_population np 0 c) = normalize_gamma np c.
Proof. destruct c; reflexivity. Qed.

Lemma normalize_h_per_population (np : nat) (c : coeff) :
  normalize_h np (per_population np half c) = normalize_h np c.
Proof.
  destruct c; try reflexivity. cbn. f_equal. unfold vscale, ones.
  induction np as [|np IH]; [reflexivity|].
  cbn [repeat map]. rewrite <- IH. f_equal; ring.
Qed.

Lemma rate_over_4_per_population (np : nat) (r : rate) :
  rate_over_4 np (rate_per_population np r) = rate_over_4 np r.
Proof.
  destruct r as [x|v]; [|reflexivity]. cbn.
  induction np as [|np IH]; [reflexivity|]. cbn. rewrite IH. reflexivity.
Qed.

Lemma mutation_rates_per_population (np : nat) (fg : bool) (theta : rate)
    (fd bd : option rate) :
  mutation_rates np fg (rate_per_population np theta)
    (option_map (rate_per_population np) fd) (option_map (rate_per_population np) bd)
  = mutation_rates np fg theta fd bd.
Proof.
  unfold mutation_rates. destruct fg; cbn [negb].
  - destruct fd as [fd|]; [|reflexivity]. destruct bd as [bd|]; [|reflexivity].
    cbn. rewrite !rate_over_4_per_population. reflexivity.
  - rewrite rate_over_4_per_population. reflexivity.
Qed.

(** X9. A number stands for the same number in every population and a
    missing coefficient for its default: [gamma=None] is [gamma = 0] in each
    population, [h=None] is [h = 1/2] in each, a scalar [gamma], [h],
    [theta], [theta_fd] or [theta_bd] (also one returned by a callable
    [gamma] or [h]) is the vector repeating it [len(sfs0.shape)] times.  The
    call with everything written out per population runs to the same log and
    the same result or exception. *)
Theorem scalars_are_broadcast (E : collaborators) (fuel : nat) (a : nomig_args)
    (b : neutral_args) (log : list event) :
  integrate_nomig E fuel
    {| a_sfs0 := a_sfs0 a; a_Npop := a_Npop a; a_tf := a_tf a; a_dt_fac := a_dt_fac a;
       a_gamma := per_population (rank (a_sfs0 a)) 0 (a_gamma a);
       a_h := per_population (rank (a_sfs0 a)) half (a_h a);
       a_theta := rate_per_population (rank (a_sfs0 a)) (a_theta a);
       a_finite_genome := a_finite_genome a;
       a_theta_fd := option_map (rate_per_population (rank (a_sfs0 a))) (a_theta_fd a);
       a_theta_bd := option_map (rate_per_population (rank (a_sfs0 a))) (a_theta_bd a);
       a_frozen := a_frozen a |} log
  = integrate_nomig E fuel a log /\
  integrate_neutral E fuel
    {| b_sfs0 := b_sfs0 b; b_Npop := b_Npop b; b_tf := b_tf b; b_dt_fac := b_dt_fac b;
       b_theta := rate_per_population (rank (b_sfs0 b)) (b_theta b);
       b_finite_genome := b_finite_genome b;
       b_theta_fd := option_map (rate_per_population (rank (b_sfs0 b))) (b_theta_fd b);
       b_theta_bd := option_map (rate_per_population (rank (b_sfs0 b))) (b_theta_bd b);
       b_frozen := b_frozen b |} log
  = integrate_neutral E fuel b log.
Proof.
  split.
  - unfold integrate_nomig, nomig_params, nomig_init. cbn [a_sfs0 a_Npop a_tf a_dt_fac
      a_gamma a_h a_theta a_finite_genome a_theta_fd a_theta_bd a_frozen].
    rewrite mutation_rates_per_population, normalize_gamma_per_population.
    fold (rank (a_sfs0 a)). rewrite normalize_h_per_population. reflexivity.
  - unfold integrate_neutral, neutral_params, neutral_init. cbn [b_sfs0 b_Npop b_tf b_dt_fac
      b_theta b_finite_genome b_theta_fd b_theta_bd b_frozen].
    rewrite mutation_rates_per_population. reflexivity.
Qed.
(* ------------------------------------------------------------------ *)
(** ** What a run with constant sizes logs *)

Lemma silent_ret {A : Type} (x : A) : silent (ret x).
Proof. intros log. reflexivity. Qed.

Lemma silent_lift {A : Type} (c : outcome A) : silent (lift c).
Proof. intros log. reflexivity. Qed.

Lemma silent_out_of_fuel {A : Type} : silent (@out_of_fuel A).
Proof. intros log. reflexivity. Qed.

Lemma silent_rbind {A B : Type} (c : run A) (k : A -> run B) :
  silent c -> (forall a, silent (k a)) -> silent (rbind c k).
Proof.
  intros Hc Hk log. unfold rbind. specialize (Hc log).
  destruct (c log) as [log1 [a| e |]]; cbn [fst] in *; subst log1; try reflexivity.
  apply Hk.
Qed.

Ltac silent_steps :=
  repeat (first [ apply silent_ret | apply silent_lift | apply silent_out_of_fuel
                | apply silent_rbind; [|intros ?]
                | match goal with |- silent (match ?x with _ => _ end) => destruct x end ]).

Lemma nomig_iter_silent (E : collaborators) (inner : nat) (c : nomig_ctx)
    (st : nomig_state) (v : vec) :
  c_Npop c = SConst v -> silent (nomig_iter E inner c st).
Proof. intros HN. unfold nomig_iter, adapt_sizes. rewrite HN. silent_steps. Qed.

Lemma neutral_iter_silent (E : collaborators) (inner : nat) (c : neutral_ctx)
    (st : neutral_state) (v : vec) :
  d_Npop c = SConst v -> silent (neutral_iter E inner c st).
Proof. intros HN. unfold neutral_iter, adapt_sizes. rewrite HN. silent_steps. Qed.

Lemma nomig_loop_silent (E : collaborators) (inner fuel : nat) (c : nomig_ctx) (v : vec) :
  c_Npop c = SConst v -> forall st, silent (nomig_loop E inner fuel c st).
Proof.
  intros HN. induction fuel as [|fuel IH]; intros st; cbn [nomig_loop];
    destruct (Qcltb (n_t st) (c_Tmax c)); try apply silent_ret; try apply silent_out_of_fuel.
  apply silent_rbind; [apply (nomig_iter_silent E inner c st v HN)|exact IH].
Qed.

Lemma neutral_loop_silent (E : collaborators) (inner fuel : nat) (c : neutral_ctx) (v : vec) :
  d_Npop c = SConst v -> forall st, silent (neutral_loop E inner fuel c st).
Proof.
  intros HN. induction fuel as [|fuel IH]; intros st; cbn [neutral_loop];
    destruct (Qcltb (m_t st) (d_Tmax c)); try apply silent_ret; try apply silent_out_of_fuel.
  apply silent_rbind; [apply (neutral_iter_silent E inner c st v HN)|exact IH].
Qed.

(** The sizes the time loop sees when [Npop] is a vector. *)
Lemma constant_sizes_frozen (frozen : list bool) (N : vec) (s : sched) :
  (if any_frozen frozen then freeze_Npop frozen (SConst N) else Ok (SConst N)) = Ok s ->
  exists N', s = SConst N' /\
             if any_frozen frozen then set_frozen frozen frozen_size N = Ok N' else N' = N.
Proof.
  destruct (any_frozen frozen); cbn [freeze_Npop].
  - destruct (set_frozen frozen frozen_size N) as [N'| |]; cbn [bind]; intros [= <-].
    exists N'. split; reflexivity.
  - intros [= <-]. exists N. split; reflexivity.
Qed.

Lemma nomig_params_constant (a : nomig_args) (N : vec) (p : params) :
  a_Npop a = NConst N -> nomig_params a = Ok p ->
  exists N', p_Npop p = SConst N' /\
             if any_frozen (a_frozen a)
             then set_frozen (a_frozen a) frozen_size N = Ok N' else N' = N.
Proof.
  intros HN. unfold nomig_params. rewrite HN. cbn [normalize_Npop].
  destruct (mutation_rates _ _ _ _ _) as [uv| |]; cbn [bind]; try discriminate.
  intros H. apply (constant_sizes_frozen (a_frozen a) N).
  destruct (any_frozen (a_frozen a)); [|injection H as <-; reflexivity].
  destruct (freeze_s _ _) as [s'| |]; cbn [bind] in H; try discriminate H.
  destruct (freeze_Npop _ _) as [N'| |]; cbn [bind] in H; try discriminate H.
  destruct (freeze_rates _ _) as [uv'| |]; cbn [bind] in H; try discriminate H.
  injection H as <-. reflexivity.
Qed.

Lemma neutral_params_constant (b : neutral_args) (N : vec) (p : params) :
  b_Npop b = NConst N -> neutral_params b = Ok p ->
  exists N', p_Npop p = SConst N' /\
             if any_frozen (b_frozen b)
             then set_frozen (b_frozen b) frozen_size N = Ok N' else N' = N.
Proof.
  intros HN. unfold neutral_params. rewrite HN. cbn [normalize_Npop].
  destruct (mutation_rates _ _ _ _ _) as [uv| |]; cbn [bind]; try discriminate.
  intros H. apply (constant_sizes_frozen (b_frozen b) N).
  destruct (any_frozen (b_frozen b)); [|injection H as <-; reflexivity].
  destruct (freeze_Npop _ _) as [N'| |]; cbn [bind] in H; try discriminate H.
  destruct (freeze_rates _ _) as [uv'| |]; cbn [bind] in H; try discriminate H.
  injection H as <-. reflexivity.
Qed.

(** Everything after the test of the sizes at time 0. *)
Lemma after_first_test {A : Type} (N : vec) (k : unit -> run A) (log : list event) :
  (forall u, silent (k u)) ->
  fst (rbind (test_sizes 0 N) k log) = EvSizes 0 N :: log.
Proof.
  intros Hk. unfold rbind, test_sizes.
  destruct (any_nonpositive N); [reflexivity|]. apply Hk.
Qed.

Lemma fst_rbind {A B : Type} (c : run A) (k : A -> run B) (log : list event) :
  (forall a l, c log = (l, Ok a) -> fst (k a l) = l) ->
  fst (rbind c k log) = fst (c log).
Proof.
  intros Hk. unfold rbind. destruct (c log) as [l [a| e |]]; cbn [fst]; try reflexivity.
  apply Hk. reflexivity.
Qed.

Lemma nomig_init_constant (E : collaborators) (a : nomig_args) (p : params) (N : vec)
    (log : list event) :
  p_Npop p = SConst N -> fst (nomig_init E a p log) = EvSizes 0 N :: log.
Proof.
  intros HN. unfold nomig_init. rewrite HN. cbn [eval_sched].
  rewrite (rbind_lift_Ok (Ok N) N _ log eq_refl).
  apply after_first_test. intros u. silent_steps.
Qed.

Lemma neutral_init_constant (E : collaborators) (b : neutral_args) (p : params) (N : vec)
    (log : list event) :
  p_Npop p = SConst N -> fst (neutral_init E b p log) = EvSizes 0 N :: log.
Proof.
  intros HN. unfold neutral_init. rewrite HN. cbn [eval_sched].
  rewrite (rbind_lift_Ok (Ok N) N _ log eq_refl).
  apply after_first_test. intros u. silent_steps.
Qed.

(* ------------------------------------------------------------------ *)
(** * The two integrators side by side *)

Lemma same_log_refl (l : list event) : same_log l l.
Proof. reflexivity. Qed.

Lemma same_log_cons (e1 e2 : event) (l1 l2 : list event) :
  anonymous e1 = anonymous e2 -> same_log l1 l2 -> same_log (e1 :: l1) (e2 :: l2).
Proof. unfold same_log. cbn [map]. intros -> ->. reflexivity. Qed.

Lemma same_outcome_eq {A : Type} (o : outcome A) : same_outcome eq o o.
Proof. destruct o; cbn; auto. Qed.

Lemma same_outcome_eq_inv {A : Type} (o1 o2 : outcome A) : same_outcome eq o1 o2 -> o1 = o2.
Proof. destruct o1, o2; cbn; intros H; try contradiction; congruence. Qed.

Lemma alike_ret {A B : Type} (R : A -> B -> Prop) (a : A) (b : B) :
  R a b -> alike R (ret a) (ret b).
Proof. intros H l1 l2 Hl. split; [exact Hl|exact H]. Qed.

Lemma alike_lift {A B : Type} (R : A -> B -> Prop) (o1 : outcome A) (o2 : outcome B) :
  same_outcome R o1 o2 -> alike R (lift o1) (lift o2).
Proof. intros H l1 l2 Hl. split; [exact Hl|exact H]. Qed.

Lemma alike_out_of_fuel {A B : Type} (R : A -> B -> Prop) :
  alike R (@out_of_fuel A) (@out_of_fuel B).
Proof. intros l1 l2 Hl. split; [exact Hl|exact I]. Qed.

Lemma alike_emit (e1 e2 : event) : anonymous e1 = anonymous e2 -> alike eq (emit e1) (emit e2).
Proof. intros He l1 l2 Hl. split; [apply same_log_cons; assumption|reflexivity]. Qed.

Lemma alike_test_sizes (t : Qc) (N : vec) : alike eq (test_sizes t N) (test_sizes t N).
Proof.
  intros l1 l2 Hl. unfold test_sizes. split; cbn [fst snd].
  - apply same_log_cons; [reflexivity|exact Hl].
  - apply same_outcome_eq.
Qed.

Lemma alike_rbind {A B A' B' : Type} (R : A -> A' -> Prop) (S : B -> B' -> Prop)
    (c1 : run A) (c2 : run A') (k1 : A -> run B) (k2 : A' -> run B') :
  alike R c1 c2 -> (forall a a', R a a' -> alike S (k1 a) (k2 a')) ->
  alike S (rbind c1 k1) (rbind c2 k2).
Proof.
  intros Hc Hk l1 l2 Hl. unfold rbind. specialize (Hc l1 l2 Hl).
  destruct (c1 l1) as [l1' [a| e |]], (c2 l2) as [l2' [a'| e' |]];
    destruct Hc as [Hl' Ho]; cbn [fst snd same_outcome] in *; try contradiction.
  - apply Hk; assumption.
  - split; [exact Hl'|exact Ho].
  - split; [exact Hl'|exact I].
Qed.

Lemma alike_sizes_at (f : Qc -> outcome vec) (t : Qc) : alike eq (sizes_at f t) (sizes_at f t).
Proof.
  unfold sizes_at. apply alike_rbind with (R := eq); [apply alike_lift, same_outcome_eq|].
  intros N ? <-. apply alike_rbind with (R := eq); [apply alike_test_sizes|].
  intros ? ? _. apply alike_ret. reflexivity.
Qed.

(** The inner loop does not depend on the function it runs in, but for the
    name in its warning. *)
Lemma alike_halving (E : collaborators) (f : Qc -> outcome vec) (t : Qc) (Nold : vec)
    (fuel : nat) :
  forall k, alike eq (halving E Nomig fuel f t Nold k) (halving E Neutral fuel f t Nold k).
Proof.
  induction fuel as [|fuel IH]; intros k; cbn [halving];
    (apply alike_rbind with (R := eq); [apply alike_lift, same_outcome_eq|]);
    intros change ? <-; destruct (Qcltb acceptable_change change);
    try (apply alike_ret; reflexivity); [apply alike_out_of_fuel|].
  apply alike_rbind with (R := eq); [apply alike_sizes_at|].
  intros N ? <-.
  destruct (n_iter_max <=? S (k_n_iter k))%nat; [|apply IH].
  apply alike_rbind with (R := eq); [apply alike_emit; reflexivity|].
  intros ? ? _. apply alike_rbind with (R := eq); [apply alike_lift, same_outcome_eq|].
  intros change' ? <-. apply alike_rbind with (R := eq); [apply alike_emit; reflexivity|].
  intros ? ? _. apply alike_ret. reflexivity.
Qed.

Lemma alike_adapt_sizes (E : collaborators) (fuel : nat) (Npop : sched) (t dt : Qc)
    (N Nold Neff : vec) :
  alike eq (adapt_sizes E Nomig fuel Npop t dt N Nold Neff)
           (adapt_sizes E Neutral fuel Npop t dt N Nold Neff).
Proof.
  unfold adapt_sizes. destruct Npop as [v|f]; [apply alike_ret; reflexivity|].
  apply alike_rbind with (R := eq); [apply alike_sizes_at|].
  intros N' ? <-. apply alike_halving.
Qed.
(* ------------------------------------------------------------------ *)
(** ** The operators of a step *)

Lemma vec_differs_same (a : vec) : vec_differs a a = Ok false.
Proof.
  rewrite vec_differs_spec by reflexivity.
  assert (H : vec_eqb a a = true) by (apply vec_eqb_eq; reflexivity).
  rewrite H. reflexivity.
Qed.

(** Without a change of selection or dominance the two tests are one. *)
Lemma rebuild_tests_agree (t dt dt_old : Qc) (Nold N s h : vec) :
  nomig_rebuild_test t dt dt_old Nold N s s h h = neutral_rebuild_test t dt dt_old Nold N.
Proof.
  unfold nomig_rebuild_test, neutral_rebuild_test.
  destruct (Qceqb t 0); cbn [por]; [reflexivity|].
  destruct (vec_differs Nold N) as [dN| e |]; cbn [bind]; try reflexivity.
  destruct dN; cbn [por]; [reflexivity|].
  destruct (negb (Qceqb dt dt_old)); cbn [por]; [reflexivity|].
  rewrite !vec_differs_same. reflexivity.
Qed.

Lemma comprehension_inv {A : Type} (n : nat) (f : nat -> outcome A) (bs : list A) :
  comprehension n f = Ok bs ->
  length bs = n /\ forall i d, (i < n)%nat -> f i = Ok (nth i bs d).
Proof.
  unfold comprehension. intros H. apply mapM_spec in H as [Hl Hn].
  rewrite length_seq in Hl, Hn. split; [exact Hl|].
  intros i d Hi. specialize (Hn i 0%nat d Hi). rewrite seq_nth in Hn by exact Hi.
  exact Hn.
Qed.

Lemma comprehension_fails {A : Type} (n : nat) (f g : nat -> outcome A) :
  (forall i, (i < n)%nat -> f i = g i) -> comprehension n f = comprehension n g.
Proof.
  unfold comprehension. intros H.
  assert (Hs : forall l, (forall i, In i l -> f i = g i) -> mapM f l = mapM g l).
  { induction l as [|i l IH]; intros Hl; [reflexivity|]. cbn [mapM].
    rewrite (Hl i (or_introl eq_refl)), IH; [reflexivity|].
    intros j Hj. apply Hl. right. exact Hj. }
  apply Hs. intros i Hi. apply in_seq in Hi. apply H. lia.
Qed.

Lemma nth_map_in {A B : Type} (f : A -> B) (l : list A) (i : nat) (da : A) (db : B) :
  (i < length l)%nat -> nth i (map f l) db = f (nth i l da).
Proof.
  intros Hi. rewrite (nth_indep (map f l) db (f da)) by (rewrite length_map; exact Hi).
  apply map_nth.
Qed.

Lemma drift_ops_inv (np : nat) (N : vec) (vd D : list matrix) :
  drift_ops np N vd = Ok D ->
  length D = np /\
  forall i, (i < np)%nat ->
    (i < length N)%nat /\ (i < length vd)%nat /\
    nth i D [] = mscale (1 / four / nth i N 0) (nth i vd []).
Proof.
  unfold drift_ops. intros H. apply comprehension_inv in H as [Hl Hn].
  split; [exact Hl|]. intros i Hi. specialize (Hn i [] Hi).
  apply bind_Ok_inv in Hn as (Ni & HNi & Hn).
  apply bind_Ok_inv in Hn as (vdi & Hvdi & Hn).
  apply (item_inv _ _ _ 0) in HNi as [HiN <-].
  apply (item_inv _ _ _ []) in Hvdi as [Hiv <-].
  injection Hn as Hn. auto.
Qed.

Lemma same_dense (E : collaborators) (dims : list nat) :
  Forall (agreeing_axis E) dims -> map (calcD_dense E) dims = map (calcD E) dims.
Proof.
  induction 1 as [|n dims Hn _ IH]; [reflexivity|]. cbn [map].
  rewrite IH, (aa_dense Hn). reflexivity.
Qed.

Lemma coefficient_agree (dt Ni : Qc) :
  dt / two * (1 / four / Ni) = half * dt / four / Ni.
Proof. rewrite Qcdiv_two. unfold Qcdiv. ring. Qed.

(** What is rebuilt at a step: the explicit matrices are the same, and the
    factorised systems solve as the factorised diagonals do. *)
Lemma rebuilt_operators_agree (E : collaborators) (c : nomig_ctx) (d : neutral_ctx)
    (Neff h : vec) (dt : Qc) :
  same_setting E c d -> length h = length (c_dims c) ->
  same_outcome
    (fun x y =>
       match x, y with
       | (_, _, _, slv, Q), (_, A, Di, C, Q') =>
           same_operators E (length (c_dims c)) (Some Q) (Some slv) (Some Q')
                          (Some A) (Some Di) (Some C)
       end)
    (nomig_operators c Neff (repeat 0 (length (c_dims c))) h dt)
    (neutral_operators E d Neff dt).
Proof.
  intros Hs Hh. unfold nomig_operators, neutral_operators.
  rewrite (ss_dims Hs), (ss_diags Hs), (ss_dense Hs), (same_dense E _ (ss_axes Hs)).
  rewrite <- (ss_vd Hs).
  set (np := length (c_dims c)) in *.
  destruct (drift_ops np Neff (c_vd c)) as [D| e |] eqn:HD; cbn [bind same_outcome];
    [|reflexivity|exact I].
  apply drift_ops_inv in HD as [HDl HDn].
  assert (Hvs : length (c_vs c) = np) by (rewrite (ss_vs Hs), length_map; reflexivity).
  assert (Hvs2 : length (c_vs2 c) = np) by (rewrite (ss_vs2 Hs), length_map; reflexivity).
  destruct (sel1_ops_ok np (repeat 0 np) h (c_vs c)) as (S1 & -> & HS1l & HS1n);
    [apply repeat_length|exact Hh|exact Hvs|].
  destruct (sel2_ops_ok np (repeat 0 np) h (c_vs2 c)) as (S2 & -> & HS2l & HS2n);
    [apply repeat_length|exact Hh|exact Hvs2|].
  cbn [bind].
  (* what the operators of axis [i] are *)
  assert (Haxis : forall i, (i < np)%nat ->
            let n := nth i (c_dims c) 0%nat in
            let G := calcD E n in
            let a := 1 / four / nth i Neff 0 in
            agreeing_axis E n /\ nth i (c_vd c) [] = G /\
            nth i D [] = mscale a G /\ nrows (nth i S1 []) = n /\
            madd (madd (nth i D []) (nth i S1 [])) (nth i S2 []) = mscale a G).
  { intros i Hi n G a.
    assert (Hax : agreeing_axis E n).
    { apply (proj1 (Forall_forall _ _) (ss_axes Hs)). apply nth_In. exact Hi. }
    assert (HG : nth i (c_vd c) [] = G).
    { rewrite (ss_vd Hs). exact (nth_map_in (calcD E) (c_dims c) i 0%nat [] Hi). }
    destruct (HDn i Hi) as (_ & _ & HDi). rewrite HG in HDi. fold a in HDi.
    destruct (aa_selection Hax) as [HV HW].
    assert (HVi : nth i (c_vs c) [] = calcS E n (calcJK13 E (Z.of_nat n - 1))).
    { rewrite (ss_vs Hs).
      exact (nth_map_in (fun n => calcS E n (calcJK13 E (Z.of_nat n - 1))) (c_dims c) i
               0%nat [] Hi). }
    assert (HWi : nth i (c_vs2 c) [] = calcS2 E n (calcJK23 E (Z.of_nat n - 1))).
    { rewrite (ss_vs2 Hs).
      exact (nth_map_in (fun n => calcS2 E n (calcJK23 E (Z.of_nat n - 1))) (c_dims c) i
               0%nat [] Hi). }
    split; [exact Hax|]. split; [exact HG|]. split; [exact HDi|].
    rewrite (HS1n i Hi), (HS2n i Hi), HDi, HVi, HWi, nth_repeat_0.
    split; [apply (nrows_mscale _ n n); exact HV|].
    apply (neutral_generator n); [apply (aa_drift Hax)|exact HV|exact HW]. }
  (* the systems and the explicit matrices of [integrate_nomig] *)
  destruct (comprehension_ok np (fun i =>
              S1i <- item S1 i ;;
              A <- axis_generator D S1 S2 i ;;
              Ok (msub (identity (nrows S1i)) (mscale (dt / two) A))))
    as (slv & Hslv & Hslvl & Hslvn).
  { intros i Hi. unfold axis_generator.
    rewrite (item_Ok S1 i []), (item_Ok D i []), (item_Ok S2 i []) by lia.
    cbn [bind]. eexists. reflexivity. }
  destruct (comprehension_ok np (fun i =>
              S1i <- item S1 i ;;
              A <- axis_generator D S1 S2 i ;;
              Ok (madd (identity (nrows S1i)) (mscale (dt / two) A))))
    as (Q & HQ & HQl & HQn).
  { intros i Hi. unfold axis_generator.
    rewrite (item_Ok S1 i []), (item_Ok D i []), (item_Ok S2 i []) by lia.
    cbn [bind]. eexists. reflexivity. }
  unfold implicit_systems, explicit_ops. rewrite Hslv, HQ. cbn [bind].
  (* the diagonals and the explicit matrices of [integrate_neutral] *)
  destruct (comprehension_ok np
              (neutral_diagonals E dt Neff (c_dims c) (map (ts_mat_to_diag E) (c_vd c))))
    as (f & Hf & Hfl & Hfn).
  { intros i Hi. destruct (HDn i Hi) as (HiN & Hiv & _). unfold neutral_diagonals.
    rewrite (item_Ok Neff i 0) by exact HiN.
    rewrite (item_Ok (map (ts_mat_to_diag E) (c_vd c)) i ([], [], []))
      by (rewrite length_map; exact Hiv).
    rewrite (item_Ok (c_dims c) i 0%nat) by exact Hi.
    cbn [bind]. destruct (nth i (map (ts_mat_to_diag E) (c_vd c)) ([], [], []))
      as [[d0 d1] d2]. eexists. reflexivity. }
  destruct (comprehension_ok np (fun i =>
              di <- item (c_dims c) i ;; Di <- item D i ;;
              Ok (madd (identity di) (mscale (half * dt) Di))))
    as (Q' & HQ' & HQ'l & HQ'n).
  { intros i Hi. rewrite (item_Ok (c_dims c) i 0%nat), (item_Ok D i []) by lia.
    cbn [bind]. eexists. reflexivity. }
  unfold neutral_explicit_ops. rewrite Hf, HQ'. cbn [bind same_outcome same_operators].
  rewrite !length_map.
  split; [|split; [exact Hslvl|split; [exact Hfl|split; [exact Hfl|split; [exact Hfl|]]]]].
  - (* Q = Q' *)
    apply (nth_ext Q Q' [] []); [congruence|].
    intros i Hi. rewrite HQl in Hi.
    destruct (Haxis i Hi) as (Hax & HG & HDi & HS1r & Hgen).
    specialize (HQn i [] Hi). specialize (HQ'n i [] Hi).
    unfold axis_generator in HQn.
    rewrite (item_Ok S1 i []), (item_Ok D i []), (item_Ok S2 i []) in HQn by lia.
    rewrite (item_Ok (c_dims c) i 0%nat), (item_Ok D i []) in HQ'n by lia.
    cbn [bind] in HQn, HQ'n. injection HQn as <-. injection HQ'n as <-.
    rewrite Hgen, HS1r, HDi.
    replace (dt / two) with (half * dt) by (rewrite Qcdiv_two; ring). reflexivity.
  - (* the solvers *)
    intros k x Hk.
    destruct (Haxis k Hk) as (Hax & HG & HDi & HS1r & Hgen).
    destruct (HDn k Hk) as (HkN & Hkv & _).
    specialize (Hslvn k [] Hk). specialize (Hfn k ([], [], []) Hk).
    unfold axis_generator in Hslvn.
    rewrite (item_Ok S1 k []), (item_Ok D k []), (item_Ok S2 k []) in Hslvn by lia.
    cbn [bind] in Hslvn. injection Hslvn as <-.
    unfold neutral_diagonals in Hfn.
    rewrite (item_Ok Neff k 0) in Hfn by exact HkN.
    rewrite (item_Ok (map (ts_mat_to_diag E) (c_vd c)) k ([], [], [])) in Hfn
      by (rewrite length_map; exact Hkv).
    rewrite (item_Ok (c_dims c) k 0%nat) in Hfn by exact Hk.
    cbn [bind] in Hfn.
    rewrite (nth_map_in (ts_mat_to_diag E) (c_vd c) k [] ([], [], []) Hkv), HG in Hfn.
    rewrite Hgen, HS1r, mscale_mscale, coefficient_agree.
    rewrite <- (aa_solver Hax (half * dt / four / nth k Neff 0) x).
    rewrite (aa_dense Hax).
    replace (- half * dt / four / nth k Neff 0) with (- (half * dt / four / nth k Neff 0))
      in Hfn by (unfold Qcdiv; ring).
    destruct (ts_mat_to_diag E (calcD E (nth k (c_dims c) 0%nat))) as [[d0 d1] d2].
    injection Hfn as Hfn.
    rewrite (nth_map_in (fun x => fst (fst x)) f k ([], [], []) []),
            (nth_map_in (fun x => snd (fst x)) f k ([], [], []) []),
            (nth_map_in snd f k ([], [], []) []) by lia.
    rewrite <- Hfn.
    destruct (ts_factor E _ _ _) as [[A Di] C]. reflexivity.
Qed.
(* ------------------------------------------------------------------ *)
(** ** The update of a step *)

Lemma for_each_ext {A : Type} (l : list nat) (f g : nat -> A -> outcome A) :
  (forall i a, In i l -> f i a = g i a) -> forall a, for_each l f a = for_each l g a.
Proof.
  induction l as [|i l IH]; intros H a; [reflexivity|]. cbn [for_each].
  rewrite (H i a (or_introl eq_refl)).
  destruct (g i a) as [a'| e |]; cbn [bind]; try reflexivity.
  apply IH. intros j b Hj. apply H. right. exact Hj.
Qed.

Lemma for_range_ext {A : Type} (n : nat) (f g : nat -> A -> outcome A) (a : A) :
  (forall i a, (i < n)%nat -> f i a = g i a) -> for_range n f a = for_range n g a.
Proof.
  intros H. unfold for_range. apply for_each_ext.
  intros i b Hi. apply in_seq in Hi. apply H. lia.
Qed.

Lemma nest_ext (axes : list nat) (body1 body2 : slice -> ndarray -> outcome ndarray) :
  (forall sl a, body1 sl a = body2 sl a) ->
  forall sl a, nest axes body1 sl a = nest axes body2 sl a.
Proof.
  intros H. induction axes as [|ax axes IH]; intros sl a; cbn [nest]; [apply H|].
  apply for_range_ext. intros i b _. apply IH.
Qed.

Lemma sweep_agree (E : collaborators) (slv : list matrix) (A Di C : list vec) (k : nat)
    (sl : slice) (a : ndarray) :
  (k < length slv)%nat -> (k < length A)%nat -> (k < length Di)%nat -> (k < length C)%nat ->
  (forall x, factorized E (nth k slv []) x
             = ts_solve E (nth k A []) (nth k Di []) (nth k C []) x) ->
  sweep (slv_solver (map (factorized E) slv)) k sl a = sweep (ts_solver E A Di C) k sl a.
Proof.
  intros Hs HA HD HC H. unfold sweep, slv_solver, ts_solver.
  rewrite (item_Ok (map (factorized E) slv) k (factorized E [])) by (rewrite length_map; lia).
  rewrite (item_Ok A k []), (item_Ok Di k []), (item_Ok C k []) by lia.
  cbn [bind]. unfold update_slice. rewrite map_nth, H. reflexivity.
Qed.

(** The names [_ud2_<r>pop_<i>] and [_udn2_<r>pop_<i>] exist for the same
    [r] and [i]. *)
Lemma step2_names (r i : nat) :
  ((2 <= r <= 5)%nat /\ (1 <= i <= r)%nat) \/
  (forall E sfs slv A Di C,
     _ud2 r i sfs slv = Raise NameError /\ _udn2 E r i sfs A Di C = Raise NameError).
Proof.
  do 6 (try (destruct r as [|r])); do 6 (try (destruct i as [|i]));
    try (left; lia); right; intros; split; reflexivity.
Qed.

Lemma ud2_agree (E : collaborators) (r i : nat) (sfs : ndarray) (slv : list matrix)
    (A Di C : list vec) :
  (i < length slv)%nat -> (i < length A)%nat -> (i < length Di)%nat -> (i < length C)%nat ->
  (forall x, factorized E (nth i slv []) x
             = ts_solve E (nth i A []) (nth i Di []) (nth i C []) x) ->
  _ud2 r (i + 1) sfs (map (factorized E) slv) = _udn2 E r (i + 1) sfs A Di C.
Proof.
  intros Hs HA HD HC H.
  destruct (step2_names r (i + 1)) as [[Hr Hi] | Hn].
  - rewrite _ud2_nest, _udn2_nest by lia.
    replace (i + 1 - 1)%nat with i by lia.
    apply nest_ext. intros sl a. apply sweep_agree; assumption.
  - destruct (Hn E sfs (map (factorized E) slv) A Di C) as [-> ->]. reflexivity.
Qed.

Lemma update_step2_agree (E : collaborators) (np : nat) (sfs : ndarray) (slv : list matrix)
    (A Di C : list vec) :
  length slv = np -> length A = np -> length Di = np -> length C = np ->
  (forall k x, (k < np)%nat ->
     factorized E (nth k slv []) x = ts_solve E (nth k A []) (nth k Di []) (nth k C []) x) ->
  _update_step2 sfs (map (factorized E) slv) = _update_step2_neutral E sfs A Di C.
Proof.
  intros Hs HA HD HC H. unfold _update_step2, _update_step2_neutral.
  rewrite length_map, Hs, HA.
  destruct (np =? rank sfs)%nat eqn:Hr; cbn [assert bind]; [|reflexivity].
  apply Nat.eqb_eq in Hr. apply for_range_ext. intros i a Hi.
  apply ud2_agree; try lia. intros x. apply H. lia.
Qed.

(** Lines 641-655 against lines 815-828, under infinite sites when there is
    one population. *)
Lemma update_agree (E : collaborators) (np : nat) (dt : Qc) (B : mutation_term)
    (Q slv : list matrix) (A Di C : list vec) (sfs : ndarray) :
  (1 <= np)%nat -> (np = 1%nat -> exists b, B = B_ISM b) ->
  same_operators E np (Some Q) (Some slv) (Some Q) (Some A) (Some Di) (Some C) ->
  nomig_update E np dt B Q slv sfs = neutral_update E np dt B A Di C Q sfs.
Proof.
  intros Hnp H1 (_ & Hs & HA & HD & HC & H). unfold nomig_update, neutral_update.
  destruct (np =? 1)%nat eqn:Hone.
  - apply Nat.eqb_eq in Hone. destruct (H1 Hone) as (b & ->).
    rewrite (item_Ok A 0 []), (item_Ok Di 0 []), (item_Ok C 0 []), (item_Ok slv 0 []) by lia.
    cbn [bind].
    destruct (item Q 0) as [Q0| e |]; cbn [bind]; try reflexivity.
    destruct (nd_dot Q0 sfs) as [sfs1| e |]; cbn [bind]; try reflexivity.
    unfold apply_solver. rewrite H by lia. reflexivity.
  - apply Nat.eqb_neq in Hone.
    assert (Hlt : (1 <? np)%nat = true) by (apply Nat.ltb_lt; lia). rewrite Hlt.
    destruct (_update_step1 sfs Q) as [sfs1| e |]; cbn [bind]; try reflexivity.
    destruct (match B with
              | B_ISM b => Ok (nd_add sfs1 (nd_scale dt b))
              | B_FG (FB_1D _) => Raise TypeError
              | B_FG (FB_ND bs) => add_reversible dt bs np sfs1
              end) as [sfs2| e |]; cbn [bind]; try reflexivity.
    apply (update_step2_agree E np); assumption.
Qed.
(* ------------------------------------------------------------------ *)
(** ** The time loops *)

Lemma alike_lift_l {A B B' : Type} (S : B -> B' -> Prop) (o : outcome A) (a : A)
    (k : A -> run B) (c2 : run B') :
  o = Ok a -> alike S (k a) c2 -> alike S (rbind (lift o) k) c2.
Proof. intros -> H l1 l2 Hl. exact (H l1 l2 Hl). Qed.

Lemma all_zero_repeat (np : nat) : Forall (fun x : Qc => x = 0) (repeat 0 np).
Proof. induction np as [|np IH]; constructor; [reflexivity|exact IH]. Qed.

(** The block of lines 624-639 as [nomig_operators] has it. *)
Lemma nomig_rebuilt (c : nomig_ctx) (Neff s h : vec) (dt : Qc) :
  (let np := length (c_dims c) in
   D <- drift_ops np Neff (c_vd c) ;;
   S1 <- sel1_ops np s h (c_vs c) ;;
   S2 <- sel2_ops np s h (c_vs2 c) ;;
   slv <- implicit_systems np dt D S1 S2 ;;
   Q <- explicit_ops np dt D S1 S2 ;;
   Ok (D, S1, S2, Some slv, Some Q))
  = (x <- nomig_operators c Neff s h dt ;;
     match x with (D, S1, S2, slv, Q) => Ok (D, S1, S2, Some slv, Some Q) end).
Proof.
  unfold nomig_operators. cbv zeta.
  destruct (drift_ops _ _ _) as [D| |]; cbn [bind]; try reflexivity.
  destruct (sel1_ops _ _ _ _) as [S1| |]; cbn [bind]; try reflexivity.
  destruct (sel2_ops _ _ _ _) as [S2| |]; cbn [bind]; try reflexivity.
  destruct (implicit_systems _ _ _ _ _) as [slv| |]; cbn [bind]; try reflexivity.
  destruct (explicit_ops _ _ _ _ _) as [Q| |]; cbn [bind]; reflexivity.
Qed.

(** The block of lines 803-813 as [neutral_operators] has it. *)
Lemma neutral_rebuilt (E : collaborators) (c : neutral_ctx) (Neff : vec) (dt : Qc) :
  (let np := length (d_dims c) in
   D <- drift_ops np Neff (d_vd c) ;;
   f <- comprehension np (neutral_diagonals E dt Neff (d_dims c) (d_diags c)) ;;
   Q <- neutral_explicit_ops np dt (d_dims c) D ;;
   Ok (D, Some (map (fun x => fst (fst x)) f), Some (map (fun x => snd (fst x)) f),
       Some (map snd f), Some Q))
  = (x <- neutral_operators E c Neff dt ;;
     match x with (D, A, Di, C, Q) => Ok (D, Some A, Some Di, Some C, Some Q) end).
Proof.
  unfold neutral_operators. cbv zeta.
  destruct (drift_ops _ _ _) as [D| |]; cbn [bind]; try reflexivity.
  destruct (comprehension _ _) as [f| |]; cbn [bind]; try reflexivity.
  destruct (neutral_explicit_ops _ _ _ _) as [Q| |]; cbn [bind]; reflexivity.
Qed.

(** One pass through the two loops from states that are alike. *)
Lemma alike_iter (E : collaborators) (inner : nat) (c : nomig_ctx) (d : neutral_ctx)
    (st : nomig_state) (mt : neutral_state) :
  same_setting E c d -> same_state E (length (c_dims c)) st mt ->
  alike (same_state E (length (c_dims c)))
        (nomig_iter E inner c st) (neutral_iter E inner d mt).
Proof.
  intros Hs Ht. unfold nomig_iter, neutral_iter.
  rewrite (ss_dims Hs), (ss_Tmax Hs), (ss_dt_fac Hs), (ss_Npop Hs), (ss_B Hs).
  rewrite (st_t Ht), (st_dt Ht), (st_N Ht), (st_Nold Ht), (st_Neff Ht), (st_sfs Ht).
  set (np := length (c_dims c)) in *.
  pose proof (ss_bound Hs) as Hb. unfold neutral_bound in Hb.
  rewrite (Hb (n_N st) (n_s_new st) (n_h_new st))
    by (rewrite (st_s_new Ht); apply all_zero_repeat).
  clear Hb.
  apply alike_rbind with (R := eq); [apply alike_adapt_sizes|].
  intros k ? <-.
  apply (alike_lift_l _ _ (repeat 0 np)).
  { pose proof (ss_s Hs) as Hz. destruct (c_s c) as [v|f]; [exact (f_equal Ok (st_s_new Ht))|].
    apply Hz. }
  apply (alike_lift_l _ _ (n_h_new st)).
  { pose proof (ss_h Hs) as Hh. destruct (c_h c) as [v|f]; [reflexivity|discriminate Hh]. }
  rewrite (st_s_old Ht), (st_h Ht), rebuild_tests_agree.
  apply alike_rbind with (R := eq); [apply alike_lift, same_outcome_eq|].
  intros rebuild ? <-.
  apply alike_rbind with
    (R := fun x y => match x, y with
                     | (_, _, _, slv, Q), (_, A, Di, C, Q') =>
                         same_operators E np Q slv Q' A Di C
                     end).
  { apply alike_lift. destruct rebuild; [|exact (st_ops Ht)].
    pose proof (nomig_rebuilt c (k_Neff k) (repeat 0 np) (n_h_new st) (k_dt k)) as Hn.
    pose proof (neutral_rebuilt E d (k_Neff k) (k_dt k)) as Hm.
    cbv zeta in Hn, Hm. rewrite (ss_dims Hs) in Hm. fold np in Hn, Hm.
    rewrite Hn, Hm.
    pose proof (rebuilt_operators_agree E c d (k_Neff k) (n_h_new st) (k_dt k) Hs
                  (st_h_length Ht)) as Ha.
    fold np in Ha.
    destruct (nomig_operators c (k_Neff k) (repeat 0 np) (n_h_new st) (k_dt k))
      as [[[[[D S1] S2] slv] Q]| e |],
      (neutral_operators E d (k_Neff k) (k_dt k)) as [[[[[D' A] Di] C] Q']| e' |];
      cbn [bind same_outcome] in *; exact Ha. }
  intros [[[[D S1] S2] slv] Q] [[[[D' A] Di] C] Q'] Hops.
  apply alike_rbind with (R := eq).
  { apply alike_lift.
    destruct Q as [Q|], slv as [slv|], Q' as [Q'|], A as [A|], Di as [Di|], C as [C|];
      cbn [same_operators] in Hops; try contradiction; cbn [bound bind];
      [|reflexivity].
    pose proof Hops as (<- & _).
    rewrite (update_agree E np (k_dt k) (c_B c) Q slv A Di C (n_sfs st)
               (ss_rank Hs) (ss_1d Hs) Hops).
    apply same_outcome_eq. }
  intros sfs ? <-. apply alike_ret.
  constructor; cbn; try reflexivity; try exact (st_h_length Ht). exact Hops.
Qed.

Lemma alike_loop (E : collaborators) (inner fuel : nat) (c : nomig_ctx) (d : neutral_ctx) :
  same_setting E c d ->
  forall st mt, same_state E (length (c_dims c)) st mt ->
    alike (same_state E (length (c_dims c)))
          (nomig_loop E inner fuel c st) (neutral_loop E inner fuel d mt).
Proof.
  intros Hs. induction fuel as [|fuel IH]; intros st mt Ht; cbn [nomig_loop neutral_loop];
    rewrite (ss_Tmax Hs), (st_t Ht); destruct (Qcltb (n_t st) (c_Tmax c));
    try (apply alike_ret; exact Ht); [apply alike_out_of_fuel|].
  apply alike_rbind with (R := same_state E (length (c_dims c)));
    [apply alike_iter; assumption|].
  intros st' mt' Ht'. apply IH. exact Ht'.
Qed.
(* ------------------------------------------------------------------ *)
(** ** Before the loops *)

Lemma zero_vector (v : vec) : Forall (fun x => x = 0) v -> v = repeat 0 (length v).
Proof. induction 1 as [|x v Hx _ IH]; cbn [length repeat]; congruence. Qed.

Lemma normalize_gamma_zero (np : nat) (gamma : coeff) :
  coeff_ok np gamma -> zero_selection gamma -> no_selection np (normalize_gamma np gamma).
Proof.
  destruct gamma as [|x|v|f|f]; cbn; intros Hok Hz.
  - reflexivity.
  - rewrite Hz. reflexivity.
  - rewrite <- Hok. apply zero_vector. exact Hz.
  - intros t. rewrite Hz. reflexivity.
  - intros t. rewrite <- (Hok t). f_equal. apply zero_vector. apply Hz.
Qed.

Lemma zero_times (np : nat) (l : vec) :
  length l = np -> map (fun p => fst p * snd p) (combine (repeat 0 np) l) = repeat 0 np.
Proof.
  revert l. induction np as [|np IH]; intros [|x l] Hl; try discriminate Hl; [reflexivity|].
  cbn [repeat combine map fst snd]. rewrite IH by (cbn in Hl; lia). f_equal. ring.
Qed.

Lemma freeze_s_zero (np : nat) (frozen : list bool) (s : sched) :
  length frozen = np -> no_selection np s ->
  exists s', freeze_s frozen s = Ok s' /\ no_selection np s'.
Proof.
  intros Hf Hs. destruct s as [v|f]; cbn [freeze_s no_selection] in *.
  - subst v.
    destruct (set_frozen_spec frozen 0 (repeat 0 np)) as (x & -> & Hl & Hn);
      [rewrite repeat_length; exact Hf|].
    cbn [bind]. eexists. split; [reflexivity|]. cbn [no_selection].
    rewrite repeat_length in Hl.
    apply (nth_ext x (repeat 0 np) 0 0); [rewrite repeat_length; exact Hl|].
    intros k _. rewrite Hn, nth_repeat_0. destruct (nth k frozen false); reflexivity.
  - eexists. split; [reflexivity|]. cbn [no_selection]. intros t. rewrite Hs. cbn [bind].
    rewrite broadcast2_same
      by (rewrite repeat_length, one_minus_frozen_length; symmetry; exact Hf).
    rewrite zero_times by (rewrite one_minus_frozen_length; exact Hf). reflexivity.
Qed.

(** Lines 430-512 against lines 692-734: but for the selection, the
    parameters the two loops are given are the same. *)
Lemma params_agree (a : nomig_args) :
  nomig_args_ok a -> zero_selection (a_gamma a) ->
  same_outcome
    (fun p p' => p_Npop p' = p_Npop p /\ p_u p' = p_u p /\ p_v p' = p_v p /\
                 (a_finite_genome a = false -> p_v p = None) /\
                 no_selection (rank (a_sfs0 a)) (p_s p))
    (nomig_params a) (neutral_params (neutral_of a)).
Proof.
  intros (Hin & Hg & _) Hz. unfold nomig_params, neutral_params.
  cbn [neutral_of b_sfs0 b_Npop b_theta b_finite_genome b_theta_fd b_theta_bd b_frozen].
  set (np := rank (a_sfs0 a)) in *.
  pose proof (normalize_gamma_zero np (a_gamma a) Hg Hz) as Hs.
  assert (Hv : forall uv, mutation_rates np (a_finite_genome a) (a_theta a) (a_theta_fd a)
                            (a_theta_bd a) = Ok uv ->
                          a_finite_genome a = false -> snd uv = None).
  { intros uv Hm Hfg. unfold mutation_rates in Hm. rewrite Hfg in Hm. cbn in Hm.
    injection Hm as <-. reflexivity. }
  destruct (mutation_rates np _ _ _ _) as [uv| e |]; cbn [bind same_outcome];
    [|reflexivity|exact I].
  specialize (Hv uv eq_refl).
  destruct (any_frozen (a_frozen a)) eqn:Hf.
  - assert (Hl : length (a_frozen a) = np).
    { destruct (ok_frozen Hin) as [H|H]; [congruence|exact H]. }
    destruct (freeze_s_zero np (a_frozen a) _ Hl Hs) as (s' & -> & Hs'). cbn [bind].
    destruct (freeze_Npop _ _) as [Npop'| e |]; cbn [bind same_outcome];
      [|reflexivity|exact I].
    assert (Hr : forall uv', freeze_rates (a_frozen a) uv = Ok uv' ->
                             a_finite_genome a = false -> snd uv' = None).
    { intros uv' Hfr Hfg. unfold freeze_rates in Hfr. rewrite (Hv Hfg) in Hfr.
      destruct (inplace2 _ _ _) as [u'| |]; cbn [bind] in Hfr; try discriminate Hfr.
      injection Hfr as <-. reflexivity. }
    destruct (freeze_rates _ _) as [uv'| e |]; cbn [bind same_outcome];
      [|reflexivity|exact I].
    cbn [p_Npop p_u p_v p_s]. repeat split; auto.
  - cbn [same_outcome p_Npop p_u p_v p_s]. repeat split; auto.
Qed.

Lemma map_combine_map {A B C : Type} (g : A -> B -> C) (h : A -> B) (l : list A) :
  map (fun p => g (fst p) (snd p)) (combine l (map h l)) = map (fun x => g x (h x)) l.
Proof. induction l as [|x l IH]; [reflexivity|]. cbn [map combine fst snd]. rewrite IH. reflexivity. Qed.

Lemma normalize_h_constant (np : nat) (h : coeff) :
  coeff_ok np h -> is_callable h = false ->
  exists hv, normalize_h np h = SConst hv /\ length hv = np.
Proof.
  destruct h as [|x|v|f|f]; cbn; intros Hok Hc; try discriminate Hc.
  - eexists. split; [reflexivity|]. unfold vscale, ones. rewrite length_map. apply repeat_length.
  - eexists. split; [reflexivity|]. apply repeat_length.
  - eexists. split; [reflexivity|exact Hok].
Qed.

(** Lines 465-559 against lines 695-757. *)
Lemma alike_init (E : collaborators) (a : nomig_args) (p p' : params) :
  coeff_ok (rank (a_sfs0 a)) (a_h a) -> is_callable (a_h a) = false ->
  (1 <= rank (a_sfs0 a))%nat ->
  (rank (a_sfs0 a) = 1%nat -> p_v p = None) ->
  Forall (agreeing_axis E) (shape (a_sfs0 a)) -> neutral_bound E ->
  p_Npop p' = p_Npop p -> p_u p' = p_u p -> p_v p' = p_v p ->
  no_selection (rank (a_sfs0 a)) (p_s p) ->
  alike (fun x y => c_dims (fst x) = shape (a_sfs0 a) /\
                    same_setting E (fst x) (fst y) /\
                    same_state E (rank (a_sfs0 a)) (snd x) (snd y))
        (nomig_init E a p) (neutral_init E (neutral_of a) p').
Proof.
  intros Hh Hc Hrank H1 Hax Hb HN Hu Hv Hs. unfold nomig_init, neutral_init.
  cbn [neutral_of b_sfs0 b_tf b_dt_fac]. rewrite HN, Hu, Hv.
  unfold rank in *. set (dims := shape (a_sfs0 a)) in *. set (np := length dims) in *.
  apply alike_rbind with (R := eq); [apply alike_lift, same_outcome_eq|].
  intros N ? <-.
  apply alike_rbind with (R := eq); [apply alike_test_sizes|].
  intros ? ? _.
  rewrite (same_dense E dims Hax).
  apply alike_rbind with (R := eq); [apply alike_lift, same_outcome_eq|].
  intros D ? <-.
  apply (alike_lift_l _ _ (repeat 0 np)).
  { revert Hs. destruct (p_s p) as [v|f]; cbn [eval_sched no_selection]; intros Hs;
      [rewrite Hs; reflexivity|apply Hs]. }
  destruct (normalize_h_constant np (a_h a) Hh Hc) as (hv & Hhv & Hhl). rewrite Hhv.
  apply (alike_lift_l _ _ hv); [reflexivity|].
  rewrite !map_combine_map.
  destruct (sel1_ops_ok np (repeat 0 np) hv
              (map (fun n => calcS E n (calcJK13 E (Z.of_nat n - 1))) dims))
    as (S1 & HS1 & _); [apply repeat_length|exact Hhl|apply length_map|].
  apply (alike_lift_l _ _ S1 _ _ HS1).
  destruct (sel2_ops_ok np (repeat 0 np) hv
              (map (fun n => calcS2 E n (calcJK23 E (Z.of_nat n - 1))) dims))
    as (S2 & HS2 & _); [apply repeat_length|exact Hhl|apply length_map|].
  apply (alike_lift_l _ _ S2 _ _ HS2).
  destruct (mutation_source E dims (p_u p) (p_v p)) as [B| e |] eqn:HB.
  - apply (alike_lift_l _ _ B _ _ eq_refl). intros l1 l2 Hl.
    unfold rbind, lift, ret. split; [exact Hl|]. cbn [snd same_outcome fst].
    split; [reflexivity|]. split.
    + constructor; cbn; try reflexivity; try assumption.
      * symmetry. apply same_dense. exact Hax.
      * revert Hs. destruct (p_s p) as [v|f]; cbn [no_selection]; auto.
      * intros Hone. specialize (H1 Hone). rewrite H1 in HB. cbn in HB.
        destruct (_calcB dims (p_u p)) as [b| |]; cbn [bind] in HB; try discriminate HB.
        injection HB as <-. eauto.
    + constructor; cbn; try reflexivity; try assumption.
  - intros l1 l2 Hl. unfold rbind, lift. split; [exact Hl|reflexivity].
  - intros l1 l2 Hl. unfold rbind, lift. split; [exact Hl|exact I].
Qed.
(* ------------------------------------------------------------------ *)
(** ** The two runs *)

(** The two integrators, step by step. *)
Lemma integrators_alike (E : collaborators) (fuel : nat) (a : nomig_args) :
  nomig_args_ok a -> zero_selection (a_gamma a) -> is_callable (a_h a) = false ->
  (1 <= rank (a_sfs0 a))%nat ->
  (rank (a_sfs0 a) = 1%nat -> a_finite_genome a = false) ->
  Forall (agreeing_axis E) (shape (a_sfs0 a)) -> neutral_bound E ->
  alike eq (integrate_nomig E fuel a) (integrate_neutral E fuel (neutral_of a)).
Proof.
  intros Hok Hz Hc Hrank H1 Hax Hb.
  unfold integrate_nomig, integrate_neutral.
  apply alike_rbind with
    (R := fun p p' => p_Npop p' = p_Npop p /\ p_u p' = p_u p /\ p_v p' = p_v p /\
                      (a_finite_genome a = false -> p_v p = None) /\
                      no_selection (rank (a_sfs0 a)) (p_s p));
    [apply alike_lift, params_agree; assumption|].
  intros p p' (HN & Hu & Hv & Hfg & Hs).
  apply alike_rbind with
    (R := fun x y => c_dims (fst x) = shape (a_sfs0 a) /\
                     same_setting E (fst x) (fst y) /\
                     same_state E (rank (a_sfs0 a)) (snd x) (snd y)).
  { destruct Hok as (_ & _ & Hh). apply alike_init; auto. }
  intros [c st0] [d mt0] (Hdims & Hset & Hst). cbn [fst snd] in Hdims, Hset, Hst.
  unfold rank in Hst. rewrite <- Hdims in Hst.
  apply alike_rbind with (R := same_state E (length (c_dims c)));
    [apply alike_loop; assumption|].
  intros st mt Ht. rewrite (st_sfs Ht).
  cbn [neutral_of b_finite_genome]. apply alike_lift, same_outcome_eq.
Qed.

Lemma alike_runs {A : Type} (c1 c2 : run A) (log : list event) :
  alike eq c1 c2 ->
  snd (c1 log) = snd (c2 log) /\ map anonymous (fst (c1 log)) = map anonymous (fst (c2 log)).
Proof.
  intros H. specialize (H log log (same_log_refl log)). destruct H as [Hl Ho].
  split; [apply same_outcome_eq_inv; exact Ho|exact Hl].
Qed.

(** X11. Without selection and with a dominance that is not a function of
    time, [integrate_nomig] and [integrate_neutral] called on the same
    spectrum, sizes, time, step factor, mutation rates and frozen list end
    alike: both return the same spectrum, or both raise the same exception,
    or both are still running when the fuel is spent; and they evaluate and
    test the same sizes and print the same warnings, but for the name of the
    function.  This holds under infinite sites for any number of
    populations and in the finite-genome model for two populations or more,
    provided the collaborators agree on every axis: the dense drift matrix is
    the sparse one, the tridiagonal solver solves as the sparse factorisation
    does, and the step bound without selection is the neutral one. *)
Theorem integrators_agree_without_selection (E : collaborators) (fuel : nat)
    (a : nomig_args) (log : list event) :
  nomig_args_ok a -> zero_selection (a_gamma a) -> is_callable (a_h a) = false ->
  (1 <= rank (a_sfs0 a))%nat ->
  (rank (a_sfs0 a) = 1%nat -> a_finite_genome a = false) ->
  Forall (agreeing_axis E) (shape (a_sfs0 a)) -> neutral_bound E ->
  snd (integrate_nomig E fuel a log) = snd (integrate_neutral E fuel (neutral_of a) log) /\
  map anonymous (fst (integrate_nomig E fuel a log))
  = map anonymous (fst (integrate_neutral E fuel (neutral_of a) log)).
Proof.
  intros Hok Hz Hc Hrank H1 Hax Hb.
  apply alike_runs, integrators_alike; assumption.
Qed.

(* ------------------------------------------------------------------ *)
(** ** The sample collaborators agree *)

Lemma sample_agreeing_axis : agreeing_axis sample_collaborators 3.
Proof.
  constructor.
  - reflexivity.
  - split; [reflexivity|repeat constructor].
  - split; (split; [reflexivity|repeat constructor]).
  - intros c x. cbn [calcD_dense calcD ts_mat_to_diag ts_factor ts_solve factorized
                       sample_collaborators].
    assert (Hd : sample_mat_to_diag (msub (identity 3) (mscale c (sample_calcD 3)))
                 = (let '(d0, d1, d2) := sample_mat_to_diag (sample_calcD 3) in
                    (vscale (- c) d0, vsub (ones 3) (vscale c d1), vscale (- c) d2))).
    { cbv -[Qcplus Qcmult Qcminus Qcdiv Qcopp Qcinv of_Z Q2Qc].
      repeat match goal with
             | |- (_, _) = (_, _) => f_equal
             | |- _ :: _ = _ :: _ => f_equal
             end; try reflexivity; ring. }
    rewrite Hd. destruct (sample_mat_to_diag (sample_calcD 3)) as [[d0 d1] d2]. reflexivity.
Qed.

Lemma sample_neutral_bound : neutral_bound sample_collaborators.
Proof. intros N s h _. reflexivity. Qed.

Lemma sample_nomig_2d_ok : nomig_args_ok sample_nomig_2d.
Proof.
  split; [|split; exact I].
  constructor; cbn; try exact I; try reflexivity.
  - repeat constructor.
  - left. reflexivity.
Qed.

(** X11 on two populations of three bins each. *)
Lemma integrators_agree_without_selection_witness :
  snd (integrate_nomig sample_collaborators 10 sample_nomig_2d [])
  = snd (integrate_neutral sample_collaborators 10 (neutral_of sample_nomig_2d) []) /\
  map anonymous (fst (integrate_nomig sample_collaborators 10 sample_nomig_2d []))
  = map anonymous
      (fst (integrate_neutral sample_collaborators 10 (neutral_of sample_nomig_2d) [])).
Proof.
  apply (integrators_agree_without_selection sample_collaborators 10 sample_nomig_2d []).
  - exact sample_nomig_2d_ok.
  - exact I.
  - reflexivity.
  - cbn. lia.
  - cbn. discriminate.
  - cbn. constructor; [exact sample_agreeing_axis|].
    constructor; [exact sample_agreeing_axis|constructor].
  - exact sample_neutral_bound.
Defined.
(* ------------------------------------------------------------------ *)
(** * Calls that can fail on a population size only *)

Lemma safe_ret {A : Type} (strict : bool) (P : A -> Prop) (a : A) :
  P a -> safe strict P (ret a).
Proof. intros H log. exact H. Qed.

Lemma safe_out_of_fuel {A : Type} (P : A -> Prop) : safe false P (@out_of_fuel A).
Proof. intros log. reflexivity. Qed.

Lemma safe_rbind {A B : Type} (strict : bool) (P : A -> Prop) (Q : B -> Prop)
    (c : run A) (k : A -> run B) :
  safe strict P c -> (forall a, P a -> safe strict Q (k a)) -> safe strict Q (rbind c k).
Proof.
  intros Hc Hk log. unfold rbind. specialize (Hc log).
  destruct (c log) as [log' [a| e |]]; cbn [snd] in *; [|exact Hc|exact Hc].
  apply Hk. exact Hc.
Qed.

Lemma safe_lift_bind {A B : Type} (strict : bool) (Q : B -> Prop) (o : outcome A) (a : A)
    (k : A -> run B) :
  o = Ok a -> safe strict Q (k a) -> safe strict Q (rbind (lift o) k).
Proof. intros -> H log. exact (H log). Qed.

Lemma safe_weaken {A : Type} (strict : bool) (P Q : A -> Prop) (c : run A) :
  (forall a, P a -> Q a) -> safe strict P c -> safe false Q c.
Proof.
  intros HPQ Hc log. specialize (Hc log).
  destruct (snd (c log)) as [a| e |]; [apply HPQ; exact Hc| |].
  - destruct Hc as [_ He]. auto.
  - reflexivity.
Qed.

Lemma safe_test_sizes (strict : bool) (t : Qc) (N : vec) :
  (strict = true -> all_positive N) -> safe strict (fun _ => True) (test_sizes t N).
Proof.
  intros Hpos log. unfold test_sizes. cbn [snd].
  destruct (any_nonpositive N) eqn:HN; [|exact I].
  destruct strict; [|auto].
  apply any_nonpositive_false in Hpos; [congruence|reflexivity].
Qed.

Lemma safe_emit (strict : bool) (ev : event) : safe strict (fun _ => True) (emit ev).
Proof. intros log. exact I. Qed.

Lemma safe_sizes_at (np : nat) (f : Qc -> outcome vec) (t : Qc) :
  (forall tau, exists v, f tau = Ok v /\ length v = np) ->
  safe false (fun N => length N = np) (sizes_at f t).
Proof.
  intros Hf. unfold sizes_at. destruct (Hf t) as (v & Hv & Hl).
  apply (safe_lift_bind _ _ _ v _ Hv).
  apply safe_rbind with (P := fun _ => True); [apply safe_test_sizes; discriminate|].
  intros _ _. apply safe_ret. exact Hl.
Qed.

(** The inner loop (lines 591-609, 779-797). *)
Lemma safe_halving (E : collaborators) (fn : integrator) (np : nat) (f : Qc -> outcome vec)
    (t : Qc) (Nold : vec) (fuel : nat) :
  (1 <= np)%nat -> length Nold = np ->
  (forall tau, exists v, f tau = Ok v /\ length v = np) ->
  (forall t0 t1, length (compute_N_effective E f t0 t1) = np) ->
  forall k, length (k_N k) = np -> length (k_Neff k) = np ->
    safe false (fun k' => length (k_N k') = np /\ length (k_Neff k') = np)
         (halving E fn fuel f t Nold k).
Proof.
  intros Hnp HNold Hf Heff.
  assert (Hrc : forall N, length N = np -> exists rc, relative_change N Nold = Ok rc).
  { intros N HN. apply relative_change_ok; lia. }
  induction fuel as [|fuel IH]; intros k HkN HkE; cbn [halving];
    destruct (Hrc (k_N k) HkN) as (rc & Hrck);
    apply (safe_lift_bind _ _ _ rc _ Hrck);
    destruct (Qcltb acceptable_change rc); try (apply safe_ret; split; assumption);
    [apply safe_out_of_fuel|].
  apply safe_rbind with (P := fun N => length N = np); [apply safe_sizes_at; exact Hf|].
  intros N HN.
  destruct (n_iter_max <=? S (k_n_iter k))%nat.
  - apply safe_rbind with (P := fun _ => True); [apply safe_emit|]. intros _ _.
    destruct (Hrc N HN) as (rc' & Hrc').
    apply (safe_lift_bind _ _ _ rc' _ Hrc').
    apply safe_rbind with (P := fun _ => True); [apply safe_emit|]. intros _ _.
    apply safe_ret. cbn. split; [exact HN|apply Heff].
  - apply IH; cbn; [exact HN|apply Heff].
Qed.

(** Lines 582-609 and 770-797; with sizes that are not a function of time
    nothing is evaluated and the step is the one proposed. *)
Lemma safe_adapt_sizes (E : collaborators) (fn : integrator) (strict : bool)
    (np fuel : nat) (Npop : sched) (t dt : Qc) (N Nold Neff : vec) :
  (strict = true -> callable Npop = false) ->
  (1 <= np)%nat -> sched_ok np Npop ->
  (forall f t0 t1, (forall tau, exists v, f tau = Ok v /\ length v = np) ->
                   length (compute_N_effective E f t0 t1) = np) ->
  length N = np -> length Nold = np -> length Neff = np ->
  safe strict
       (fun k => length (k_N k) = np /\ length (k_Neff k) = np /\
                 (callable Npop = false -> k_dt k = dt /\ k_N k = N))
       (adapt_sizes E fn fuel Npop t dt N Nold Neff).
Proof.
  intros Hstrict Hnp HNpop Heff HN HNold HNeff. unfold adapt_sizes.
  destruct Npop as [v|f]; [apply safe_ret; cbn; auto|].
  destruct strict; [discriminate (Hstrict eq_refl)|].
  cbn [sched_ok] in HNpop.
  apply safe_rbind with (P := fun N' => length N' = np); [apply safe_sizes_at; exact HNpop|].
  intros N' HN'.
  apply (safe_weaken false (fun k' => length (k_N k') = np /\ length (k_Neff k') = np)).
  { intros k [H1 H2]. split; [exact H1|]. split; [exact H2|]. discriminate. }
  apply (safe_halving E fn np f t Nold fuel Hnp HNold HNpop (fun t0 t1 => Heff f t0 t1 HNpop));
    cbn; [exact HN'|apply Heff; exact HNpop].
Qed.
(* ------------------------------------------------------------------ *)
(** ** The operators of a step have the right sizes *)

Lemma is_matrix_msub (r c : nat) (A B : matrix) :
  is_matrix r c A -> is_matrix r c B -> is_matrix r c (msub A B).
Proof.
  revert r B. induction A as [|a A IH]; intros r [|b B] HA HB;
    try (unfold msub; simpl; assumption).
  destruct r as [|r]; [destruct HA as [HA _]; discriminate|].
  apply is_matrix_cons in HA as [Ha HA], HB as [Hb HB].
  unfold msub. cbn [combine map fst snd]. fold (msub A B).
  apply is_matrix_cons. split; [|apply IH; assumption].
  unfold vsub. rewrite length_map_combine; congruence.
Qed.

Lemma square_operators_map (dims : list nat) (f : nat -> matrix) :
  Forall (fun d => is_matrix d d (f d)) dims -> square_operators dims (map f dims).
Proof.
  intros H. split; [apply length_map|]. intros k Hk.
  rewrite (nth_map_in f dims k 0%nat [] Hk).
  apply (proj1 (Forall_forall _ _) H). apply nth_In. exact Hk.
Qed.

(** Lines 624-639. *)
Lemma nomig_operators_shaped (E : collaborators) (dims : list nat) (c : nomig_ctx)
    (Neff s h : vec) (dt : Qc) :
  nomig_shaped_ctx E dims c ->
  length Neff = length dims -> length s = length dims -> length h = length dims ->
  exists D S1 S2 slv Q,
    nomig_operators c Neff s h dt = Ok (D, S1, S2, slv, Q) /\
    square_operators dims Q /\ square_operators dims slv.
Proof.
  intros Hc HN Hs Hh. unfold nomig_operators. rewrite (nc_dims Hc).
  set (np := length dims) in *.
  destruct (nc_vd Hc) as [Hvdl Hvd], (nc_vs Hc) as [Hvsl Hvs], (nc_vs2 Hc) as [Hvs2l Hvs2].
  fold np in Hvdl, Hvsl, Hvs2l, Hvd, Hvs, Hvs2.
  destruct (drift_ops_ok np Neff (c_vd c) HN Hvdl) as (D & -> & HDl & HDn).
  destruct (sel1_ops_ok np s h (c_vs c) Hs Hh Hvsl) as (S1 & -> & HS1l & HS1n).
  destruct (sel2_ops_ok np s h (c_vs2 c) Hs Hh Hvs2l) as (S2 & -> & HS2l & HS2n).
  cbn [bind].
  assert (Hgen : forall i, (i < np)%nat ->
            let n := nth i dims 0%nat in
            nrows (nth i S1 []) = n /\
            is_matrix n n (madd (madd (nth i D []) (nth i S1 [])) (nth i S2 []))).
  { intros i Hi n. rewrite (HDn i Hi), (HS1n i Hi), (HS2n i Hi). split.
    - apply (nrows_mscale _ n n). apply Hvs. exact Hi.
    - repeat apply is_matrix_madd; apply is_matrix_mscale;
        [apply Hvd|apply Hvs|apply Hvs2]; exact Hi. }
  destruct (comprehension_ok np (fun i =>
              S1i <- item S1 i ;;
              A <- axis_generator D S1 S2 i ;;
              Ok (msub (identity (nrows S1i)) (mscale (dt / two) A))))
    as (slv & Hslv & Hslvl & Hslvn).
  { intros i Hi. unfold axis_generator.
    rewrite (item_Ok S1 i []), (item_Ok D i []), (item_Ok S2 i []) by lia.
    cbn [bind]. eexists. reflexivity. }
  destruct (comprehension_ok np (fun i =>
              S1i <- item S1 i ;;
              A <- axis_generator D S1 S2 i ;;
              Ok (madd (identity (nrows S1i)) (mscale (dt / two) A))))
    as (Q & HQ & HQl & HQn).
  { intros i Hi. unfold axis_generator.
    rewrite (item_Ok S1 i []), (item_Ok D i []), (item_Ok S2 i []) by lia.
    cbn [bind]. eexists. reflexivity. }
  unfold implicit_systems, explicit_ops. rewrite Hslv, HQ. cbn [bind].
  exists D, S1, S2, slv, Q. split; [reflexivity|]. split; (split; [assumption|]).
  - intros k Hk. destruct (Hgen k Hk) as [Hr Hm].
    specialize (HQn k [] Hk). unfold axis_generator in HQn.
    rewrite (item_Ok S1 k []), (item_Ok D k []), (item_Ok S2 k []) in HQn by lia.
    cbn [bind] in HQn. injection HQn as <-. rewrite Hr.
    apply is_matrix_madd; [apply is_matrix_identity|apply is_matrix_mscale; exact Hm].
  - intros k Hk. destruct (Hgen k Hk) as [Hr Hm].
    specialize (Hslvn k [] Hk). unfold axis_generator in Hslvn.
    rewrite (item_Ok S1 k []), (item_Ok D k []), (item_Ok S2 k []) in Hslvn by lia.
    cbn [bind] in Hslvn. injection Hslvn as <-. rewrite Hr.
    apply is_matrix_msub; [apply is_matrix_identity|apply is_matrix_mscale; exact Hm].
Qed.

(** Lines 803-813. *)
Lemma neutral_operators_shaped (E : collaborators) (dims : list nat) (c : neutral_ctx)
    (Neff : vec) (dt : Qc) :
  neutral_shaped_ctx E dims c -> length Neff = length dims ->
  exists D A Di C Q,
    neutral_operators E c Neff dt = Ok (D, A, Di, C, Q) /\
    square_operators dims Q /\
    length A = length dims /\ length Di = length dims /\ length C = length dims /\
    forall k, (k < length dims)%nat ->
      keeps_length (nth k dims 0%nat) (ts_solve E (nth k A []) (nth k Di []) (nth k C [])).
Proof.
  intros Hc HN. unfold neutral_operators. rewrite (mc_dims Hc), (mc_diags Hc), (mc_vd Hc).
  set (np := length dims) in *.
  destruct (square_operators_map dims (calcD_dense E) (sc_dense (mc_E Hc))) as [Hvdl Hvd].
  fold np in Hvdl, Hvd.
  destruct (drift_ops_ok np Neff (map (calcD_dense E) dims) HN Hvdl) as (D & -> & HDl & HDn).
  cbn [bind].
  destruct (comprehension_ok np
              (neutral_diagonals E dt Neff dims
                 (map (ts_mat_to_diag E) (map (calcD_dense E) dims))))
    as (f & Hf & Hfl & Hfn).
  { intros i Hi. unfold neutral_diagonals.
    rewrite (item_Ok Neff i 0) by lia.
    rewrite (item_Ok (map (ts_mat_to_diag E) (map (calcD_dense E) dims)) i ([], [], []))
      by (rewrite !length_map; exact Hi).
    rewrite (item_Ok dims i 0%nat) by exact Hi.
    cbn [bind].
    destruct (nth i (map (ts_mat_to_diag E) (map (calcD_dense E) dims)) ([], [], []))
      as [[d0 d1] d2]. eexists. reflexivity. }
  destruct (comprehension_ok np (fun i =>
              di <- item dims i ;; Di <- item D i ;;
              Ok (madd (identity di) (mscale (half * dt) Di))))
    as (Q & HQ & HQl & HQn).
  { intros i Hi. rewrite (item_Ok dims i 0%nat), (item_Ok D i []) by lia.
    cbn [bind]. eexists. reflexivity. }
  unfold neutral_explicit_ops. rewrite Hf, HQ. cbn [bind].
  eexists _, _, _, _, _. split; [reflexivity|]. rewrite !length_map.
  split; [|split; [exact Hfl|split; [exact Hfl|split; [exact Hfl|]]]].
  - split; [exact HQl|]. intros k Hk. specialize (HQn k [] Hk).
    rewrite (item_Ok dims k 0%nat), (item_Ok D k []) in HQn by lia.
    cbn [bind] in HQn. injection HQn as <-. rewrite (HDn k Hk).
    apply is_matrix_madd; [apply is_matrix_identity|].
    repeat apply is_matrix_mscale. apply Hvd. exact Hk.
  - intros k Hk. specialize (Hfn k ([], [], []) Hk). unfold neutral_diagonals in Hfn.
    rewrite (item_Ok Neff k 0) in Hfn by lia.
    rewrite (item_Ok (map (ts_mat_to_diag E) (map (calcD_dense E) dims)) k ([], [], []))
      in Hfn by (rewrite !length_map; exact Hk).
    rewrite (item_Ok dims k 0%nat) in Hfn by exact Hk.
    cbn [bind] in Hfn.
    rewrite (nth_map_in (ts_mat_to_diag E) (map (calcD_dense E) dims) k [] ([], [], []))
      in Hfn by (rewrite length_map; exact Hk).
    rewrite (nth_map_in (calcD_dense E) dims k 0%nat [] Hk) in Hfn.
    pose proof (proj1 (Forall_forall _ _) (sc_tridiagonal (mc_E Hc)) (nth k dims 0%nat)
                  (nth_In dims 0%nat Hk) (half * dt / four / nth k Neff 0)) as Ht.
    replace (- half * dt / four / nth k Neff 0) with (- (half * dt / four / nth k Neff 0))
      in Hfn by (unfold Qcdiv; ring).
    destruct (ts_mat_to_diag E (calcD_dense E (nth k dims 0%nat))) as [[d0 d1] d2].
    injection Hfn as Hfn.
    rewrite (nth_map_in (fun x => fst (fst x)) f k ([], [], []) []),
            (nth_map_in (fun x => snd (fst x)) f k ([], [], []) []),
            (nth_map_in snd f k ([], [], []) []) by lia.
    rewrite <- Hfn.
    destruct (ts_factor E _ _ _) as [[A Di] C]. exact Ht.
Qed.
(* ------------------------------------------------------------------ *)
(** ** The update of a step keeps the shape *)

Lemma vadd_length (a b : vec) : length a = length b -> length (vadd a b) = length a.
Proof. intros H. unfold vadd. apply length_map_combine. exact H. Qed.

Lemma vscale_length (k : Qc) (v : vec) : length (vscale k v) = length v.
Proof. unfold vscale. apply length_map. Qed.

Lemma nrows_mscale_any (k : Qc) (M : matrix) : nrows (mscale k M) = nrows M.
Proof. unfold nrows, mscale. apply length_map. Qed.

Lemma size_of_1 (d : nat) : size_of [d] = d.
Proof. unfold size_of. cbn. lia. Qed.

(** [sfs + dt * B] *)
Lemma add_source_shaped (dt : Qc) (sfs b : ndarray) :
  well_formed sfs -> shape b = shape sfs -> well_formed b ->
  shape (nd_add sfs (nd_scale dt b)) = shape sfs /\ well_formed (nd_add sfs (nd_scale dt b)).
Proof.
  unfold well_formed, nd_add, nd_scale. cbn [shape data]. intros Hs Hb Hwb.
  split; [reflexivity|]. rewrite vadd_length; [exact Hs|].
  rewrite vscale_length. congruence.
Qed.

(** Lines 650-652 and 823-825. *)
Lemma add_reversible_shaped (dt : Qc) (bs : list matrix) (np : nat) (sfs : ndarray) :
  (np <= length bs)%nat -> Forall (fun Bi => nrows Bi = size_of (shape sfs)) bs ->
  well_formed sfs ->
  exists sfs', add_reversible dt bs np sfs = Ok sfs' /\ shape sfs' = shape sfs /\
               well_formed sfs'.
Proof.
  intros Hl Hbs Hwf. unfold add_reversible.
  destruct (for_range_inv (fun _ a => shape a = shape sfs /\ well_formed a) np
              (fun i a =>
                 Bi <- item bs i ;;
                 m <- nd_reshape (mk_nd [nrows Bi] (mat_vec (mscale dt Bi) (data a)))
                        (shape a) ;;
                 Ok (nd_add a m)) sfs) as (sfs' & Hr & Hs & Hw).
  - split; [reflexivity|exact Hwf].
  - intros i a Hi [Ha Hwa]. rewrite (item_Ok bs i []) by lia. cbn [bind].
    assert (Hn : nrows (nth i bs []) = size_of (shape sfs)).
    { apply (proj1 (Forall_forall _ _) Hbs). apply nth_In. lia. }
    unfold nd_reshape. cbn [data]. rewrite mat_vec_length.
    fold (nrows (mscale dt (nth i bs []))). rewrite nrows_mscale_any, Hn, Ha, Nat.eqb_refl.
    cbn [bind]. eexists. split; [reflexivity|].
    unfold nd_add, well_formed in *. cbn [shape data]. split; [exact Ha|].
    rewrite vadd_length; [exact Hwa|].
    rewrite mat_vec_length. fold (nrows (mscale dt (nth i bs []))).
    rewrite nrows_mscale_any, Hn, Hwa, Ha. reflexivity.
  - exists sfs'. auto.
Qed.

Lemma square_operators_dim (dims : list nat) (Q : list matrix) (sfs : ndarray) :
  square_operators dims Q -> shape sfs = dims ->
  length Q = rank sfs /\
  forall k, (k < rank sfs)%nat -> is_matrix (dim sfs k) (dim sfs k) (nth k Q []).
Proof.
  intros [Hl HQ] Hs. unfold rank, dim. rewrite Hs. split; [exact Hl|exact HQ].
Qed.

(** Lines 641-655. *)
Lemma nomig_update_shaped (E : collaborators) (dims : list nat) (dt : Qc)
    (B : mutation_term) (Q slv : list matrix) (sfs : ndarray) :
  (1 <= length dims <= 5)%nat -> shaped_collaborators E dims -> fitting_term dims B ->
  square_operators dims Q -> square_operators dims slv ->
  shape sfs = dims -> well_formed sfs ->
  exists sfs', nomig_update E (length dims) dt B Q slv sfs = Ok sfs' /\
               shape sfs' = dims /\ well_formed sfs'.
Proof.
  intros Hrank HE HB HQ Hslv Hs Hwf. unfold nomig_update.
  destruct (length dims =? 1)%nat eqn:Hone.
  - apply Nat.eqb_eq in Hone.
    destruct dims as [|d [|? ?]]; try discriminate Hone.
    destruct HQ as [HQl HQ], Hslv as [Hsl Hslv]. cbn [length] in *.
    specialize (HQ 0%nat (Nat.lt_0_1)). specialize (Hslv 0%nat (Nat.lt_0_1)).
    cbn [nth] in HQ, Hslv.
    rewrite (item_Ok Q 0 []), (item_Ok slv 0 []) by lia.
    cbn [bind]. unfold nd_dot. rewrite Hs. cbn [bind].
    pose proof (sc_factorized HE Hslv) as Hk.
    assert (Hr : nrows (nth 0 Q []) = d) by (destruct HQ as [H _]; exact H).
    unfold well_formed in Hwf. rewrite Hs, size_of_1 in Hwf.
    destruct B as [b|[b|bs]]; cbn [fitting_term length] in HB.
    + destruct HB as [Hb Hwb]. unfold well_formed in Hwb. rewrite Hb, size_of_1 in Hwb.
      eexists. split; [reflexivity|]. unfold apply_solver, nd_add, nd_scale, well_formed.
      cbn [shape data]. rewrite Hr. split; [reflexivity|]. rewrite size_of_1.
      apply Hk. rewrite vadd_length; rewrite mat_vec_length; [exact Hr|].
      rewrite vscale_length. fold (nrows (nth 0 Q [])). congruence.
    + destruct HB as [_ Hb]. rewrite size_of_1 in Hb.
      eexists. split; [reflexivity|]. unfold apply_solver, nd_add, well_formed.
      cbn [shape data]. rewrite Hr. split; [reflexivity|]. rewrite size_of_1.
      apply Hk. rewrite vadd_length; rewrite !mat_vec_length; [exact Hr|].
      fold (nrows (nth 0 Q [])). fold (nrows (mscale dt b)).
      rewrite nrows_mscale_any. congruence.
    + destruct HB as [HB _]. lia.
  - apply Nat.eqb_neq in Hone.
    assert (Hlt : (1 <? length dims)%nat = true) by (apply Nat.ltb_lt; lia). rewrite Hlt.
    assert (Hr : (2 <= rank sfs <= 5)%nat) by (unfold rank; rewrite Hs; lia).
    destruct (square_operators_dim dims Q sfs HQ Hs) as [HQl HQm].
    rewrite (update_step1_along sfs Q Hr Hwf HQl HQm). cbn [bind].
    set (sfs1 := axis_by_axis (fun k => mat_vec (nth k Q [])) (rank sfs) sfs).
    assert (Hs1 : shape sfs1 = dims) by (unfold sfs1; rewrite axis_by_axis_shape; exact Hs).
    assert (Hw1 : well_formed sfs1) by (apply axis_by_axis_wf; exact Hwf).
    assert (Hsrc : exists sfs2,
               match B with
               | B_ISM b => Ok (nd_add sfs1 (nd_scale dt b))
               | B_FG (FB_1D _) => Raise TypeError
               | B_FG (FB_ND bs) => add_reversible dt bs (length dims) sfs1
               end = Ok sfs2 /\ shape sfs2 = dims /\ well_formed sfs2).
    { destruct B as [b|[b|bs]]; cbn [fitting_term] in HB.
      - destruct HB as [Hb Hwb]. eexists. split; [reflexivity|].
        destruct (add_source_shaped dt sfs1 b Hw1) as [H1 H2]; try congruence.
        split; [congruence|exact H2].
      - destruct HB as [HB _]. lia.
      - destruct HB as (_ & Hl & Hbs).
        destruct (add_reversible_shaped dt bs (length dims) sfs1 Hl) as (sfs2 & H0 & H1 & H2);
          [rewrite Hs1; exact Hbs|exact Hw1|].
        exists sfs2. split; [exact H0|]. split; [congruence|exact H2]. }
    destruct Hsrc as (sfs2 & -> & Hs2 & Hw2). cbn [bind].
    assert (Hr2 : (2 <= rank sfs2 <= 5)%nat) by (unfold rank; rewrite Hs2; lia).
    rewrite (update_step2_along sfs2 (map (factorized E) slv) Hr2 Hw2)
      by (rewrite length_map; destruct Hslv as [H _]; unfold rank; rewrite Hs2; exact H).
    eexists. split; [reflexivity|].
    split; [rewrite axis_by_axis_shape; exact Hs2|apply axis_by_axis_wf; exact Hw2].
Qed.

(** Lines 815-828. *)
Lemma neutral_update_shaped (E : collaborators) (dims : list nat) (dt : Qc)
    (B : mutation_term) (A Di C : list vec) (Q : list matrix) (sfs : ndarray) :
  (1 <= length dims <= 5)%nat -> fitting_term dims B ->
  square_operators dims Q ->
  length A = length dims -> length Di = length dims -> length C = length dims ->
  (forall k, (k < length dims)%nat ->
     keeps_length (nth k dims 0%nat) (ts_solve E (nth k A []) (nth k Di []) (nth k C []))) ->
  shape sfs = dims -> well_formed sfs ->
  exists sfs', neutral_update E (length dims) dt B A Di C Q sfs = Ok sfs' /\
               shape sfs' = dims /\ well_formed sfs'.
Proof.
  intros Hrank HB HQ HA HDi HC Hsolve Hs Hwf. unfold neutral_update.
  destruct (length dims =? 1)%nat eqn:Hone.
  - apply Nat.eqb_eq in Hone.
    destruct dims as [|d [|? ?]]; try discriminate Hone.
    destruct HQ as [HQl HQ]. cbn [length] in *.
    specialize (HQ 0%nat (Nat.lt_0_1)). specialize (Hsolve 0%nat (Nat.lt_0_1)).
    cbn [nth] in HQ, Hsolve.
    rewrite (item_Ok A 0 []), (item_Ok Di 0 []), (item_Ok C 0 []), (item_Ok Q 0 []) by lia.
    cbn [bind]. unfold nd_dot. rewrite Hs. cbn [bind].
    assert (Hr : nrows (nth 0 Q []) = d) by (destruct HQ as [H _]; exact H).
    unfold well_formed in Hwf. rewrite Hs, size_of_1 in Hwf.
    destruct B as [b|[b|bs]]; cbn [fitting_term length] in HB.
    + destruct HB as [Hb Hwb]. unfold well_formed in Hwb. rewrite Hb, size_of_1 in Hwb.
      eexists. split; [reflexivity|]. unfold apply_solver, nd_add, nd_scale, well_formed.
      cbn [shape data]. rewrite Hr. split; [reflexivity|]. rewrite size_of_1.
      apply Hsolve. rewrite vadd_length; rewrite mat_vec_length; [exact Hr|].
      rewrite vscale_length. fold (nrows (nth 0 Q [])). congruence.
    + destruct HB as [_ Hb]. rewrite size_of_1 in Hb.
      eexists. split; [reflexivity|]. unfold apply_solver, nd_add, well_formed.
      cbn [shape data]. rewrite Hr. split; [reflexivity|]. rewrite size_of_1.
      apply Hsolve. rewrite vadd_length; rewrite !mat_vec_length; [exact Hr|].
      fold (nrows (nth 0 Q [])). fold (nrows (mscale dt b)).
      rewrite nrows_mscale_any. congruence.
    + destruct HB as [HB _]. lia.
  - apply Nat.eqb_neq in Hone.
    assert (Hr : (2 <= rank sfs <= 5)%nat) by (unfold rank; rewrite Hs; lia).
    destruct (square_operators_dim dims Q sfs HQ Hs) as [HQl HQm].
    rewrite (update_step1_along sfs Q Hr Hwf HQl HQm). cbn [bind].
    set (sfs1 := axis_by_axis (fun k => mat_vec (nth k Q [])) (rank sfs) sfs).
    assert (Hs1 : shape sfs1 = dims) by (unfold sfs1; rewrite axis_by_axis_shape; exact Hs).
    assert (Hw1 : well_formed sfs1) by (apply axis_by_axis_wf; exact Hwf).
    assert (Hsrc : exists sfs2,
               match B with
               | B_ISM b => Ok (nd_add sfs1 (nd_scale dt b))
               | B_FG (FB_1D _) => Raise TypeError
               | B_FG (FB_ND bs) => add_reversible dt bs (length dims) sfs1
               end = Ok sfs2 /\ shape sfs2 = dims /\ well_formed sfs2).
    { destruct B as [b|[b|bs]]; cbn [fitting_term] in HB.
      - destruct HB as [Hb Hwb]. eexists. split; [reflexivity|].
        destruct (add_source_shaped dt sfs1 b Hw1) as [H1 H2]; try congruence.
        split; [congruence|exact H2].
      - destruct HB as [HB _]. lia.
      - destruct HB as (_ & Hl & Hbs).
        destruct (add_reversible_shaped dt bs (length dims) sfs1 Hl) as (sfs2 & H0 & H1 & H2);
          [rewrite Hs1; exact Hbs|exact Hw1|].
        exists sfs2. split; [exact H0|]. split; [congruence|exact H2]. }
    destruct Hsrc as (sfs2 & -> & Hs2 & Hw2). cbn [bind].
    assert (Hr2 : (2 <= rank sfs2 <= 5)%nat) by (unfold rank; rewrite Hs2; lia).
    rewrite (update_step2_neutral_along E sfs2 A Di C Hr2 Hw2)
      by (unfold rank; rewrite Hs2; lia).
    eexists. split; [reflexivity|].
    split; [rewrite axis_by_axis_shape; exact Hs2|apply axis_by_axis_wf; exact Hw2].
Qed.
(* ------------------------------------------------------------------ *)
(** ** The loops raise on a population size only *)

Lemma rebuild_at_start (t dt dt_old : Qc) (Nold N s_new s_old h_new h_old : vec) :
  nomig_rebuild_test t dt dt_old Nold N s_new s_old h_new h_old = Ok false -> t <> 0.
Proof.
  unfold nomig_rebuild_test. destruct (Qceqb t 0) eqn:Ht; cbn [por]; [discriminate|].
  intros _. apply Qceqb_false. exact Ht.
Qed.

Lemma neutral_rebuild_at_start (t dt dt_old : Qc) (Nold N : vec) :
  neutral_rebuild_test t dt dt_old Nold N = Ok false -> t <> 0.
Proof.
  unfold neutral_rebuild_test. destruct (Qceqb t 0) eqn:Ht; cbn [por]; [discriminate|].
  intros _. apply Qceqb_false. exact Ht.
Qed.

Lemma coefficient_shaped (np : nat) (s : sched) (previous : vec) (tau : Qc) :
  sched_ok np s -> length previous = np ->
  exists v, match s with
            | SFun f => f tau
            | SConst _ => Ok previous
            end = Ok v /\ length v = np.
Proof.
  intros Hs Hp. destruct s as [w|f]; [exists previous; auto|apply Hs].
Qed.

(** One pass through the loop of [integrate_nomig]; with sizes that are not
    a function of time the pass cannot fail, keeps the sizes and advances
    the time by the step proposed. *)
Lemma safe_nomig_iter (E : collaborators) (strict : bool) (dims : list nat) (inner : nat)
    (c : nomig_ctx) (st : nomig_state) :
  (strict = true -> callable (c_Npop c) = false) ->
  nomig_shaped_ctx E dims c -> nomig_shaped dims st ->
  safe strict
       (fun st' => nomig_shaped dims st' /\
                   (callable (c_Npop c) = false ->
                    n_N st' = n_N st /\
                    n_t st' = n_t st + propose_dt (compute_dt E (n_N st) (Some (n_s_new st))
                                                     (Some (n_h_new st)))
                                         (c_Tmax c) (c_dt_fac c) (n_t st)))
       (nomig_iter E inner c st).
Proof.
  intros Hstrict Hc Hst. unfold nomig_iter. rewrite (nc_dims Hc).
  set (np := length dims) in *.
  assert (Hnp : (1 <= np)%nat) by (destruct (nc_rank Hc); assumption).
  set (dt0 := propose_dt _ _ _ _).
  apply safe_rbind with
    (P := fun k => length (k_N k) = np /\ length (k_Neff k) = np /\
                   (callable (c_Npop c) = false -> k_dt k = dt0 /\ k_N k = n_N st)).
  { apply safe_adapt_sizes; try assumption.
    - exact (nc_Npop Hc).
    - intros f t0 t1 Hf. apply (sc_effective (nc_E Hc)). exact Hf.
    - exact (nh_N Hst).
    - exact (nh_Nold Hst).
    - exact (nh_Neff Hst). }
  intros k (HkN & HkE & Hkc).
  destruct (coefficient_shaped np (c_s c) (n_s_new st) ((n_t st + k_dt k / two) / two)
              (nc_s Hc) (nh_s_new Hst)) as (s_new & Hs & Hsl).
  apply (safe_lift_bind _ _ _ s_new _ Hs).
  destruct (coefficient_shaped np (c_h c) (n_h_new st) ((n_t st + k_dt k / two) / two)
              (nc_h Hc) (nh_h_new Hst)) as (h_new & Hh & Hhl).
  apply (safe_lift_bind _ _ _ h_new _ Hh).
  destruct (nomig_rebuild_test_ok (n_t st) (k_dt k) (n_dt st) (n_Nold st) (k_N k)
              s_new (n_s_old st) h_new (n_h_old st)) as (r & Hr).
  { rewrite (nh_Nold Hst). symmetry. exact HkN. }
  { rewrite (nh_s_old Hst). exact Hsl. }
  { rewrite (nh_h_old Hst). exact Hhl. }
  apply (safe_lift_bind _ _ _ r _ Hr).
  assert (Hops : exists D S1 S2 slv Q,
            (if r
             then D <- drift_ops np (k_Neff k) (c_vd c) ;;
                  S1 <- sel1_ops np s_new h_new (c_vs c) ;;
                  S2 <- sel2_ops np s_new h_new (c_vs2 c) ;;
                  slv <- implicit_systems np (k_dt k) D S1 S2 ;;
                  Q <- explicit_ops np (k_dt k) D S1 S2 ;;
                  Ok (D, S1, S2, Some slv, Some Q)
             else Ok (n_D st, n_S1 st, n_S2 st, n_slv st, n_Q st))
            = Ok (D, S1, S2, Some slv, Some Q) /\
            square_operators dims Q /\ square_operators dims slv).
  { destruct r.
    - destruct (nomig_operators_shaped E dims c (k_Neff k) s_new h_new (k_dt k) Hc HkE Hsl Hhl)
        as (D & S1 & S2 & slv & Q & Ho & HQ & Hslv).
      pose proof (nomig_rebuilt c (k_Neff k) s_new h_new (k_dt k)) as Hn.
      cbv zeta in Hn. rewrite (nc_dims Hc) in Hn. fold np in Hn.
      rewrite Hn, Ho. cbn [bind]. eauto 10.
    - apply rebuild_at_start in Hr. pose proof (nh_ops Hst) as Ho.
      destruct (n_Q st) as [Q|], (n_slv st) as [slv|]; try contradiction.
      destruct Ho as [HQ Hslv]. eauto 10. }
  destruct Hops as (D & S1 & S2 & slv & Q & Ho & HQ & Hslv).
  apply (safe_lift_bind _ _ _ _ _ Ho). cbv beta iota.
  destruct (nomig_update_shaped E dims (k_dt k) (c_B c) Q slv (n_sfs st)
              (nc_rank Hc) (nc_E Hc) (nc_B Hc) HQ Hslv (nh_shape Hst) (nh_wf Hst))
    as (sfs & Hu & Hsh & Hwf).
  fold np in Hu.
  apply (safe_lift_bind _ _ _ sfs); [cbn [bound bind]; exact Hu|].
  apply safe_ret. split.
  - constructor; cbn; try assumption. split; assumption.
  - intros Hcall. destruct (Hkc Hcall) as [Hdt HN]. cbn. rewrite Hdt. auto.
Qed.

(** One pass through the loop of [integrate_neutral]. *)
Lemma safe_neutral_iter (E : collaborators) (strict : bool) (dims : list nat) (inner : nat)
    (c : neutral_ctx) (st : neutral_state) :
  (strict = true -> callable (d_Npop c) = false) ->
  neutral_shaped_ctx E dims c -> neutral_shaped E dims st ->
  safe strict
       (fun st' => neutral_shaped E dims st' /\
                   (callable (d_Npop c) = false ->
                    m_N st' = m_N st /\
                    m_t st' = m_t st + propose_dt (compute_dt E (m_N st) None None)
                                         (d_Tmax c) (d_dt_fac c) (m_t st)))
       (neutral_iter E inner c st).
Proof.
  intros Hstrict Hc Hst. unfold neutral_iter. rewrite (mc_dims Hc).
  set (np := length dims) in *.
  assert (Hnp : (1 <= np)%nat) by (destruct (mc_rank Hc); assumption).
  set (dt0 := propose_dt _ _ _ _).
  apply safe_rbind with
    (P := fun k => length (k_N k) = np /\ length (k_Neff k) = np /\
                   (callable (d_Npop c) = false -> k_dt k = dt0 /\ k_N k = m_N st)).
  { apply safe_adapt_sizes; try assumption.
    - exact (mc_Npop Hc).
    - intros f t0 t1 Hf. apply (sc_effective (mc_E Hc)). exact Hf.
    - exact (mh_N Hst).
    - exact (mh_Nold Hst).
    - exact (mh_Neff Hst). }
  intros k (HkN & HkE & Hkc).
  destruct (neutral_rebuild_test_ok (m_t st) (k_dt k) (m_dt st) (m_Nold st) (k_N k))
    as (r & Hr).
  { rewrite (mh_Nold Hst). symmetry. exact HkN. }
  apply (safe_lift_bind _ _ _ r _ Hr).
  assert (Hops : exists D A Di C Q,
            (if r
             then D <- drift_ops np (k_Neff k) (d_vd c) ;;
                  f <- comprehension np
                         (neutral_diagonals E (k_dt k) (k_Neff k) dims (d_diags c)) ;;
                  Q <- neutral_explicit_ops np (k_dt k) dims D ;;
                  Ok (D, Some (map (fun x => fst (fst x)) f),
                      Some (map (fun x => snd (fst x)) f), Some (map snd f), Some Q)
             else Ok (m_D st, m_A st, m_Di st, m_C st, m_Q st))
            = Ok (D, Some A, Some Di, Some C, Some Q) /\
            square_operators dims Q /\
            length A = np /\ length Di = np /\ length C = np /\
            forall i, (i < np)%nat ->
              keeps_length (nth i dims 0%nat)
                (ts_solve E (nth i A []) (nth i Di []) (nth i C []))).
  { destruct r.
    - destruct (neutral_operators_shaped E dims c (k_Neff k) (k_dt k) Hc HkE)
        as (D & A & Di & C & Q & Ho & HQ & HA & HDi & HC & Hsolve).
      pose proof (neutral_rebuilt E c (k_Neff k) (k_dt k)) as Hn.
      cbv zeta in Hn. rewrite (mc_dims Hc) in Hn. fold np in Hn.
      rewrite Hn, Ho. cbn [bind]. exists D, A, Di, C, Q. auto 10.
    - apply neutral_rebuild_at_start in Hr. pose proof (mh_ops Hst) as Ho.
      destruct (m_Q st) as [Q|], (m_A st) as [A|], (m_Di st) as [Di|], (m_C st) as [C|];
        try contradiction.
      destruct Ho as (HQ & HA & HDi & HC & Hsolve).
      exists (m_D st), A, Di, C, Q. auto 10. }
  destruct Hops as (D & A & Di & C & Q & Ho & HQ & HA & HDi & HC & Hsolve).
  apply (safe_lift_bind _ _ _ _ _ Ho). cbv beta iota.
  destruct (neutral_update_shaped E dims (k_dt k) (d_B c) A Di C Q (m_sfs st)
              (mc_rank Hc) (mc_B Hc) HQ HA HDi HC Hsolve (mh_shape Hst) (mh_wf Hst))
    as (sfs & Hu & Hsh & Hwf).
  fold np in Hu.
  apply (safe_lift_bind _ _ _ sfs); [cbn [bound bind]; exact Hu|].
  apply safe_ret. split.
  - constructor; cbn; try assumption. auto 10.
  - intros Hcall. destruct (Hkc Hcall) as [Hdt HN]. cbn. rewrite Hdt. auto.
Qed.

Lemma safe_nomig_loop (E : collaborators) (dims : list nat) (inner fuel : nat)
    (c : nomig_ctx) :
  nomig_shaped_ctx E dims c ->
  forall st, nomig_shaped dims st ->
    safe false (nomig_shaped dims) (nomig_loop E inner fuel c st).
Proof.
  intros Hc. induction fuel as [|fuel IH]; intros st Hst; cbn [nomig_loop];
    destruct (Qcltb (n_t st) (c_Tmax c)); try (apply safe_ret; exact Hst);
    [apply safe_out_of_fuel|].
  apply safe_rbind with (P := nomig_shaped dims); [|exact IH].
  eapply safe_weaken; [|apply (safe_nomig_iter E false dims inner c st); auto; discriminate].
  intros st' [H _]. exact H.
Qed.

Lemma safe_neutral_loop (E : collaborators) (dims : list nat) (inner fuel : nat)
    (c : neutral_ctx) :
  neutral_shaped_ctx E dims c ->
  forall st, neutral_shaped E dims st ->
    safe false (neutral_shaped E dims) (neutral_loop E inner fuel c st).
Proof.
  intros Hc. induction fuel as [|fuel IH]; intros st Hst; cbn [neutral_loop];
    destruct (Qcltb (m_t st) (d_Tmax c)); try (apply safe_ret; exact Hst);
    [apply safe_out_of_fuel|].
  apply safe_rbind with (P := neutral_shaped E dims); [|exact IH].
  eapply safe_weaken; [|apply (safe_neutral_iter E false dims inner c st); auto; discriminate].
  intros st' [H _]. exact H.
Qed.

(* ------------------------------------------------------------------ *)
(** ** Before and after the loops *)

Lemma calcB_shaped (dims : list nat) (u : vec) (b : ndarray) :
  Forall (fun d => (2 <= d)%nat) dims -> length u = length dims ->
  _calcB dims u = Ok b -> shape b = dims /\ well_formed b.
Proof.
  intros Hd Hu. unfold _calcB.
  destruct (_calcB_loop_spec dims u (seq 0 (length dims)) Hd Hu (seq_NoDup _ _))
    with (B := nd_zeros dims) as (B & HB & Hs & Hw & _).
  - intros k Hk. apply in_seq in Hk. lia.
  - reflexivity.
  - apply nd_zeros_wf.
  - rewrite HB. intros [= <-]. auto.
Qed.

Lemma mutation_source_fits (E : collaborators) (dims : list nat) (u : vec) (v : option vec)
    (B : mutation_term) :
  Forall (fun d => (2 <= d)%nat) dims -> shaped_collaborators E dims ->
  length u = length dims -> (forall w, v = Some w -> length w = length dims) ->
  mutation_source E dims u v = Ok B -> fitting_term dims B.
Proof.
  intros Hd HE Hu Hv. unfold mutation_source. destruct v as [w|].
  - intros [= <-]. apply (sc_reversible HE); auto.
  - destruct (_calcB dims u) as [b| |] eqn:Hb; cbn [bind]; try discriminate.
    intros [= <-]. cbn [fitting_term]. apply (calcB_shaped dims u); assumption.
Qed.

Lemma first_test_raises {A : Type} (N : vec) (k : unit -> run A) (log : list event) :
  any_nonpositive N = true -> snd (rbind (test_sizes 0 N) k log) = Raise PopSizeError.
Proof. intros H. unfold rbind, test_sizes. rewrite H. reflexivity. Qed.

Lemma not_strict (strict : bool) (N : vec) :
  (strict = true -> all_positive N) -> any_nonpositive N = true -> strict = false.
Proof.
  intros Hpos HN. destruct strict; [|reflexivity].
  apply any_nonpositive_false in Hpos; [congruence|reflexivity].
Qed.

(** Lines 465-559. *)
Lemma safe_nomig_init (E : collaborators) (strict : bool) (a : nomig_args) (p : params) :
  (strict = true -> forall N0, eval_sched (p_Npop p) 0 = Ok N0 -> all_positive N0) ->
  nomig_args_ok a -> (1 <= rank (a_sfs0 a) <= 5)%nat ->
  shaped_collaborators E (shape (a_sfs0 a)) ->
  sched_ok (rank (a_sfs0 a)) (p_s p) -> sched_ok (rank (a_sfs0 a)) (p_Npop p) ->
  length (p_u p) = rank (a_sfs0 a) ->
  (forall w, p_v p = Some w -> length w = rank (a_sfs0 a)) ->
  safe strict
       (fun x => nomig_shaped_ctx E (shape (a_sfs0 a)) (fst x) /\
                 nomig_shaped (shape (a_sfs0 a)) (snd x) /\
                 c_Npop (fst x) = p_Npop p /\ c_Tmax (fst x) = a_tf a * two /\
                 c_dt_fac (fst x) = a_dt_fac a /\ n_t (snd x) = 0 /\
                 eval_sched (p_Npop p) 0 = Ok (n_N (snd x)))
       (nomig_init E a p).
Proof.
  intros Hstrict Hok Hrank HE Hs HN Hu Hv log.
  destruct (eval_sched_ok _ _ 0 HN) as (N0 & HN0 & HN0l).
  destruct (any_nonpositive N0) eqn:Hpos.
  - unfold nomig_init. rewrite (rbind_lift_Ok _ N0 _ log HN0).
    rewrite first_test_raises by exact Hpos. split; [|reflexivity].
    apply (not_strict strict N0); auto.
  - apply any_nonpositive_false in Hpos.
    destruct (nomig_init_spec E a p N0 log Hok Hs HN Hu HN0 Hpos)
      as (D & S1 & S2 & B & s0 & h0 & Hs0 & Hh0 & HB & ->).
    cbn [snd fst].
    destruct Hok as (Hin & Hg & Hh). destruct Hin as [Hwf Hdims _ _ _ _ _].
    unfold rank in *. set (dims := shape (a_sfs0 a)) in *.
    split.
    + constructor; cbn; try assumption; try reflexivity.
      * apply normalize_h_ok. exact Hh.
      * apply square_operators_map. exact (sc_drift HE).
      * rewrite map_combine_map. apply square_operators_map.
        eapply Forall_impl; [|exact (sc_selection HE)]. intros d [H _]. exact H.
      * rewrite map_combine_map. apply square_operators_map.
        eapply Forall_impl; [|exact (sc_selection HE)]. intros d [_ H]. exact H.
      * apply (mutation_source_fits E dims (p_u p) (p_v p)); assumption.
    + destruct (eval_sched_ok _ _ 0 Hs) as (s0' & Hs0' & Hs0l).
      destruct (eval_sched_ok _ _ 0 (normalize_h_ok _ _ Hh)) as (h0' & Hh0' & Hh0l).
      assert (s0' = s0) by congruence. assert (h0' = h0) by congruence. subst s0' h0'.
      split; [constructor; cbn; try assumption; reflexivity|].
      cbn. auto.
Qed.

(** Lines 695-757. *)
Lemma safe_neutral_init (E : collaborators) (strict : bool) (b : neutral_args)
    (p : params) :
  (strict = true -> forall N0, eval_sched (p_Npop p) 0 = Ok N0 -> all_positive N0) ->
  neutral_args_ok b -> (1 <= rank (b_sfs0 b) <= 5)%nat ->
  shaped_collaborators E (shape (b_sfs0 b)) ->
  sched_ok (rank (b_sfs0 b)) (p_Npop p) ->
  length (p_u p) = rank (b_sfs0 b) ->
  (forall w, p_v p = Some w -> length w = rank (b_sfs0 b)) ->
  safe strict
       (fun x => neutral_shaped_ctx E (shape (b_sfs0 b)) (fst x) /\
                 neutral_shaped E (shape (b_sfs0 b)) (snd x) /\
                 d_Npop (fst x) = p_Npop p /\ d_Tmax (fst x) = b_tf b * two /\
                 d_dt_fac (fst x) = b_dt_fac b /\ m_t (snd x) = 0 /\
                 eval_sched (p_Npop p) 0 = Ok (m_N (snd x)))
       (neutral_init E b p).
Proof.
  intros Hstrict Hok Hrank HE HN Hu Hv log.
  destruct (eval_sched_ok _ _ 0 HN) as (N0 & HN0 & HN0l).
  destruct (any_nonpositive N0) eqn:Hpos.
  - unfold neutral_init. rewrite (rbind_lift_Ok _ N0 _ log HN0).
    rewrite first_test_raises by exact Hpos. split; [|reflexivity].
    apply (not_strict strict N0); auto.
  - apply any_nonpositive_false in Hpos.
    destruct (neutral_init_spec E b p N0 log Hok HN Hu HN0 Hpos) as (D & B & HB & ->).
    cbn [snd fst].
    destruct Hok as [Hwf Hdims _ _ _ _ _].
    unfold rank in *. set (dims := shape (b_sfs0 b)) in *.
    split.
    + constructor; cbn; try assumption; try reflexivity.
      apply (mutation_source_fits E dims (p_u p) (p_v p)); assumption.
    + split; [constructor; cbn; try assumption; reflexivity|].
      cbn. auto.
Qed.

Lemma spectrum_returned (strict : bool) (sh : list nat) (sfs : ndarray) (corners : bool) :
  Forall (fun d => (2 <= d)%nat) sh -> shape sfs = sh -> well_formed sfs ->
  safe strict (fun sp => shape (sp_data sp) = sh /\ well_formed (sp_data sp))
       (lift (Spectrum sfs corners)).
Proof.
  intros Hd Hs Hwf log. unfold lift. cbn [snd].
  destruct (Spectrum_ok sfs corners) as (mask & ->).
  - unfold well_formed in Hwf. rewrite Hwf, Hs. apply size_of_pos. exact Hd.
  - cbn. auto.
Qed.

(** The two calls on well-formed arguments. *)
Lemma integrate_nomig_safe (E : collaborators) (fuel : nat) (a : nomig_args) :
  nomig_args_ok a -> (1 <= rank (a_sfs0 a) <= 5)%nat ->
  shaped_collaborators E (shape (a_sfs0 a)) ->
  safe false (fun sp => shape (sp_data sp) = shape (a_sfs0 a) /\ well_formed (sp_data sp))
       (integrate_nomig E fuel a).
Proof.
  intros Hok Hrank HE.
  destruct (nomig_params_spec a Hok)
    as (p & u0 & v0 & Hp & _ & Hs & HN & _ & _ & Hu & Hv & _).
  assert (Hd : Forall (fun d => (2 <= d)%nat) (shape (a_sfs0 a))).
  { destruct Hok as ([_ Hd _ _ _ _ _] & _). exact Hd. }
  unfold integrate_nomig. apply (safe_lift_bind _ _ _ p _ Hp).
  apply safe_rbind with
    (P := fun x => nomig_shaped_ctx E (shape (a_sfs0 a)) (fst x) /\
                   nomig_shaped (shape (a_sfs0 a)) (snd x));
    [eapply safe_weaken; [|apply (safe_nomig_init E false a p); auto; discriminate];
     intros x (H1 & H2 & _); auto|].
  intros [c st0] [Hc Hst]. cbn [fst snd] in Hc, Hst.
  apply safe_rbind with (P := nomig_shaped (shape (a_sfs0 a)));
    [apply (safe_nomig_loop E _ fuel fuel c Hc st0 Hst)|].
  intros st Hst'. apply spectrum_returned; [exact Hd|exact (nh_shape Hst')|].
  exact (nh_wf Hst').
Qed.

Lemma integrate_neutral_safe (E : collaborators) (fuel : nat) (b : neutral_args) :
  neutral_args_ok b -> (1 <= rank (b_sfs0 b) <= 5)%nat ->
  shaped_collaborators E (shape (b_sfs0 b)) ->
  safe false (fun sp => shape (sp_data sp) = shape (b_sfs0 b) /\ well_formed (sp_data sp))
       (integrate_neutral E fuel b).
Proof.
  intros Hok Hrank HE.
  destruct (neutral_params_spec b Hok)
    as (p & u0 & v0 & Hp & _ & HN & _ & Hu & Hv & _).
  assert (Hd : Forall (fun d => (2 <= d)%nat) (shape (b_sfs0 b))).
  { destruct Hok as [_ Hd _ _ _ _ _]. exact Hd. }
  unfold integrate_neutral. apply (safe_lift_bind _ _ _ p _ Hp).
  apply safe_rbind with
    (P := fun x => neutral_shaped_ctx E (shape (b_sfs0 b)) (fst x) /\
                   neutral_shaped E (shape (b_sfs0 b)) (snd x));
    [eapply safe_weaken; [|apply (safe_neutral_init E false b p); auto; discriminate];
     intros x (H1 & H2 & _); auto|].
  intros [c st0] [Hc Hst]. cbn [fst snd] in Hc, Hst.
  apply safe_rbind with (P := neutral_shaped E (shape (b_sfs0 b)));
    [apply (safe_neutral_loop E _ fuel fuel c Hc st0 Hst)|].
  intros st Hst'. apply spectrum_returned; [exact Hd|exact (mh_shape Hst')|].
  exact (mh_wf Hst').
Qed.

(** X12. A call of either integrator with well-formed arguments on a
    spectrum of one to five populations can fail in one way only: the error
    of a non-positive population size.  No index, shape, type, name or
    assertion error is raised: every vector has an entry per population when
    it is indexed, every operator has the size of its axis, [slv] and [Q]
    (and [A], [Di], [C]) are built at time 0 before they are first read, the
    asserts of the drivers hold, and the mutation term fits the number of
    populations.  A call that returns, returns a spectrum of the shape of
    [sfs0].  This is under the assumption that the collaborators return
    operators of the right sizes. *)
Theorem well_formed_calls_fail_on_sizes_only (E : collaborators) (fuel : nat)
    (a : nomig_args) (b : neutral_args) (log : list event) :
  (nomig_args_ok a -> (1 <= rank (a_sfs0 a) <= 5)%nat ->
   shaped_collaborators E (shape (a_sfs0 a)) ->
   size_error_only (shape (a_sfs0 a)) (snd (integrate_nomig E fuel a log))) /\
  (neutral_args_ok b -> (1 <= rank (b_sfs0 b) <= 5)%nat ->
   shaped_collaborators E (shape (b_sfs0 b)) ->
   size_error_only (shape (b_sfs0 b)) (snd (integrate_neutral E fuel b log))).
Proof.
  split; intros Hok Hrank HE.
  - pose proof (integrate_nomig_safe E fuel a Hok Hrank HE log) as H.
    unfold size_error_only.
    destruct (snd (integrate_nomig E fuel a log)); [exact H|apply H|exact I].
  - pose proof (integrate_neutral_safe E fuel b Hok Hrank HE log) as H.
    unfold size_error_only.
    destruct (snd (integrate_neutral E fuel b log)); [exact H|apply H|exact I].
Qed.

(* ------------------------------------------------------------------ *)
(** ** The sample collaborators return operators of the right sizes *)

Lemma thomas_forward_length (cp dp : Qc) (rows : list (Qc * Qc * Qc * Qc)) :
  length (thomas_forward cp dp rows) = length rows.
Proof.
  revert cp dp. induction rows as [|[[[a b] c] r] rows IH]; intros cp dp; [reflexivity|].
  cbn [thomas_forward length]. rewrite IH. reflexivity.
Qed.

Lemma thomas_back_length (l : list (Qc * Qc)) : length (thomas_back l) = length l.
Proof.
  induction l as [|[cp dp] l IH]; [reflexivity|]. cbn [thomas_back length].
  rewrite IH. reflexivity.
Qed.

Lemma thomas_length (n : nat) (a b c r : vec) :
  length a = n -> length b = n -> length c = n -> length r = n ->
  length (thomas a b c r) = n.
Proof.
  intros Ha Hb Hc Hr. unfold thomas.
  rewrite thomas_back_length, thomas_forward_length, !length_combine. lia.
Qed.

Lemma sample_mat_to_diag_length (M : matrix) :
  let '(d0, d1, d2) := sample_mat_to_diag M in
  length d0 = length M /\ length d1 = length M /\ length d2 = length M.
Proof. unfold sample_mat_to_diag. rewrite !length_map, length_seq. auto. Qed.

Lemma sample_calcD_square (d : nat) : is_matrix d d (sample_calcD d).
Proof.
  unfold is_matrix, sample_calcD. rewrite length_map, length_seq. split; [reflexivity|].
  apply Forall_map. apply Forall_forall. intros i _. rewrite length_map, length_seq.
  reflexivity.
Qed.

Lemma zero_matrix_square (r c : nat) : is_matrix r c (zero_matrix r c).
Proof.
  unfold is_matrix, zero_matrix. rewrite repeat_length. split; [reflexivity|].
  apply Forall_forall. intros row Hr. apply repeat_spec in Hr. subst row.
  apply repeat_length.
Qed.

Lemma sample_shaped (dims : list nat) :
  (2 <= length dims)%nat -> shaped_collaborators sample_collaborators dims.
Proof.
  intros Hnp. constructor; cbn [sample_collaborators calcD calcD_dense calcS calcS2
    factorized ts_mat_to_diag ts_factor ts_solve compute_N_effective _calcB_FB].
  - apply Forall_forall. intros d _. apply sample_calcD_square.
  - apply Forall_forall. intros d _. apply sample_calcD_square.
  - apply Forall_forall. intros d _. split; apply zero_matrix_square.
  - intros d M [HM _] x Hx. pose proof (sample_mat_to_diag_length M) as Hd.
    destruct (sample_mat_to_diag M) as [[d0 d1] d2]. destruct Hd as (H0 & H1 & H2).
    apply thomas_length; congruence.
  - apply Forall_forall. intros d _ c.
    pose proof (sample_mat_to_diag_length (sample_calcD d)) as Hd.
    destruct (sample_mat_to_diag (sample_calcD d)) as [[d0 d1] d2].
    destruct Hd as (H0 & H1 & H2).
    assert (Hl : length (sample_calcD d) = d) by (destruct (sample_calcD_square d); assumption).
    intros x Hx. apply thomas_length; try assumption.
    + rewrite vscale_length. congruence.
    + unfold vsub. rewrite length_map_combine; unfold ones; rewrite repeat_length;
        [reflexivity|]. rewrite vscale_length. congruence.
    + rewrite vscale_length. congruence.
  - intros f t0 t1 Hf. unfold sample_N_effective.
    destruct (Hf t0) as (Na & -> & Ha), (Hf t1) as (Nb & -> & Hb).
    rewrite length_map_combine; congruence.
  - intros u v _ _. destruct dims as [|d [|d' dims]]; cbn [length] in Hnp; try lia.
    cbn [fitting_term]. split; [cbn [length]; lia|]. rewrite length_map.
    split; [reflexivity|]. apply Forall_map. apply Forall_forall. intros n _.
    unfold nrows, zero_matrix. apply repeat_length.
Qed.

Lemma sample_neutral_2d_ok : neutral_args_ok sample_neutral_2d.
Proof.
  constructor; cbn; try exact I; try reflexivity.
  - repeat constructor.
  - left. reflexivity.
Qed.

(** X12 on two populations of three bins each. *)
Lemma well_formed_calls_fail_on_sizes_only_witness :
  size_error_only [3; 3]%nat (snd (integrate_nomig sample_collaborators 10 sample_nomig_2d [])) /\
  size_error_only [3; 3]%nat
    (snd (integrate_neutral sample_collaborators 10 sample_neutral_2d [])).
Proof.
  destruct (well_formed_calls_fail_on_sizes_only sample_collaborators 10 sample_nomig_2d
              sample_neutral_2d []) as [Ha Hb].
  split.
  - apply Ha; [exact sample_nomig_2d_ok|cbn; lia|apply sample_shaped; cbn; lia].
  - apply Hb; [exact sample_neutral_2d_ok|cbn; lia|apply sample_shaped; cbn; lia].
Defined.
(* ------------------------------------------------------------------ *)
(** ** Calls that return *)

Lemma steady_run_returns {A : Type} (P : A -> Prop) (c : run A) (log : list event) :
  safe true P c -> exists log' a, c log = (log', Ok a) /\ P a.
Proof.
  intros H. specialize (H log). destruct (c log) as [log' [a| e |]]; cbn [snd] in H.
  - eauto.
  - destruct H as [H _]. discriminate H.
  - discriminate H.
Qed.

(* ------------------------------------------------------------------ *)
(** ** [Spectrum.integrate]: the rates of the finite genome model *)

Lemma integrate_decide_with_rates (own : ndarray) (x : integrate_args) (theta : Qc) :
  i_finite_genome x = true -> rate_missing x = true ->
  i_theta x = RScalar theta -> theta < 1 ->
  integrate_decide own x
  = integrate_decide own (with_rates x (Some (RScalar theta)) (Some (RScalar theta))).
Proof.
  intros Hfg Hm Ht Hlt. unfold integrate_decide, integrate_rates.
  cbn [with_rates i_finite_genome i_theta_fd i_theta_bd i_theta rate_missing is_none orb].
  rewrite Hfg, Hm, Ht. cbn [andb].
  apply Qcleb_false in Hlt. rewrite Hlt. reflexivity.
Qed.

(** X14. Under the finite genome model with [theta_fd] or [theta_bd] left
    out: a number [theta >= 1] makes [Spectrum.integrate] raise its
    ValueError before anything is logged; with a number [theta < 1] the call
    is the call with [theta_fd = theta_bd = theta], so that a rate that was
    given is overwritten too; a list [theta] raises a TypeError (of
    [theta >= 1]). *)
Theorem missing_rate_taken_from_theta (E : collaborators) (O : outside) (fuel : nat)
    (self : spectrum) (x : integrate_args) (log : list event) :
  i_finite_genome x = true -> rate_missing x = true ->
  (forall theta, i_theta x = RScalar theta -> 1 <= theta ->
     Spectrum_integrate E O fuel self x log = (log, Failed ThetaError)) /\
  (forall theta, i_theta x = RScalar theta -> theta < 1 ->
     Spectrum_integrate E O fuel self x log
     = Spectrum_integrate E O fuel self
         (with_rates x (Some (RScalar theta)) (Some (RScalar theta))) log) /\
  (forall v, i_theta x = RVector v ->
     Spectrum_integrate E O fuel self x log = (log, Failed (Raised TypeError))).
Proof.
  intros Hfg Hm. split; [|split].
  - intros theta Ht Hle. unfold Spectrum_integrate, integrate_decide, integrate_rates.
    rewrite Hfg, Hm, Ht. cbn [andb]. apply Qcleb_true in Hle. rewrite Hle. reflexivity.
  - intros theta Ht Hlt. unfold Spectrum_integrate.
    rewrite (integrate_decide_with_rates (sp_data self) x theta Hfg Hm Ht Hlt).
    reflexivity.
  - intros v Ht. unfold Spectrum_integrate, integrate_decide, integrate_rates.
    rewrite Hfg, Hm, Ht. reflexivity.
Qed.

(** X14 on two populations, [theta_fd = 1/50] given and [theta = 1/100]. *)
Lemma missing_rate_taken_from_theta_witness :
  Spectrum_integrate sample_collaborators sample_outside 10 sample_self sample_integrate_fg []
  = Spectrum_integrate sample_collaborators sample_outside 10 sample_self
      (with_rates sample_integrate_fg (Some (RScalar (Q2Qc (1 # 100))))
                                      (Some (RScalar (Q2Qc (1 # 100))))) [].
Proof.
  destruct (missing_rate_taken_from_theta sample_collaborators sample_outside 10 sample_self
              sample_integrate_fg [] eq_refl eq_refl) as (_ & H & _).
  apply (H (Q2Qc (1 # 100)) eq_refl). reflexivity.
Defined.
(* ------------------------------------------------------------------ *)
(** ** [Spectrum.integrate]: arguments that are not looked at *)

Lemma all_zero_matrix_zero (r c : nat) : all_zero_matrix (zero_matrix r c) = true.
Proof.
  unfold all_zero_matrix, zero_matrix. apply forallb_forall. intros row Hrow.
  apply repeat_spec in Hrow. subst row. apply forallb_forall. intros y Hy.
  apply repeat_spec in Hy. subst y. reflexivity.
Qed.

(** Without migration the last branch of the method is not taken. *)
Lemma integrate_call_no_migration (own : ndarray) (x : integrate_args)
    (theta_fd theta_bd : option rate) :
  no_migration (i_m x) ->
  integrate_call own x theta_fd theta_bd
  = integrate_call own (with_migration x None false) theta_fd theta_bd.
Proof.
  intros Hm. unfold integrate_call.
  cbn [with_migration i_gamma i_h i_m].
  destruct (rank own =? 1)%nat; [reflexivity|].
  rewrite all_zero_matrix_zero.
  destruct (i_m x) as [m|]; cbn [no_migration] in Hm.
  - rewrite Hm. reflexivity.
  - rewrite all_zero_matrix_zero. reflexivity.
Qed.

Lemma integrate_decide_no_migration (own : ndarray) (x : integrate_args) :
  no_migration (i_m x) ->
  integrate_decide own x = integrate_decide own (with_migration x None false).
Proof.
  intros Hm. unfold integrate_decide.
  change (integrate_rates (with_migration x None false)) with (integrate_rates x).
  change (integrate_frozen (with_migration x None false)) with (integrate_frozen x).
  destruct (integrate_rates x) as [[fd bd]|e|]; [|reflexivity|reflexivity].
  destruct (integrate_frozen x); [|reflexivity|reflexivity].
  rewrite (integrate_call_no_migration own x fd bd Hm). reflexivity.
Qed.

(** X15. What [Spectrum.integrate] does not look at.  On one population
    [m] and [adapt_dt] are ignored, whatever they are.  On any number of
    populations, a matrix [m] of zeros is as good as no [m], and [adapt_dt]
    is then ignored.  Where the method calls [integrate_neutral], [h] is
    ignored. *)
Theorem migration_and_dominance_ignored (E : collaborators) (O : outside) (fuel : nat)
    (self : spectrum) (x : integrate_args) (log : list event) :
  (rank (sp_data self) = 1%nat ->
   forall m adapt_dt,
     Spectrum_integrate E O fuel self (with_migration x m adapt_dt) log
     = Spectrum_integrate E O fuel self x log) /\
  (no_migration (i_m x) ->
   forall adapt_dt,
     Spectrum_integrate E O fuel self (with_migration x None adapt_dt) log
     = Spectrum_integrate E O fuel self x log) /\
  (forall b, integrate_decide (sp_data self) x = Done (CallNeutral b) ->
   forall h,
     Spectrum_integrate E O fuel self (with_h x h) log
     = Spectrum_integrate E O fuel self x log).
Proof.
  split; [|split].
  - intros Hr m adapt_dt. unfold Spectrum_integrate, integrate_decide.
    change (integrate_rates (with_migration x m adapt_dt)) with (integrate_rates x).
    change (integrate_frozen (with_migration x m adapt_dt)) with (integrate_frozen x).
    destruct (integrate_rates x) as [[fd bd]|e|]; [|reflexivity|reflexivity].
    destruct (integrate_frozen x); [|reflexivity|reflexivity].
    unfold integrate_call. rewrite Hr. reflexivity.
  - intros Hm adapt_dt. unfold Spectrum_integrate.
    rewrite (integrate_decide_no_migration (sp_data self) x Hm).
    assert (H : integrate_decide (sp_data self) (with_migration x None adapt_dt)
                = integrate_decide (sp_data self) (with_migration x None false)).
    { unfold integrate_decide.
      change (integrate_rates (with_migration x None adapt_dt)) with (integrate_rates x).
      change (integrate_rates (with_migration x None false)) with (integrate_rates x).
      change (integrate_frozen (with_migration x None adapt_dt)) with (integrate_frozen x).
      change (integrate_frozen (with_migration x None false)) with (integrate_frozen x).
      destruct (integrate_rates x) as [[fd bd]|e|]; [|reflexivity|reflexivity].
      destruct (integrate_frozen x); [|reflexivity|reflexivity].
      unfold integrate_call. cbn [with_migration i_gamma i_h i_m].
      destruct (rank (sp_data self) =? 1)%nat; [reflexivity|].
      rewrite all_zero_matrix_zero. reflexivity. }
    rewrite H. reflexivity.
  - intros b Hb h. unfold Spectrum_integrate.
    assert (H : integrate_decide (sp_data self) (with_h x h) = Done (CallNeutral b)).
    { revert Hb. unfold integrate_decide.
      change (integrate_rates (with_h x h)) with (integrate_rates x).
      change (integrate_frozen (with_h x h)) with (integrate_frozen x).
      destruct (integrate_rates x) as [[fd bd]|e|]; [|discriminate|discriminate].
      destruct (integrate_frozen x); [|discriminate|discriminate].
      unfold integrate_call. cbn [with_h i_gamma i_h i_m].
      destruct (rank (sp_data self) =? 1)%nat.
      - destruct (is_zero_number _); [|discriminate]. intros Hb. exact Hb.
      - destruct (all_zero_matrix _); [|discriminate].
        destruct (all_zero_coeff _ && _); [|discriminate]. intros Hb. exact Hb. }
    rewrite H, Hb. reflexivity.
Qed.

(** X15 on two populations with a matrix of zeros. *)
Lemma migration_and_dominance_ignored_witness :
  Spectrum_integrate sample_collaborators sample_outside 10 sample_self
    (with_migration sample_integrate_zero_m None true) []
  = Spectrum_integrate sample_collaborators sample_outside 10 sample_self
      sample_integrate_zero_m [].
Proof.
  destruct (migration_and_dominance_ignored sample_collaborators sample_outside 10
              sample_self sample_integrate_zero_m []) as (_ & H & _).
  apply H. reflexivity.
Defined.
(* ------------------------------------------------------------------ *)
(** ** [Spectrum.integrate]: the spectrum after the call *)

Lemma integrate_rates_spec (np : nat) (x : integrate_args) :
  (forall r, i_theta_fd x = Some r -> rate_ok np r) ->
  (forall r, i_theta_bd x = Some r -> rate_ok np r) ->
  match integrate_rates x with
  | Done (theta_fd, theta_bd) =>
      opt_rate_ok np (i_finite_genome x) theta_fd /\
      opt_rate_ok np (i_finite_genome x) theta_bd
  | Failed ThetaError =>
      i_finite_genome x = true /\ rate_missing x = true /\
      exists theta, i_theta x = RScalar theta /\ 1 <= theta
  | Failed FrozenError => False
  | Failed (Raised e) =>
      e = TypeError /\ i_finite_genome x = true /\ rate_missing x = true /\
      exists v, i_theta x = RVector v
  | Unfinished => False
  end.
Proof.
  intros Hfd Hbd. unfold integrate_rates, opt_rate_ok.
  destruct (i_finite_genome x) eqn:Hfg; cbn [andb]; [|split; exact I].
  destruct (rate_missing x) eqn:Hm.
  - destruct (i_theta x) as [theta|v] eqn:Ht.
    + destruct (Qcleb 1 theta) eqn:Hle.
      * apply Qcleb_true in Hle. repeat split. exists theta. split; [reflexivity|exact Hle].
      * split; eexists; (split; [reflexivity|exact I]).
    + repeat split. exists v. reflexivity.
  - unfold rate_missing in Hm. apply Bool.orb_false_iff in Hm. destruct Hm as [H1 H2].
    destruct (i_theta_fd x) as [fd|]; [|discriminate H1].
    destruct (i_theta_bd x) as [bd|]; [|discriminate H2].
    split; eexists; (split; [reflexivity|]); [apply Hfd|apply Hbd]; reflexivity.
Qed.

Lemma integrate_frozen_spec (np : nat) (x : integrate_args) :
  popsize_ok np (i_Npop x) ->
  match integrate_frozen x with
  | Done _ => frozen_ok np (i_frozen x)
  | Failed FrozenError => any_frozen (i_frozen x) = true /\ length (i_frozen x) <> np
  | Failed _ => False
  | Unfinished => False
  end.
Proof.
  intros HN. unfold integrate_frozen, frozen_ok.
  assert (Hp : match i_Npop x with NConst N => length N | NFun f => length (f 0) end = np).
  { destruct (i_Npop x) as [N|f]; cbn [popsize_ok] in HN; [exact HN|apply HN]. }
  rewrite Hp. destruct (any_frozen (i_frozen x)); cbn [andb]; [|left; reflexivity].
  destruct (np =? length (i_frozen x))%nat eqn:Hl; cbn [negb].
  - apply Nat.eqb_eq in Hl. right. symmetry. exact Hl.
  - apply Nat.eqb_neq in Hl. split; [reflexivity|]. intros H. apply Hl. symmetry. exact H.
Qed.

Lemma shape_eqb_refl (s : list nat) : shape_eqb s s = true.
Proof. unfold shape_eqb. destruct (list_eq_dec Nat.eq_dec s s) as [_|H]; [reflexivity|]. now destruct H. Qed.

(** The assignment of a result of the shape of [self]. *)
Lemma assigned_in_place (O : outside) (self : spectrum) (x : integrate_args)
    (c : run spectrum) (log : list event) :
  safe false (fun sp => shape (sp_data sp) = shape (sp_data self) /\ well_formed (sp_data sp)) c ->
  ends_in_place self x (snd (assign_result O self (c log))) /\
  forall O', assign_result O' self (c log) = assign_result O self (c log).
Proof.
  intros Hc. specialize (Hc log). unfold assign_result.
  destruct (c log) as [log' [result|e|]]; cbn [snd] in Hc.
  - destruct Hc as [Hs Hwf]. unfold assign_data. rewrite Hs, shape_eqb_refl. split.
    + cbn. split; [reflexivity|]. split; [reflexivity|].
      unfold well_formed in *. cbn [shape data]. rewrite <- Hs. exact Hwf.
    + intros O'. reflexivity.
  - destruct Hc as [_ He]. subst e. split; [left; reflexivity|intros; reflexivity].
  - split; [exact I|intros; reflexivity].
Qed.

Lemma zeros_length (n : nat) : length (zeros n) = n.
Proof. apply repeat_length. Qed.

Lemma ones_length (n : nat) : length (ones n) = n.
Proof. apply repeat_length. Qed.

(** X16. [Spectrum.integrate] without migration, on one to five populations
    and arguments of the right lengths: if the call returns, [self] has the
    mask and the shape it had, and as many entries as its shape asks for;
    the method fails with one of its two ValueErrors, with the ValueError
    of the population sizes, or with the TypeError of a list [theta] under
    the finite genome model with a rate left out, and with nothing else.
    Neither [integrate_nD] nor broadcasting takes part.  The collaborators
    are assumed to return operators of the right sizes. *)
Theorem integrate_in_place (E : collaborators) (O : outside) (fuel : nat)
    (self : spectrum) (x : integrate_args) (log : list event) :
  integrate_args_ok self x -> no_migration (i_m x) ->
  (1 <= rank (sp_data self) <= 5)%nat ->
  shaped_collaborators E (shape (sp_data self)) ->
  ends_in_place self x (snd (Spectrum_integrate E O fuel self x log)) /\
  forall O', Spectrum_integrate E O' fuel self x log = Spectrum_integrate E O fuel self x log.
Proof.
  intros [Hwf Hbins HN Hg Hh Ht Hfd Hbd] Hm Hrank HE. unfold Spectrum_integrate.
  rewrite (integrate_decide_no_migration (sp_data self) x Hm). unfold integrate_decide.
  change (integrate_rates (with_migration x None false)) with (integrate_rates x).
  change (integrate_frozen (with_migration x None false)) with (integrate_frozen x).
  pose proof (integrate_rates_spec (rank (sp_data self)) x Hfd Hbd) as Hr.
  destruct (integrate_rates x) as [[fd bd]|e|].
  2: { split; [|reflexivity]. destruct e as [| |e]; cbn [snd ends_in_place].
       - exact Hr.
       - destruct Hr.
       - right. exact Hr. }
  2: { destruct Hr. }
  destruct Hr as [Hfd' Hbd'].
  pose proof (integrate_frozen_spec (rank (sp_data self)) x HN) as Hf.
  destruct (integrate_frozen x) as [_|e|].
  2: { split; [|reflexivity]. destruct e as [| |e]; cbn [snd ends_in_place].
       - destruct Hf.
       - exact Hf.
       - destruct Hf. }
  2: { destruct Hf. }
  assert (Hin : inputs_ok (sp_data self) (i_Npop x) (i_theta x) (i_finite_genome x)
                  fd bd (i_frozen x)).
  { constructor; assumption. }
  assert (Hneutral : forall O0,
            call_integrator E O0 fuel (CallNeutral (neutral_call (sp_data self) x fd bd))
            = integrate_neutral E fuel (neutral_call (sp_data self) x fd bd))
    by reflexivity.
  assert (Hsafe_neutral :
            safe false (fun sp => shape (sp_data sp) = shape (sp_data self) /\
                                  well_formed (sp_data sp))
                 (integrate_neutral E fuel (neutral_call (sp_data self) x fd bd))).
  { apply (integrate_neutral_safe E fuel (neutral_call (sp_data self) x fd bd));
      [exact Hin|exact Hrank|exact HE]. }
  assert (Hsafe_nomig : forall gamma h,
            coeff_ok (rank (sp_data self)) gamma -> coeff_ok (rank (sp_data self)) h ->
            safe false (fun sp => shape (sp_data sp) = shape (sp_data self) /\
                                  well_formed (sp_data sp))
                 (integrate_nomig E fuel (nomig_call (sp_data self) x gamma h fd bd))).
  { intros gamma h Hg' Hh'.
    apply (integrate_nomig_safe E fuel (nomig_call (sp_data self) x gamma h fd bd));
      [split; [exact Hin|split; assumption]|exact Hrank|exact HE]. }
  unfold integrate_call. cbn [with_migration i_gamma i_h i_m].
  destruct (rank (sp_data self) =? 1)%nat.
  - destruct (is_zero_number _).
    + cbn [call_integrator].
      destruct (assigned_in_place O self x _ log Hsafe_neutral) as [H1 H2].
      split; [exact H1|]. intros O'. apply H2.
    + cbn [call_integrator].
      assert (Hs : safe false (fun sp => shape (sp_data sp) = shape (sp_data self) /\
                                  well_formed (sp_data sp))
                 (integrate_nomig E fuel
                    (nomig_call (sp_data self) x
                       match i_gamma x with CNone => CScalar 0 | g => g end
                       match i_h x with CNone => CScalar half | h => h end fd bd))).
      { apply Hsafe_nomig.
        - destruct (i_gamma x); try exact Hg; exact I.
        - destruct (i_h x); try exact Hh; exact I. }
      destruct (assigned_in_place O self x _ log Hs) as [H1 H2].
      split; [exact H1|]. intros O'. apply H2.
  - rewrite all_zero_matrix_zero.
    destruct (all_zero_coeff _ && _).
    + cbn [call_integrator].
      destruct (assigned_in_place O self x _ log Hsafe_neutral) as [H1 H2].
      split; [exact H1|]. intros O'. apply H2.
    + cbn [call_integrator].
      assert (Hs : safe false (fun sp => shape (sp_data sp) = shape (sp_data self) /\
                                  well_formed (sp_data sp))
                 (integrate_nomig E fuel
                    (nomig_call (sp_data self) x
                       match i_gamma x with
                       | CNone => CVector (zeros (rank (sp_data self))) | g => g end
                       match i_h x with
                       | CNone => CVector (vscale half (ones (rank (sp_data self)))) | h => h end
                       fd bd))).
      { apply Hsafe_nomig.
        - destruct (i_gamma x); try exact Hg. cbn [coeff_ok]. apply zeros_length.
        - destruct (i_h x); try exact Hh. cbn [coeff_ok].
          rewrite vscale_length. apply ones_length. }
      destruct (assigned_in_place O self x _ log Hs) as [H1 H2].
      split; [exact H1|]. intros O'. apply H2.
Qed.

Lemma sample_integrate_ok : integrate_args_ok sample_self sample_integrate_zero_m.
Proof.
  constructor; cbn; try exact I; try reflexivity; try discriminate.
  repeat constructor.
Qed.

(** X16 on two populations of three bins each. *)
Lemma integrate_in_place_witness :
  ends_in_place sample_self sample_integrate_zero_m
    (snd (Spectrum_integrate sample_collaborators sample_outside 10 sample_self
            sample_integrate_zero_m [])) /\
  forall O',
    Spectrum_integrate sample_collaborators O' 10 sample_self sample_integrate_zero_m []
    = Spectrum_integrate sample_collaborators sample_outside 10 sample_self
        sample_integrate_zero_m [].
Proof.
  apply integrate_in_place.
  - exact sample_integrate_ok.
  - reflexivity.
  - cbn. lia.
  - apply sample_shaped. cbn. lia.
Defined.
(* ------------------------------------------------------------------ *)
(** ** [Spectrum.integrate]: the integrator picked without selection *)

Lemma assign_result_agree (O : outside) (self : spectrum)
    (r r' : list event * outcome spectrum) :
  snd r = snd r' /\ map anonymous (fst r) = map anonymous (fst r') ->
  snd (assign_result O self r) = snd (assign_result O self r') /\
  map anonymous (fst (assign_result O self r)) = map anonymous (fst (assign_result O self r')).
Proof.
  destruct r as [l o], r' as [l' o']. cbn [fst snd]. intros [Ho Hl]. subst o'.
  unfold assign_result. destruct o as [result|e|]; cbn [fst snd].
  - destruct (assign_data O (sp_data self) (sp_data result)); cbn [fst snd];
      (split; [reflexivity|exact Hl]).
  - split; [reflexivity|exact Hl].
  - split; [reflexivity|exact Hl].
Qed.

(** Without selection and without migration, the integrator called ends as
    [integrate_neutral] does. *)
Lemma call_without_selection (E : collaborators) (O : outside) (fuel : nat)
    (own : ndarray) (x : integrate_args) (theta_fd theta_bd : option rate)
    (log : list event) :
  inputs_ok own (i_Npop x) (i_theta x) (i_finite_genome x) theta_fd theta_bd (i_frozen x) ->
  coeff_ok (rank own) (i_gamma x) -> coeff_ok (rank own) (i_h x) ->
  no_migration (i_m x) ->
  zero_selection (i_gamma x) -> is_callable (i_h x) = false ->
  (1 <= rank own)%nat ->
  (rank own = 1%nat -> i_finite_genome x = false) ->
  Forall (agreeing_axis E) (shape own) -> neutral_bound E ->
  snd (call_integrator E O fuel (integrate_call own x theta_fd theta_bd) log)
  = snd (integrate_neutral E fuel (neutral_call own x theta_fd theta_bd) log) /\
  map anonymous (fst (call_integrator E O fuel (integrate_call own x theta_fd theta_bd) log))
  = map anonymous (fst (integrate_neutral E fuel (neutral_call own x theta_fd theta_bd) log)).
Proof.
  intros Hin Hg Hh Hm Hz Hc Hrank H1 Hax Hb.
  assert (Hnomig : forall gamma h,
            coeff_ok (rank own) gamma -> coeff_ok (rank own) h ->
            zero_selection gamma -> is_callable h = false ->
            snd (integrate_nomig E fuel (nomig_call own x gamma h theta_fd theta_bd) log)
            = snd (integrate_neutral E fuel (neutral_call own x theta_fd theta_bd) log) /\
            map anonymous
              (fst (integrate_nomig E fuel (nomig_call own x gamma h theta_fd theta_bd) log))
            = map anonymous
              (fst (integrate_neutral E fuel (neutral_call own x theta_fd theta_bd) log))).
  { intros gamma h Hg' Hh' Hz' Hc'.
    change (neutral_call own x theta_fd theta_bd)
      with (neutral_of (nomig_call own x gamma h theta_fd theta_bd)).
    apply alike_runs, integrators_alike; try assumption.
    split; [exact Hin|split; assumption]. }
  rewrite (integrate_call_no_migration own x theta_fd theta_bd Hm).
  unfold integrate_call. cbn [with_migration i_gamma i_h i_m].
  destruct (rank own =? 1)%nat.
  - destruct (is_zero_number _); cbn [call_integrator].
    + split; reflexivity.
    + apply (Hnomig match i_gamma x with CNone => CScalar 0 | g => g end
                    match i_h x with CNone => CScalar half | h => h end).
      * destruct (i_gamma x); try exact Hg; exact I.
      * destruct (i_h x); try exact Hh; exact I.
      * destruct (i_gamma x); try exact Hz; reflexivity.
      * destruct (i_h x); try exact Hc; reflexivity.
  - rewrite all_zero_matrix_zero.
    destruct (all_zero_coeff _ && _); cbn [call_integrator].
    + split; reflexivity.
    + apply (Hnomig match i_gamma x with CNone => CVector (zeros (rank own)) | g => g end
                    match i_h x with
                    | CNone => CVector (vscale half (ones (rank own))) | h => h end).
      * destruct (i_gamma x); try exact Hg. cbn [coeff_ok]. apply zeros_length.
      * destruct (i_h x); try exact Hh. cbn [coeff_ok].
        rewrite vscale_length. apply ones_length.
      * destruct (i_gamma x); try exact Hz. cbn [zero_selection]. apply all_zero_repeat.
      * destruct (i_h x); try exact Hc; reflexivity.
Qed.

(** X17. Without migration, how the absence of selection is written does
    not change what [Spectrum.integrate] does to the spectrum: [gamma]
    left out, the number 0, a list of zeros or a function of time returning
    zeros, with any dominance that is not a function of time, end alike
    (the same spectrum, or the same exception, or both out of fuel, and the
    same sizes tested and warnings printed but for the name of the
    function), although the method calls [integrate_neutral] for some of
    them and [integrate_nomig] for others.  Under the finite genome model
    this needs two populations or more; the collaborators are assumed to
    agree on every axis. *)
Theorem zero_selection_however_written (E : collaborators) (O : outside) (fuel : nat)
    (self : spectrum) (x : integrate_args) (gamma h : coeff) (log : list event) :
  integrate_args_ok self x ->
  coeff_ok (rank (sp_data self)) gamma -> coeff_ok (rank (sp_data self)) h ->
  no_migration (i_m x) ->
  zero_selection (i_gamma x) -> zero_selection gamma ->
  is_callable (i_h x) = false -> is_callable h = false ->
  (1 <= rank (sp_data self))%nat ->
  (rank (sp_data self) = 1%nat -> i_finite_genome x = false) ->
  Forall (agreeing_axis E) (shape (sp_data self)) -> neutral_bound E ->
  snd (Spectrum_integrate E O fuel self (with_selection x gamma h) log)
  = snd (Spectrum_integrate E O fuel self x log) /\
  map anonymous (fst (Spectrum_integrate E O fuel self (with_selection x gamma h) log))
  = map anonymous (fst (Spectrum_integrate E O fuel self x log)).
Proof.
  intros [Hwf Hbins HN Hg Hh Ht Hfd Hbd] Hg' Hh' Hm Hz Hz' Hc Hc' Hrank H1 Hax Hb.
  unfold Spectrum_integrate, integrate_decide.
  change (integrate_rates (with_selection x gamma h)) with (integrate_rates x).
  change (integrate_frozen (with_selection x gamma h)) with (integrate_frozen x).
  pose proof (integrate_rates_spec (rank (sp_data self)) x Hfd Hbd) as Hr.
  destruct (integrate_rates x) as [[fd bd]|e|]; [|split; reflexivity|split; reflexivity].
  destruct Hr as [Hfd' Hbd'].
  pose proof (integrate_frozen_spec (rank (sp_data self)) x HN) as Hf.
  destruct (integrate_frozen x) as [_|e|]; [|split; reflexivity|split; reflexivity].
  assert (Hin : inputs_ok (sp_data self) (i_Npop x) (i_theta x) (i_finite_genome x)
                  fd bd (i_frozen x)).
  { constructor; assumption. }
  apply assign_result_agree.
  destruct (call_without_selection E O fuel (sp_data self) x fd bd log
              Hin Hg Hh Hm Hz Hc Hrank H1 Hax Hb) as [Ho Hl].
  destruct (call_without_selection E O fuel (sp_data self) (with_selection x gamma h) fd bd log
              Hin Hg' Hh' Hm Hz' Hc' Hrank H1 Hax Hb) as [Ho' Hl'].
  change (neutral_call (sp_data self) (with_selection x gamma h) fd bd)
    with (neutral_call (sp_data self) x fd bd) in Ho', Hl'.
  split; [rewrite Ho', Ho; reflexivity|rewrite Hl', Hl; reflexivity].
Qed.

Lemma sample_integrate_2d_ok : integrate_args_ok sample_self sample_integrate_2d.
Proof.
  constructor; cbn; try exact I; try reflexivity; try discriminate.
  repeat constructor.
Qed.

(** X17 on two populations: [gamma] left out, for which the method calls
    [integrate_neutral], and a function of time returning zeros, for which
    it calls [integrate_nomig]. *)
Lemma zero_selection_however_written_witness :
  snd (Spectrum_integrate sample_collaborators sample_outside 10 sample_self
         (with_selection sample_integrate_2d (CFunVector (fun _ => [0; 0])) CNone) [])
  = snd (Spectrum_integrate sample_collaborators sample_outside 10 sample_self
           sample_integrate_2d []) /\
  map anonymous
    (fst (Spectrum_integrate sample_collaborators sample_outside 10 sample_self
            (with_selection sample_integrate_2d (CFunVector (fun _ => [0; 0])) CNone) []))
  = map anonymous
      (fst (Spectrum_integrate sample_collaborators sample_outside 10 sample_self
              sample_integrate_2d [])).
Proof.
  apply zero_selection_however_written.
  - exact sample_integrate_2d_ok.
  - intros t. reflexivity.
  - exact I.
  - exact I.
  - exact I.
  - intros t. repeat constructor.
  - reflexivity.
  - reflexivity.
  - cbn. lia.
  - cbn. discriminate.
  - constructor; [exact sample_agreeing_axis|].
    constructor; [exact sample_agreeing_axis|]. constructor.
  - exact sample_neutral_bound.
Defined.

(* ------------------------------------------------------------------ *)
(** ** Runs in sequence *)

Lemma rbind_assoc {A B C : Type} (c : run A) (k : A -> run B) (k' : B -> run C)
    (log : list event) :
  rbind (rbind c k) k' log = rbind c (fun a => rbind (k a) k') log.
Proof. unfold rbind. destruct (c log) as [l [a|e|]]; reflexivity. Qed.

Lemma rbind_ext {A B : Type} (c : run A) (k k' : A -> run B) (log : list event) :
  (forall a l, k a l = k' a l) -> rbind c k log = rbind c k' log.
Proof. intros H. unfold rbind. destruct (c log) as [l [a|e|]]; [apply H|reflexivity ..]. Qed.

Lemma rbind_ret_r {A : Type} (c : run A) (log : list event) :
  rbind c (fun a => ret a) log = c log.
Proof. unfold rbind, ret. destruct (c log) as [l [a|e|]]; reflexivity. Qed.

(* ------------------------------------------------------------------ *)
(** ** The loops, pass by pass *)

Lemma nomig_loop_passes (E : collaborators) (inner : nat) (c : nomig_ctx) (n : nat) :
  forall (fuel : nat) (st : nomig_state) (log : list event),
    (n <= fuel)%nat ->
    nomig_loop E inner fuel c st log
    = rbind (nomig_passes E inner n c st) (nomig_loop E inner (fuel - n) c) log.
Proof.
  induction n as [|n IH]; intros fuel st log Hn.
  - rewrite Nat.sub_0_r. reflexivity.
  - destruct fuel as [|fuel]; [lia|]. cbn [nomig_loop nomig_passes Nat.sub].
    destruct (Qcltb (n_t st) (c_Tmax c)) eqn:Hc.
    + rewrite rbind_assoc. apply rbind_ext. intros st1 l. apply IH. lia.
    + rewrite rbind_ret. destruct (fuel - n)%nat; cbn [nomig_loop]; rewrite Hc; reflexivity.
Qed.

Lemma neutral_loop_passes (E : collaborators) (inner : nat) (c : neutral_ctx) (n : nat) :
  forall (fuel : nat) (st : neutral_state) (log : list event),
    (n <= fuel)%nat ->
    neutral_loop E inner fuel c st log
    = rbind (neutral_passes E inner n c st) (neutral_loop E inner (fuel - n) c) log.
Proof.
  induction n as [|n IH]; intros fuel st log Hn.
  - rewrite Nat.sub_0_r. reflexivity.
  - destruct fuel as [|fuel]; [lia|]. cbn [neutral_loop neutral_passes Nat.sub].
    destruct (Qcltb (m_t st) (d_Tmax c)) eqn:Hc.
    + rewrite rbind_assoc. apply rbind_ext. intros st1 l. apply IH. lia.
    + rewrite rbind_ret. destruct (fuel - n)%nat; cbn [neutral_loop]; rewrite Hc; reflexivity.
Qed.

Lemma nomig_passes_succ (E : collaborators) (inner : nat) (c : nomig_ctx) (n : nat) :
  forall (st : nomig_state) (log : list event),
    nomig_passes E inner (S n) c st log
    = rbind (nomig_passes E inner n c st)
        (fun st' => if Qcltb (n_t st') (c_Tmax c) then nomig_iter E inner c st' else ret st')
        log.
Proof.
  induction n as [|n IH]; intros st log.
  - cbn [nomig_passes]. rewrite rbind_ret.
    destruct (Qcltb (n_t st) (c_Tmax c)); [apply rbind_ret_r|reflexivity].
  - change (nomig_passes E inner (S (S n)) c st log)
      with ((if Qcltb (n_t st) (c_Tmax c)
             then st' <~ nomig_iter E inner c st ;; nomig_passes E inner (S n) c st'
             else ret st) log).
    cbn [nomig_passes]. destruct (Qcltb (n_t st) (c_Tmax c)) eqn:Hc.
    + rewrite rbind_assoc. apply rbind_ext. intros st1 l. apply IH.
    + rewrite rbind_ret. rewrite Hc. reflexivity.
Qed.

Lemma neutral_passes_succ (E : collaborators) (inner : nat) (c : neutral_ctx) (n : nat) :
  forall (st : neutral_state) (log : list event),
    neutral_passes E inner (S n) c st log
    = rbind (neutral_passes E inner n c st)
        (fun st' => if Qcltb (m_t st') (d_Tmax c) then neutral_iter E inner c st' else ret st')
        log.
Proof.
  induction n as [|n IH]; intros st log.
  - cbn [neutral_passes]. rewrite rbind_ret.
    destruct (Qcltb (m_t st) (d_Tmax c)); [apply rbind_ret_r|reflexivity].
  - change (neutral_passes E inner (S (S n)) c st log)
      with ((if Qcltb (m_t st) (d_Tmax c)
             then st' <~ neutral_iter E inner c st ;; neutral_passes E inner (S n) c st'
             else ret st) log).
    cbn [neutral_passes]. destruct (Qcltb (m_t st) (d_Tmax c)) eqn:Hc.
    + rewrite rbind_assoc. apply rbind_ext. intros st1 l. apply IH.
    + rewrite rbind_ret. rewrite Hc. reflexivity.
Qed.

(** A call is its head after [n] passes, then the rest. *)
Lemma integrate_nomig_from_head (E : collaborators) (fuel n : nat) (a : nomig_args)
    (log : list event) :
  (n <= fuel)%nat ->
  integrate_nomig E fuel a log
  = rbind (nomig_head E fuel n a) (nomig_rest E fuel (fuel - n) a) log.
Proof.
  intros Hn. unfold integrate_nomig, nomig_head.
  rewrite rbind_assoc. apply rbind_ext. intros p l.
  rewrite rbind_assoc. apply rbind_ext. intros [c st0] l1.
  rewrite rbind_assoc. unfold nomig_rest.
  rewrite (rbind_ext _ (fun st => rbind (ret (c, st))
                           (fun cs => st' <~ nomig_loop E fuel (fuel - n) (fst cs) (snd cs) ;;
                                      lift (Spectrum (n_sfs st') (negb (a_finite_genome a)))))
             (fun st => st' <~ nomig_loop E fuel (fuel - n) c st ;;
                        lift (Spectrum (n_sfs st') (negb (a_finite_genome a)))))
    by (intros st l2; reflexivity).
  rewrite <- rbind_assoc.
  unfold rbind at 1 3. rewrite (nomig_loop_passes E fuel c n fuel st0 l1 Hn). reflexivity.
Qed.

Lemma integrate_neutral_from_head (E : collaborators) (fuel n : nat) (b : neutral_args)
    (log : list event) :
  (n <= fuel)%nat ->
  integrate_neutral E fuel b log
  = rbind (neutral_head E fuel n b) (neutral_rest E fuel (fuel - n) b) log.
Proof.
  intros Hn. unfold integrate_neutral, neutral_head.
  rewrite rbind_assoc. apply rbind_ext. intros p l.
  rewrite rbind_assoc. apply rbind_ext. intros [c st0] l1.
  rewrite rbind_assoc. unfold neutral_rest.
  rewrite (rbind_ext _ (fun st => rbind (ret (c, st))
                           (fun cs => st' <~ neutral_loop E fuel (fuel - n) (fst cs) (snd cs) ;;
                                      lift (Spectrum (m_sfs st') (negb (b_finite_genome b)))))
             (fun st => st' <~ neutral_loop E fuel (fuel - n) c st ;;
                        lift (Spectrum (m_sfs st') (negb (b_finite_genome b)))))
    by (intros st l2; reflexivity).
  rewrite <- rbind_assoc.
  unfold rbind at 1 3. rewrite (neutral_loop_passes E fuel c n fuel st0 l1 Hn). reflexivity.
Qed.

(** The head after one more pass. *)
Lemma nomig_head_succ (E : collaborators) (inner n : nat) (a : nomig_args)
    (log : list event) :
  nomig_head E inner (S n) a log
  = rbind (nomig_head E inner n a) (nomig_next E inner) log.
Proof.
  unfold nomig_head.
  rewrite rbind_assoc. apply rbind_ext. intros p l.
  rewrite rbind_assoc. apply rbind_ext. intros [c st0] l1.
  rewrite rbind_assoc.
  unfold rbind at 1. rewrite nomig_passes_succ. unfold rbind.
  destruct (nomig_passes E inner n c st0 l1) as [l2 [st|e|]]; try reflexivity.
  unfold nomig_next, ret. cbn [fst snd].
  destruct (Qcltb (n_t st) (c_Tmax c)); [|reflexivity].
  unfold rbind. destruct (nomig_iter E inner c st l2) as [l3 [st1|e|]]; reflexivity.
Qed.

Lemma neutral_head_succ (E : collaborators) (inner n : nat) (b : neutral_args)
    (log : list event) :
  neutral_head E inner (S n) b log
  = rbind (neutral_head E inner n b) (neutral_next E inner) log.
Proof.
  unfold neutral_head.
  rewrite rbind_assoc. apply rbind_ext. intros p l.
  rewrite rbind_assoc. apply rbind_ext. intros [c st0] l1.
  rewrite rbind_assoc.
  unfold rbind at 1. rewrite neutral_passes_succ. unfold rbind.
  destruct (neutral_passes E inner n c st0 l1) as [l2 [st|e|]]; try reflexivity.
  unfold neutral_next, ret. cbn [fst snd].
  destruct (Qcltb (m_t st) (d_Tmax c)); [|reflexivity].
  unfold rbind. destruct (neutral_iter E inner c st l2) as [l3 [st1|e|]]; reflexivity.
Qed.

(* ------------------------------------------------------------------ *)
(** ** What a head of the loop knows of the call *)

Lemma nomig_init_dt_fac (E : collaborators) (a : nomig_args) (p : params)
    (c : nomig_ctx) (st : nomig_state) (log log' : list event) :
  nomig_init E a p log = (log', Ok (c, st)) -> c_dt_fac c = a_dt_fac a.
Proof.
  unfold nomig_init. intros H.
  apply rbind_Ok_inv in H as (N & l1 & _ & H).
  apply rbind_Ok_inv in H as (? & l2 & _ & H).
  apply rbind_Ok_inv in H as (D & l3 & _ & H).
  apply rbind_Ok_inv in H as (s_new & l4 & _ & H).
  apply rbind_Ok_inv in H as (h_new & l5 & _ & H).
  apply rbind_Ok_inv in H as (S1 & l6 & _ & H).
  apply rbind_Ok_inv in H as (S2 & l7 & _ & H).
  apply rbind_Ok_inv in H as (B & l8 & _ & H).
  apply ret_Ok_inv in H as [_ [= <- <-]]. reflexivity.
Qed.

Lemma neutral_init_dt_fac (E : collaborators) (b : neutral_args) (p : params)
    (c : neutral_ctx) (st : neutral_state) (log log' : list event) :
  neutral_init E b p log = (log', Ok (c, st)) -> d_dt_fac c = b_dt_fac b.
Proof.
  unfold neutral_init. intros H.
  apply rbind_Ok_inv in H as (N & l1 & _ & H).
  apply rbind_Ok_inv in H as (? & l2 & _ & H).
  apply rbind_Ok_inv in H as (D & l3 & _ & H).
  apply rbind_Ok_inv in H as (B & l8 & _ & H).
  apply ret_Ok_inv in H as [_ [= <- <-]]. reflexivity.
Qed.

Lemma nomig_passes_time (E : collaborators) (inner : nat) (c : nomig_ctx) (n : nat) :
  forall (st st' : nomig_state) (log log' : list event),
    n_t st <= c_Tmax c ->
    nomig_passes E inner n c st log = (log', Ok st') -> n_t st' <= c_Tmax c.
Proof.
  induction n as [|n IH]; intros st st' log log' Ht H; cbn [nomig_passes] in H.
  - apply ret_Ok_inv in H as [_ <-]. exact Ht.
  - destruct (Qcltb (n_t st) (c_Tmax c)).
    + apply rbind_Ok_inv in H as (st1 & l1 & Hit & H).
      apply (IH st1 st' l1 log'); [|exact H].
      destruct (nomig_iter_time E inner c st st1 log l1 Ht Hit) as (k & _ & _ & Hle).
      exact Hle.
    + apply ret_Ok_inv in H as [_ <-]. exact Ht.
Qed.

Lemma neutral_passes_time (E : collaborators) (inner : nat) (c : neutral_ctx) (n : nat) :
  forall (st st' : neutral_state) (log log' : list event),
    m_t st <= d_Tmax c ->
    neutral_passes E inner n c st log = (log', Ok st') -> m_t st' <= d_Tmax c.
Proof.
  induction n as [|n IH]; intros st st' log log' Ht H; cbn [neutral_passes] in H.
  - apply ret_Ok_inv in H as [_ <-]. exact Ht.
  - destruct (Qcltb (m_t st) (d_Tmax c)).
    + apply rbind_Ok_inv in H as (st1 & l1 & Hit & H).
      apply (IH st1 st' l1 log'); [|exact H].
      destruct (neutral_iter_time E inner c st st1 log l1 Ht Hit) as (k & _ & _ & Hle).
      exact Hle.
    + apply ret_Ok_inv in H as [_ <-]. exact Ht.
Qed.

Lemma twice_nonneg (x : Qc) : 0 <= x -> 0 <= x * two.
Proof. intros H. qc_to_q. lra. Qed.

Lemma nomig_head_ctx (E : collaborators) (inner n : nat) (a : nomig_args)
    (c : nomig_ctx) (st : nomig_state) (log log' : list event) :
  nomig_head E inner n a log = (log', Ok (c, st)) ->
  exists p,
    nomig_params a = Ok p /\
    c_Npop c = p_Npop p /\ c_s c = p_s p /\
    c_h c = normalize_h (length (shape (a_sfs0 a))) (a_h a) /\
    c_Tmax c = a_tf a * two /\ c_dt_fac c = a_dt_fac a /\
    (0 <= a_tf a -> n_t st <= c_Tmax c).
Proof.
  unfold nomig_head. intros H.
  apply rbind_Ok_inv in H as (p & l0 & Hp & H). apply lift_Ok_inv in Hp as [-> Hp].
  apply rbind_Ok_inv in H as ([c0 st0] & l1 & Hi & H).
  apply rbind_Ok_inv in H as (st1 & l2 & Hs & H).
  apply ret_Ok_inv in H as [-> [= <- <-]].
  pose proof (nomig_init_dt_fac E a p c0 st0 log l1 Hi) as Hf.
  apply nomig_init_ctx in Hi as (HN & Hs' & Hh & HT & Ht0 & _).
  exists p. repeat (split; [assumption|]).
  intros Htf. apply (nomig_passes_time E inner c0 n st0 st1 l1 l2); [|exact Hs].
  rewrite Ht0, HT. apply twice_nonneg. exact Htf.
Qed.

Lemma neutral_head_ctx (E : collaborators) (inner n : nat) (b : neutral_args)
    (c : neutral_ctx) (st : neutral_state) (log log' : list event) :
  neutral_head E inner n b log = (log', Ok (c, st)) ->
  exists p,
    neutral_params b = Ok p /\
    d_Npop c = p_Npop p /\
    d_Tmax c = b_tf b * two /\ d_dt_fac c = b_dt_fac b /\
    (0 <= b_tf b -> m_t st <= d_Tmax c).
Proof.
  unfold neutral_head. intros H.
  apply rbind_Ok_inv in H as (p & l0 & Hp & H). apply lift_Ok_inv in Hp as [-> Hp].
  apply rbind_Ok_inv in H as ([c0 st0] & l1 & Hi & H).
  apply rbind_Ok_inv in H as (st1 & l2 & Hs & H).
  apply ret_Ok_inv in H as [-> [= <- <-]].
  pose proof (neutral_init_dt_fac E b p c0 st0 log l1 Hi) as Hf.
  apply neutral_init_ctx in Hi as (HN & HT & Ht0 & _).
  exists p. repeat (split; [assumption|]).
  intros Htf. apply (neutral_passes_time E inner c0 n st0 st1 l1 l2); [|exact Hs].
  rewrite Ht0, HT. apply twice_nonneg. exact Htf.
Qed.

(* ------------------------------------------------------------------ *)
(** ** The clock of a call *)

Lemma nomig_loop_done (E : collaborators) (inner fuel : nat) (c : nomig_ctx)
    (st : nomig_state) (log : list event) :
  c_Tmax c <= n_t st -> nomig_loop E inner fuel c st log = (log, Ok st).
Proof.
  intros H. apply Qcltb_false in H. destruct fuel; cbn [nomig_loop]; rewrite H; reflexivity.
Qed.

Lemma neutral_loop_done (E : collaborators) (inner fuel : nat) (c : neutral_ctx)
    (st : neutral_state) (log : list event) :
  d_Tmax c <= m_t st -> neutral_loop E inner fuel c st log = (log, Ok st).
Proof.
  intros H. apply Qcltb_false in H. destruct fuel; cbn [neutral_loop]; rewrite H; reflexivity.
Qed.

Lemma nomig_clock (E : collaborators) (fuel n : nat) (a : nomig_args)
    (c : nomig_ctx) (st : nomig_state) (log log' : list event) :
  (n <= fuel)%nat ->
  nomig_head E fuel n a log = (log', Ok (c, st)) ->
  c_Tmax c = a_tf a * two /\
  (0 <= a_tf a -> n_t st <= a_tf a * two) /\
  (a_tf a * two <= n_t st ->
     integrate_nomig E fuel a log
     = (log', Spectrum (n_sfs st) (negb (a_finite_genome a)))) /\
  (n_t st < a_tf a * two ->
     nomig_head E fuel (S n) a log
     = rbind (nomig_iter E fuel c st) (fun st1 => ret (c, st1)) log' /\
     forall log1 st1,
       nomig_iter E fuel c st log' = (log1, Ok st1) ->
       exists k,
         n_dt st1
         = halved k (Qcmin (Qcmin (compute_dt E (n_N st) (Some (n_s_new st))
                                     (Some (n_h_new st)))
                              (a_tf a * two * a_dt_fac a))
                       (a_tf a * two - n_t st)) /\
         n_t st1 = n_t st + n_dt st1 /\ n_t st1 <= a_tf a * two).
Proof.
  intros Hn Hhead.
  destruct (nomig_head_ctx E fuel n a c st log log' Hhead)
    as (p & _ & _ & _ & _ & HT & Hf & Hle).
  split; [exact HT|]. rewrite <- HT, <- Hf. split; [exact Hle|]. split.
  - intros Hend. rewrite (integrate_nomig_from_head E fuel n a log Hn).
    unfold rbind at 1. rewrite Hhead. unfold nomig_rest, rbind. cbn [fst snd].
    rewrite (nomig_loop_done E fuel (fuel - n) c st log' Hend). reflexivity.
  - intros Hlt. split.
    + rewrite nomig_head_succ. unfold rbind at 1. rewrite Hhead.
      unfold nomig_next. cbn [fst snd]. apply Qcltb_true in Hlt. rewrite Hlt. reflexivity.
    + intros log1 st1 Hit.
      destruct (nomig_iter_time E fuel c st st1 log' log1 (Qclt_le_weak _ _ Hlt) Hit)
        as (k & Hk & Ht & Hle1).
      exists k. rewrite <- propose_dt_min. auto.
Qed.

Lemma neutral_clock (E : collaborators) (fuel n : nat) (b : neutral_args)
    (c : neutral_ctx) (st : neutral_state) (log log' : list event) :
  (n <= fuel)%nat ->
  neutral_head E fuel n b log = (log', Ok (c, st)) ->
  d_Tmax c = b_tf b * two /\
  (0 <= b_tf b -> m_t st <= b_tf b * two) /\
  (b_tf b * two <= m_t st ->
     integrate_neutral E fuel b log
     = (log', Spectrum (m_sfs st) (negb (b_finite_genome b)))) /\
  (m_t st < b_tf b * two ->
     neutral_head E fuel (S n) b log
     = rbind (neutral_iter E fuel c st) (fun st1 => ret (c, st1)) log' /\
     forall log1 st1,
       neutral_iter E fuel c st log' = (log1, Ok st1) ->
       exists k,
         m_dt st1
         = halved k (Qcmin (Qcmin (compute_dt E (m_N st) None None)
                              (b_tf b * two * b_dt_fac b))
                       (b_tf b * two - m_t st)) /\
         m_t st1 = m_t st + m_dt st1 /\ m_t st1 <= b_tf b * two).
Proof.
  intros Hn Hhead.
  destruct (neutral_head_ctx E fuel n b c st log log' Hhead)
    as (p & _ & _ & HT & Hf & Hle).
  split; [exact HT|]. rewrite <- HT, <- Hf. split; [exact Hle|]. split.
  - intros Hend. rewrite (integrate_neutral_from_head E fuel n b log Hn).
    unfold rbind at 1. rewrite Hhead. unfold neutral_rest, rbind. cbn [fst snd].
    rewrite (neutral_loop_done E fuel (fuel - n) c st log' Hend). reflexivity.
  - intros Hlt. split.
    + rewrite neutral_head_succ. unfold rbind at 1. rewrite Hhead.
      unfold neutral_next. cbn [fst snd]. apply Qcltb_true in Hlt. rewrite Hlt. reflexivity.
    + intros log1 st1 Hit.
      destruct (neutral_iter_time E fuel c st st1 log' log1 (Qclt_le_weak _ _ Hlt) Hit)
        as (k & Hk & Ht & Hle1).
      exists k. rewrite <- propose_dt_min. auto.
Qed.



(* ------------------------------------------------------------------ *)
(** ** Runs only add to the log *)

Lemma grows_silent {A : Type} (c : run A) : silent c -> grows c.
Proof. intros H log. exists []. apply H. Qed.

Lemma grows_rbind {A B : Type} (c : run A) (k : A -> run B) :
  grows c -> (forall a, grows (k a)) -> grows (rbind c k).
Proof.
  intros Hc Hk log. unfold rbind. destruct (Hc log) as [m Hm].
  destruct (c log) as [l [a|e|]]; cbn [fst] in Hm; subst l.
  - destruct (Hk a (m ++ log)) as [m' Hm']. exists (m' ++ m). rewrite Hm'.
    apply app_assoc.
  - exists m. reflexivity.
  - exists m. reflexivity.
Qed.

Lemma grows_emit (ev : event) : grows (emit ev).
Proof. intros log. exists [ev]. reflexivity. Qed.

Lemma grows_test_sizes (t : Qc) (N : vec) : grows (test_sizes t N).
Proof. intros log. exists [EvSizes t N]. reflexivity. Qed.

Ltac grows_steps :=
  repeat (first [ apply grows_emit | apply grows_test_sizes
                | apply grows_silent; silent_steps; fail
                | apply grows_rbind; [|intros ?]
                | match goal with |- grows (match ?x with _ => _ end) => destruct x end
                | match goal with |- grows (if ?x then _ else _) => destruct x end ]).

Lemma grows_sizes_at (f : Qc -> outcome vec) (t : Qc) : grows (sizes_at f t).
Proof. unfold sizes_at. grows_steps. Qed.

Lemma grows_halving (E : collaborators) (fn : integrator) (fuel : nat)
    (f : Qc -> outcome vec) (t : Qc) (Nold : vec) :
  forall k, grows (halving E fn fuel f t Nold k).
Proof.
  induction fuel as [|fuel IH]; intros k; cbn [halving].
  - grows_steps.
  - apply grows_rbind; [grows_steps|]. intros rc.
    destruct (Qcltb acceptable_change rc); [|grows_steps].
    apply grows_rbind; [apply grows_sizes_at|]. intros N.
    destruct (n_iter_max <=? S (k_n_iter k))%nat; [grows_steps|apply IH].
Qed.

Lemma grows_adapt_sizes (E : collaborators) (fn : integrator) (fuel : nat) (Npop : sched)
    (t dt : Qc) (N Nold Neff : vec) :
  grows (adapt_sizes E fn fuel Npop t dt N Nold Neff).
Proof.
  unfold adapt_sizes. destruct Npop as [v|f]; [grows_steps|].
  apply grows_rbind; [apply grows_sizes_at|]. intros N'. apply grows_halving.
Qed.

Lemma grows_nomig_iter (E : collaborators) (inner : nat) (c : nomig_ctx) (st : nomig_state) :
  grows (nomig_iter E inner c st).
Proof.
  unfold nomig_iter. apply grows_rbind; [apply grows_adapt_sizes|]. intros k. grows_steps.
Qed.

Lemma grows_neutral_iter (E : collaborators) (inner : nat) (c : neutral_ctx)
    (st : neutral_state) :
  grows (neutral_iter E inner c st).
Proof.
  unfold neutral_iter. apply grows_rbind; [apply grows_adapt_sizes|]. intros k. grows_steps.
Qed.

Lemma grows_nomig_loop (E : collaborators) (inner fuel : nat) (c : nomig_ctx) :
  forall st, grows (nomig_loop E inner fuel c st).
Proof.
  induction fuel as [|fuel IH]; intros st; cbn [nomig_loop];
    destruct (Qcltb (n_t st) (c_Tmax c)); try (grows_steps; fail).
  apply grows_rbind; [apply grows_nomig_iter|exact IH].
Qed.

Lemma grows_neutral_loop (E : collaborators) (inner fuel : nat) (c : neutral_ctx) :
  forall st, grows (neutral_loop E inner fuel c st).
Proof.
  induction fuel as [|fuel IH]; intros st; cbn [neutral_loop];
    destruct (Qcltb (m_t st) (d_Tmax c)); try (grows_steps; fail).
  apply grows_rbind; [apply grows_neutral_iter|exact IH].
Qed.

Lemma grows_nomig_rest (E : collaborators) (inner fuel : nat) (a : nomig_args)
    (cs : nomig_ctx * nomig_state) :
  grows (nomig_rest E inner fuel a cs).
Proof.
  unfold nomig_rest. apply grows_rbind; [apply grows_nomig_loop|]. intros st. grows_steps.
Qed.

Lemma grows_neutral_rest (E : collaborators) (inner fuel : nat) (b : neutral_args)
    (cs : neutral_ctx * neutral_state) :
  grows (neutral_rest E inner fuel b cs).
Proof.
  unfold neutral_rest. apply grows_rbind; [apply grows_neutral_loop|]. intros st. grows_steps.
Qed.

(** What follows a head of the loop in a call: the log of the head is the
    end of the log of the call, and an exception at the head is that of the
    call. *)
Lemma nomig_after_head (E : collaborators) (fuel n : nat) (a : nomig_args)
    (log : list event) :
  (n <= fuel)%nat ->
  (exists more,
     fst (integrate_nomig E fuel a log) = more ++ fst (nomig_head E fuel n a log)) /\
  (forall e, snd (nomig_head E fuel n a log) = Raise e ->
     integrate_nomig E fuel a log = (fst (nomig_head E fuel n a log), Raise e)).
Proof.
  intros Hn. rewrite (integrate_nomig_from_head E fuel n a log Hn). unfold rbind.
  destruct (nomig_head E fuel n a log) as [l [cs|e|]]; cbn [fst snd].
  - split; [apply grows_nomig_rest|discriminate].
  - split; [exists []; reflexivity|]. intros e' [= <-]. reflexivity.
  - split; [exists []; reflexivity|discriminate].
Qed.

Lemma neutral_after_head (E : collaborators) (fuel n : nat) (b : neutral_args)
    (log : list event) :
  (n <= fuel)%nat ->
  (exists more,
     fst (integrate_neutral E fuel b log) = more ++ fst (neutral_head E fuel n b log)) /\
  (forall e, snd (neutral_head E fuel n b log) = Raise e ->
     integrate_neutral E fuel b log = (fst (neutral_head E fuel n b log), Raise e)).
Proof.
  intros Hn. rewrite (integrate_neutral_from_head E fuel n b log Hn). unfold rbind.
  destruct (neutral_head E fuel n b log) as [l [cs|e|]]; cbn [fst snd].
  - split; [apply grows_neutral_rest|discriminate].
  - split; [exists []; reflexivity|]. intros e' [= <-]. reflexivity.
  - split; [exists []; reflexivity|discriminate].
Qed.

(* ------------------------------------------------------------------ *)
(** ** The tests of a pass *)

Lemma tests_app (l1 l2 : list event) : tests (l1 ++ l2) = tests l1 ++ tests l2.
Proof. apply flat_map_app. Qed.

Lemma trial_tests_app (f : Qc -> outcome vec) (t p : Qc) (l1 l2 : list nat) :
  trial_tests f t p (l1 ++ l2) = trial_tests f t p l1 ++ trial_tests f t p l2.
Proof. apply flat_map_app. Qed.

Lemma sizes_at_cases (f : Qc -> outcome vec) (tau : Qc) (log : list event) :
  sizes_at f tau log
  = match f tau with
    | Ok N => (EvSizes tau N :: log,
               if any_nonpositive N then Raise PopSizeError else Ok N)
    | Raise e => (log, Raise e)
    | OutOfFuel => (log, OutOfFuel)
    end.
Proof.
  unfold sizes_at, rbind, lift, test_sizes, ret.
  destruct (f tau) as [N|e|]; try reflexivity.
  destruct (any_nonpositive N); reflexivity.
Qed.

Lemma sizes_at_tests (f : Qc -> outcome vec) (t p : Qc) (i : nat) (log : list event) :
  tests (fst (sizes_at f (trial_time t p i) log))
  = trial_tests f t p [i] ++ tests log.
Proof.
  rewrite sizes_at_cases. unfold trial_tests. cbn [flat_map]. rewrite app_nil_r.
  destruct (f (trial_time t p i)) as [N|e|]; reflexivity.
Qed.

Lemma halving_tests (E : collaborators) (fn : integrator) (f : Qc -> outcome vec)
    (t p : Qc) (Nold : vec) (fuel : nat) :
  forall (k : control) (log : list event),
    k_dt k = halved (k_n_iter k) p -> (k_n_iter k < n_iter_max)%nat ->
    exists m,
      (k_n_iter k + m <= n_iter_max)%nat /\
      tests (fst (halving E fn fuel f t Nold k log))
      = trial_tests f t p (rev (seq (S (k_n_iter k)) m)) ++ tests log /\
      forall k', snd (halving E fn fuel f t Nold k log) = Ok k' ->
                 k_dt k' = halved (k_n_iter k + m) p.
Proof.
  induction fuel as [|fuel IH]; intros k log Hdt Hi;
    destruct (halving E fn _ f t Nold k log) as [l o] eqn:Hrun; cbn [fst snd];
    cbn [halving] in Hrun; unfold rbind at 1 in Hrun; unfold lift at 1 in Hrun.
  - exists 0%nat. rewrite Nat.add_0_r. split; [lia|].
    destruct (relative_change (k_N k) Nold) as [rc|e|]; cbv beta iota in Hrun.
    + destruct (Qcltb acceptable_change rc);
        [unfold out_of_fuel in Hrun|unfold ret in Hrun]; injection Hrun as <- <-;
        (split; [reflexivity|]); [discriminate|]. intros k' [= <-]. exact Hdt.
    + injection Hrun as <- <-. split; [reflexivity|discriminate].
    + injection Hrun as <- <-. split; [reflexivity|discriminate].
  - destruct (relative_change (k_N k) Nold) as [rc|e|]; cbv beta iota in Hrun.
    2, 3: (exists 0%nat; rewrite Nat.add_0_r; split; [lia|]; injection Hrun as <- <-;
           split; [reflexivity|discriminate]).
    destruct (Qcltb acceptable_change rc).
    2: { exists 0%nat. rewrite Nat.add_0_r. split; [lia|]. unfold ret in Hrun.
         injection Hrun as <- <-. split; [reflexivity|]. intros k' [= <-]. exact Hdt. }
    assert (Htau : (t + k_dt k / two) / two = trial_time t p (S (k_n_iter k))).
    { unfold trial_time. rewrite Hdt. reflexivity. }
    rewrite Htau in Hrun.
    pose proof (sizes_at_tests f t p (S (k_n_iter k)) log) as Ht.
    unfold rbind at 1 in Hrun.
    destruct (sizes_at f (trial_time t p (S (k_n_iter k))) log) as [l1 [N|e|]];
      cbn [fst] in Ht.
    + destruct (n_iter_max <=? S (k_n_iter k))%nat eqn:Hmax.
      * exists 1%nat. split; [lia|]. unfold rbind, emit, lift, ret in Hrun.
        destruct (relative_change N Nold); injection Hrun as <- <-;
          (split; [exact Ht|]); try discriminate.
        intros k' [= <-]. cbn [k_dt]. rewrite Nat.add_1_r, Hdt. reflexivity.
      * apply Nat.leb_gt in Hmax.
        destruct (IH {| k_dt := k_dt k / two; k_N := N;
                        k_Neff := compute_N_effective E f (half * t)
                                    (half * (t + k_dt k / two));
                        k_n_iter := S (k_n_iter k) |} l1) as (m & Hm & Htests & Hk').
        { cbn [k_dt k_n_iter]. rewrite Hdt. reflexivity. }
        { cbn [k_n_iter]. exact Hmax. }
        rewrite Hrun in Htests, Hk'. cbn [k_n_iter fst snd] in Hm, Htests, Hk'.
        exists (S m). split; [lia|]. split.
        { rewrite Htests, Ht. cbn [seq rev]. rewrite trial_tests_app, <- app_assoc.
          reflexivity. }
        { intros k' Hr. rewrite Nat.add_succ_r. exact (Hk' k' Hr). }
    + exists 1%nat. split; [lia|]. injection Hrun as <- <-. split; [exact Ht|discriminate].
    + exists 1%nat. split; [lia|]. injection Hrun as <- <-. split; [exact Ht|discriminate].
Qed.

Lemma adapt_sizes_tests (E : collaborators) (fn : integrator) (fuel : nat)
    (f : Qc -> outcome vec) (t p : Qc) (N Nold Neff : vec) (log : list event) :
  exists j,
    (j <= n_iter_max)%nat /\
    tests (fst (adapt_sizes E fn fuel (SFun f) t p N Nold Neff log))
    = trial_tests f t p (rev (seq 0 (S j))) ++ tests log /\
    forall k, snd (adapt_sizes E fn fuel (SFun f) t p N Nold Neff log) = Ok k ->
              k_dt k = halved j p.
Proof.
  destruct (adapt_sizes E fn fuel (SFun f) t p N Nold Neff log) as [l o] eqn:Hrun.
  cbn [fst snd]. cbn [adapt_sizes] in Hrun. unfold rbind at 1 in Hrun.
  pose proof (sizes_at_tests f t p 0 log) as Ht.
  change ((t + p) / two) with (trial_time t p 0) in Hrun.
  destruct (sizes_at f (trial_time t p 0) log) as [l1 [N'|e|]]; cbn [fst] in Ht.
  - destruct (halving_tests E fn f t p Nold fuel
                {| k_dt := p; k_N := N';
                   k_Neff := compute_N_effective E f (half * t) (half * (t + p));
                   k_n_iter := 0 |} l1 eq_refl)
      as (m & Hm & Htests & Hk).
    { cbn. unfold n_iter_max. lia. }
    rewrite Hrun in Htests, Hk. cbn [k_n_iter fst snd] in Hm, Htests, Hk.
    exists m. split; [lia|]. split.
    + rewrite Htests, Ht.
      change (seq 0 (S m)) with (0%nat :: seq 1 m). cbn [rev].
      rewrite trial_tests_app, <- app_assoc. reflexivity.
    + exact Hk.
  - injection Hrun as <- <-.
    exists 0%nat. split; [unfold n_iter_max; lia|]. split; [exact Ht|discriminate].
  - injection Hrun as <- <-.
    exists 0%nat. split; [unfold n_iter_max; lia|]. split; [exact Ht|discriminate].
Qed.

(* ------------------------------------------------------------------ *)
(** ** The tests of a call *)

Lemma nomig_pass_tests (E : collaborators) (inner : nat) (c : nomig_ctx) (st : nomig_state)
    (f : Qc -> outcome vec) (log : list event) :
  c_Npop c = SFun f ->
  exists j,
    (j <= n_iter_max)%nat /\
    tests (fst (nomig_iter E inner c st log))
    = trial_tests f (n_t st)
        (propose_dt (compute_dt E (n_N st) (Some (n_s_new st)) (Some (n_h_new st)))
           (c_Tmax c) (c_dt_fac c) (n_t st))
        (rev (seq 0 (S j))) ++ tests log /\
    forall st1, snd (nomig_iter E inner c st log) = Ok st1 ->
      n_dt st1 = halved j (propose_dt (compute_dt E (n_N st) (Some (n_s_new st))
                                         (Some (n_h_new st)))
                             (c_Tmax c) (c_dt_fac c) (n_t st)).
Proof.
  intros Hf.
  set (p := propose_dt _ _ _ _).
  destruct (adapt_sizes_tests E Nomig inner f (n_t st) p (n_N st) (n_Nold st) (n_Neff st) log)
    as (j & Hj & Ht & Hk).
  exists j. split; [exact Hj|]. split.
  - rewrite <- Ht. unfold nomig_iter. rewrite Hf. fold p.
    f_equal. apply fst_rbind. intros k l _. silent_steps.
  - intros st1 Hr.
    destruct (nomig_iter E inner c st log) as [l1 o] eqn:Hrun. cbn [snd] in Hr. subst o.
    apply nomig_iter_inv in Hrun as (k & rb & Qm & slvm & Hk' & _ & _ & _ & _ & _ & _ & _
                                     & _ & Hdt & _).
    rewrite Hf in Hk'. fold p in Hk'. rewrite Hdt. apply Hk. rewrite Hk'. reflexivity.
Qed.

Lemma neutral_pass_tests (E : collaborators) (inner : nat) (c : neutral_ctx)
    (st : neutral_state) (f : Qc -> outcome vec) (log : list event) :
  d_Npop c = SFun f ->
  exists j,
    (j <= n_iter_max)%nat /\
    tests (fst (neutral_iter E inner c st log))
    = trial_tests f (m_t st)
        (propose_dt (compute_dt E (m_N st) None None) (d_Tmax c) (d_dt_fac c) (m_t st))
        (rev (seq 0 (S j))) ++ tests log /\
    forall st1, snd (neutral_iter E inner c st log) = Ok st1 ->
      m_dt st1 = halved j (propose_dt (compute_dt E (m_N st) None None)
                             (d_Tmax c) (d_dt_fac c) (m_t st)).
Proof.
  intros Hf.
  set (p := propose_dt _ _ _ _).
  destruct (adapt_sizes_tests E Neutral inner f (m_t st) p (m_N st) (m_Nold st) (m_Neff st)
              log) as (j & Hj & Ht & Hk).
  exists j. split; [exact Hj|]. split.
  - rewrite <- Ht. unfold neutral_iter. rewrite Hf. fold p.
    f_equal. apply fst_rbind. intros k l _. silent_steps.
  - intros st1 Hr.
    destruct (neutral_iter E inner c st log) as [l1 o] eqn:Hrun. cbn [snd] in Hr. subst o.
    apply neutral_iter_inv in Hrun as (k & rb & Am & Dim & Cm & Qm & Hk' & _ & _ & _ & _ & _
                                       & _ & _ & _ & Hdt & _).
    rewrite Hf in Hk'. fold p in Hk'. rewrite Hdt. apply Hk. rewrite Hk'. reflexivity.
Qed.

(** The test at time 0. *)
Lemma nomig_init_first (E : collaborators) (a : nomig_args) (p : params) (N0 : vec)
    (log : list event) :
  eval_sched (p_Npop p) 0 = Ok N0 ->
  fst (nomig_init E a p log) = EvSizes 0 N0 :: log /\
  (any_nonpositive N0 = true ->
   nomig_init E a p log = (EvSizes 0 N0 :: log, Raise PopSizeError)).
Proof.
  intros HN. unfold nomig_init.
  rewrite (rbind_lift_Ok _ N0 _ log HN). split.
  - apply after_first_test. intros u. silent_steps.
  - intros Hbad. unfold rbind at 1. unfold test_sizes. rewrite Hbad. reflexivity.
Qed.

Lemma neutral_init_first (E : collaborators) (b : neutral_args) (p : params) (N0 : vec)
    (log : list event) :
  eval_sched (p_Npop p) 0 = Ok N0 ->
  fst (neutral_init E b p log) = EvSizes 0 N0 :: log /\
  (any_nonpositive N0 = true ->
   neutral_init E b p log = (EvSizes 0 N0 :: log, Raise PopSizeError)).
Proof.
  intros HN. unfold neutral_init.
  rewrite (rbind_lift_Ok _ N0 _ log HN). split.
  - apply after_first_test. intros u. silent_steps.
  - intros Hbad. unfold rbind at 1. unfold test_sizes. rewrite Hbad. reflexivity.
Qed.

Lemma nomig_first_test (E : collaborators) (fuel : nat) (a : nomig_args) (p : params)
    (N0 : vec) (log : list event) :
  nomig_params a = Ok p -> eval_sched (p_Npop p) 0 = Ok N0 ->
  (exists more, fst (integrate_nomig E fuel a log) = more ++ EvSizes 0 N0 :: log) /\
  ((exists x, In x N0 /\ x <= 0) ->
   integrate_nomig E fuel a log = (EvSizes 0 N0 :: log, Raise PopSizeError)).
Proof.
  intros Hp HN. unfold integrate_nomig. rewrite (rbind_lift_Ok _ p _ log Hp).
  destruct (nomig_init_first E a p N0 log HN) as [Hfst Hbad]. split.
  - unfold rbind at 1.
    destruct (nomig_init E a p log) as [l [[c st0]|e|]]; cbn [fst] in Hfst; subst l;
      try (exists []; reflexivity).
    assert (Hg : grows (st <~ nomig_loop E fuel fuel c st0 ;;
                        lift (Spectrum (n_sfs st) (negb (a_finite_genome a))))).
    { apply grows_rbind; [apply grows_nomig_loop|]. intros st. grows_steps. }
    apply Hg.
  - intros Hx. apply any_nonpositive_true in Hx. unfold rbind at 1.
    rewrite (Hbad Hx). reflexivity.
Qed.

Lemma neutral_first_test (E : collaborators) (fuel : nat) (b : neutral_args) (p : params)
    (N0 : vec) (log : list event) :
  neutral_params b = Ok p -> eval_sched (p_Npop p) 0 = Ok N0 ->
  (exists more, fst (integrate_neutral E fuel b log) = more ++ EvSizes 0 N0 :: log) /\
  ((exists x, In x N0 /\ x <= 0) ->
   integrate_neutral E fuel b log = (EvSizes 0 N0 :: log, Raise PopSizeError)).
Proof.
  intros Hp HN. unfold integrate_neutral. rewrite (rbind_lift_Ok _ p _ log Hp).
  destruct (neutral_init_first E b p N0 log HN) as [Hfst Hbad]. split.
  - unfold rbind at 1.
    destruct (neutral_init E b p log) as [l [[c st0]|e|]]; cbn [fst] in Hfst; subst l;
      try (exists []; reflexivity).
    assert (Hg : grows (st <~ neutral_loop E fuel fuel c st0 ;;
                        lift (Spectrum (m_sfs st) (negb (b_finite_genome b))))).
    { apply grows_rbind; [apply grows_neutral_loop|]. intros st. grows_steps. }
    apply Hg.
  - intros Hx. apply any_nonpositive_true in Hx. unfold rbind at 1.
    rewrite (Hbad Hx). reflexivity.
Qed.

(** A pass of a call under a size function. *)
Lemma nomig_pass_of_call (E : collaborators) (fuel n : nat) (a : nomig_args) (p : params)
    (f : Qc -> outcome vec) (c : nomig_ctx) (st : nomig_state) (log log' : list event) :
  (n < fuel)%nat -> nomig_params a = Ok p -> p_Npop p = SFun f ->
  nomig_head E fuel n a log = (log', Ok (c, st)) -> n_t st < a_tf a * two ->
  exists j,
    (j <= n_iter_max)%nat /\
    tests (fst (nomig_head E fuel (S n) a log))
    = trial_tests f (n_t st)
        (propose_dt (compute_dt E (n_N st) (Some (n_s_new st)) (Some (n_h_new st)))
           (a_tf a * two) (a_dt_fac a) (n_t st))
        (rev (seq 0 (S j))) ++ tests log' /\
    (forall c' st1, snd (nomig_head E fuel (S n) a log) = Ok (c', st1) ->
       n_dt st1 = halved j (propose_dt (compute_dt E (n_N st) (Some (n_s_new st))
                                          (Some (n_h_new st)))
                              (a_tf a * two) (a_dt_fac a) (n_t st))) /\
    (exists more,
       fst (integrate_nomig E fuel a log) = more ++ fst (nomig_head E fuel (S n) a log)) /\
    (forall e, snd (nomig_head E fuel (S n) a log) = Raise e ->
       integrate_nomig E fuel a log = (fst (nomig_head E fuel (S n) a log), Raise e)).
Proof.
  intros Hn Hp Hf Hhead Hlt.
  destruct (nomig_head_ctx E fuel n a c st log log' Hhead)
    as (p' & Hp' & HN & _ & _ & HT & Hfac & _).
  rewrite Hp in Hp'. injection Hp' as <-. rewrite Hf in HN.
  destruct (nomig_clock E fuel n a c st log log' ltac:(lia) Hhead) as (_ & _ & _ & Hgo).
  destruct (Hgo Hlt) as [Hnext _].
  destruct (nomig_pass_tests E fuel c st f log' HN) as (j & Hj & Ht & Hdt).
  rewrite HT, Hfac in Ht, Hdt.
  destruct (nomig_after_head E fuel (S n) a log ltac:(lia)) as [Hmore Hraise].
  exists j. split; [exact Hj|]. split; [|split; [|split; assumption]].
  - rewrite Hnext, <- Ht. unfold rbind.
    destruct (nomig_iter E fuel c st log') as [l [st1|e|]]; reflexivity.
  - intros c' st1 Hr. apply Hdt. rewrite Hnext in Hr. unfold rbind in Hr.
    destruct (nomig_iter E fuel c st log') as [l [st2|e|]]; cbn [snd ret] in Hr;
      try discriminate Hr.
    injection Hr as _ <-. reflexivity.
Qed.

Lemma neutral_pass_of_call (E : collaborators) (fuel n : nat) (b : neutral_args)
    (p : params) (f : Qc -> outcome vec) (c : neutral_ctx) (st : neutral_state)
    (log log' : list event) :
  (n < fuel)%nat -> neutral_params b = Ok p -> p_Npop p = SFun f ->
  neutral_head E fuel n b log = (log', Ok (c, st)) -> m_t st < b_tf b * two ->
  exists j,
    (j <= n_iter_max)%nat /\
    tests (fst (neutral_head E fuel (S n) b log))
    = trial_tests f (m_t st)
        (propose_dt (compute_dt E (m_N st) None None) (b_tf b * two) (b_dt_fac b) (m_t st))
        (rev (seq 0 (S j))) ++ tests log' /\
    (forall c' st1, snd (neutral_head E fuel (S n) b log) = Ok (c', st1) ->
       m_dt st1 = halved j (propose_dt (compute_dt E (m_N st) None None)
                              (b_tf b * two) (b_dt_fac b) (m_t st))) /\
    (exists more,
       fst (integrate_neutral E fuel b log)
       = more ++ fst (neutral_head E fuel (S n) b log)) /\
    (forall e, snd (neutral_head E fuel (S n) b log) = Raise e ->
       integrate_neutral E fuel b log = (fst (neutral_head E fuel (S n) b log), Raise e)).
Proof.
  intros Hn Hp Hf Hhead Hlt.
  destruct (neutral_head_ctx E fuel n b c st log log' Hhead)
    as (p' & Hp' & HN & HT & Hfac & _).
  rewrite Hp in Hp'. injection Hp' as <-. rewrite Hf in HN.
  destruct (neutral_clock E fuel n b c st log log' ltac:(lia) Hhead) as (_ & _ & _ & Hgo).
  destruct (Hgo Hlt) as [Hnext _].
  destruct (neutral_pass_tests E fuel c st f log' HN) as (j & Hj & Ht & Hdt).
  rewrite HT, Hfac in Ht, Hdt.
  destruct (neutral_after_head E fuel (S n) b log ltac:(lia)) as [Hmore Hraise].
  exists j. split; [exact Hj|]. split; [|split; [|split; assumption]].
  - rewrite Hnext, <- Ht. unfold rbind.
    destruct (neutral_iter E fuel c st log') as [l [st1|e|]]; reflexivity.
  - intros c' st1 Hr. apply Hdt. rewrite Hnext in Hr. unfold rbind in Hr.
    destruct (neutral_iter E fuel c st log') as [l [st2|e|]]; cbn [snd ret] in Hr;
      try discriminate Hr.
    injection Hr as _ <-. reflexivity.
Qed.

(* ------------------------------------------------------------------ *)
(** ** Every size taken is tested *)

(** C1. In every call of [integrate_nomig] and of [integrate_neutral] the
    population-size error is raised exactly when some size the integrator
    tested has a non-positive entry; the error follows that test at once,
    every earlier test having been passed, and the call returns no
    spectrum.  The sizes tested are all the sizes the integrator takes:
    once the arguments are normalised, the sizes at time 0 (the vector given,
    or [Npop(0)], the frozen populations set) are tested before anything
    else is logged, and non-positive ones end the call there; and in every
    pass of the time loop under a size function the sizes tested are those
    at the time [(t + dt) / 2] of every step tried in the pass (the proposal,
    then its halvings, ten at most), the last of which is the step taken
    when the pass returns; an exception of the pass is the exception of the
    call, with the log of the pass. *)
Theorem nonpositive_size_raises (E : collaborators) (fuel : nat)
    (a : nomig_args) (b : neutral_args) :
  sizes_judged (integrate_nomig E fuel a []) /\
  sizes_judged (integrate_neutral E fuel b []) /\
  (forall p log,
     nomig_params a = Ok p ->
     (forall N0,
        eval_sched (p_Npop p) 0 = Ok N0 ->
        (exists more, fst (integrate_nomig E fuel a log) = more ++ EvSizes 0 N0 :: log) /\
        ((exists x, In x N0 /\ x <= 0) ->
         integrate_nomig E fuel a log = (EvSizes 0 N0 :: log, Raise PopSizeError))) /\
     (forall f n log' c st,
        p_Npop p = SFun f -> (n < fuel)%nat ->
        nomig_head E fuel n a log = (log', Ok (c, st)) -> n_t st < a_tf a * two ->
        exists j,
          (j <= n_iter_max)%nat /\
          tests (fst (nomig_head E fuel (S n) a log))
          = trial_tests f (n_t st)
              (propose_dt (compute_dt E (n_N st) (Some (n_s_new st)) (Some (n_h_new st)))
                 (a_tf a * two) (a_dt_fac a) (n_t st))
              (rev (seq 0 (S j))) ++ tests log' /\
          (forall c' st1, snd (nomig_head E fuel (S n) a log) = Ok (c', st1) ->
             n_dt st1 = halved j (propose_dt (compute_dt E (n_N st) (Some (n_s_new st))
                                                (Some (n_h_new st)))
                                    (a_tf a * two) (a_dt_fac a) (n_t st))) /\
          (exists more,
             fst (integrate_nomig E fuel a log)
             = more ++ fst (nomig_head E fuel (S n) a log)) /\
          (forall e, snd (nomig_head E fuel (S n) a log) = Raise e ->
             integrate_nomig E fuel a log
             = (fst (nomig_head E fuel (S n) a log), Raise e)))) /\
  (forall p log,
     neutral_params b = Ok p ->
     (forall N0,
        eval_sched (p_Npop p) 0 = Ok N0 ->
        (exists more, fst (integrate_neutral E fuel b log) = more ++ EvSizes 0 N0 :: log) /\
        ((exists x, In x N0 /\ x <= 0) ->
         integrate_neutral E fuel b log = (EvSizes 0 N0 :: log, Raise PopSizeError))) /\
     (forall f n log' d mt,
        p_Npop p = SFun f -> (n < fuel)%nat ->
        neutral_head E fuel n b log = (log', Ok (d, mt)) -> m_t mt < b_tf b * two ->
        exists j,
          (j <= n_iter_max)%nat /\
          tests (fst (neutral_head E fuel (S n) b log))
          = trial_tests f (m_t mt)
              (propose_dt (compute_dt E (m_N mt) None None) (b_tf b * two) (b_dt_fac b)
                 (m_t mt))
              (rev (seq 0 (S j))) ++ tests log' /\
          (forall d' mt1, snd (neutral_head E fuel (S n) b log) = Ok (d', mt1) ->
             m_dt mt1 = halved j (propose_dt (compute_dt E (m_N mt) None None)
                                    (b_tf b * two) (b_dt_fac b) (m_t mt))) /\
          (exists more,
             fst (integrate_neutral E fuel b log)
             = more ++ fst (neutral_head E fuel (S n) b log)) /\
          (forall e, snd (neutral_head E fuel (S n) b log) = Raise e ->
             integrate_neutral E fuel b log
             = (fst (neutral_head E fuel (S n) b log), Raise e)))).
Proof.
  split; [apply verdict_judged, sound_integrate_nomig; constructor|].
  split; [apply verdict_judged, sound_integrate_neutral; constructor|].
  split.
  - intros p log Hp. split.
    + intros N0 HN. exact (nomig_first_test E fuel a p N0 log Hp HN).
    + intros f n log' c st Hf Hn Hhead Hlt.
      exact (nomig_pass_of_call E fuel n a p f c st log log' Hn Hp Hf Hhead Hlt).
  - intros p log Hp. split.
    + intros N0 HN. exact (neutral_first_test E fuel b p N0 log Hp HN).
    + intros f n log' d mt Hf Hn Hhead Hlt.
      exact (neutral_pass_of_call E fuel n b p f d mt log log' Hn Hp Hf Hhead Hlt).
Qed.

(** C1 on a population of size -1, where [integrate_nomig] raises at the
    test of time 0, and on the size that becomes negative after time 1/4,
    where the third pass of [integrate_neutral] raises and the call with
    it. *)
Lemma nonpositive_size_raises_witness :
  integrate_nomig sample_collaborators 20 sample_nomig_negative []
  = ([EvSizes 0 [- (1)]], Raise PopSizeError) /\
  integrate_neutral sample_collaborators 20 sample_neutral_shrinking []
  = (fst (neutral_head sample_collaborators 20 3 sample_neutral_shrinking []),
     Raise PopSizeError).
Proof.
  destruct (nonpositive_size_raises sample_collaborators 20 sample_nomig_negative
              sample_neutral_shrinking) as (_ & _ & Ha & Hb).
  split.
  - destruct (nomig_params sample_nomig_negative) as [p| |] eqn:Hp;
      try (vm_compute in Hp; discriminate Hp).
    destruct (Ha p [] eq_refl) as [Hinit _].
    assert (HN : eval_sched (p_Npop p) 0 = Ok [- (1)]).
    { injection Hp as <-. reflexivity. }
    destruct (Hinit [- (1)] HN) as [_ Hbad]. apply Hbad.
    exists (- (1)). split; [left; reflexivity|discriminate].
  - destruct (neutral_params sample_neutral_shrinking) as [p| |] eqn:Hp;
      try (vm_compute in Hp; discriminate Hp).
    destruct (Hb p [] eq_refl) as [_ Hpass].
    destruct (neutral_head sample_collaborators 20 2 sample_neutral_shrinking [])
      as [log' [[d mt]| |]] eqn:Hhead; try (vm_compute in Hhead; discriminate Hhead).
    assert (Hf : p_Npop p
                 = SFun (fun t => Ok [if Qcleb t (Q2Qc (1 # 4)) then 1 else - (1)])).
    { injection Hp as <-. reflexivity. }
    pose proof Hhead as Hhead'.
    assert (Hlt : m_t mt < 1 * two).
    { vm_compute in Hhead. injection Hhead as _ _ <-. reflexivity. }
    destruct (Hpass _ 2%nat log' d mt Hf ltac:(lia) Hhead' Hlt)
      as (j & _ & _ & _ & _ & Hraise).
    apply Hraise. vm_compute. reflexivity.
Defined.

(* ------------------------------------------------------------------ *)
(** ** Sizes given as a vector *)

(** X10. With sizes given as a vector, and arguments that pass the
    normalisation, the sizes are tested for positivity exactly once, at time
    0 and after the frozen populations were set, and never again; no warning
    about a change of size is printed, however the run ends: the log of the
    call is the log before it with that one test added.  Arguments the
    normalisation rejects leave the log as it was: the call ends as the
    normalisation did, before any test. *)
Theorem constant_sizes_tested_once (E : collaborators) (fuel : nat) (a : nomig_args)
    (b : neutral_args) (N : vec) (log : list event) :
  (a_Npop a = NConst N ->
   (forall p, nomig_params a = Ok p ->
      exists N',
        (if any_frozen (a_frozen a)
         then set_frozen (a_frozen a) frozen_size N = Ok N' else N' = N) /\
        fst (integrate_nomig E fuel a log) = EvSizes 0 N' :: log) /\
   (forall e, nomig_params a = Raise e ->
      integrate_nomig E fuel a log = (log, Raise e)) /\
   (nomig_params a = OutOfFuel -> integrate_nomig E fuel a log = (log, OutOfFuel))) /\
  (b_Npop b = NConst N ->
   (forall p, neutral_params b = Ok p ->
      exists N',
        (if any_frozen (b_frozen b)
         then set_frozen (b_frozen b) frozen_size N = Ok N' else N' = N) /\
        fst (integrate_neutral E fuel b log) = EvSizes 0 N' :: log) /\
   (forall e, neutral_params b = Raise e ->
      integrate_neutral E fuel b log = (log, Raise e)) /\
   (neutral_params b = OutOfFuel -> integrate_neutral E fuel b log = (log, OutOfFuel))).
Proof.
  split; intros HN; (split; [|split]).
  - intros p Hp. unfold integrate_nomig.
    destruct (nomig_params_constant a N p HN Hp) as (N' & HpN & HN').
    exists N'. split; [exact HN'|].
    rewrite (rbind_lift_Ok _ p _ log Hp).
    rewrite fst_rbind; [apply nomig_init_constant; exact HpN|].
    intros [c st0] l Hi. apply nomig_init_ctx in Hi as (Hc & _).
    apply silent_rbind; [|intros st; apply silent_lift].
    apply (nomig_loop_silent E fuel fuel c N'). rewrite Hc. exact HpN.
  - intros e He. unfold integrate_nomig, rbind, lift. rewrite He. reflexivity.
  - intros He. unfold integrate_nomig, rbind, lift. rewrite He. reflexivity.
  - intros p Hp. unfold integrate_neutral.
    destruct (neutral_params_constant b N p HN Hp) as (N' & HpN & HN').
    exists N'. split; [exact HN'|].
    rewrite (rbind_lift_Ok _ p _ log Hp).
    rewrite fst_rbind; [apply neutral_init_constant; exact HpN|].
    intros [c st0] l Hi. apply neutral_init_ctx in Hi as (Hc & _).
    apply silent_rbind; [|intros st; apply silent_lift].
    apply (neutral_loop_silent E fuel fuel c N'). rewrite Hc. exact HpN.
  - intros e He. unfold integrate_neutral, rbind, lift. rewrite He. reflexivity.
  - intros He. unfold integrate_neutral, rbind, lift. rewrite He. reflexivity.
Qed.

(** X10 on the one-population sample and on the frozen sample, whose first
    population is frozen. *)
Lemma constant_sizes_tested_once_witness :
  fst (integrate_nomig sample_collaborators 10 sample_nomig_1d []) = [EvSizes 0 [1]] /\
  fst (integrate_neutral sample_collaborators 10 sample_neutral_frozen [])
  = [EvSizes 0 [frozen_size; two]].
Proof.
  destruct (constant_sizes_tested_once sample_collaborators 10 sample_nomig_1d
              sample_neutral_1d [1] []) as [Ha _].
  destruct (constant_sizes_tested_once sample_collaborators 10 sample_nomig_1d
              sample_neutral_frozen [1; two] []) as [_ Hb].
  split.
  - destruct (Ha eq_refl) as [Hok _].
    destruct (nomig_params sample_nomig_1d) as [p| |] eqn:Hp;
      try (vm_compute in Hp; discriminate Hp).
    destruct (Hok p eq_refl) as (N' & HN' & H). cbn in HN'. subst N'. exact H.
  - destruct (Hb eq_refl) as [Hok _].
    destruct (neutral_params sample_neutral_frozen) as [p| |] eqn:Hp;
      try (vm_compute in Hp; discriminate Hp).
    destruct (Hok p eq_refl) as (N' & HN' & H). cbn in HN'. injection HN' as <-. exact H.
Defined.

(* ------------------------------------------------------------------ *)
(** ** The loops end *)

Lemma safe_and {A : Type} (strict : bool) (P Q : A -> Prop) (c : run A) :
  safe strict P c ->
  (forall log log' a, c log = (log', Ok a) -> Q a) ->
  safe strict (fun a => P a /\ Q a) c.
Proof.
  intros Hc HQ log. specialize (Hc log). specialize (HQ log).
  destruct (c log) as [l [a|e|]]; cbn [snd] in *; try exact Hc.
  split; [exact Hc|]. apply (HQ l a). reflexivity.
Qed.

Lemma on_schedule_iter (E : collaborators) (inner : nat) (c : nomig_ctx)
    (st st' : nomig_state) (log log' : list event) :
  on_schedule c st -> nomig_iter E inner c st log = (log', Ok st') -> on_schedule c st'.
Proof.
  intros (tau & Hs & Hh) H.
  apply nomig_iter_inv in H as (k & rb & Qm & slvm & _ & Hs' & Hh' & _).
  unfold on_schedule, coefficient_at in *.
  destruct (c_s c) as [ws|fs], (c_h c) as [wh|fh]; cbn [eval_sched] in *.
  - exists tau. split; congruence.
  - exists ((n_t st + k_dt k / two) / two). split; congruence.
  - exists ((n_t st + k_dt k / two) / two). split; congruence.
  - exists ((n_t st + k_dt k / two) / two). split; assumption.
Qed.

Lemma nomig_init_selection (E : collaborators) (a : nomig_args) (p : params)
    (c : nomig_ctx) (st : nomig_state) (log log' : list event) :
  nomig_init E a p log = (log', Ok (c, st)) ->
  eval_sched (p_s p) 0 = Ok (n_s_new st) /\
  eval_sched (normalize_h (length (shape (a_sfs0 a))) (a_h a)) 0 = Ok (n_h_new st).
Proof.
  unfold nomig_init. intros H.
  apply rbind_Ok_inv in H as (N & l1 & _ & H).
  apply rbind_Ok_inv in H as (? & l2 & _ & H).
  apply rbind_Ok_inv in H as (D & l3 & _ & H).
  apply rbind_Ok_inv in H as (s_new & l4 & Hs & H). apply lift_Ok_inv in Hs as [_ Hs].
  apply rbind_Ok_inv in H as (h_new & l5 & Hh & H). apply lift_Ok_inv in Hh as [_ Hh].
  apply rbind_Ok_inv in H as (S1 & l6 & _ & H).
  apply rbind_Ok_inv in H as (S2 & l7 & _ & H).
  apply rbind_Ok_inv in H as (B & l8 & _ & H).
  apply ret_Ok_inv in H as [_ [= <- <-]]. cbn [n_s_new n_h_new]. auto.
Qed.

Lemma nomig_params_selection (a : nomig_args) (p : params) :
  any_frozen (a_frozen a) = false -> nomig_params a = Ok p ->
  p_s p = normalize_gamma (rank (a_sfs0 a)) (a_gamma a).
Proof.
  intros Hfr. unfold nomig_params. rewrite Hfr.
  destruct (mutation_rates _ _ _ _ _) as [uv| |]; cbn [bind]; try discriminate.
  intros [= <-]. reflexivity.
Qed.

(** With sizes that are not a function of time and a step bound of at
    least [eps > 0] at every state of the loop, the loops end within the
    fuel that covers the time left. *)
Lemma nomig_loop_ends (E : collaborators) (dims : list nat) (inner : nat) (c : nomig_ctx)
    (N : vec) (eps : Qc) :
  nomig_shaped_ctx E dims c -> c_Npop c = SConst N -> 0 < eps ->
  (forall st, on_schedule c st ->
              eps <= compute_dt E N (Some (n_s_new st)) (Some (n_h_new st))) ->
  0 < c_dt_fac c ->
  forall (fuel : nat) (st : nomig_state),
    nomig_shaped dims st -> on_schedule c st -> n_N st = N -> 0 <= n_t st ->
    c_Tmax c - n_t st <= of_nat fuel * Qcmin eps (c_Tmax c * c_dt_fac c) ->
    safe true (nomig_shaped dims) (nomig_loop E inner fuel c st).
Proof.
  intros Hc HcN Heps Hlow Hfac.
  assert (Hcall : callable (c_Npop c) = false) by (rewrite HcN; reflexivity).
  induction fuel as [|fuel IH]; intros st Hst HJ HN Ht Hrem; cbn [nomig_loop];
    destruct (Qcltb (n_t st) (c_Tmax c)) eqn:Hlt; try (apply safe_ret; exact Hst).
  - exfalso. apply Qcltb_true in Hlt. rewrite of_nat_0 in Hrem.
    set (m := Qcmin _ _) in *. clearbody m. qc_to_q. nra.
  - apply Qcltb_true in Hlt.
    apply safe_rbind with
      (P := fun st' =>
              (nomig_shaped dims st' /\
               (callable (c_Npop c) = false ->
                n_N st' = n_N st /\
                n_t st' = n_t st
                          + propose_dt (compute_dt E (n_N st) (Some (n_s_new st))
                                          (Some (n_h_new st)))
                              (c_Tmax c) (c_dt_fac c) (n_t st))) /\
              on_schedule c st').
    { apply safe_and; [apply safe_nomig_iter; auto|].
      intros log log' st' Hit. exact (on_schedule_iter E inner c st st' log log' HJ Hit). }
    intros st' [[Hst' Hadv] HJ']. destruct (Hadv Hcall) as [HN' Ht'].
    destruct (propose_dt_progress
                (compute_dt E (n_N st) (Some (n_s_new st)) (Some (n_h_new st)))
                (c_Tmax c) (c_dt_fac c) (n_t st) eps fuel Heps
                ltac:(rewrite HN; apply Hlow; exact HJ) Hfac Ht Hlt Hrem)
      as (Hdt & _ & Hrem').
    rewrite <- Ht' in Hrem'.
    apply IH; try assumption; [congruence|].
    rewrite Ht'. qc_to_q. lra.
Qed.

Lemma neutral_loop_ends (E : collaborators) (dims : list nat) (inner : nat)
    (c : neutral_ctx) (N : vec) (eps : Qc) :
  neutral_shaped_ctx E dims c -> d_Npop c = SConst N ->
  0 < eps -> eps <= compute_dt E N None None -> 0 < d_dt_fac c ->
  forall (fuel : nat) (st : neutral_state),
    neutral_shaped E dims st -> m_N st = N -> 0 <= m_t st ->
    d_Tmax c - m_t st <= of_nat fuel * Qcmin eps (d_Tmax c * d_dt_fac c) ->
    safe true (neutral_shaped E dims) (neutral_loop E inner fuel c st).
Proof.
  intros Hc HcN Heps Hlow Hfac.
  assert (Hcall : callable (d_Npop c) = false) by (rewrite HcN; reflexivity).
  induction fuel as [|fuel IH]; intros st Hst HN Ht Hrem; cbn [neutral_loop];
    destruct (Qcltb (m_t st) (d_Tmax c)) eqn:Hlt; try (apply safe_ret; exact Hst).
  - exfalso. apply Qcltb_true in Hlt. rewrite of_nat_0 in Hrem.
    set (m := Qcmin _ _) in *. clearbody m. qc_to_q. nra.
  - apply Qcltb_true in Hlt.
    apply safe_rbind with
      (P := fun st' => neutral_shaped E dims st' /\
                       (callable (d_Npop c) = false ->
                        m_N st' = m_N st /\
                        m_t st' = m_t st + propose_dt (compute_dt E (m_N st) None None)
                                             (d_Tmax c) (d_dt_fac c) (m_t st)));
      [apply safe_neutral_iter; auto|].
    intros st' [Hst' Hadv]. destruct (Hadv Hcall) as [HN' Ht'].
    destruct (propose_dt_progress (compute_dt E (m_N st) None None)
                (d_Tmax c) (d_dt_fac c) (m_t st) eps fuel Heps
                ltac:(rewrite HN; exact Hlow) Hfac Ht Hlt Hrem) as (Hdt & _ & Hrem').
    rewrite <- Ht' in Hrem'.
    apply IH; try assumption; [congruence|].
    rewrite Ht'. qc_to_q. lra.
Qed.

(** X13. In exact arithmetic (time is kept as a rational here; the clock of
    the source is a double, whose rounding can add a pass), with well-formed
    arguments on one to five populations, sizes given as a vector of
    positive numbers, no frozen population, a positive [dt_fac], a step
    bound of at least [eps > 0] for the selection and dominance of the call
    (for [integrate_neutral]: without selection) and fuel for
    [2 tf / min(eps, 2 tf dt_fac)] passes, both integrators return: no
    exception is raised, the time loop ends, and the spectrum returned has
    the shape of [sfs0].  Selection, dominance and mutation are arbitrary;
    the collaborators are assumed to return operators of the right sizes. *)
Theorem steady_calls_return (E : collaborators) (fuel : nat) (a : nomig_args)
    (b : neutral_args) (log : list event) :
  (nomig_args_ok a -> (1 <= rank (a_sfs0 a) <= 5)%nat ->
   shaped_collaborators E (shape (a_sfs0 a)) ->
   nomig_pace E a fuel ->
   exists log' sp,
     integrate_nomig E fuel a log = (log', Ok sp) /\
     shape (sp_data sp) = shape (a_sfs0 a) /\ well_formed (sp_data sp)) /\
  (neutral_args_ok b -> (1 <= rank (b_sfs0 b) <= 5)%nat ->
   shaped_collaborators E (shape (b_sfs0 b)) ->
   neutral_pace E b fuel ->
   exists log' sp,
     integrate_neutral E fuel b log = (log', Ok sp) /\
     shape (sp_data sp) = shape (b_sfs0 b) /\ well_formed (sp_data sp)).
Proof.
  split.
  - intros Hok Hrank HE (N & eps & HN & Hpos & Hfr & Heps & Hlow & Hfac & Hfuel).
    destruct (nomig_params_spec a Hok)
      as (p & u0 & v0 & Hp & _ & Hs & HNs & _ & _ & Hu & Hv & _).
    destruct (nomig_params_constant a N p HN Hp) as (N' & HpN & HN').
    rewrite Hfr in HN'. subst N'.
    pose proof (nomig_params_selection a p Hfr Hp) as Hps.
    assert (Hd : Forall (fun d => (2 <= d)%nat) (shape (a_sfs0 a))).
    { destruct Hok as ([_ Hd _ _ _ _ _] & _). exact Hd. }
    apply steady_run_returns. unfold integrate_nomig.
    apply (safe_lift_bind _ _ _ p _ Hp).
    apply safe_rbind with
      (P := fun x =>
              (nomig_shaped_ctx E (shape (a_sfs0 a)) (fst x) /\
               nomig_shaped (shape (a_sfs0 a)) (snd x) /\
               c_Npop (fst x) = p_Npop p /\ c_Tmax (fst x) = a_tf a * two /\
               c_dt_fac (fst x) = a_dt_fac a /\ n_t (snd x) = 0 /\
               eval_sched (p_Npop p) 0 = Ok (n_N (snd x))) /\
              (c_s (fst x) = normalize_gamma (rank (a_sfs0 a)) (a_gamma a) /\
               c_h (fst x) = normalize_h (rank (a_sfs0 a)) (a_h a) /\
               on_schedule (fst x) (snd x))).
    { apply safe_and.
      - apply safe_nomig_init; try assumption.
        intros _ N0. rewrite HpN. cbn [eval_sched]. intros [= <-]. exact Hpos.
      - intros l l' [c st0] Hi. cbn [fst snd].
        destruct (nomig_init_selection E a p c st0 l l' Hi) as [Hs0 Hh0].
        apply nomig_init_ctx in Hi as (_ & Hcs & Hch & _).
        split; [rewrite Hcs; exact Hps|]. split; [exact Hch|].
        exists 0. rewrite Hcs, Hch. split; assumption. }
    intros [c st0] ((Hc & Hst & HcN & HT & Hdf & Ht0 & HN0) & Hcs & Hch & HJ).
    cbn [fst snd] in *.
    rewrite HpN in HcN, HN0. cbn [eval_sched] in HN0. injection HN0 as HN0.
    apply safe_rbind with (P := nomig_shaped (shape (a_sfs0 a))).
    { apply (nomig_loop_ends E _ fuel c N eps); try assumption.
      - intros st (tau & Hst1 & Hst2). rewrite Hcs in Hst1. rewrite Hch in Hst2.
        exact (Hlow tau _ _ Hst1 Hst2).
      - rewrite Hdf. exact Hfac.
      - symmetry. exact HN0.
      - rewrite Ht0. discriminate.
      - rewrite Ht0, HT, Hdf. unfold enough_fuel in Hfuel.
        set (m := Qcmin _ _) in *. clearbody m. qc_to_q. lra. }
    intros st Hst'. apply spectrum_returned; [exact Hd|exact (nh_shape Hst')|].
    exact (nh_wf Hst').
  - intros Hok Hrank HE (N & eps & HN & Hpos & Hfr & Heps & Hlow & Hfac & Hfuel).
    destruct (neutral_params_spec b Hok)
      as (p & u0 & v0 & Hp & _ & HNs & _ & Hu & Hv & _).
    destruct (neutral_params_constant b N p HN Hp) as (N' & HpN & HN').
    rewrite Hfr in HN'. subst N'.
    assert (Hd : Forall (fun d => (2 <= d)%nat) (shape (b_sfs0 b))).
    { destruct Hok as [_ Hd _ _ _ _ _]. exact Hd. }
    apply steady_run_returns. unfold integrate_neutral.
    apply (safe_lift_bind _ _ _ p _ Hp).
    apply safe_rbind with
      (P := fun x => neutral_shaped_ctx E (shape (b_sfs0 b)) (fst x) /\
                     neutral_shaped E (shape (b_sfs0 b)) (snd x) /\
                     d_Npop (fst x) = p_Npop p /\ d_Tmax (fst x) = b_tf b * two /\
                     d_dt_fac (fst x) = b_dt_fac b /\ m_t (snd x) = 0 /\
                     eval_sched (p_Npop p) 0 = Ok (m_N (snd x))).
    { apply safe_neutral_init; try assumption.
      intros _ N0. rewrite HpN. cbn [eval_sched]. intros [= <-]. exact Hpos. }
    intros [c st0] (Hc & Hst & HcN & HT & Hdf & Ht0 & HN0). cbn [fst snd] in *.
    rewrite HpN in HcN, HN0. cbn [eval_sched] in HN0. injection HN0 as HN0.
    apply safe_rbind with (P := neutral_shaped E (shape (b_sfs0 b))).
    { apply (neutral_loop_ends E _ fuel c N eps); try assumption.
      - rewrite Hdf. exact Hfac.
      - symmetry. exact HN0.
      - rewrite Ht0. discriminate.
      - rewrite Ht0, HT, Hdf. unfold enough_fuel in Hfuel.
        set (m := Qcmin _ _) in *. clearbody m. qc_to_q. lra. }
    intros st Hst'. apply spectrum_returned; [exact Hd|exact (mh_shape Hst')|].
    exact (mh_wf Hst').
Qed.

Lemma sample_nomig_2d_pace : nomig_pace sample_collaborators sample_nomig_2d 10.
Proof.
  exists [1; two], (Q2Qc (1 # 5)). split; [reflexivity|]. split.
  { repeat constructor. }
  split; [reflexivity|]. split; [reflexivity|]. split.
  { intros tau s h _ _. vm_compute. discriminate. }
  split; [reflexivity|]. vm_compute. discriminate.
Qed.

Lemma sample_neutral_2d_pace : neutral_pace sample_collaborators sample_neutral_2d 10.
Proof.
  exists [1; two], (Q2Qc (1 # 5)). split; [reflexivity|]. split.
  { repeat constructor. }
  split; [reflexivity|]. split; [reflexivity|]. split.
  { vm_compute. discriminate. }
  split; [reflexivity|]. vm_compute. discriminate.
Qed.

(** X13 on two populations of three bins each. *)
Lemma steady_calls_return_witness :
  (exists log' sp,
     integrate_nomig sample_collaborators 10 sample_nomig_2d [] = (log', Ok sp) /\
     shape (sp_data sp) = [3; 3]%nat /\ well_formed (sp_data sp)) /\
  (exists log' sp,
     integrate_neutral sample_collaborators 10 sample_neutral_2d [] = (log', Ok sp) /\
     shape (sp_data sp) = [3; 3]%nat /\ well_formed (sp_data sp)).
Proof.
  destruct (steady_calls_return sample_collaborators 10 sample_nomig_2d sample_neutral_2d [])
    as [Ha Hb].
  split.
  - apply Ha; [exact sample_nomig_2d_ok|cbn; lia|apply sample_shaped; cbn; lia|].
    exact sample_nomig_2d_pace.
  - apply Hb; [exact sample_neutral_2d_ok|cbn; lia|apply sample_shaped; cbn; lia|].
    exact sample_neutral_2d_pace.
Defined.

(* ------------------------------------------------------------------ *)
(** ** What the rounding of the clock does *)

Module DoubleClock.
Import PrimFloat.

(** With [Tmax = 0.9], [dt_fac = 1] and the stability bounds 0.3 and 1, the
    second step is clipped to [0.9 - 0.3], and [0.3 + (0.9 - 0.3)] is
    [0.9000000000000001]: the elapsed time exceeds the target. *)
Example clipped_step_overshoots :
  let Tmax := 0x1.ccccccccccccdp-1%float in
  (Tmax <? fst (Double.clock [0x1.3333333333333p-2; 1]%float Tmax 1 0 0))%float = true.
Proof. vm_compute. reflexivity. Qed.

(** With [Tmax = 2], [dt_fac = 0.1] and a stability bound of 1, ten steps of
    0.2 end below 2: the loop makes an eleventh pass, where exact arithmetic
    makes ten. *)
Example ten_steps_fall_short :
  let dt_fac := 0x1.999999999999ap-4%float in
  (fst (Double.clock (repeat 1%float 10) 2 dt_fac 0 0) <? 2)%float = true /\
  snd (Double.clock (repeat 1%float 20) 2 dt_fac 0 0) = 11%nat.
Proof. split; vm_compute; reflexivity. Qed.

End DoubleClock.
